(** * Modular arithmetic engine: sympy/ntheory/residue_ntheory.py

    A shallow embedding of the residue number theory module (multiplicative
    order, primitive roots, modular square and n-th roots, discrete
    logarithms, binomial coefficients modulo an integer) together with the
    properties stated for it.

    Python integers are unbounded, so they are modelled by [Z]; [%] and [//]
    are floor operations whose remainder takes the sign of the divisor, which
    is what [Z.modulo] and [Z.div] compute. *)

Set Warnings "-notation-overridden,-ambiguous-paths,-deprecated".
From mathcomp Require ssreflect ssrfun ssrbool eqtype ssrnat seq choice div prime.
From mathcomp Require fintype bigop finset fingroup ssralg finalg zmodp cyclic.
From Stdlib Require Import ZArith Znumtheory Lia List Bool Permutation.
From Stdlib Require Import Zmod.ZmodInv.
Import ListNotations.
Local Open Scope Z_scope.

(** ** Outcomes of a call *)

(** A call either returns, raises one of the exceptions the module uses, or
    loops: [Hang] is produced when an unbounded search ([while 1]) or a
    bounded recursion runs out of the steps given to it. *)
Inductive exn : Type :=
  ValueError | ZeroDivisionError | StopIteration | RuntimeError | TypeError.

Inductive outcome (A : Type) : Type :=
| Ret (a : A)
| Raise (e : exn)
| Hang.
Arguments Ret {A} a.
Arguments Raise {A} e.
Arguments Hang {A}.

Definition obind {A B : Type} (c : outcome A) (k : A -> outcome B) : outcome B :=
  match c with
  | Ret a => k a
  | Raise e => Raise e
  | Hang => Hang
  end.

Notation "x <- c ;; k" := (obind c (fun x => k))
  (at level 61, c at next level, right associativity).

(** The process-wide random source: the raw draws it is going to deliver, in
    order.  [randint lo hi] maps the next draw into [lo..hi] and advances; a
    computation that asks for more draws than the source holds does not
    finish. *)
Definition RNG : Type := list Z.

Definition Rand (A : Type) : Type := RNG -> outcome (A * RNG).

Definition rret {A : Type} (a : A) : Rand A := fun g => Ret (a, g).

Definition rbind {A B : Type} (c : Rand A) (k : A -> Rand B) : Rand B :=
  fun g => match c g with
           | Ret (a, g') => k a g'
           | Raise e => Raise e
           | Hang => Hang
           end.

Definition lift {A : Type} (c : outcome A) : Rand A :=
  fun g => match c with
           | Ret a => Ret (a, g)
           | Raise e => Raise e
           | Hang => Hang
           end.

Notation "x <~ c ;; k" := (rbind c (fun x => k))
  (at level 61, c at next level, right associativity).

Definition randint (lo hi : Z) : Rand Z :=
  fun g => if hi <? lo then Raise ValueError
           else match g with
                | [] => Hang
                | x :: g' => Ret (lo + x mod (hi - lo + 1), g')
                end.

(** Values a public function hands back: [None], an integer or a list. *)
Inductive pyval : Type :=
| PyNone
| PyInt (z : Z)
| PyList (l : list Z).

(** ** Python built-ins *)

Module Py.

(** [range(start, stop, step)]; a zero step, which Python rejects, gives the
    empty range here (every step in the module is a positive power). *)
Definition range3 (start stop step : Z) : list Z :=
  if step =? 0 then []
  else if 0 <? step then
    map (fun i => start + Z.of_nat i * step)
        (seq 0 (Z.to_nat ((stop - start + step - 1) / step)))
  else
    map (fun i => start + Z.of_nat i * step)
        (seq 0 (Z.to_nat ((start - stop - step - 1) / (- step)))).

Definition range2 (start stop : Z) : list Z := range3 start stop 1.

Definition range (stop : Z) : list Z := range3 0 stop 1.

Fixpoint powmod_pos (b : Z) (e : positive) (n : Z) : Z :=
  match e with
  | xH => b mod n
  | xO e' => let r := powmod_pos b e' n in (r * r) mod n
  | xI e' => let r := powmod_pos b e' n in ((r * r) mod n * b) mod n
  end.

(** [b**e % n] for [0 <= e], by repeated squaring. *)
Definition powmod (b e n : Z) : Z :=
  match e with
  | Zpos e' => powmod_pos b e' n
  | _ => 1 mod n
  end.

(** Three-argument [pow]: a negative exponent goes through the inverse of
    the base and raises when there is none; a zero modulus is rejected. *)
Definition pow3 (b e n : Z) : outcome Z :=
  if n =? 0 then Raise ValueError
  else if 0 <=? e then Ret (powmod b e n)
  else if Z.gcd b n =? 1 then Ret (powmod (Z.invmod b (Z.abs n)) (- e) n)
  else Raise ValueError.

Fixpoint insert_sorted (x : Z) (l : list Z) : list Z :=
  match l with
  | [] => [x]
  | y :: l' => if x <=? y then x :: l else y :: insert_sorted x l'
  end.

(** [sorted(l)] *)
Definition sorted (l : list Z) : list Z := fold_right insert_sorted [] l.

Definition mem (x : Z) (l : list Z) : bool := existsb (Z.eqb x) l.

(** A [set] keeps one copy of each element. *)
Fixpoint dedup (l : list Z) : list Z :=
  match l with
  | [] => []
  | x :: l' => if mem x l' then dedup l' else x :: dedup l'
  end.

(** [k.bit_length()] *)
Definition bit_length (k : Z) : Z :=
  if k =? 0 then 0 else Z.log2 (Z.abs k) + 1.

(** [min(l)] of a non-empty list. *)
Definition list_min (l : list Z) : outcome Z :=
  match l with
  | [] => Raise ValueError
  | x :: l' => Ret (fold_left Z.min l' x)
  end.

(** Dictionaries keep insertion order: association lists with unique keys. *)
Definition dict : Type := list (Z * Z).

Definition keys (d : dict) : list Z := map fst d.

Definition has_key (k : Z) (d : dict) : bool := mem k (keys d).

Fixpoint get (k : Z) (d : dict) : Z :=
  match d with
  | [] => 0
  | (k', v) :: d' => if k =? k' then v else get k d'
  end.

(** [d[k] += v] on a [defaultdict(int)] *)
Fixpoint add_to (k v : Z) (d : dict) : dict :=
  match d with
  | [] => [(k, v)]
  | (k', v') :: d' => if k =? k' then (k', v' + v) :: d' else (k', v') :: add_to k v d'
  end.

End Py.

(** ** Collaborators

    The integer utility layer (factorisation, primality, inverses, symbols,
    CRT) lives outside this module; the specification gives its contracts
    (section 6), and the definitions below realise them. *)

Module Ext.

Fixpoint no_divisor_from (fuel : nat) (d n : Z) : bool :=
  match fuel with
  | O => true
  | S f => if n <? d * d then true
           else if n mod d =? 0 then false
           else no_divisor_from f (d + 1) n
  end.

(** Modelled from the spec: [is_prime(n) -> bool] (of primetest.py), by trial
    division up to the square root. *)
Definition isprime (n : Z) : bool :=
  (1 <? n) && no_divisor_from (Z.to_nat (Z.sqrt n)) 2 n.

Fixpoint mult_loop (fuel : nat) (p n : Z) : Z :=
  match fuel with
  | O => 0
  | S f => if n mod p =? 0 then 1 + mult_loop f p (n / p) else 0
  end.

(** Modelled from the spec: [multiplicity(p, n)] (of factor_.py), the
    greatest [e] with [p**e] dividing [n]; the cases the library rejects
    ([p < 2], [n = 0]) give 0. *)
Definition multiplicity (p n : Z) : Z :=
  if (p <? 2) || (n =? 0) then 0
  else mult_loop (S (Z.to_nat (Z.log2 (Z.abs n)))) p n.

(** Modelled from the spec: [trailing(n)] (of factor_.py), the number of
    trailing zero bits of [n]. *)
Definition trailing (n : Z) : Z := multiplicity 2 n.

Fixpoint factor_loop (fuel : nat) (d n : Z) : Py.dict :=
  match fuel with
  | O => if 1 <? n then [(n, 1)] else []
  | S f =>
      if n <? d * d then (if 1 <? n then [(n, 1)] else [])
      else if n mod d =? 0 then
        let e := multiplicity d n in
        (d, e) :: factor_loop f (d + 1) (n / d ^ e)
      else factor_loop f (d + 1) n
  end.

(** Modelled from the spec: [factor(n) -> map<prime, exponent>] (factorint of
    factor_.py), by trial division, the primes in increasing order;
    [factorint(0)] is [{0: 1}] and a negative number gets the key [-1]. *)
Definition factorint (n : Z) : Py.dict :=
  if n =? 0 then [(0, 1)]
  else if n <? 0 then (-1, 1) :: factor_loop (Z.to_nat (Z.sqrt (- n))) 2 (- n)
  else factor_loop (Z.to_nat (Z.sqrt n)) 2 n.

(** Modelled from the spec: [perfect_power(n)] (of factor_.py): [(b, e)] with
    [n = b**e] and [e > 1] the largest possible, or nothing. *)
Definition perfect_power (n : Z) : option (Z * Z) :=
  if n <? 2 then None
  else
    let f := factorint n in
    let g := fold_right (fun pe acc => Z.gcd (snd pe) acc) 0 f in
    if g <? 2 then None
    else Some (fold_right (fun pe acc => fst pe ^ (snd pe / g) * acc) 1 f, g).

(** Modelled from the spec: [mod_inverse(a,n) -> int], fails when
    [gcd(a,n) <> 1] (invert of gmpy). *)
Definition invert (a m : Z) : outcome Z :=
  if m =? 0 then Raise ZeroDivisionError
  else if Z.gcd a m =? 1 then Ret (Z.invmod a (Z.abs m))
  else Raise ZeroDivisionError.

(** Modelled from the spec: [integer_sqrt(n)]. *)
Definition isqrt (n : Z) : Z := Z.sqrt n.

(** Modelled from the spec: [legendre(a,p) -> {-1,0,1}], the character
    testing quadratic-residue status modulo a prime:
    0 when [p] divides [a], 1 when [a] is a square modulo [p], else -1. *)
Definition legendre (a p : Z) : Z :=
  if a mod p =? 0 then 0
  else if existsb (fun x => (x * x) mod p =? a mod p) (Py.range2 1 p) then 1
  else -1.

(** Modelled from the spec: [jacobi(a,n) -> {-1,0,1}]: the product of the
    Legendre symbols over the prime factors of the odd positive [n]. *)
Definition jacobi (a n : Z) : Z :=
  fold_right (fun pe acc => legendre a (fst pe) ^ snd pe * acc) 1 (factorint n).

(** Modelled from the spec: first phase of [crt] (gf_crt1 of galoistools.py):
    the product [p] of the moduli, the cofactors [p // m] and their inverses
    modulo each [m], taken from the extended Euclidean algorithm. *)
Definition gf_crt1 (M : list Z) : Z * list Z * list Z :=
  let p := fold_left Z.mul M 1 in
  let E := map (fun m => p / m) M in
  let Sv := map (fun m => fst (fst (Z.extgcd (p / m) m)) mod m) M in
  (p, E, Sv).

Fixpoint crt_sum (U M E Sv : list Z) : Z :=
  match U, M, E, Sv with
  | u :: U', m :: M', e :: E', s :: S' => e * ((u * s) mod m) + crt_sum U' M' E' S'
  | _, _, _, _ => 0
  end.

(** Modelled from the spec: second phase of [crt] (gf_crt2 of
    galoistools.py). *)
Definition gf_crt2 (U M : list Z) (p : Z) (E Sv : list Z) : Z :=
  crt_sum U M E Sv mod p.

(** Modelled from the spec: [crt(moduli, residues, check) -> (value,
    combined_modulus)] (of modular.py) for pairwise coprime moduli. *)
Definition crt (M U : list Z) : Z * Z :=
  let '(p, E, Sv) := gf_crt1 M in (gf_crt2 U M p E Sv, p).

(** Modelled from the spec: [totient(n)], the order of the multiplicative
    group modulo [n], from the factorisation of [n]. *)
Definition totient (n : Z) : Z :=
  fold_right (fun pe acc => fst pe ^ (snd pe - 1) * (fst pe - 1) * acc) 1 (factorint n).

End Ext.

Import Py Ext.

(** ** Group order engine *)

(** The factorisation of [totient(n)], collected in a [defaultdict(int)]. *)
Definition order_factors (n : Z) : dict :=
  fold_left
    (fun factors pk =>
       let factors := if 1 <? snd pk then add_to (fst pk) (snd pk - 1) factors
                      else factors in
       fold_left (fun fs qk => add_to (fst qk) (snd qk) fs)
                 (factorint (fst pk - 1)) factors)
    (factorint n) [].

(** [for _ in range(e)]: divide [p] out of [order] while [a] keeps order
    dividing the quotient. *)
Fixpoint strip_prime (e : nat) (a n p order : Z) : Z :=
  match e with
  | O => order
  | S e' => if powmod a (order / p) n =? 1
            then strip_prime e' a n p (order / p)
            else order
  end.

Definition n_order (a n : Z) : outcome Z :=
  if n <=? 1 then Raise ValueError
  else
    let a := a mod n in
    if a =? 1 then Ret 1
    else if negb (Z.gcd a n =? 1) then Raise ValueError
    else
      let factors := order_factors n in
      let order := fold_left (fun o pk => o * fst pk ^ snd pk) factors 1 in
      Ret (fold_left (fun o pe => strip_prime (Z.to_nat (snd pe)) a n (fst pe) o)
                     factors order).

(** ** Primitive root finder *)

(** The value of a [for] variable after the loop: the first element passing
    the test, or the last element when the loop runs to its end. *)
Definition first_or_last (f : Z -> bool) (l : list Z) : Z :=
  match find f l with
  | Some x => x
  | None => last l 0
  end.

(** The generator of the primitive roots of an odd prime, as the list of the
    values it yields. *)
Definition _primitive_root_prime_iter (p : Z) : list Z :=
  if p =? 3 then [2]
  else
    let g :=
      if p <? 41 then
        if p =? 23 then 5
        else if (p =? 7) || (p mod 7 =? 3) then 3
        else 2
      else
        let v := map (fun i => (p - 1) / i) (keys (factorint (p - 1))) in
        first_or_last (fun g => forallb (fun pw => negb (powmod g pw p =? 1)) v)
                      (range2 2 p)
    in
    g :: map (fun k => powmod g k p)
             (filter (fun k => Z.gcd (p - 1) k =? 1) (range3 3 p 2)).

Fixpoint omap {A B : Type} (f : A -> outcome B) (l : list A) : outcome (list B) :=
  match l with
  | [] => Ret []
  | x :: l' => y <- f x ;; ys <- omap f l' ;; Ret (y :: ys)
  end.

Definition _primitive_root_prime_power_iter (p e : Z) : outcome (list Z) :=
  let p2 := p ^ 2 in
  if e =? 1 then Ret (_primitive_root_prime_iter p)
  else
    ls <- omap (fun g =>
                  i <- pow3 g (2 - p) p2 ;;
                  let t := (g - i) mod p2 in
                  Ret (flat_map
                         (fun k => if negb (k =? t)
                                   then map (fun m => g + k + m) (range3 0 (p ^ e) p2)
                                   else [])
                         (range3 0 p2 p)))
               (_primitive_root_prime_iter p) ;;
    Ret (concat ls).

Definition _primitive_root_prime_power2_iter (p e : Z) : outcome (list Z) :=
  l <- _primitive_root_prime_power_iter p e ;;
  Ret (map (fun g => if g mod 2 =? 1 then g else g + p ^ e) l).

(** [next(it)] on a fresh generator *)
Definition next {A : Type} (l : list A) : outcome A :=
  match l with
  | [] => Raise StopIteration
  | x :: _ => Ret x
  end.

(** The end of [is_primitive_root], from [if isprime(q)] on: [q] is the odd
    part of [p] and [a] is reduced modulo [p]. *)
Definition group_test (a p q : Z) : bool :=
  if isprime q then
    let group_order := q - 1 in
    let factors := keys (factorint (q - 1)) in
    forallb (fun prime => negb (powmod a (group_order / prime) p =? 1)) factors
  else
    match perfect_power q with
    | None => false
    | Some (q, e) =>
        if negb (isprime q) then false
        else
          let group_order := q ^ (e - 1) * (q - 1) in
          let factors := dedup (keys (factorint (q - 1)) ++ [q]) in
          forallb (fun prime => negb (powmod a (group_order / prime) p =? 1)) factors
    end.

Definition is_primitive_root (a p : Z) : outcome bool :=
  if p <=? 1 then Raise ValueError
  else
    let a := a mod p in
    if negb (Z.gcd a p =? 1) then Raise ValueError
    else if p <=? 4 then Ret (a =? p - 1)
    else if negb (p mod 2 =? 0) then Ret (group_test a p p)
    else if negb (p mod 4 =? 0) then Ret (group_test a p (p / 2))
    else Ret false.

(** [while i < p: i += 2; ...] of the case [p = 2*p1**k]: the first odd
    [i >= 3] prime to [p1] that is a primitive root, or nothing when the loop
    ends. *)
Fixpoint search_odd (fuel : nat) (i p p1 : Z) : outcome (option Z) :=
  match fuel with
  | O => Hang
  | S f =>
      if i <? p then
        let i := i + 2 in
        if i mod p1 =? 0 then search_odd f i p p1
        else
          b <- is_primitive_root i p ;;
          if b then Ret (Some i) else search_odd f i p p1
      else Ret None
  end.

(** [for i in range(2, g + p1 + 1)] of the case [p = p1**n]. *)
Fixpoint search_range (l : list Z) (p : Z) : outcome (option Z) :=
  match l with
  | [] => Ret None
  | i :: l' =>
      if Z.gcd i p =? 1 then
        b <- is_primitive_root i p ;;
        if b then Ret (Some i) else search_range l' p
      else search_range l' p
  end.

(** The key the loop [for p1, e1 in f.items(): if p1 != 2: break] stops at. *)
Definition odd_key (f : dict) : Z := first_or_last (fun k => negb (k =? 2)) (keys f).

(** [primitive_root(p, smallest)]; the call on the prime base [p1] is the
    only recursive one, so two levels are enough. *)
Fixpoint primitive_root_rec (depth : nat) (p : Z) (smallest : bool) : outcome (option Z) :=
  match depth with
  | O => Hang
  | S depth' =>
      if p <? 2 then Raise ValueError
      else if p <=? 4 then Ret (Some (p - 1))
      else if negb smallest then
        let p_even := p mod 2 =? 0 in
        let half :=
          if negb p_even then Some p
          else if negb (p mod 4 =? 0) then Some (p / 2)
          else None in
        match half with
        | None => Ret None
        | Some q =>
            let base :=
              if isprime q then Some (q, 1)
              else match perfect_power q with
                   | None => None
                   | Some (q', e) => if isprime q' then Some (q', e) else None
                   end in
            match base with
            | None => Ret None
            | Some (q, e) =>
                if p_even then
                  l <- _primitive_root_prime_power2_iter q e ;;
                  g <- next l ;; Ret (Some g)
                else
                  l <- _primitive_root_prime_power_iter q e ;;
                  g <- next l ;; Ret (Some g)
            end
        end
      else
        let f := factorint p in
        let len := Z.of_nat (length f) in
        let last_resort := g <- next (_primitive_root_prime_iter p) ;; Ret (Some g) in
        if 2 <? len then Ret None
        else if len =? 2 then
          if negb (has_key 2 f) || (1 <? get 2 f) then Ret None
          else
            let p1 := odd_key f in
            r <- search_odd (S (Z.to_nat p)) 1 p p1 ;;
            match r with
            | Some i => Ret (Some i)
            | None => last_resort
            end
        else if has_key 2 f then
          if p =? 4 then Ret (Some 3) else Ret None
        else
          match f with
          | [] => Raise ValueError
          | (p1, n) :: _ =>
              if 1 <? n then
                og <- primitive_root_rec depth' p1 true ;;
                match og with
                | None => Raise ValueError
                | Some g =>
                    b <- is_primitive_root g (p1 ^ 2) ;;
                    if b then Ret (Some g)
                    else
                      r <- search_range (range2 2 (g + p1 + 1)) p ;;
                      match r with
                      | Some i => Ret (Some i)
                      | None => last_resort
                      end
                end
              else last_resort
          end
  end.

Definition primitive_root (p : Z) (smallest : bool) : outcome (option Z) :=
  primitive_root_rec 2 p smallest.

(** ** Modular square root engine *)

(** [while 1: d = randint(2, p - 1); if jacobi(d, p) == -1: break].  Every
    round takes one draw, so the rounds are bounded by the draws at hand. *)
Fixpoint nonresidue_loop (rounds : nat) (p : Z) : Rand Z :=
  match rounds with
  | O => fun _ => Hang
  | S r =>
      d <~ randint 2 (p - 1) ;;
      if jacobi d p =? -1 then rret d else nonresidue_loop r p
  end.

Definition find_nonresidue (p : Z) : Rand Z :=
  fun g => nonresidue_loop (S (length g)) p g.

Definition _sqrt_mod_tonelli_shanks (a p : Z) : Rand Z :=
  let s := trailing (p - 1) in
  let t := Z.shiftr p s in
  d <~ find_nonresidue p ;;
  let A := powmod a t p in
  let D := powmod d t p in
  let m :=
    fold_left
      (fun m i =>
         let adm := (A * powmod D m p) mod p in
         let adm := powmod adm (2 ^ (s - 1 - i)) p in
         if adm mod p =? p - 1 then m + 2 ^ i else m)
      (range s) 0 in
  rret ((powmod a ((t + 1) / 2) p * powmod D (m / 2) p) mod p).

(** One Newton step of the Hensel lifting of a root of [x**2 - a]. *)
Definition newton_step (a res px : Z) : outcome Z :=
  frinv <- invert (2 * res) px ;;
  Ret ((res - (res ^ 2 - a) * frinv) mod px).

Fixpoint newton_loop (rounds : nat) (a res px : Z) : outcome (Z * Z) :=
  match rounds with
  | O => Ret (res, px)
  | S r =>
      let px := px ^ 2 in
      res <- newton_step a res px ;;
      newton_loop r a res px
  end.

Definition _sqrt_mod_prime_power (a p k : Z) : Rand (option (list Z)) :=
  let pk := p ^ k in
  let a := a mod pk in
  if p =? 2 then
    if negb (a mod 8 =? 1) then rret None
    else if k <=? 3 then rret (Some (range3 1 pk 2))
    else
      let r :=
        fold_left
          (fun r nx =>
             if Z.shiftr (r ^ 2 - a) nx mod 2 =? 1 then r + Z.shiftl 1 (nx - 1) else r)
          (range2 3 k) 1 in
      let h := Z.shiftl 1 (k - 1) in
      rret (Some (sorted [r; pk - r; (r + h) mod pk; (- (r + h)) mod pk]))
  else if negb (jacobi a p =? 1) then rret None
  else
    res <~ (if p mod 4 =? 3 then rret (powmod a ((p + 1) / 4) p)
            else if p mod 8 =? 5 then
              let res := powmod a ((p + 3) / 8) p in
              if negb (powmod res 2 p =? a mod p)
              then rret ((res * powmod 2 ((p - 1) / 4) p) mod p)
              else rret res
            else _sqrt_mod_tonelli_shanks a p) ;;
    res <~ (if 1 <? k then
              lift (rp <- newton_loop (Z.to_nat (bit_length k - 1)) a res p ;;
                    let res := fst rp in
                    if negb (Z.land k (k - 1) =? 0) then newton_step a res pk
                    else Ret res)
            else rret res) ;;
    rret (Some (sorted [res; pk - res])).

(** What the root functions hand to [sqrt_mod_iter]: [None], a [range], a
    generator or a list; a generator is true whatever it holds. *)
Inductive rootseq : Type :=
| RNone
| RRange (l : list Z)
| RGen (l : list Z)
| RList (l : list Z).

Definition truthy (r : rootseq) : bool :=
  match r with
  | RNone => false
  | RRange l | RList l => negb (Nat.eqb (length l) 0)
  | RGen _ => true
  end.

Definition items (r : rootseq) : list Z :=
  match r with
  | RNone => []
  | RRange l | RGen l | RList l => l
  end.

Definition of_option (o : option (list Z)) : rootseq :=
  match o with
  | None => RNone
  | Some l => RList l
  end.

Definition _sqrt_mod1 (a p n : Z) : Rand rootseq :=
  let pn := p ^ n in
  let a := a mod pn in
  if a =? 0 then rret (RRange (range3 0 pn (p ^ ((n + 1) / 2))))
  else
    let r := multiplicity p a in
    if r mod 2 =? 1 then rret RNone
    else
      res <~ _sqrt_mod_prime_power (a / p ^ r) p (n - r) ;;
      match res with
      | None => rret RNone
      | Some res =>
          let m := r / 2 in
          rret (RGen (flat_map (fun rx => range3 (rx * p ^ m) pn (p ^ (n - m))) res))
      end.

(** [_product]: one wheel per iterable, [cycle(enumerate(it))], with the
    index of the pair it delivers next. *)
Record wheel : Type := { w_items : list Z; w_pos : nat }.

(** [next] on a wheel: the pair [(i, x)] and the wheel moved on; an empty
    iterable has nothing to cycle through. *)
Definition spin (w : wheel) : option (nat * Z * wheel) :=
  match nth_error (w_items w) (w_pos w) with
  | Some x =>
      let pos := if Nat.eqb (S (w_pos w)) (length (w_items w)) then O else S (w_pos w) in
      Some (w_pos w, x, {| w_items := w_items w; w_pos := pos |})
  | None => None
  end.

(** The inner loop [while p and not i], from the last wheel to the first: a
    wheel is spun as long as those after it delivered index 0.  The flag is
    [not p and not i]. *)
Fixpoint turn (ws : list wheel) (cur : list Z) : outcome (bool * list wheel * list Z) :=
  match ws, cur with
  | w :: ws', c :: cur' =>
      r <- turn ws' cur' ;;
      let '(carry, ws2, cur2) := r in
      if (carry : bool) then
        match spin w with
        | Some (i, x, w') => Ret (Nat.eqb i 0, w' :: ws2, x :: cur2)
        | None => Raise RuntimeError
        end
      else Ret (false, w :: ws2, c :: cur2)
  | _, _ => Ret (true, [], [])
  end.

Fixpoint product_loop (fuel : nat) (first_v : bool) (ws : list wheel) (cur : list Z)
  : outcome (list (list Z)) :=
  match fuel with
  | O => Hang
  | S f =>
      r <- turn ws cur ;;
      let '(carry, ws', cur') := r in
      if (carry : bool) then
        if first_v then rest <- product_loop f false ws' cur' ;; Ret (cur' :: rest)
        else Ret []
      else rest <- product_loop f first_v ws' cur' ;; Ret (cur' :: rest)
  end.

(** The tuples the generator [_product] yields for the given iterables, in order. *)
Definition _product (iters : list (list Z)) : outcome (list (list Z)) :=
  product_loop (S (S (fold_right (fun it n => (length it * n)%nat) 1%nat iters))) true
               (map (fun it => {| w_items := it; w_pos := O |}) iters)
               (map (fun _ => 0) iters).

(** The loop of [sqrt_mod_iter] over [f.items()]: the root lists [v] and the
    prime powers [pv], or nothing when some prime power has no root. *)
Fixpoint collect_roots (a : Z) (f : dict) : Rand (option (list (list Z) * list Z)) :=
  match f with
  | [] => rret (Some ([], []))
  | (px, ex) :: f' =>
      rx <~ (if a mod px =? 0 then _sqrt_mod1 a px ex
             else r <~ _sqrt_mod_prime_power a px ex ;; rret (of_option r)) ;;
      if negb (truthy rx) then rret None
      else
        rest <~ collect_roots a f' ;;
        match rest with
        | None => rret None
        | Some (v, pv) => rret (Some (items rx :: v, px ^ ex :: pv))
        end
  end.

(** The values [sqrt_mod_iter(a, p)] yields, in order. *)
Definition sqrt_mod_iter (a p : Z) : Rand (list Z) :=
  let p := Z.abs p in
  if isprime p then
    let a := a mod p in
    res <~ (if a =? 0 then _sqrt_mod1 a p 1
            else r <~ _sqrt_mod_prime_power a p 1 ;; rret (of_option r)) ;;
    if truthy res then rret (items res) else rret []
  else
    let f := factorint p in
    o <~ collect_roots a f ;;
    match o with
    | None => rret []
    | Some (v, pv) =>
        let '(mm, e, s) := gf_crt1 pv in
        vs <~ lift (_product v) ;;
        rret (map (fun vx => gf_crt2 vx pv mm e s) vs)
    end.

Definition sqrt_mod (a p : Z) (all_roots : bool) : Rand pyval :=
  if all_roots then l <~ sqrt_mod_iter a p ;; rret (PyList (sorted l))
  else
    let p := Z.abs p in
    it <~ sqrt_mod_iter a p ;;
    match it with
    | [] => rret PyNone
    | r :: it' =>
        if p / 2 <? r then rret (PyInt (p - r))
        else if r <? p / 2 then rret (PyInt r)
        else match it' with
             | [] => rret (PyInt r)
             | r2 :: _ => if p / 2 <? r2 then rret (PyInt (p - r2)) else rret (PyInt r2)
             end
    end.

(** ** Discrete logarithm engine *)

(** [for i in range(order): if x == a: return i ...; raise ValueError] *)
Fixpoint trial_loop (rounds : nat) (i x a b n : Z) : outcome Z :=
  match rounds with
  | O => Raise ValueError
  | S r => if x =? a then Ret i else trial_loop r (i + 1) ((x * b) mod n) a b n
  end.

Definition _discrete_log_trial_mul (n a b : Z) (order : option Z) : outcome Z :=
  if n =? 0 then Raise ZeroDivisionError
  else
    let a := a mod n in
    let b := b mod n in
    let order := match order with None => n | Some o => o end in
    trial_loop (Z.to_nat order) 0 1 a b n.

(** The table [T] of baby steps; a later entry for a key hides the earlier. *)
Fixpoint baby_steps (rounds : nat) (i x b n : Z) (T : dict) : dict * Z :=
  match rounds with
  | O => (T, x)
  | S r => baby_steps r (i + 1) ((x * b) mod n) b n ((x, i) :: T)
  end.

Fixpoint giant_steps (rounds : nat) (i x z m n : Z) (T : dict) : outcome Z :=
  match rounds with
  | O => Raise ValueError
  | S r => if has_key x T then Ret (i * m + get x T)
           else giant_steps r (i + 1) ((x * z) mod n) z m n T
  end.

Definition _discrete_log_shanks_steps (n a b : Z) (order : option Z) : outcome Z :=
  if n =? 0 then Raise ZeroDivisionError
  else
    let a := a mod n in
    let b := b mod n in
    order <- match order with None => n_order b n | Some o => Ret o end ;;
    let m := isqrt order + 1 in
    let T := fst (baby_steps (Z.to_nat m) 0 1 b n []) in
    z <- pow3 b (- m) n ;;
    giant_steps (Z.to_nat m) 0 a z m n T.

(** One move of Pollard's walk on the triple [(x, a, b)]. *)
Definition rho_step (n a b order : Z) (t : Z * Z * Z) : Z * Z * Z :=
  let '(x, ea, eb) := t in
  let c := x mod 3 in
  if c =? 0 then ((a * x) mod n, ea, (eb + 1) mod order)
  else if c =? 1 then ((x * x) mod n, (ea + ea) mod order, (eb + eb) mod order)
  else ((b * x) mod n, (ea + 1) mod order, eb).

(** [for j in range(order)]: the tortoise moves once, the hare twice, until
    they meet; the result is the logarithm, or nothing when this walk
    fails. *)
Fixpoint rho_walk (rounds : nat) (n a b order : Z) (ta tb : Z * Z * Z) : option Z :=
  match rounds with
  | O => None
  | S r =>
      let ta := rho_step n a b order ta in
      let tb := rho_step n a b order (rho_step n a b order tb) in
      let '(xa, aa, ba) := ta in
      let '(xb, ab, bb) := tb in
      if xa =? xb then
        let r := (ba - bb) mod order in
        match invert r order with
        | Ret i =>
            let e := (i * (ab - aa)) mod order in
            if (powmod b e n - a) mod n =? 0 then Some e else None
        | _ => None
        end
      else rho_walk r n a b order ta tb
  end.

Fixpoint rho_retries (retries : nat) (n a b order : Z) : Rand Z :=
  match retries with
  | O => lift (Raise ValueError)
  | S r =>
      aa <~ randint 1 (order - 1) ;;
      ba <~ randint 1 (order - 1) ;;
      let xa := (powmod b aa n * powmod a ba n) mod n in
      let tb := rho_step n a b order (xa, aa, ba) in
      match rho_walk (Z.to_nat order) n a b order (xa, aa, ba) tb with
      | Some e => rret e
      | None => rho_retries r n a b order
      end
  end.

Definition _discrete_log_pollard_rho (n a b : Z) (order : option Z) (retries : nat)
  : Rand Z :=
  if n =? 0 then lift (Raise ZeroDivisionError)
  else
    let a := a mod n in
    let b := b mod n in
    order <~ lift (match order with None => n_order b n | Some o => Ret o end) ;;
    rho_retries retries n a b order.

(** The body of [discrete_log] without the Pohlig-Hellman branch, which is
    supplied as [ph]. *)
Definition discrete_log_with (ph : Z -> Z -> Z -> Z -> Rand Z)
  (n a b : Z) (order : option Z) (prime_order : option bool) : Rand Z :=
  order <~ lift (match order with None => n_order b n | Some o => Ret o end) ;;
  let prime_order := match prime_order with None => isprime order | Some t => t end in
  if order <? 1000 then lift (_discrete_log_trial_mul n a b (Some order))
  else if prime_order then
    if order <? 1000000000000 then lift (_discrete_log_shanks_steps n a b (Some order))
    else _discrete_log_pollard_rho n a b (Some order) 10
  else ph n a b order.

(** The loop [for j in range(ri)] of Pohlig-Hellman for one prime power
    [pi**ri] of the order: the digits of the logarithm in base [pi]. *)
Fixpoint ph_digits (dl : Z -> Z -> Z -> Z -> Rand Z) (js : list Z)
  (n a b order pi li : Z) : Rand Z :=
  match js with
  | [] => rret li
  | j :: js' =>
      bl <~ lift (pow3 b (- li) n) ;;
      let aj := powmod (a * bl) (order / pi ^ (j + 1)) n in
      let bj := powmod b (order / pi) n in
      cj <~ dl n aj bj pi ;;
      ph_digits dl js' n a b order pi (li + cj * pi ^ j)
  end.

Fixpoint rmap {A B : Type} (f : A -> Rand B) (l : list A) : Rand (list B) :=
  match l with
  | [] => rret []
  | x :: l' => y <~ f x ;; ys <~ rmap f l' ;; rret (y :: ys)
  end.

Definition _discrete_log_pohlig_hellman_with (dl : Z -> Z -> Z -> Z -> Rand Z)
  (n a b : Z) (order : option Z) : Rand Z :=
  if n =? 0 then lift (Raise ZeroDivisionError)
  else
    let a := a mod n in
    let b := b mod n in
    order <~ lift (match order with None => n_order b n | Some o => Ret o end) ;;
    let f := factorint order in
    l <~ rmap (fun pr => ph_digits dl (range (snd pr)) n a b order (fst pr) 0) f ;;
    rret (fst (crt (map (fun pr => fst pr ^ snd pr) f) l)).

(** [discrete_log] calls Pohlig-Hellman, which calls [discrete_log] back with
    a prime order; that call never reaches Pohlig-Hellman again. *)
Fixpoint discrete_log_rec (depth : nat) (n a b : Z) (order : option Z)
  (prime_order : option bool) : Rand Z :=
  match depth with
  | O => fun _ => Hang
  | S d =>
      discrete_log_with
        (fun n a b order =>
           _discrete_log_pohlig_hellman_with
             (fun n aj bj pi => discrete_log_rec d n aj bj (Some pi) (Some true))
             n a b (Some order))
        n a b order prime_order
  end.

Definition discrete_log (n a b : Z) (order : option Z) (prime_order : option bool)
  : Rand Z :=
  discrete_log_rec 2 n a b order prime_order.

Definition _discrete_log_pohlig_hellman (n a b : Z) (order : option Z) : Rand Z :=
  _discrete_log_pohlig_hellman_with
    (fun n aj bj pi => discrete_log n aj bj (Some pi) (Some true)) n a b order.

(** ** Higher-root solver *)

Definition is_quad_residue (a p : Z) : Rand bool :=
  if p <? 1 then lift (Raise ValueError)
  else
    let a := if (p <=? a) || (a <? 0) then a mod p else a in
    if (a <? 2) || (p <? 3) then rret true
    else if negb (isprime p) then
      if negb (p mod 2 =? 0) && (jacobi a p =? -1) then rret false
      else
        r <~ sqrt_mod a p false ;;
        match r with
        | PyNone => rret false
        | _ => rret true
        end
    else rret (powmod a ((p - 1) / 2) p =? 1).

(** [while a % p == 0] of the prime power test. *)
Fixpoint strip_multiples (rounds : nat) (a n p k : Z) : outcome (bool + Z * Z) :=
  match rounds with
  | O => Hang
  | S r =>
      if a mod p =? 0 then
        let a := a mod p ^ k in
        if a =? 0 then Ret (inl true)
        else
          let mu := multiplicity p a in
          if negb (mu mod n =? 0) then Ret (inl false)
          else strip_multiples r (a / p ^ mu) n p (k - mu)
      else Ret (inr (a, k))
  end.

Definition _is_nthpow_residue_bign_prime_power (a n p k : Z) : outcome bool :=
  r <- strip_multiples (S (S (Z.to_nat k))) a n p k ;;
  match r with
  | inl t => Ret t
  | inr (a, k) =>
      if negb (p =? 2) then
        let f := p ^ (k - 1) * (p - 1) in
        Ret (powmod a (f / Z.gcd f n) (p ^ k) =? 1)
      else if Z.land n 1 =? 1 then Ret true
      else
        let c := trailing n in
        Ret (a mod 2 ^ Z.min (c + 2) k =? 1)
  end.

Fixpoint oforallb {A : Type} (f : A -> outcome bool) (l : list A) : outcome bool :=
  match l with
  | [] => Ret true
  | x :: l' => t <- f x ;; if t then oforallb f l' else Ret false
  end.

Definition is_nthpow_residue (a n m : Z) : Rand bool :=
  if m =? 0 then lift (Raise ZeroDivisionError)
  else
    let a := a mod m in
    if m <=? 0 then lift (Raise ValueError)
    else if n <? 0 then lift (Raise ValueError)
    else if n =? 0 then
      if m =? 1 then rret false else rret (a =? 1)
    else if a =? 0 then rret true
    else if n =? 1 then rret true
    else if n =? 2 then is_quad_residue a m
    else lift (oforallb (fun pe => _is_nthpow_residue_bign_prime_power a n (fst pe) (snd pe))
                        (factorint m)).

(** [while f % qx == 0: f //= qx] *)
Fixpoint strip_factor (rounds : nat) (f qx : Z) : outcome Z :=
  match rounds with
  | O => Hang
  | S r => if f mod qx =? 0 then strip_factor r (f / qx) qx else Ret f
  end.

(** The inner loop [for _ in range(ex)] of the q-th root algorithm. *)
Fixpoint root_rounds (ex : nat) (r t x z g qx p : Z) : Z :=
  match ex with
  | O => r
  | S e => root_rounds e ((powmod r x p * powmod g ((- z * t) mod (p - 1)) p) mod p)
                       (t / qx) x z g qx p
  end.

Fixpoint root_factors (f : dict) (r g p : Z) : Rand Z :=
  match f with
  | [] => rret r
  | (qx, ex) :: f' =>
      fq <~ lift (strip_factor (S (Z.to_nat p)) ((p - 1) / qx ^ ex) qx) ;;
      i <~ lift (invert (- fq) qx) ;;
      let z := fq * i in
      let x := (1 + z) / qx in
      t <~ discrete_log p (powmod r fq p) (powmod g (fq * qx) p) None None ;;
      root_factors f' (root_rounds (Z.to_nat ex) r t x z g qx p) g p
  end.

(** [res.append(hx)] for the remaining [q - 1] roots. *)
Fixpoint other_roots (rounds : nat) (hx h p : Z) : list Z :=
  match rounds with
  | O => []
  | S r => let hx := (hx * h) mod p in hx :: other_roots r hx h p
  end.

Definition _nthroot_mod1 (s q p : Z) (all_roots : bool) : Rand pyval :=
  og <~ lift (primitive_root p true) ;;
  match og with
  | None => lift (Raise ValueError)
  | Some g =>
      r <~ root_factors (factorint q) s g p ;;
      let h := powmod g ((p - 1) / q) p in
      let res := r :: other_roots (Z.to_nat (q - 1)) r h p in
      if all_roots then rret (PyList (sorted res))
      else m <~ lift (list_min res) ;; rret (PyInt m)
  end.

(** [itertools.product] *)
Fixpoint cart (its : list (list Z)) : list (list Z) :=
  match its with
  | [] => [[]]
  | it :: its' => flat_map (fun x => map (cons x) (cart its')) it
  end.

(** Iterating over a result that has to be a list. *)
Definition as_list (v : pyval) : outcome (list Z) :=
  match v with
  | PyList l => Ret l
  | _ => Raise TypeError
  end.

(** [for j in range(1, e)]: Newton lifting of a simple root. *)
Fixpoint lift_simple (rounds : nat) (expr_val : Z -> Z -> Z) (root ppow p m_inv : Z) : Z :=
  match rounds with
  | O => root
  | S r =>
      let ppow := ppow * p in
      lift_simple r expr_val ((root - expr_val root ppow * m_inv) mod ppow) ppow p m_inv
  end.

(** [while k not in new_roots]: the residues congruent to [k] modulo the
    previous base. *)
Fixpoint spread (rounds : nat) (k step base : Z) (new_roots : list Z) : list Z :=
  match rounds with
  | O => new_roots
  | S r => if mem k new_roots then new_roots
           else spread r ((k + step) mod base) step base (new_roots ++ [k])
  end.

(** [while new_base < pow(p, e)]: lifting of the roots where the derivative
    vanishes, one power of [p] at a time. *)
Fixpoint lift_multiple (rounds : nat) (expr_val : Z -> Z -> Z)
  (new_base p pe : Z) (roots_in_base : list Z) : outcome (list Z) :=
  match rounds with
  | O => Hang
  | S r =>
      if new_base <? pe then
        let new_base := new_base * p in
        let new_roots :=
          fold_left
            (fun nr k => if negb (expr_val k new_base =? 0) then nr
                         else spread (S (Z.to_nat p)) k (new_base / p) new_base nr)
            roots_in_base [] in
        lift_multiple r expr_val new_base p pe new_roots
      else Ret roots_in_base
  end.

Fixpoint help_roots (roots : list Z) (diff_method expr_val : Z -> Z -> Z)
  (p e : Z) (tot_roots : list Z) : outcome (list Z) :=
  match roots with
  | [] => Ret tot_roots
  | root :: roots' =>
      let diff := diff_method root p in
      tot <- (if negb (diff =? 0) then
                m_inv <- invert diff p ;;
                let root := lift_simple (Z.to_nat (e - 1)) expr_val root p p m_inv in
                Ret (dedup (tot_roots ++ [root]))
              else
                rb <- lift_multiple (S (Z.to_nat e)) expr_val p p (p ^ e) [root] ;;
                Ret (dedup (tot_roots ++ rb))) ;;
      help_roots roots' diff_method expr_val p e tot
  end.

Fixpoint help_factors (f : dict) (prime_modulo_method : Z -> Rand pyval)
  (diff_method expr_val : Z -> Z -> Z) : Rand (option (list (Z * list Z))) :=
  match f with
  | [] => rret (Some [])
  | (p, e) :: f' =>
      v <~ prime_modulo_method p ;;
      roots <~ lift (as_list v) ;;
      tot_roots <~ (if e =? 1 then rret (dedup roots)
                    else lift (help_roots roots diff_method expr_val p e [])) ;;
      match tot_roots with
      | [] => rret None
      | _ =>
          rest <~ help_factors f' prime_modulo_method diff_method expr_val ;;
          match rest with
          | None => rret None
          | Some dd => rret (Some ((p ^ e, tot_roots) :: dd))
          end
      end
  end.

Definition _help (m : Z) (prime_modulo_method : Z -> Rand pyval)
  (diff_method expr_val : Z -> Z -> Z) : Rand (list Z) :=
  dd <~ help_factors (factorint m) prime_modulo_method diff_method expr_val ;;
  match dd with
  | None => rret []
  | Some dd =>
      let ms := map fst dd in
      let a := map snd dd in
      rret (sorted (dedup (map (fun i => fst (crt ms i)) (cart a))))
  end.

(** [while pb:] the two-exponent reduction; it hands back [(a, pa)]. *)
Fixpoint contract (rounds : nat) (a pa b pb p : Z) : outcome (Z * Z) :=
  match rounds with
  | O => Hang
  | S r =>
      if pb =? 0 then Ret (a, pa)
      else
        let q := pa / pb in
        let r' := pa mod pb in
        i <- pow3 b (- q) p ;;
        let c := (i * a) mod p in
        contract r b pb c r' p
  end.

(** [nthroot_mod]; the composite case calls it back on the prime divisors of
    the modulus only. *)
Fixpoint nthroot_mod_rec (depth : nat) (a n p : Z) (all_roots : bool) : Rand pyval :=
  match depth with
  | O => fun _ => Hang
  | S d =>
      if p =? 0 then lift (Raise ZeroDivisionError)
      else
        let a := a mod p in
        if n =? 2 then sqrt_mod a p all_roots
        else if negb (isprime p) then
          l <~ _help p
                 (fun p => nthroot_mod_rec d a n p true)
                 (fun root p => (powmod root (n - 1) p * (n mod p)) mod p)
                 (fun root p => (powmod root n p - a) mod p) ;;
          rret (PyList l)
        else if a mod p =? 0 then rret (PyList [0])
        else
          t <~ is_nthpow_residue a n p ;;
          if negb t then rret (if all_roots then PyList [] else PyNone)
          else if n =? 0 then lift (Raise ZeroDivisionError)
          else if (p - 1) mod n =? 0 then _nthroot_mod1 a n p all_roots
          else
            let '(a, pa, b, pb) :=
              if n <? p - 1 then (1, p - 1, a, n) else (a, n, 1, p - 1) in
            r <~ lift (contract (S (Z.to_nat (Z.abs pa + Z.abs pb))) a pa b pb p) ;;
            let '(a, pa) := r in
            if pa =? 1 then rret (if all_roots then PyList [a] else PyInt a)
            else if pa =? 2 then sqrt_mod a p all_roots
            else _nthroot_mod1 a pa p all_roots
  end.

Definition nthroot_mod (a n p : Z) (all_roots : bool) : Rand pyval :=
  nthroot_mod_rec 2 a n p all_roots.

Definition _nthroot_mod_composite (a n m : Z) : Rand (list Z) :=
  _help m
    (fun p => nthroot_mod a n p true)
    (fun root p => (powmod root (n - 1) p * (n mod p)) mod p)
    (fun root p => (powmod root n p - a) mod p).

(** ** Binomial coefficients modulo an integer *)

(** [for x in l: acc *= x; acc %= modulo] *)
Definition mul_all (l : list Z) (acc modulo : Z) : Z :=
  fold_left (fun acc x => (acc * x) mod modulo) l acc.

(** The exponent of [(j*p)!_p] in the calculation of [(u*p)!_p]. *)
Definition bj (u j r : Z) : Z :=
  let prod := fold_left (fun prod i => if negb (i =? j) then prod * (u * u - i * i) else prod)
                        (range2 1 (r + 1)) u in
  let prod := fold_left (fun prod i => if negb (i =? j) then prod / (j * j - i * i) else prod)
                        (range2 1 (r + 1)) prod in
  prod / j.

(** [for j in range(1, r + 1)] of [up_factorial]; [fac] runs on from one
    round to the next. *)
Fixpoint up_factorial_loop (js : list Z) (u r p modulo fac prod : Z) : outcome Z :=
  match js with
  | [] => Ret prod
  | j :: js' =>
      let fac := mul_all (range2 ((j - 1) * p + 1) (j * p)) fac modulo in
      let bj_ := bj u j r in
      w <- pow3 fac bj_ modulo ;;
      up_factorial_loop js' u r p modulo fac ((prod * w) mod modulo)
  end.

(** [(u*p)!_p] modulo [p**q]. *)
Definition up_factorial (p q u : Z) : outcome Z :=
  let r := q / 2 in
  let '(r, modulo, div) :=
    if ((r =? 1) && (p =? 2)) || (2 * r + 1 =? p) || (2 * r + 1 =? p * p) then
      let r := if q mod 2 =? 1 then r + 1 else r in
      (r, p ^ (2 * r), p ^ (2 * r - q))
    else (r, p ^ (2 * r + 1), p ^ (2 * r + 1 - q)) in
  prod <- up_factorial_loop (range2 1 (r + 1)) u r p modulo 1 1 ;;
  let prod :=
    if p =? 2 then
      let sm := fold_left (fun sm j => sm + j / 2 * bj u j r) (range2 1 (r + 1)) (u / 2) in
      if sm mod 2 =? 1 then prod * -1 else prod
    else prod in
  let prod := prod mod (modulo / div) in
  Ret (prod mod modulo).

Fixpoint up_plus_v_loop (js : list Z) (p q u v div modulo prod : Z) : outcome Z :=
  match js with
  | [] => Ret prod
  | j :: js' =>
      let b := mul_all (range2 (j * p + 1) (j * p + v + 1)) div modulo in
      let aj := fold_left (fun aj i => if negb (i =? j) then aj * (u - i) else aj)
                          (range2 1 q) u in
      let aj := fold_left (fun aj i => if negb (i =? j) then aj / (j - i) else aj)
                          (range2 1 q) aj in
      let aj := aj / j in
      w <- pow3 b aj modulo ;;
      up_plus_v_loop js' p q u v div modulo ((prod * w) mod modulo)
  end.

(** [binomial(u*p + v, v)_p] modulo [p**q]. *)
Definition up_plus_v_binom (p q u v : Z) : outcome Z :=
  let modulo := p ^ q in
  let div := mul_all (range2 1 (v + 1)) 1 modulo in
  div <- invert div modulo ;;
  up_plus_v_loop (range2 1 q) p q u v div modulo 1.

(** [v!] modulo [p**q], as the memo table holds it. *)
Definition factorial (p q v : Z) : Z :=
  fold_left (fun acc i => (acc * i) mod p ^ q) (range2 1 (v + 1)) 1.

(** [n!_p] modulo [p**q]. *)
Definition factorial_p (p q n : Z) : outcome Z :=
  let u := n / p in
  let v := n mod p in
  x <- up_factorial p q u ;;
  y <- up_plus_v_binom p q u v ;;
  Ret ((factorial p q v * x * y) mod p ^ q).

(** [while Nj:] over the digits in base [p]. *)
Fixpoint digits_loop (rounds : nat) (p q Nj Mj Rj e0 carry eq_1 j prod : Z)
  : outcome (Z * Z * Z) :=
  match rounds with
  | O => Hang
  | S r =>
      if Nj =? 0 then Ret (e0, eq_1, prod)
      else
        let modulo := p ^ q in
        numerator <- factorial_p p q (Nj mod modulo) ;;
        d1 <- factorial_p p q (Mj mod modulo) ;;
        d2 <- factorial_p p q (Rj mod modulo) ;;
        let denominator := (d1 * d2) mod modulo in
        let mj := Mj mod p in
        let rj := Rj mod p in
        let carry := (mj + rj + carry) / p in
        let e0 := e0 + carry in
        let eq_1 := if q - 1 <=? j then eq_1 + carry else eq_1 in
        i <- invert denominator modulo ;;
        let prod := (prod * (numerator * i)) mod modulo in
        digits_loop r p q (Nj / p) (Mj / p) (Rj / p) e0 carry eq_1 (j + 1) prod
  end.

Definition _binomial_mod_prime_power (n m p q : Z) : outcome Z :=
  let modulo := p ^ q in
  r <- digits_loop (S (S (Z.to_nat (Z.log2 n)))) p q n m (n - m) 0 0 0 0 1 ;;
  let '(e0, eq_1, prod) := r in
  mul <- pow3 (if (p =? 2) && (3 <=? q) then 1 else -1) eq_1 modulo ;;
  w <- pow3 p e0 modulo ;;
  Ret ((w * mul * prod) mod modulo).

Definition binomial_mod (n m k : Z) : outcome Z :=
  if k <? 1 then Raise ValueError
  else if (n <? 0) || (m <? 0) || (n <? m) then Ret 0
  else
    let factorisation := factorint k in
    residues <- omap (fun pe => _binomial_mod_prime_power n m (fst pe) (snd pe))
                     factorisation ;;
    Ret (fst (crt (map (fun pe => fst pe ^ snd pe) factorisation) residues)).

(** The binomial coefficient, by Pascal's rule. *)
Fixpoint binomial (n m : nat) : Z :=
  match n, m with
  | _, O => 1
  | O, S _ => 0
  | S n', S m' => binomial n' m' + binomial n' m
  end.

(** ** Quadratic residues and congruences *)

(** [sorted({pow(i, 2, p) for i in range(p // 2 + 1)})]; [pow] rejects a zero
    modulus. *)
Definition quadratic_residues (p : Z) : outcome (list Z) :=
  l <- omap (fun i => pow3 i 2 p) (range (p / 2 + 1)) ;;
  Ret (sorted (dedup l)).

(** [quadratic_congruence(a, b, c, p)]; the collaborator
    [linear_congruence] of the polynomial package is the parameter [lc]. *)
Definition quadratic_congruence (lc : Z -> Z -> Z -> outcome (list Z)) (a b c p : Z)
  : Rand (list Z) :=
  if p =? 0 then lift (Raise ZeroDivisionError)
  else
    let a := a mod p in
    let b := b mod p in
    let c := c mod p in
    if a =? 0 then lift (lc b (- c) p)
    else if p =? 2 then
      rret ((if c mod 2 =? 0 then [0] else [])
              ++ (if (a + b + c) mod 2 =? 0 then [1] else []))
    else if isprime p then
      inv_a <~ lift (invert a p) ;;
      let b := b * inv_a in
      let c := c * inv_a in
      let b := if b mod 2 =? 1 then b + p else b in
      let d := ((b * b) / 4 - c) mod p in
      y <~ sqrt_mod d p true ;;
      y <~ lift (as_list y) ;;
      rret (sorted (dedup (map (fun i => (i - b / 2) mod p) y)))
    else
      y <~ sqrt_mod (b * b - 4 * a * c) (4 * a * p) true ;;
      y <~ lift (as_list y) ;;
      roots <~ lift (omap (fun i => lc (2 * a) (i - b) (4 * a * p)) y) ;;
      rret (sorted (dedup (map (fun j => j mod p) (concat roots)))).

(** ** Vocabulary of the statements *)

(** The number a factorisation stands for. *)
Definition dict_prod (f : dict) : Z :=
  fold_right (fun pe acc => fst pe ^ snd pe * acc) 1 f.

(** [k] is the multiplicative order of [a] modulo [n]. *)
Definition is_order (a n k : Z) : Prop :=
  0 < k /\ a ^ k mod n = 1 /\ forall j, 0 < j < k -> a ^ j mod n <> 1.

(** Strictly increasing keys. *)
Fixpoint increasing (lo : Z) (l : list Z) : Prop :=
  match l with
  | [] => True
  | x :: l' => lo < x /\ increasing x l'
  end.

(** What one round of the outer loop of [n_order] adds to the table. *)
Definition order_step (factors : dict) (pk : Z * Z) : dict :=
  let factors := if 1 <? snd pk then add_to (fst pk) (snd pk - 1) factors else factors in
  fold_left (fun fs qk => add_to (fst qk) (snd qk) fs) (factorint (fst pk - 1)) factors.

(** The totient of the number a factorisation stands for. *)
Definition tot_of (f : dict) : Z :=
  fold_right (fun pe acc => fst pe ^ (snd pe - 1) * (fst pe - 1) * acc) 1 f.

(** Prime keys without repetition, positive exponents. *)
Definition prime_dict (f : dict) : Prop :=
  Forall (fun pe => Z.prime (fst pe) /\ 1 <= snd pe) f /\ NoDup (keys f).

(** A prime factorisation: prime keys in increasing order, positive
    exponents. *)
Definition factorisation (f : dict) : Prop :=
  Forall (fun pe => Z.prime (fst pe) /\ 1 <= snd pe) f /\ increasing 1 (keys f).

(** [g] is the least positive generator of the multiplicative group modulo
    [n]: its order is the order [totient n] of the group, and no smaller
    positive integer has that order. *)
Definition smallest_generator (g n : Z) : Prop :=
  0 < g /\ is_order g n (totient n) /\
  forall j, 0 < j < g -> ~ is_order j n (totient n).

(** The moduli [2], [4], [p**k] and [2*p**k] with [p] an odd prime. *)
Definition cyclic_modulus (n : Z) : Prop :=
  n = 2 \/ n = 4 \/
  exists p k, Z.prime p /\ p <> 2 /\ 1 <= k /\ (n = p ^ k \/ n = 2 * p ^ k).

(** The tuples an odometer of wheels still delivers before all its wheels
    are back at their first element: those for the value [c] the first wheel
    shows, then a full round of the later wheels for each element the first
    wheel has left. *)
Fixpoint pending (ws : list wheel) (cur : list Z) : list (list Z) :=
  match ws, cur with
  | w :: ws', c :: cur' =>
      map (cons c) (pending ws' cur')
      ++ (if Nat.eqb (w_pos w) 0 then []
          else flat_map (fun x => map (cons x) (cart (map w_items ws')))
                        (skipn (w_pos w) (w_items w)))
  | _, _ => []
  end.

(** * Properties *)

(** ** Generators modulo a prime

    The multiplicative group of a finite field is cyclic; MathComp proves it
    for ['F_p], and the module below carries the statement over to [Z]. *)

Module NatBridge.
Import ssreflect ssrfun ssrbool eqtype ssrnat seq choice div prime.
Import fintype bigop finset fingroup ssralg finalg zmodp cyclic.
Import GRing.Theory.
Local Open Scope group_scope.
Delimit Scope Z_scope with ZZ.

Lemma nat_prime_generator (p : nat) : prime p ->
  exists g : nat, [/\ (0 < g < p)%N,
     (forall k, (g ^ k = 1 %[mod p])%N -> (p.-1 %| k)%N) &
     (forall a, ~~ (p %| a)%N -> exists j, (g ^ j = a %[mod p])%N)].
Proof.
move=> p_pr. have p_gt1 := prime_gt1 p_pr. have p_gt0 := prime_gt0 p_pr.
have /cyclicP [x Hx] := units_Zp_cyclic p_pr.
have ox : #[x] = p.-1.
  by rewrite /order -Hx card_units_Zp // totient_prime.
pose u : 'Z_p := val x.
pose g : nat := u.
have gE : (g%:R : 'Z_p)%R = u by rewrite /g natr_Zp.
have powE k : (val (val (x ^+ k)) : nat) = (g ^ k %% p)%N.
  rewrite FinRing.val_unitX -/u -gE -natrX. exact: val_Zp_nat.
exists g; split.
- apply/andP; split.
    rewrite lt0n; apply/eqP => g0.
    by have := valP x; rewrite -/u -gE g0 unitr0.
  by rewrite /g -[X in (_ < X)%N](Zp_cast p_gt1) ltn_ord.
- move=> k Hk. rewrite -ox order_dvdn. apply/eqP; apply: val_inj; apply: val_inj => /=.
  rewrite powE Hk modn_small //.
- move=> a pa.
  have ua : ((a%:R : 'Z_p)%R \is a GRing.unit) by rewrite unitZpE // prime_coprime.
  pose y : {unit 'Z_p} := FinRing.unit _ ua.
  have : y \in <[x]> by rewrite -Hx inE.
  case/cycleP => j yj; exists j.
  rewrite -powE -yj /= val_Zp_nat //.
Qed.

Lemma Z_of_expn (g k : nat) : Z.of_nat (g ^ k)%N = Z.pow (Z.of_nat g) (Z.of_nat k).
Proof.
elim: k => [|k IH]; first by rewrite expn0.
rewrite expnS Nat2Z.inj_mul IH Nat2Z.inj_succ Z.pow_succ_r //.
exact: Zle_0_nat.
Qed.

Lemma Z_of_modn (m d : nat) : (0 < d)%N ->
  Z.of_nat (m %% d)%N = Z.modulo (Z.of_nat m) (Z.of_nat d).
Proof.
move=> d0. apply: (Z.mod_unique _ _ (Z.of_nat (m %/ d)%N)).
  left; split; first exact: Nat2Z.is_nonneg.
  by apply/Nat2Z.inj_lt/ltP; rewrite ltn_pmod.
by rewrite -Nat2Z.inj_mul -Nat2Z.inj_add multE plusE mulnC -divn_eq.
Qed.

Lemma Z_prime_nat (p : nat) : Z.prime (Z.of_nat p) -> prime p.
Proof.
move=> [p1 Hp]; apply/primeP; split; first by apply/ltP; lia.
move=> d /dvdnP [k Hk].
have Hz : Z.of_nat p = (Z.of_nat k * Z.of_nat d)%ZZ by rewrite Hk -multE Nat2Z.inj_mul.
have Hnot := Hp (Z.of_nat d).
have [d1 | dp] : (d = 1%N \/ d = p).
  have Hdiv : (Z.of_nat d | Z.of_nat p)%ZZ by exists (Z.of_nat k).
  have : ~ (1 < Z.of_nat d < Z.of_nat p)%ZZ by move=> H; exact: (Hnot H Hdiv).
  have : (Z.of_nat d <= Z.of_nat p)%ZZ by apply: Z.divide_pos_le => //; lia.
  have : (Z.of_nat d <> 0)%ZZ by move=> d0; rewrite d0 Z.mul_0_r in Hz; lia.
  lia.
- by rewrite d1 eqxx.
- by rewrite dp eqxx orbT.
Qed.

Lemma prime_generator (p : Z) : Z.prime p ->
  exists g : Z, (0 < g < p)%ZZ /\
    (forall k, (0 <= k)%ZZ -> (g ^ k mod p = 1)%ZZ -> (p - 1 | k)%ZZ) /\
    (forall a, (a mod p)%ZZ <> 0%ZZ -> exists j, (0 <= j)%ZZ /\ (g ^ j mod p = a mod p)%ZZ).
Proof.
move=> Hp. have p2 := Z.prime_ge_2 p Hp.
have pE : Z.of_nat (Z.to_nat p) = p by rewrite Z2Nat.id //; lia.
have n_pr : prime (Z.to_nat p) by apply: Z_prime_nat; rewrite pE.
have n_gt0 := prime_gt0 n_pr. have n_gt1 := prime_gt1 n_pr.
have [g' [/andP [/ltP g0 /ltP gp] Hord Hgen]] := nat_prime_generator (Z.to_nat p) n_pr.
have powZ k : Z.of_nat (g' ^ k %% Z.to_nat p)%N = (Z.of_nat g' ^ Z.of_nat k mod p)%ZZ.
  by rewrite Z_of_modn // Z_of_expn pE.
exists (Z.of_nat g'); split; [lia | split].
- move=> k k0 Hk.
  have /dvdnP [c Hc] : (Z.to_nat p).-1 %| Z.to_nat k.
    apply: Hord; apply: Nat2Z.inj; rewrite powZ Z2Nat.id // Hk.
    by rewrite modn_small.
  exists (Z.of_nat c).
  have -> : (p - 1)%ZZ = Z.of_nat (Z.to_nat p).-1 by rewrite -subn1 -minusE; lia.
  by rewrite -Nat2Z.inj_mul multE -Hc Z2Nat.id.
- move=> a Ha.
  have Hr := Z.mod_pos_bound a p ltac:(lia).
  have /Hgen [j Hj] : ~~ (Z.to_nat p %| Z.to_nat (a mod p))%N.
    apply/negP => Hd.
    have /leP : (Z.to_nat p <= Z.to_nat (a mod p))%N by apply: dvdn_leq => //; apply/ltP; lia.
    lia.
  exists (Z.of_nat j); split; first exact: Zle_0_nat.
  have a0 : (0 <= a mod p)%ZZ by lia.
  by rewrite -powZ Hj Z_of_modn // pE (Z2Nat.id _ a0) Zmod_mod.
Qed.

End NatBridge.

(** ** Facts about the built-ins *)

Lemma powmod_pos_spec (b : Z) (e : positive) (n : Z) :
  powmod_pos b e n = b ^ Zpos e mod n.
Proof.
  induction e as [e IH | e IH |]; cbn [powmod_pos].
  - rewrite IH, Pos2Z.inj_xI.
    replace (2 * Z.pos e + 1) with (Z.pos e + Z.pos e + 1) by lia.
    rewrite !Z.pow_add_r, Z.pow_1_r by lia.
    rewrite <- Zmult_mod. rewrite Zmult_mod_idemp_l. reflexivity.
  - rewrite IH, Pos2Z.inj_xO.
    replace (2 * Z.pos e) with (Z.pos e + Z.pos e) by lia.
    rewrite Z.pow_add_r by lia. rewrite <- Zmult_mod. reflexivity.
  - now rewrite Z.pow_1_r.
Qed.

Lemma powmod_spec (b e n : Z) : 0 <= e -> powmod b e n = b ^ e mod n.
Proof.
  intros He. destruct e as [| e | e]; cbn [powmod]; try lia.
  - reflexivity.
  - apply powmod_pos_spec.
Qed.

Lemma no_divisor_from_sound (fuel : nat) (d n : Z) :
  2 <= d ->
  (forall x, 2 <= x < d -> ~ (x | n)) ->
  n < (d + Z.of_nat fuel) * (d + Z.of_nat fuel) ->
  no_divisor_from fuel d n = true ->
  exists D, 2 <= D /\ n < D * D /\ forall x, 2 <= x < D -> ~ (x | n).
Proof.
  revert d. induction fuel as [| f IH]; intros d Hd Hlow Hbig H.
  - exists d. repeat split; try assumption. rewrite Z.add_0_r in Hbig. exact Hbig.
  - cbn [no_divisor_from] in H.
    destruct (Z.ltb_spec n (d * d)).
    + exists d. auto.
    + destruct (Z.eqb_spec (n mod d) 0) as [E | E]; [discriminate |].
      apply (IH (d + 1)); try lia; trivial.
      intros x Hx. destruct (Z.eq_dec x d) as [-> | Hne].
      * intros Hdiv. apply E. apply Z.mod_divide; [lia | exact Hdiv].
      * apply Hlow. lia.
Qed.

Lemma no_small_divisor_prime (n D : Z) :
  1 < n -> 2 <= D -> n < D * D ->
  (forall x, 2 <= x < D -> ~ (x | n)) -> Z.prime n.
Proof.
  intros Hn HD Hlt Hno. split; [exact Hn |].
  intros x Hx [y Hy].
  assert (Hy1 : 1 < y < n) by nia.
  destruct (Z_lt_ge_dec x D) as [Hs | Hs].
  - apply (Hno x); [lia |]. exists y. exact Hy.
  - apply (Hno y); [nia |]. exists x. lia.
Qed.

Lemma no_divisor_from_complete (fuel : nat) (d n : Z) :
  2 <= d -> Z.prime n -> no_divisor_from fuel d n = true.
Proof.
  revert d. induction fuel as [| f IH]; intros d Hd Hp; cbn [no_divisor_from]; trivial.
  destruct (Z.ltb_spec n (d * d)); trivial.
  destruct (Z.eqb_spec (n mod d) 0) as [E | E].
  - exfalso. destruct Hp as [_ Hp].
    assert (2 * d <= d * d) by nia.
    apply (Hp d); [lia |].
    apply Z.mod_divide; [lia | exact E].
  - apply IH; [lia | exact Hp].
Qed.

Lemma sqrt_fuel_enough (n : Z) :
  0 <= n -> n < (2 + Z.of_nat (Z.to_nat (Z.sqrt n))) * (2 + Z.of_nat (Z.to_nat (Z.sqrt n))).
Proof.
  intros Hn. pose proof (Z.sqrt_spec n Hn) as Hs.
  pose proof (Z.sqrt_nonneg n). rewrite Z2Nat.id by lia.
  cbv zeta in Hs. unfold Z.succ in Hs. nia.
Qed.

Lemma isprime_spec (n : Z) : isprime n = true <-> Z.prime n.
Proof.
  unfold isprime. rewrite andb_true_iff, Z.ltb_lt. split.
  - intros [Hn H].
    destruct (no_divisor_from_sound _ 2 n ltac:(lia) ltac:(intros; lia)
                                    (sqrt_fuel_enough n ltac:(lia)) H)
      as (D & HD & Hlt & Hno).
    now apply (no_small_divisor_prime n D).
  - intros Hp. split; [apply Hp |].
    apply no_divisor_from_complete; [lia | exact Hp].
Qed.

(** ** The zero residue of [nthroot_mod] *)

(** C9: for every [n > 2], prime [p] and [a] divisible by [p],
    [nthroot_mod(a, n, p, all_roots)] is the one-element list [[0]] in both
    modes: single-root mode gets the list too, not the bare integer. *)
Theorem nthroot_mod_zero_residue (a n p : Z) (all_roots : bool) (g : RNG) :
  2 < n -> Z.prime p -> a mod p = 0 ->
  nthroot_mod a n p all_roots g = Ret (PyList [0], g).
Proof.
  intros Hn Hp Ha.
  pose proof (Z.prime_ge_2 p Hp) as Hp2.
  unfold nthroot_mod, nthroot_mod_rec.
  replace (p =? 0) with false by (symmetry; apply Z.eqb_neq; lia).
  replace (n =? 2) with false by (symmetry; apply Z.eqb_neq; lia).
  rewrite (proj2 (isprime_spec p) Hp). cbn [negb].
  rewrite Zmod_mod, Ha. reflexivity.
Qed.

Lemma nthroot_mod_zero_residue_witness :
  (2 < 5 /\ Z.prime 7 /\ 14 mod 7 = 0) /\
  nthroot_mod 14 5 7 false [] = Ret (PyList [0], []).
Proof.
  assert (H7 : Z.prime 7) by (apply isprime_spec; reflexivity).
  split; [split; [lia | split; [exact H7 | reflexivity]] |].
  apply (nthroot_mod_zero_residue 14 5 7 false []); [lia | exact H7 | reflexivity].
Defined.

(** ** Sign of the modulus of [sqrt_mod] *)

Lemma sqrt_mod_iter_abs (a p : Z) : sqrt_mod_iter a (Z.abs p) = sqrt_mod_iter a p.
Proof. unfold sqrt_mod_iter. now rewrite Z.abs_involutive. Qed.

Lemma sqrt_mod_iter_opp (a p : Z) : sqrt_mod_iter a (- p) = sqrt_mod_iter a p.
Proof. unfold sqrt_mod_iter. now rewrite Z.abs_opp. Qed.

(** ** The documented example of [nthroot_mod] *)

(** C4: [nthroot_mod(11, 4, 19) == 8], [nthroot_mod(11, 4, 19, True) ==
    [8, 11]], and each root [r] of that list has [r**4 = 11 (mod 19)]. *)
Theorem nthroot_mod_11_4_19 (g : RNG) :
  nthroot_mod 11 4 19 false g = Ret (PyInt 8, g) /\
  nthroot_mod 11 4 19 true g = Ret (PyList [8; 11], g) /\
  Forall (fun r => r ^ 4 mod 19 = 11) [8; 11].
Proof.
  split; [reflexivity | split; [reflexivity |]].
  repeat constructor.
Qed.

(** ** Factorisation *)

Lemma mult_loop_spec (fuel : nat) (p n : Z) :
  2 <= p -> 0 < n -> n < 2 ^ Z.of_nat fuel ->
  let e := mult_loop fuel p n in
  0 <= e /\ n = p ^ e * (n / p ^ e) /\ (n / p ^ e) mod p <> 0.
Proof.
  intros Hp. revert n. induction fuel as [| f IH]; intros n Hn Hlt.
  - cbn in Hlt. lia.
  - cbn [mult_loop]. destruct (Z.eqb_spec (n mod p) 0) as [E | E].
    + assert (Hnp : n = p * (n / p)).
      { rewrite (Z_div_mod_eq_full n p) at 1. lia. }
      assert (Hq : 0 < n / p) by nia.
      assert (Hq2 : n / p < 2 ^ Z.of_nat f).
      { rewrite Nat2Z.inj_succ, Z.pow_succ_r in Hlt by lia. nia. }
      specialize (IH (n / p) Hq Hq2). cbv zeta in IH.
      destruct IH as (He & Heq & Hnd).
      set (e := mult_loop f p (n / p)) in *.
      assert (Hpow : p ^ (1 + e) = p * p ^ e).
      { rewrite Z.pow_add_r by lia. now rewrite Z.pow_1_r. }
      assert (Hdiv : n / p ^ (1 + e) = n / p / p ^ e).
      { assert (0 < p ^ e) by (apply Z.pow_pos_nonneg; lia).
        rewrite Hpow. rewrite Z.div_div; lia. }
      cbv zeta. rewrite Hdiv, Hpow. repeat split; lia.
    + cbv zeta. rewrite Z.pow_0_r, Z.div_1_r. repeat split; try lia.
Qed.

Lemma multiplicity_spec (p n : Z) :
  2 <= p -> 0 < n ->
  let e := multiplicity p n in
  0 <= e /\ n = p ^ e * (n / p ^ e) /\ (n / p ^ e) mod p <> 0.
Proof.
  intros Hp Hn. unfold multiplicity.
  replace (p <? 2) with false by (symmetry; apply Z.ltb_ge; lia).
  replace (n =? 0) with false by (symmetry; apply Z.eqb_neq; lia).
  cbn [orb]. apply mult_loop_spec; try lia.
  rewrite Nat2Z.inj_succ, Z2Nat.id by apply Z.log2_nonneg.
  rewrite Z.abs_eq by lia. apply Z.log2_spec. lia.
Qed.

Lemma multiplicity_pos (p n : Z) :
  2 <= p -> 0 < n -> n mod p = 0 -> 1 <= multiplicity p n.
Proof.
  intros Hp Hn Hd. pose proof (multiplicity_spec p n Hp Hn) as H. cbv zeta in H.
  destruct H as (He & Heq & Hnd).
  destruct (Z.eq_dec (multiplicity p n) 0) as [E | E]; [| lia].
  rewrite E, Z.pow_0_r, Z.div_1_r in Hnd. contradiction.
Qed.

(** Divisors of the cofactor left after taking out [d]. *)
Lemma cofactor_divisors (d n e x : Z) :
  0 < n -> 2 <= d -> 0 <= e -> n = d ^ e * (n / d ^ e) -> (n / d ^ e) mod d <> 0 ->
  (forall y, 2 <= y < d -> ~ (y | n)) ->
  2 <= x < d + 1 -> ~ (x | n / d ^ e).
Proof.
  intros Hn Hd He Heq Hnd Hlow Hx Hdiv.
  destruct (Z.eq_dec x d) as [-> | Hne].
  - apply Hnd. apply Z.mod_divide; [lia | exact Hdiv].
  - apply (Hlow x); [lia |]. rewrite Heq. now apply Z.divide_mul_r.
Qed.

Lemma least_divisor_prime (d n : Z) :
  2 <= d -> (d | n) -> (forall y, 2 <= y < d -> ~ (y | n)) -> Z.prime d.
Proof.
  intros Hd Hdn Hlow. split; [lia |].
  intros x Hx Hxd. apply (Hlow x); [lia |]. now apply (Z.divide_trans x d n).
Qed.

Lemma factor_loop_spec (fuel : nat) (d n : Z) :
  2 <= d -> 1 <= n ->
  (forall x, 2 <= x < d -> ~ (x | n)) ->
  n < (d + Z.of_nat fuel) * (d + Z.of_nat fuel) ->
  let f := factor_loop fuel d n in
  dict_prod f = n /\
  Forall (fun pe => Z.prime (fst pe) /\ 1 <= snd pe) f /\
  increasing (d - 1) (keys f).
Proof.
  revert d n. induction fuel as [| fuel IH]; intros d n Hd Hn Hlow Hbig.
  - cbn [factor_loop]. rewrite Z.add_0_r in Hbig.
    destruct (Z.ltb_spec 1 n) as [H1 | H1]; cbn.
    + repeat split; try lia.
      * constructor; [| constructor]. cbn. split; [| lia].
        apply (no_small_divisor_prime n d); auto.
      * destruct (Z_lt_ge_dec n d) as [Hs | Hs]; [| lia].
        exfalso. apply (Hlow n); [lia | apply Z.divide_refl].
    + repeat split; try lia. constructor.
  - cbn [factor_loop].
    destruct (Z.ltb_spec n (d * d)) as [Hsq | Hsq].
    + destruct (Z.ltb_spec 1 n) as [H1 | H1]; cbn.
      * repeat split; try lia.
        -- constructor; [| constructor]. cbn. split; [| lia].
           apply (no_small_divisor_prime n d); auto.
        -- destruct (Z_lt_ge_dec n d) as [Hs | Hs]; [| lia].
           exfalso. apply (Hlow n); [lia | apply Z.divide_refl].
      * repeat split; try lia. constructor.
    + destruct (Z.eqb_spec (n mod d) 0) as [E | E].
      * pose proof (multiplicity_spec d n ltac:(lia) ltac:(lia)) as Hm.
        pose proof (multiplicity_pos d n ltac:(lia) ltac:(lia) E) as Hm1.
        cbv zeta in Hm. destruct Hm as (He & Heq & Hnd).
        set (e := multiplicity d n) in *.
        assert (Hpe : 0 < d ^ e) by (apply Z.pow_pos_nonneg; lia).
        assert (Hq : 1 <= n / d ^ e) by nia.
        assert (Hle : n / d ^ e <= n) by nia.
        specialize (IH (d + 1) (n / d ^ e) ltac:(lia) Hq).
        cbv zeta in IH. destruct IH as (Hprod & Hall & Hinc).
        { intros x Hx. apply (cofactor_divisors d n e x); auto; lia. }
        { rewrite Nat2Z.inj_succ in Hbig. nia. }
        cbv zeta. cbn [dict_prod fold_right keys map increasing fst snd].
        fold (dict_prod (factor_loop fuel (d + 1) (n / d ^ e))).
        fold (keys (factor_loop fuel (d + 1) (n / d ^ e))).
        rewrite Hprod. repeat split; try lia.
        -- constructor; [| exact Hall]. cbn. split; [| lia].
           apply (least_divisor_prime d n); auto.
           apply Z.mod_divide; [lia | exact E].
        -- replace (d + 1 - 1) with d in Hinc by lia. exact Hinc.
      * specialize (IH (d + 1) n ltac:(lia) Hn).
        cbv zeta in IH. destruct IH as (Hprod & Hall & Hinc).
        { intros x Hx Hdiv. destruct (Z.eq_dec x d) as [-> | Hne].
          - apply E. apply Z.mod_divide; [lia | exact Hdiv].
          - apply (Hlow x); [lia | exact Hdiv]. }
        { rewrite Nat2Z.inj_succ in Hbig. lia. }
        cbv zeta. repeat split; auto.
        clear - Hinc. destruct (keys (factor_loop fuel (d + 1) n)); cbn in *; [trivial | split; [lia | tauto]].
Qed.

Lemma factorint_spec (n : Z) :
  1 <= n -> dict_prod (factorint n) = n /\ factorisation (factorint n).
Proof.
  intros Hn. unfold factorint.
  replace (n =? 0) with false by (symmetry; apply Z.eqb_neq; lia).
  replace (n <? 0) with false by (symmetry; apply Z.ltb_ge; lia).
  pose proof (factor_loop_spec (Z.to_nat (Z.sqrt n)) 2 n ltac:(lia) Hn
                ltac:(intros; lia) (sqrt_fuel_enough n ltac:(lia))) as H.
  cbv zeta in H. destruct H as (Hp & Ha & Hi).
  split; [exact Hp | split; [exact Ha | exact Hi]].
Qed.

(** ** Multiplicative order *)

Lemma one_mod_of_pow (a n k : Z) : a ^ k mod n = 1 -> 1 mod n = 1.
Proof. intros H. rewrite <- H at 1. rewrite Zmod_mod. exact H. Qed.

Lemma pow_mod_one_mul (a n k j : Z) :
  0 <= k -> 0 <= j -> a ^ k mod n = 1 -> a ^ (k * j) mod n = 1.
Proof.
  intros Hk Hj H. rewrite Z.pow_mul_r by lia.
  rewrite <- Z.mod_pow_l, H, Z.pow_1_l by lia.
  exact (one_mod_of_pow a n k H).
Qed.

Lemma pow_mod_one_divide (a n k m : Z) :
  0 <= k -> 0 <= m -> (k | m) -> a ^ k mod n = 1 -> a ^ m mod n = 1.
Proof.
  intros Hk Hm [q Hq] H. subst m.
  destruct (Z.eq_dec k 0) as [-> | Hk0].
  - now rewrite Z.mul_0_r.
  - rewrite Z.mul_comm. apply pow_mod_one_mul; trivial. nia.
Qed.

Lemma order_divides (a n k m : Z) :
  is_order a n k -> 0 <= m -> a ^ m mod n = 1 -> (k | m).
Proof.
  intros (Hk & H1 & Hmin) Hm Hm1.
  pose proof (Z_div_mod_eq_full m k) as Hdm.
  pose proof (Z.mod_pos_bound m k Hk) as Hr.
  assert (Hq : 0 <= m / k) by (apply Z.div_pos; lia).
  assert (Hpow : a ^ (m mod k) mod n = 1).
  { rewrite Hdm in Hm1. rewrite Z.pow_add_r in Hm1 by nia.
    rewrite Zmult_mod in Hm1.
    rewrite (pow_mod_one_mul a n k (m / k)) in Hm1 by lia.
    rewrite Z.mul_1_l, Zmod_mod in Hm1. exact Hm1. }
  destruct (Z.eq_dec (m mod k) 0) as [E | E].
  - apply Z.mod_divide; [lia | exact E].
  - exfalso. apply (Hmin (m mod k)); [lia | exact Hpow].
Qed.

Lemma least_exponent (a n : Z) (b : nat) :
  (exists j, 0 < j <= Z.of_nat b /\ a ^ j mod n = 1) -> exists k, is_order a n k.
Proof.
  induction b as [| b IH]; intros (j & Hj & H1).
  - lia.
  - destruct (Z.eq_dec j (Z.of_nat (S b))) as [E | E].
    + (* either a smaller exponent works, or [j] is the least *)
      assert (Hdec : (exists i, 0 < i <= Z.of_nat b /\ a ^ i mod n = 1) \/
                     (forall i, 0 < i <= Z.of_nat b -> a ^ i mod n <> 1)).
      { clear. induction b as [| b IHb].
        - right. intros i Hi. lia.
        - destruct IHb as [(i & Hi & H) | Hno].
          + left. exists i. split; [lia | exact H].
          + destruct (Z.eq_dec (a ^ Z.of_nat (S b) mod n) 1) as [E | E].
            * left. exists (Z.of_nat (S b)). split; [lia | exact E].
            * right. intros i Hi.
              destruct (Z.eq_dec i (Z.of_nat (S b))) as [-> | Hne]; [exact E |].
              apply Hno. lia. }
      destruct Hdec as [Hsmall | Hno].
      * apply IH. exact Hsmall.
      * exists j. split; [lia | split; [exact H1 |]].
        intros i Hi. apply Hno. lia.
    + apply IH. exists j. split; [lia | exact H1].
Qed.

Lemma order_exists (a n m : Z) : 0 < m -> a ^ m mod n = 1 -> exists k, is_order a n k.
Proof.
  intros Hm H. apply (least_exponent a n (Z.to_nat m)).
  exists m. split; [lia | exact H].
Qed.

Lemma order_unique (a n k1 k2 : Z) : is_order a n k1 -> is_order a n k2 -> k1 = k2.
Proof.
  intros (H1 & E1 & M1) (H2 & E2 & M2).
  destruct (Z.lt_trichotomy k1 k2) as [L | [E | L]]; [| exact E |].
  - exfalso. apply (M2 k1); [lia | exact E1].
  - exfalso. apply (M1 k2); [lia | exact E2].
Qed.

Lemma dict_prod_pos (f : dict) :
  Forall (fun pe => Z.prime (fst pe) /\ 1 <= snd pe) f -> 1 <= dict_prod f.
Proof.
  induction 1 as [| [p e] f [Hp He] _ IH]; cbn; [lia |].
  pose proof (Z.prime_ge_2 p Hp). cbn in He.
  assert (0 < p ^ e) by (apply Z.pow_pos_nonneg; lia).
  fold (dict_prod f). nia.
Qed.

Lemma prime_factor_exists (n : Z) : 1 < n -> exists q, Z.prime q /\ (q | n).
Proof.
  intros Hn. destruct (factorint_spec n ltac:(lia)) as (Hprod & Hall & _).
  destruct (factorint n) as [| [p e] f].
  - cbn in Hprod. lia.
  - apply Forall_inv in Hall. destruct Hall as [Hp He]. cbn in Hp, He.
    exists p. split; [exact Hp |]. rewrite <- Hprod. cbn.
    apply Z.divide_mul_l. apply Z.divide_pow_same_r. exact He.
Qed.

Lemma order_by_prime_quotients (a n m : Z) :
  0 < m -> a ^ m mod n = 1 ->
  (forall q, Z.prime q -> (q | m) -> a ^ (m / q) mod n <> 1) ->
  is_order a n m.
Proof.
  intros Hm H1 Hq.
  destruct (order_exists a n m Hm H1) as (k & Hk).
  pose proof (order_divides a n k m Hk ltac:(lia) H1) as [c Hc].
  destruct Hk as (Hk0 & Hk1 & Hkmin).
  assert (Hc0 : 0 < c) by nia.
  destruct (Z.eq_dec c 1) as [-> | Hc1].
  - replace m with k by lia. repeat split; auto.
  - exfalso. destruct (prime_factor_exists c ltac:(lia)) as (q & Hqp & [d Hd]).
    pose proof (Z.prime_ge_2 q Hqp).
    apply (Hq q Hqp).
    + exists (d * k). subst. ring.
    + assert (E : m / q = k * d).
      { subst m c. replace (d * q * k) with (k * d * q) by ring.
        apply Z.div_mul. lia. }
      rewrite E. apply pow_mod_one_mul; [lia | nia | exact Hk1].
Qed.

(** ** Euler's theorem from the factorisation *)

Lemma pow_linear_part (x : Z) (m : nat) :
  exists c, x ^ Z.of_nat m = 1 + Z.of_nat m * (x - 1) + (x - 1) * (x - 1) * c.
Proof.
  induction m as [| m (c & IH)].
  - exists 0. change (Z.of_nat 0) with 0. rewrite Z.pow_0_r. ring.
  - exists (Z.of_nat m + c + (x - 1) * c).
    rewrite Nat2Z.inj_succ, Z.pow_succ_r, IH by lia. ring.
Qed.

Lemma pow_lift (p x j : Z) :
  0 < p -> 1 <= j -> (p ^ j | x - 1) -> (p ^ (j + 1) | x ^ p - 1).
Proof.
  intros Hp Hj [t Ht].
  destruct (pow_linear_part x (Z.to_nat p)) as (c & Hc).
  rewrite Z2Nat.id in Hc by lia.
  exists (t + p ^ (j - 1) * t * t * c).
  rewrite Hc, Ht.
  replace (p ^ (j + 1)) with (p * p ^ j) by (rewrite Z.pow_add_r, Z.pow_1_r by lia; ring).
  replace (p ^ j) with (p * p ^ (j - 1)) at 3.
  2:{ rewrite <- (Z.pow_1_r p) at 1. rewrite <- Z.pow_add_r by lia. f_equal. lia. }
  ring.
Qed.

Lemma mod_one_divide (x n : Z) : 1 < n -> (x mod n = 1 <-> (n | x - 1)).
Proof.
  intros Hn. split.
  - intros H. apply Z.mod_divide; [lia |].
    rewrite Zminus_mod, H, Z.mod_1_l by lia. now rewrite Z.sub_diag, Z.mod_0_l by lia.
  - intros [c Hc]. replace x with (1 + c * n) by lia.
    rewrite Z_mod_plus_full. apply Z.mod_1_l. lia.
Qed.

Lemma euler_prime_power (p a : Z) (e : nat) :
  Z.prime p -> a mod p <> 0 ->
  (p ^ Z.of_nat (S e) | a ^ ((p - 1) * p ^ Z.of_nat e) - 1).
Proof.
  intros Hp Ha. pose proof (Z.prime_ge_2 p Hp).
  induction e as [| e IH].
  - cbn [Z.of_nat]. rewrite Z.pow_0_r, Z.mul_1_r.
    change (Z.pos (Pos.of_succ_nat 0)) with 1. rewrite Z.pow_1_r.
    apply mod_one_divide; [lia |]. now apply Z.fermat_nz.
  - replace (Z.of_nat (S (S e))) with (Z.of_nat (S e) + 1) by lia.
    replace ((p - 1) * p ^ Z.of_nat (S e)) with ((p - 1) * p ^ Z.of_nat e * p).
    2:{ rewrite Nat2Z.inj_succ, Z.pow_succ_r by lia. ring. }
    rewrite Z.pow_mul_r; try lia.
    + apply pow_lift; try lia. exact IH.
    + assert (0 < p ^ Z.of_nat e) by (apply Z.pow_pos_nonneg; lia). nia.
Qed.

(** ** Products of prime powers *)

Lemma increasing_lower (lo : Z) (l : list Z) :
  increasing lo l -> forall x, In x l -> lo < x.
Proof.
  revert lo. induction l as [| y l IH]; intros lo H x Hx; [destruct Hx |].
  destruct H as [Hlo Hinc]. destruct Hx as [-> | Hx]; [exact Hlo |].
  specialize (IH y Hinc x Hx). lia.
Qed.

Lemma increasing_NoDup (lo : Z) (l : list Z) : increasing lo l -> NoDup l.
Proof.
  revert lo. induction l as [| y l IH]; intros lo H; constructor.
  - destruct H as [_ Hinc]. intros Hin.
    pose proof (increasing_lower y l Hinc y Hin). lia.
  - destruct H as [_ Hinc]. exact (IH y Hinc).
Qed.

Lemma factorisation_prime_dict (f : dict) : factorisation f -> prime_dict f.
Proof. intros [Ha Hi]. split; [exact Ha | exact (increasing_NoDup 1 _ Hi)]. Qed.

Lemma dict_prod_nil : dict_prod [] = 1.
Proof. reflexivity. Qed.

Lemma dict_prod_cons (p e : Z) (f : dict) : dict_prod ((p, e) :: f) = p ^ e * dict_prod f.
Proof. reflexivity. Qed.

Lemma dict_prod_app (f1 f2 : dict) : dict_prod (f1 ++ f2) = dict_prod f1 * dict_prod f2.
Proof.
  induction f1 as [| [p e] f1 IH].
  - cbn [app]. change (dict_prod []) with 1. ring.
  - cbn [app]. change (dict_prod ((p, e) :: f1 ++ f2)) with (p ^ e * dict_prod (f1 ++ f2)).
    change (dict_prod ((p, e) :: f1)) with (p ^ e * dict_prod f1). rewrite IH. ring.
Qed.

Lemma prime_divides_dict_prod (p : Z) (f : dict) :
  Z.prime p -> Forall (fun pe => Z.prime (fst pe) /\ 1 <= snd pe) f ->
  (p | dict_prod f) -> In p (keys f).
Proof.
  intros Hp. induction 1 as [| [q e] f [Hq He] _ IH]; cbn; intros Hd.
  - apply Z.divide_1_r in Hd. pose proof (Z.prime_ge_2 p Hp). lia.
  - cbn in Hq, He. fold (dict_prod f) in Hd.
    apply Z.divide_prime_mul in Hd; [| exact Hp].
    destruct Hd as [Hd | Hd].
    + left. symmetry. apply (Z.divide_prime_pp p q e); auto. lia.
    + right. exact (IH Hd).
Qed.

Lemma coprime_product_divides (a b y : Z) :
  Z.gcd a b = 1 -> (a | y) -> (b | y) -> (a * b | y).
Proof.
  intros Hg [c Hc] Hb. subst y.
  assert (Hbc : (b | c)).
  { apply (Z.gauss b a c); [now rewrite Z.mul_comm | now rewrite Z.gcd_comm]. }
  destruct Hbc as [d Hd]. exists d. subst c. ring.
Qed.

Lemma dict_prod_divides (f : dict) (y : Z) :
  prime_dict f ->
  (forall pe, In pe f -> (fst pe ^ snd pe | y)) ->
  (dict_prod f | y).
Proof.
  intros [Hall Hnd]. induction f as [| [p e] f IH]; intros Hdiv; cbn.
  - apply Z.divide_1_l.
  - fold (dict_prod f).
    apply Forall_cons_iff in Hall. destruct Hall as [[Hp He] Hall]. cbn in Hp, He.
    cbn in Hnd. apply NoDup_cons_iff in Hnd. destruct Hnd as [Hnotin Hnd].
    apply coprime_product_divides.
    + apply Z.coprime_pow_l; [lia |]. apply Z.coprime_prime_l; [exact Hp |].
      intros Hd. apply Hnotin. now apply prime_divides_dict_prod.
    + apply (Hdiv (p, e)). now left.
    + apply IH; auto. intros pe Hin. apply Hdiv. now right.
Qed.

Lemma fold_left_prod (f : dict) (acc : Z) :
  fold_left (fun o pk => o * fst pk ^ snd pk) f acc = acc * dict_prod f.
Proof.
  revert acc. induction f as [| [p e] f IH]; intros acc; cbn.
  - ring.
  - rewrite IH. fold (dict_prod f). ring.
Qed.

(** ** The [defaultdict] of [n_order] *)

Lemma add_to_keys (k v : Z) (d : dict) :
  keys (add_to k v d) = if mem k (keys d) then keys d else keys d ++ [k].
Proof.
  induction d as [| [k' v'] d IH]; cbn; [reflexivity |].
  destruct (Z.eqb_spec k k') as [-> | Hne]; cbn; [reflexivity |].
  fold (keys (add_to k v d)). fold (keys d). rewrite IH.
  fold (mem k (keys d)). destruct (mem k (keys d)); reflexivity.
Qed.

Lemma mem_spec (x : Z) (l : list Z) : mem x l = true <-> In x l.
Proof.
  unfold mem. rewrite existsb_exists. split.
  - intros (y & Hy & E). apply Z.eqb_eq in E. now subst.
  - intros H. exists x. split; [exact H | apply Z.eqb_refl].
Qed.

Lemma add_to_prod (k v : Z) (d : dict) :
  0 <= v -> Forall (fun pe => Z.prime (fst pe) /\ 1 <= snd pe) d ->
  dict_prod (add_to k v d) = k ^ v * dict_prod d.
Proof.
  intros Hv. induction 1 as [| [k' v'] d [Hk Hv'] _ IH]; cbn.
  - ring.
  - cbn in Hv'. destruct (Z.eqb_spec k k') as [-> | Hne]; cbn.
    + fold (dict_prod d). rewrite Z.pow_add_r by lia. ring.
    + fold (dict_prod (add_to k v d)). fold (dict_prod d). rewrite IH. ring.
Qed.

Lemma add_to_prime_dict (k v : Z) (d : dict) :
  Z.prime k -> 1 <= v -> prime_dict d -> prime_dict (add_to k v d).
Proof.
  intros Hk Hv [Hall Hnd]. split.
  - clear Hnd. induction Hall as [| [k' v'] d [Hk' Hv'] Hd IH]; cbn.
    + constructor; [| constructor]. cbn. auto.
    + cbn in Hk', Hv'. destruct (Z.eqb_spec k k') as [-> | Hne].
      * constructor; [cbn; split; [auto | lia] |]. assumption.
      * constructor; [cbn; auto | exact IH].
  - rewrite add_to_keys. destruct (mem k (keys d)) eqn:E; [exact Hnd |].
    apply NoDup_app; [exact Hnd | repeat constructor; intros [] | ].
    intros x Hx [<- | []]. apply mem_spec in Hx. congruence.
Qed.


Lemma add_all_spec (l d : dict) :
  Forall (fun pe => Z.prime (fst pe) /\ 1 <= snd pe) l -> prime_dict d ->
  prime_dict (fold_left (fun fs qk => add_to (fst qk) (snd qk) fs) l d) /\
  dict_prod (fold_left (fun fs qk => add_to (fst qk) (snd qk) fs) l d)
  = dict_prod d * dict_prod l.
Proof.
  intros Hl. revert d. induction Hl as [| [q e] l [Hq He] _ IH]; intros d Hd; cbn [fold_left].
  - split; [exact Hd | rewrite dict_prod_nil; ring].
  - cbn in Hq, He. cbn [fst snd].
    destruct (IH (add_to q e d) (add_to_prime_dict q e d Hq He Hd)) as [H1 H2].
    split; [exact H1 |]. rewrite H2, add_to_prod by (try lia; apply Hd).
    rewrite dict_prod_cons. ring.
Qed.

Lemma order_step_spec (d : dict) (p e : Z) :
  Z.prime p -> 1 <= e -> prime_dict d ->
  prime_dict (order_step d (p, e)) /\
  dict_prod (order_step d (p, e)) = dict_prod d * (p ^ (e - 1) * (p - 1)).
Proof.
  intros Hp He Hd. pose proof (Z.prime_ge_2 p Hp). unfold order_step. cbn [fst snd].
  destruct (factorint_spec (p - 1) ltac:(lia)) as (Hprod & Hall & _).
  destruct (Z.ltb_spec 1 e) as [H1 | H1].
  - destruct (add_all_spec (factorint (p - 1)) (add_to p (e - 1) d) Hall
                (add_to_prime_dict p (e - 1) d Hp ltac:(lia) Hd)) as [Hw Hpr].
    split; [exact Hw |]. rewrite Hpr, Hprod, add_to_prod by (try lia; apply Hd). ring.
  - destruct (add_all_spec (factorint (p - 1)) d Hall Hd) as [Hw Hpr].
    split; [exact Hw |]. rewrite Hpr, Hprod.
    replace (e - 1) with 0 by lia. rewrite Z.pow_0_r. ring.
Qed.

Lemma order_factors_fold (l d : dict) :
  Forall (fun pe => Z.prime (fst pe) /\ 1 <= snd pe) l -> prime_dict d ->
  prime_dict (fold_left order_step l d) /\
  dict_prod (fold_left order_step l d)
  = dict_prod d * fold_right (fun pe acc => fst pe ^ (snd pe - 1) * (fst pe - 1) * acc) 1 l.
Proof.
  intros Hl. revert d. induction Hl as [| [p e] l [Hp He] _ IH]; intros d Hd; cbn [fold_left fold_right].
  - split; [exact Hd | ring].
  - cbn in Hp, He. destruct (order_step_spec d p e Hp He Hd) as [Hw Hpr].
    destruct (IH _ Hw) as [H1 H2]. split; [exact H1 |].
    rewrite H2, Hpr. cbn [fst snd]. ring.
Qed.

Lemma order_factors_spec (n : Z) :
  1 <= n ->
  prime_dict (order_factors n) /\ dict_prod (order_factors n) = totient n.
Proof.
  intros Hn. destruct (factorint_spec n Hn) as (_ & Hall & _).
  assert (Hnil : prime_dict []) by (split; constructor).
  destruct (order_factors_fold (factorint n) [] Hall Hnil) as [H1 H2].
  split; [exact H1 |]. unfold totient.
  change (order_factors n) with (fold_left order_step (factorint n) []).
  rewrite H2, dict_prod_nil. ring.
Qed.

Lemma totient_fold_pos (f : dict) :
  Forall (fun pe => Z.prime (fst pe) /\ 1 <= snd pe) f ->
  1 <= fold_right (fun pe acc => fst pe ^ (snd pe - 1) * (fst pe - 1) * acc) 1 f.
Proof.
  induction 1 as [| [p e] f [Hp He] _ IH]; cbn [fold_right fst snd]; [lia |].
  cbn in Hp, He. pose proof (Z.prime_ge_2 p Hp).
  assert (0 < p ^ (e - 1)) by (apply Z.pow_pos_nonneg; lia). nia.
Qed.

Lemma totient_fold_multiple (f : dict) (p e : Z) :
  In (p, e) f ->
  (p ^ (e - 1) * (p - 1)
   | fold_right (fun pe acc => fst pe ^ (snd pe - 1) * (fst pe - 1) * acc) 1 f).
Proof.
  induction f as [| [q k] f IH]; intros Hin; [destruct Hin |].
  cbn [fold_right fst snd]. destruct Hin as [E | Hin].
  - inversion E; subst. apply Z.divide_mul_l. apply Z.divide_refl.
  - apply Z.divide_mul_r. exact (IH Hin).
Qed.

Lemma totient_pos (n : Z) : 1 <= n -> 1 <= totient n.
Proof.
  intros Hn. destruct (factorint_spec n Hn) as (_ & Hall & _).
  exact (totient_fold_pos _ Hall).
Qed.

Lemma in_dict_prod_divides (f : dict) (p e : Z) :
  In (p, e) f -> (p ^ e | dict_prod f).
Proof.
  induction f as [| [q k] f IH]; intros Hin; [destruct Hin |].
  rewrite dict_prod_cons. destruct Hin as [E | Hin].
  - inversion E; subst. apply Z.divide_mul_l. apply Z.divide_refl.
  - apply Z.divide_mul_r. exact (IH Hin).
Qed.

Lemma coprime_not_divisible (a n p : Z) :
  Z.gcd a n = 1 -> Z.prime p -> (p | n) -> a mod p <> 0.
Proof.
  intros Hg Hp Hpn Ha. pose proof (Z.prime_ge_2 p Hp).
  apply Z.mod_divide in Ha; [| lia].
  assert (Hd : (p | Z.gcd a n)) by (now apply Z.gcd_greatest).
  rewrite Hg in Hd. apply Z.divide_1_r in Hd. lia.
Qed.

(** Euler's theorem, with the totient read off the factorisation. *)
Lemma euler_totient (a n : Z) :
  1 < n -> Z.gcd a n = 1 -> a ^ totient n mod n = 1.
Proof.
  intros Hn Hg. apply mod_one_divide; [exact Hn |].
  destruct (factorint_spec n ltac:(lia)) as (Hprod & Hfact).
  rewrite <- Hprod at 1.
  apply dict_prod_divides; [now apply factorisation_prime_dict |].
  intros [p e] Hin. cbn [fst snd].
  destruct Hfact as [Hall _].
  pose proof (proj1 (Forall_forall _ _) Hall (p, e) Hin) as [Hp He]. cbn in Hp, He.
  pose proof (Z.prime_ge_2 p Hp).
  assert (Hpn : (p | n)).
  { rewrite <- Hprod. apply (Z.divide_trans _ (p ^ e)).
    - now apply Z.divide_pow_same_r.
    - now apply in_dict_prod_divides. }
  assert (Hpe : 1 < p ^ e).
  { assert (p ^ 1 <= p ^ e) by (apply Z.pow_le_mono_r; lia). rewrite Z.pow_1_r in *. lia. }
  apply mod_one_divide; [exact Hpe |].
  destruct (totient_fold_multiple _ p e Hin) as [c Hc]. fold (totient n) in Hc.
  pose proof (totient_pos n ltac:(lia)) as Htp.
  assert (Hm : 0 < p ^ (e - 1) * (p - 1)).
  { assert (0 < p ^ (e - 1)) by (apply Z.pow_pos_nonneg; lia). nia. }
  rewrite Hc, Z.mul_comm. apply pow_mod_one_mul; [lia | nia |].
  apply mod_one_divide; [exact Hpe |].
  pose proof (euler_prime_power p a (Z.to_nat (e - 1)) Hp
                (coprime_not_divisible a n p Hg Hp Hpn)) as HE.
  replace (Z.of_nat (S (Z.to_nat (e - 1)))) with e in HE by lia.
  rewrite Z2Nat.id in HE by lia.
  now rewrite Z.mul_comm.
Qed.

(** ** The order returned by [n_order] *)

Lemma strip_prime_spec (e : nat) (a n p o : Z) :
  1 < n -> 2 <= p -> 0 < o -> (p ^ Z.of_nat e | o) -> a ^ o mod n = 1 ->
  let o' := strip_prime e a n p o in
  exists j, 0 <= j <= Z.of_nat e /\ o = o' * p ^ j /\ 0 < o' /\ a ^ o' mod n = 1 /\
            (j = Z.of_nat e \/ a ^ (o' / p) mod n <> 1).
Proof.
  intros Hn Hp. revert o. induction e as [| e IH]; intros o Ho Hdiv H1; cbn [strip_prime].
  - exists 0. rewrite Z.pow_0_r. repeat split; try lia; auto.
  - assert (Hpo : (p | o)).
    { apply (Z.divide_trans _ (p ^ Z.of_nat (S e))); [| exact Hdiv].
      apply Z.divide_pow_same_r. lia. }
    destruct Hpo as [q Hq].
    assert (Eq : o / p = q) by (subst o; apply Z.div_mul; lia).
    assert (Hq0 : 0 < q) by nia.
    rewrite powmod_spec by (rewrite Eq; lia).
    destruct (Z.eqb_spec (a ^ (o / p) mod n) 1) as [E | E].
    + assert (Hdiv' : (p ^ Z.of_nat e | o / p)).
      { rewrite Eq. destruct Hdiv as [c Hc]. exists c.
        rewrite Nat2Z.inj_succ, Z.pow_succ_r in Hc by lia.
        assert (p * q = p * (c * p ^ Z.of_nat e)) by lia.
        apply Z.mul_reg_l with p; lia. }
      destruct (IH (o / p) ltac:(lia) Hdiv' E) as (j & Hj & Ho' & Hpos & Hone & Hlast).
      set (o' := strip_prime e a n p (o / p)) in *.
      exists (j + 1). split; [lia |]. split; [| split; [lia | split; [exact Hone |]]].
      * rewrite Z.pow_add_r, Z.pow_1_r by lia.
        transitivity (o / p * p); [rewrite Eq; exact Hq |]. rewrite Ho'. ring.
      * destruct Hlast as [-> | Hl]; [left; lia | right; exact Hl].
    + exists 0. rewrite Z.pow_0_r. repeat split; try lia; auto.
Qed.

Lemma in_keys_exists (p : Z) (f : dict) : In p (keys f) -> exists e, In (p, e) f.
Proof.
  unfold keys. rewrite in_map_iff. intros ([q e] & E & Hin). cbn in E. subst q.
  now exists e.
Qed.

Lemma in_keys (p e : Z) (f : dict) : In (p, e) f -> In p (keys f).
Proof. intros H. unfold keys. apply in_map_iff. now exists (p, e). Qed.

Lemma strip_fold_spec (a n : Z) (todo : dict) :
  1 < n ->
  forall (done : dict) (o od : Z),
  prime_dict (done ++ todo) ->
  0 < o -> a ^ o mod n = 1 ->
  o = od * dict_prod todo -> (od | dict_prod done) ->
  (forall p e, In (p, e) done -> (p | o) -> a ^ (o / p) mod n <> 1) ->
  let o' := fold_left (fun o pe => strip_prime (Z.to_nat (snd pe)) a n (fst pe) o) todo o in
  0 < o' /\ a ^ o' mod n = 1 /\ (o' | dict_prod (done ++ todo)) /\
  (forall p e, In (p, e) (done ++ todo) -> (p | o') -> a ^ (o' / p) mod n <> 1).
Proof.
  intros Hn. induction todo as [| [p e] t IH]; intros done o od Hpd Ho H1 Hod Hdv Hdone.
  - cbn [fold_left]. rewrite app_nil_r. rewrite dict_prod_nil, Z.mul_1_r in Hod. subst od.
    repeat split; auto.
  - cbn [fold_left fst snd].
    destruct Hpd as [Hall Hnd].
    pose proof (proj1 (Forall_forall _ _) Hall (p, e) ltac:(apply in_or_app; right; now left))
      as [Hp He]. cbn in Hp, He. pose proof (Z.prime_ge_2 p Hp) as Hp2.
    assert (Hpe : 0 < p ^ e) by (apply Z.pow_pos_nonneg; lia).
    rewrite dict_prod_cons in Hod.
    assert (Hdiv : (p ^ Z.of_nat (Z.to_nat e) | o)).
    { rewrite Z2Nat.id by lia. exists (od * dict_prod t). rewrite Hod. ring. }
    destruct (strip_prime_spec (Z.to_nat e) a n p o Hn Hp2 Ho Hdiv H1)
      as (j & Hj & Ho1 & Hpos & Hone & Hlast).
    set (o1 := strip_prime (Z.to_nat e) a n p o) in *.
    rewrite Z2Nat.id in Hj, Hlast by lia.
    assert (Hpj : 0 < p ^ j) by (apply Z.pow_pos_nonneg; lia).
    assert (Hsplit : p ^ e = p ^ (e - j) * p ^ j).
    { rewrite <- Z.pow_add_r by lia. f_equal. lia. }
    assert (Ho1' : o1 = od * p ^ (e - j) * dict_prod t).
    { apply Z.mul_reg_r with (p ^ j); [lia |]. rewrite <- Ho1, Hod, Hsplit. ring. }
    assert (Hnd' : NoDup (keys ((done ++ [(p, e)]) ++ t))).
    { now rewrite <- app_assoc. }
    specialize (IH (done ++ [(p, e)]) o1 (od * p ^ (e - j))).
    rewrite <- app_assoc in IH. cbn [app] in IH.
    apply IH; auto.
    + split; assumption.
    + rewrite dict_prod_app, dict_prod_cons, dict_prod_nil, Z.mul_1_r.
      apply Z.mul_divide_mono_l with (p := 1) in Hdv. 
      destruct Hdv as [c Hc]. exists (c * p ^ j). rewrite Hsplit.
      clear - Hc. lia.
    + intros q k Hin Hq. apply in_app_or in Hin. destruct Hin as [Hin | [E | []]].
      * intros Hcontra. apply (Hdone q k Hin).
        -- rewrite Ho1. now apply Z.divide_mul_l.
        -- destruct Hq as [c Hc].
           pose proof (proj1 (Forall_forall _ _) Hall (q, k) ltac:(apply in_or_app; now left))
             as [Hqp _]. cbn in Hqp. pose proof (Z.prime_ge_2 q Hqp) as Hq2.
           assert (E1 : o1 / q = c) by (rewrite Hc; apply Z.div_mul; lia).
           assert (E2 : o / q = c * p ^ j).
           { rewrite Ho1, Hc. replace (c * q * p ^ j) with (c * p ^ j * q) by ring.
             apply Z.div_mul. lia. }
           rewrite E2. rewrite E1 in Hcontra.
           apply pow_mod_one_mul; [| lia | exact Hcontra].
           apply (Zmult_le_0_reg_r q c); [clear - Hq2; lia | rewrite <- Hc; clear - Hpos; lia].
      * inversion E; subst q k. destruct Hlast as [-> | Hl]; [| exact Hl].
        exfalso. rewrite Z.sub_diag, Z.pow_0_r, Z.mul_1_r in Ho1'.
        rewrite Ho1' in Hq. apply Z.divide_prime_mul in Hq; [| exact Hp].
        unfold keys in Hnd. rewrite map_app in Hnd. cbn [map fst] in Hnd.
        apply NoDup_remove_2 in Hnd. apply Hnd. apply in_or_app.
        apply Forall_app in Hall. destruct Hall as [Hall1 Hall2].
        apply Forall_cons_iff in Hall2. destruct Hall2 as [_ Hall2].
        destruct Hq as [Hq | Hq].
        -- left. apply (prime_divides_dict_prod p done Hp Hall1).
           now apply (Z.divide_trans _ od).
        -- right. apply (prime_divides_dict_prod p t Hp Hall2 Hq).
Qed.

Lemma is_order_mod (a n k : Z) : is_order (a mod n) n k <-> is_order a n k.
Proof.
  unfold is_order. rewrite Z.mod_pow_l.
  split; intros (H0 & H1 & Hm); repeat split; auto; intros j Hj.
  - rewrite <- Z.mod_pow_l. now apply Hm.
  - rewrite Z.mod_pow_l. now apply Hm.
Qed.

(** [n_order] returns the multiplicative order, a divisor of the totient. *)
Lemma n_order_correct (a n : Z) :
  1 < n -> Z.gcd a n = 1 ->
  exists k, n_order a n = Ret k /\ is_order a n k /\ (k | totient n).
Proof.
  intros Hn Hg. unfold n_order.
  replace (n <=? 1) with false by (symmetry; apply Z.leb_gt; lia).
  destruct (Z.eqb_spec (a mod n) 1) as [E | E].
  - exists 1. split; [reflexivity |]. split; [| apply Z.divide_1_l].
    split; [lia | split; [now rewrite Z.pow_1_r | intros j Hj; lia]].
  - assert (Hg' : Z.gcd (a mod n) n = 1) by (rewrite Z.gcd_mod_l; exact Hg).
    rewrite Hg'. cbn [Z.eqb negb Pos.eqb].
    destruct (order_factors_spec n ltac:(lia)) as [Hpd Hprod].
    rewrite fold_left_prod, Z.mul_1_l, Hprod.
    pose proof (totient_pos n ltac:(lia)) as Htp.
    pose proof (euler_totient (a mod n) n Hn Hg') as He.
    destruct (strip_fold_spec (a mod n) n (order_factors n) Hn [] (totient n) 1)
      as (Hpos & Hone & Hdiv & Hq); auto.
    + lia.
    + rewrite Hprod. ring.
    + rewrite dict_prod_nil. apply Z.divide_refl.
    + cbn [app] in Hdiv, Hq. rewrite Hprod in Hdiv.
      eexists. split; [reflexivity |]. split; [| exact Hdiv].
      apply is_order_mod. apply order_by_prime_quotients; auto.
      intros q Hqp Hqd.
      assert (Hin : In q (keys (order_factors n))).
      { apply prime_divides_dict_prod; [exact Hqp | apply Hpd |].
        rewrite Hprod. eapply Z.divide_trans; [exact Hqd | exact Hdiv]. }
      destruct (in_keys_exists q _ Hin) as (e & Hine).
      exact (Hq q e Hine Hqd).
Qed.

(** ** Uniqueness of the factorisation *)

Lemma not_divides_tail (p : Z) (f : dict) :
  Z.prime p -> Forall (fun pe => Z.prime (fst pe) /\ 1 <= snd pe) f ->
  increasing p (keys f) -> ~ (p | dict_prod f).
Proof.
  intros Hp Hall Hinc Hd.
  pose proof (prime_divides_dict_prod p f Hp Hall Hd) as Hin.
  pose proof (increasing_lower p _ Hinc p Hin). lia.
Qed.

Lemma prime_power_cancel_lt (p e k x y : Z) :
  2 <= p -> 0 <= e < k -> ~ (p | x) -> p ^ e * x = p ^ k * y -> False.
Proof.
  intros Hp Hek Hx H. apply Hx.
  assert (Hpe : 0 < p ^ e) by (apply Z.pow_pos_nonneg; lia).
  assert (Hk : p ^ k = p ^ e * (p ^ (k - e - 1) * p)).
  { replace k with (e + ((k - e - 1) + 1)) at 1 by lia.
    rewrite !Z.pow_add_r, Z.pow_1_r by lia. reflexivity. }
  rewrite Hk in H. exists (p ^ (k - e - 1) * y).
  apply Z.mul_reg_l with (p ^ e); [lia |]. rewrite H. ring.
Qed.

Lemma prime_power_cancel (p e k x y : Z) :
  Z.prime p -> 0 <= e -> 0 <= k -> ~ (p | x) -> ~ (p | y) ->
  p ^ e * x = p ^ k * y -> e = k /\ x = y.
Proof.
  intros Hp He Hk Hx Hy H. pose proof (Z.prime_ge_2 p Hp).
  destruct (Z.lt_trichotomy e k) as [L | [E | L]].
  - exfalso. apply (prime_power_cancel_lt p e k x y); auto; lia.
  - subst k. split; [reflexivity |].
    assert (0 < p ^ e) by (apply Z.pow_pos_nonneg; lia).
    apply Z.mul_reg_l with (p ^ e); lia.
  - exfalso. apply (prime_power_cancel_lt p k e y x); auto; lia.
Qed.

Lemma factorisation_unique (f1 : dict) :
  forall (f2 : dict) (lo1 lo2 : Z),
  Forall (fun pe => Z.prime (fst pe) /\ 1 <= snd pe) f1 ->
  Forall (fun pe => Z.prime (fst pe) /\ 1 <= snd pe) f2 ->
  increasing lo1 (keys f1) -> increasing lo2 (keys f2) ->
  dict_prod f1 = dict_prod f2 -> f1 = f2.
Proof.
  induction f1 as [| [p e] r1 IH]; intros f2 lo1 lo2 H1 H2 I1 I2 Hprod.
  - destruct f2 as [| [q k] r2]; [reflexivity | exfalso].
    rewrite dict_prod_nil, dict_prod_cons in Hprod.
    apply Forall_cons_iff in H2. destruct H2 as [[Hq Hk] H2]. cbn in Hq, Hk.
    pose proof (Z.prime_ge_2 q Hq). pose proof (dict_prod_pos r2 H2).
    assert (q ^ 1 <= q ^ k) by (apply Z.pow_le_mono_r; lia). rewrite Z.pow_1_r in *. nia.
  - apply Forall_cons_iff in H1. destruct H1 as [[Hp He] H1]. cbn in Hp, He.
    pose proof (Z.prime_ge_2 p Hp). destruct I1 as [_ I1]. fold (keys r1) in I1.
    destruct f2 as [| [q k] r2].
    + exfalso. rewrite dict_prod_nil, dict_prod_cons in Hprod.
      pose proof (dict_prod_pos r1 H1).
      assert (p ^ 1 <= p ^ e) by (apply Z.pow_le_mono_r; lia). rewrite Z.pow_1_r in *. nia.
    + apply Forall_cons_iff in H2. destruct H2 as [[Hq Hk] H2]. cbn in Hq, Hk.
      pose proof (Z.prime_ge_2 q Hq). destruct I2 as [_ I2]. fold (keys r2) in I2.
      rewrite !dict_prod_cons in Hprod.
      assert (Hpq : p = q).
      { assert (Hle1 : q <= p).
        { assert (Hin : In p (keys ((q, k) :: r2))).
          { apply prime_divides_dict_prod; [exact Hp | now constructor |].
            rewrite dict_prod_cons, <- Hprod. apply Z.divide_mul_l.
            now apply Z.divide_pow_same_r. }
          destruct Hin as [E | Hin]; [cbn in E; lia |].
          pose proof (increasing_lower q _ I2 p Hin). lia. }
        assert (Hle2 : p <= q).
        { assert (Hin : In q (keys ((p, e) :: r1))).
          { apply prime_divides_dict_prod; [exact Hq | now constructor |].
            rewrite dict_prod_cons, Hprod. apply Z.divide_mul_l.
            now apply Z.divide_pow_same_r. }
          destruct Hin as [E | Hin]; [cbn in E; lia |].
          pose proof (increasing_lower p _ I1 q Hin). lia. }
        lia. }
      subst q.
      destruct (prime_power_cancel p e k (dict_prod r1) (dict_prod r2)) as [-> Hr];
        auto; try lia; try (now apply not_divides_tail).
      f_equal. exact (IH r2 p p H1 H2 I1 I2 Hr).
Qed.

Lemma factorint_of (f : dict) : factorisation f -> factorint (dict_prod f) = f.
Proof.
  intros [Hall Hinc]. pose proof (dict_prod_pos f Hall) as Hpos.
  destruct (factorint_spec (dict_prod f) Hpos) as (Hprod & Hall' & Hinc').
  exact (factorisation_unique _ f 1 1 Hall' Hall Hinc' Hinc Hprod).
Qed.

Lemma factorint_prime_power (p k : Z) :
  Z.prime p -> 1 <= k -> factorint (p ^ k) = [(p, k)].
Proof.
  intros Hp Hk. pose proof (Z.prime_ge_2 p Hp).
  replace (p ^ k) with (dict_prod [(p, k)]) by (rewrite dict_prod_cons, dict_prod_nil; ring).
  apply factorint_of. split.
  - constructor; [cbn; auto | constructor].
  - cbn. split; [lia | trivial].
Qed.

Lemma factorint_prime (p : Z) : Z.prime p -> factorint p = [(p, 1)].
Proof.
  intros Hp. rewrite <- (Z.pow_1_r p) at 1. apply factorint_prime_power; [exact Hp | lia].
Qed.

Lemma totient_prime (p : Z) : Z.prime p -> totient p = p - 1.
Proof.
  intros Hp. unfold totient. rewrite (factorint_prime p Hp). cbn [fold_right fst snd].
  rewrite Z.sub_diag, Z.pow_0_r. ring.
Qed.

(** ** Group order engine *)

(** C2: for [n > 1] and [a] prime to [n], [n_order(a, n)] is the smallest
    [k > 0] with [a**k = 1 (mod n)]; for a prime modulus it divides
    [n - 1]. *)
Theorem n_order_least (a n : Z) :
  1 < n -> Z.gcd a n = 1 ->
  exists k, n_order a n = Ret k /\ 0 < k /\ a ^ k mod n = 1 /\
            (forall j, 0 < j < k -> a ^ j mod n <> 1) /\
            (Z.prime n -> (k | n - 1)).
Proof.
  intros Hn Hg. destruct (n_order_correct a n Hn Hg) as (k & Hk & (H0 & H1 & Hmin) & Hdiv).
  exists k. repeat split; auto.
  intros Hp. now rewrite <- (totient_prime n Hp).
Qed.

Lemma n_order_least_witness :
  (1 < 7 /\ Z.gcd 3 7 = 1) /\
  exists k, n_order 3 7 = Ret k /\ 0 < k /\ 3 ^ k mod 7 = 1 /\
            (forall j, 0 < j < k -> 3 ^ j mod 7 <> 1) /\
            (Z.prime 7 -> (k | 7 - 1)).
Proof.
  split; [split; [lia | reflexivity] |].
  apply (n_order_least 3 7); [lia | reflexivity].
Defined.

(** ** Discrete logarithm by trial multiplication *)

Lemma least_below (P : Z -> Prop) (dec : forall k, {P k} + {~ P k}) (b : nat) :
  (exists k, 0 <= k < Z.of_nat b /\ P k) ->
  exists k, 0 <= k < Z.of_nat b /\ P k /\ forall j, 0 <= j < k -> ~ P j.
Proof.
  induction b as [| b IH]; intros (k & Hk & HP); [lia |].
  assert (Hdec : (exists i, 0 <= i < Z.of_nat b /\ P i) \/
                 (forall i, 0 <= i < Z.of_nat b -> ~ P i)).
  { clear IH k Hk HP. induction b as [| b IHb].
    - right. intros i Hi. lia.
    - destruct IHb as [(i & Hi & H) | Hno].
      + left. exists i. split; [lia | exact H].
      + destruct (dec (Z.of_nat b)) as [Hb | Hb].
        * left. exists (Z.of_nat b). split; [lia | exact Hb].
        * right. intros i Hi.
          destruct (Z.eq_dec i (Z.of_nat b)) as [-> | Hne]; [exact Hb |].
          apply Hno. lia. }
  destruct Hdec as [Hsmall | Hno].
  - destruct (IH Hsmall) as (k' & Hk' & HP' & Hmin).
    exists k'. split; [lia | split; [exact HP' | exact Hmin]].
  - exists k. split; [lia | split; [exact HP |]].
    intros j Hj. apply Hno. lia.
Qed.

Lemma pow_mod_order (b n o k : Z) :
  0 < o -> b ^ o mod n = 1 -> 0 <= k -> b ^ (k mod o) mod n = b ^ k mod n.
Proof.
  intros Ho H1 Hk.
  pose proof (Z.mod_pos_bound k o Ho) as Hr.
  assert (Hq : 0 <= k / o) by (apply Z.div_pos; lia).
  rewrite (Z_div_mod_eq_full k o) at 2.
  rewrite Z.pow_add_r by nia. rewrite Zmult_mod.
  rewrite (pow_mod_one_mul b n o (k / o)) by lia.
  now rewrite Z.mul_1_l, Zmod_mod.
Qed.

Lemma trial_loop_spec (n a b : Z) (rounds : nat) :
  forall i k, 0 <= i <= k -> k < i + Z.of_nat rounds ->
  b ^ k mod n = a -> (forall j, i <= j < k -> b ^ j mod n <> a) ->
  trial_loop rounds i (b ^ i mod n) a (b mod n) n = Ret k.
Proof.
  induction rounds as [| r IH]; intros i k Hik Hlt Hk Hmin; [lia |].
  cbn [trial_loop]. destruct (Z.eqb_spec (b ^ i mod n) a) as [E | E].
  - destruct (Z.eq_dec i k) as [-> | Hne]; [reflexivity |].
    exfalso. apply (Hmin i); [lia | exact E].
  - assert (Hne : i <> k) by (intros ->; contradiction).
    replace ((b ^ i mod n * (b mod n)) mod n) with (b ^ (i + 1) mod n).
    2:{ rewrite <- Zmult_mod, Z.pow_add_r, Z.pow_1_r by lia. reflexivity. }
    apply IH; try lia; auto. intros j Hj. apply Hmin. lia.
Qed.

(** [discrete_log] on a base of small order: linear trial multiplication,
    giving the least logarithm. *)
Lemma discrete_log_small_order (n a b o : Z) (g : RNG) :
  1 < n -> Z.gcd b n = 1 -> is_order b n o -> o < 1000 ->
  (exists k, 0 <= k /\ b ^ k mod n = a mod n) ->
  discrete_log n a b None None g = lift (_discrete_log_trial_mul n a b (Some o)) g /\
  exists k, discrete_log n a b None None g = Ret (k, g) /\
            0 <= k /\ b ^ k mod n = a mod n /\
            forall j, 0 <= j < k -> b ^ j mod n <> a mod n.
Proof.
  intros Hn Hg Ho Hlt (k0 & Hk0 & Hpow).
  destruct (n_order_correct b n Hn Hg) as (o' & Hno & Ho' & _).
  pose proof (order_unique b n o' o Ho' Ho). subst o'.
  assert (Hdl : discrete_log n a b None None g
                = lift (_discrete_log_trial_mul n a b (Some o)) g).
  { unfold discrete_log, discrete_log_rec, discrete_log_with, rbind, lift at 1.
    rewrite Hno. replace (o <? 1000) with true by (symmetry; apply Z.ltb_lt; lia).
    reflexivity. }
  split; [exact Hdl |].
  destruct Ho as (Ho0 & Ho1 & Homin).
  destruct (least_below (fun k => b ^ k mod n = a mod n)
              (fun k => Z.eq_dec (b ^ k mod n) (a mod n)) (Z.to_nat o))
    as (k & Hk & HP & Hmin).
  { exists (k0 mod o). split.
    - rewrite Z2Nat.id by lia. apply Z.mod_pos_bound. lia.
    - rewrite pow_mod_order; auto. }
  exists k. rewrite Hdl. unfold _discrete_log_trial_mul.
  replace (n =? 0) with false by (symmetry; apply Z.eqb_neq; lia).
  replace 1 with (b ^ 0 mod n) at 1 by (rewrite Z.pow_0_r; apply Z.mod_1_l; lia).
  assert (Ht : trial_loop (Z.to_nat o) 0 (b ^ 0 mod n) (a mod n) (b mod n) n = Ret k).
  { apply trial_loop_spec; try lia; auto. }
  rewrite Ht. split; [reflexivity |]. split; [lia |]. split; [exact HP |].
  intros j Hj. apply Hmin. lia.
Qed.

(** C3: [discrete_log(41, 15, 7) == 3] with [7**3 = 15 (mod 41)]; and for
    [n > 1], a base [b] prime to [n] of multiplicative order below 1000 and
    [a] a power of [b] modulo [n], [discrete_log(n, a, b)] runs the linear
    trial multiplication and returns the least [k >= 0] with
    [b**k = a (mod n)]. *)
Theorem discrete_log_trial (n a b o : Z) (g : RNG) :
  1 < n -> Z.gcd b n = 1 -> is_order b n o -> o < 1000 ->
  (exists k, 0 <= k /\ b ^ k mod n = a mod n) ->
  (discrete_log 41 15 7 None None g = Ret (3, g) /\ 7 ^ 3 mod 41 = 15) /\
  discrete_log n a b None None g = lift (_discrete_log_trial_mul n a b (Some o)) g /\
  exists k, discrete_log n a b None None g = Ret (k, g) /\
            0 <= k /\ b ^ k mod n = a mod n /\
            forall j, 0 <= j < k -> b ^ j mod n <> a mod n.
Proof.
  intros Hn Hg Ho Hlt Hex. split; [split; reflexivity |].
  now apply discrete_log_small_order.
Qed.

Lemma discrete_log_trial_witness :
  exists k, discrete_log 41 15 7 None None [] = Ret (k, []) /\
            0 <= k /\ 7 ^ k mod 41 = 15 mod 41 /\
            forall j, 0 <= j < k -> 7 ^ j mod 41 <> 15 mod 41.
Proof.
  destruct (n_order_correct 7 41 ltac:(lia) ltac:(reflexivity)) as (o & Ho & Hord & _).
  vm_compute in Ho. injection Ho as <-.
  apply (discrete_log_trial 41 15 7 40 []); [lia | reflexivity | exact Hord | lia |].
  exists 3. split; [lia | reflexivity].
Defined.

(** ** Exponents that kill the whole unit group *)

Lemma totient_tot_of (n : Z) : totient n = tot_of (factorint n).
Proof. reflexivity. Qed.

Lemma tot_of_nil : tot_of [] = 1.
Proof. reflexivity. Qed.

Lemma tot_of_cons (p e : Z) (f : dict) :
  tot_of ((p, e) :: f) = p ^ (e - 1) * (p - 1) * tot_of f.
Proof. reflexivity. Qed.

Lemma tot_of_app (f1 f2 : dict) : tot_of (f1 ++ f2) = tot_of f1 * tot_of f2.
Proof.
  induction f1 as [| [p e] f1 IH]; cbn [app].
  - rewrite tot_of_nil. ring.
  - rewrite !tot_of_cons, IH. ring.
Qed.

Lemma tot_of_pos (f : dict) :
  Forall (fun pe => Z.prime (fst pe) /\ 1 <= snd pe) f -> 1 <= tot_of f.
Proof. exact (totient_fold_pos f). Qed.

Lemma tot_of_multiple (f : dict) (p e : Z) :
  In (p, e) f -> (p ^ (e - 1) * (p - 1) | tot_of f).
Proof. exact (totient_fold_multiple f p e). Qed.

(** An exponent divisible by the totient of every prime power of [n] sends
    every unit to 1. *)
Lemma pow_one_of_factors (a n T : Z) :
  1 < n -> Z.gcd a n = 1 -> 0 <= T ->
  (forall p e, In (p, e) (factorint n) -> (p ^ (e - 1) * (p - 1) | T)) ->
  a ^ T mod n = 1.
Proof.
  intros Hn Hg HT Hmul. apply mod_one_divide; [exact Hn |].
  destruct (factorint_spec n ltac:(lia)) as (Hprod & Hfact).
  rewrite <- Hprod at 1.
  apply dict_prod_divides; [now apply factorisation_prime_dict |].
  intros [p e] Hin. cbn [fst snd].
  destruct Hfact as [Hall _].
  pose proof (proj1 (Forall_forall _ _) Hall (p, e) Hin) as [Hp He]. cbn in Hp, He.
  pose proof (Z.prime_ge_2 p Hp).
  assert (Hpn : (p | n)).
  { rewrite <- Hprod. apply (Z.divide_trans _ (p ^ e)).
    - now apply Z.divide_pow_same_r.
    - now apply in_dict_prod_divides. }
  assert (Hpe : 1 < p ^ e).
  { assert (p ^ 1 <= p ^ e) by (apply Z.pow_le_mono_r; lia). rewrite Z.pow_1_r in *. lia. }
  apply mod_one_divide; [exact Hpe |].
  assert (Hm : 0 < p ^ (e - 1) * (p - 1)).
  { assert (0 < p ^ (e - 1)) by (apply Z.pow_pos_nonneg; lia). nia. }
  apply (pow_mod_one_divide a (p ^ e) (p ^ (e - 1) * (p - 1)) T); try lia.
  - now apply Hmul.
  - apply mod_one_divide; [exact Hpe |].
    pose proof (euler_prime_power p a (Z.to_nat (e - 1)) Hp
                  (coprime_not_divisible a n p Hg Hp Hpn)) as HE.
    replace (Z.of_nat (S (Z.to_nat (e - 1)))) with e in HE by lia.
    rewrite Z2Nat.id in HE by lia.
    now rewrite Z.mul_comm.
Qed.

Lemma order_le_exponent (a n k T : Z) :
  is_order a n k -> 0 < T -> a ^ T mod n = 1 -> k <= T.
Proof.
  intros Hk HT H1. pose proof (order_divides a n k T Hk ltac:(lia) H1) as Hd.
  apply Z.divide_pos_le; [lia | exact Hd].
Qed.

(** Two blocks of the factorisation with even totients: no element has the
    totient of [n] as its order. *)
Lemma no_generator_split (a n : Z) (f1 f2 : dict) :
  1 < n -> Z.gcd a n = 1 -> factorint n = f1 ++ f2 ->
  (2 | tot_of f1) -> (2 | tot_of f2) ->
  ~ is_order a n (totient n).
Proof.
  intros Hn Hg Hf [c1 H1] [c2 H2] Hord.
  destruct (factorint_spec n ltac:(lia)) as (_ & Hall & _).
  rewrite Hf in Hall. apply Forall_app in Hall. destruct Hall as [Ha1 Ha2].
  pose proof (tot_of_pos f1 Ha1) as Hp1. pose proof (tot_of_pos f2 Ha2) as Hp2.
  assert (HT : totient n = 2 * (c1 * c2 * 2)).
  { rewrite totient_tot_of, Hf, tot_of_app, H1, H2. ring. }
  assert (Hhalf : a ^ (c1 * c2 * 2) mod n = 1).
  { apply pow_one_of_factors; auto; [nia |].
    intros p e Hin. rewrite Hf in Hin. apply in_app_or in Hin. destruct Hin as [Hin | Hin].
    - apply (Z.divide_trans _ (tot_of f1)); [now apply tot_of_multiple |].
      exists c2. rewrite H1. ring.
    - apply (Z.divide_trans _ (tot_of f2)); [now apply tot_of_multiple |].
      exists c1. rewrite H2. ring. }
  pose proof (order_le_exponent a n (totient n) (c1 * c2 * 2) Hord ltac:(nia) Hhalf).
  nia.
Qed.

Lemma tot_of_even (f : dict) :
  f <> [] -> Forall (fun pe => Z.prime (fst pe) /\ 1 <= snd pe) f ->
  increasing 2 (keys f) -> (2 | tot_of f).
Proof.
  intros Hne Hall Hinc. destruct f as [| [p e] f]; [congruence |].
  apply Forall_inv in Hall. destruct Hall as [Hp He]. cbn in Hp, He.
  destruct Hinc as [Hlo _]. cbn in Hlo.
  rewrite tot_of_cons. apply Z.divide_mul_l. apply Z.divide_mul_r.
  (* an odd prime *)
  destruct (Z.eq_dec (p mod 2) 0) as [E | E].
  - exfalso. destruct Hp as [_ Hp]. apply (Hp 2); [lia |].
    apply Z.mod_divide; [lia | exact E].
  - apply Z.mod_divide; [lia |]. 
    pose proof (Z.mod_pos_bound p 2 ltac:(lia)).
    rewrite Zminus_mod. replace (p mod 2) with 1 by lia. reflexivity.
Qed.

Lemma odd_square_mod_8 (a : Z) : a mod 2 = 1 -> (8 | a * a - 1).
Proof.
  intros Ha. apply Z.mod_divide; [lia |].
  rewrite Zminus_mod, Zmult_mod.
  assert (H : a mod 8 = 1 \/ a mod 8 = 3 \/ a mod 8 = 5 \/ a mod 8 = 7).
  { pose proof (Z.mod_pos_bound a 8 ltac:(lia)).
    assert (E : a mod 2 = (a mod 8) mod 2).
    { apply Zmod_div_mod; try lia. exists 4. lia. }
    rewrite Ha in E. 
    assert (a mod 8 = 0 \/ a mod 8 = 1 \/ a mod 8 = 2 \/ a mod 8 = 3 \/ a mod 8 = 4 \/
            a mod 8 = 5 \/ a mod 8 = 6 \/ a mod 8 = 7) as Hc by lia.
    destruct Hc as [Hc | [Hc | [Hc | [Hc | [Hc | [Hc | [Hc | Hc]]]]]]];
      rewrite Hc in E; cbn in E; try discriminate; auto. }
  destruct H as [-> | [-> | [-> | ->]]]; reflexivity.
Qed.

Lemma pow2_exponent (a : Z) (e : nat) :
  a mod 2 = 1 -> (2 ^ Z.of_nat (e + 3) | a ^ (2 ^ Z.of_nat (e + 1)) - 1).
Proof.
  intros Ha. induction e as [| e IH].
  - change (Z.of_nat (0 + 3)) with 3. change (Z.of_nat (0 + 1)) with 1.
    change (2 ^ 3) with 8. change (2 ^ 1) with 2. rewrite Z.pow_2_r.
    now apply odd_square_mod_8.
  - replace (Z.of_nat (S e + 3)) with (Z.of_nat (e + 3) + 1) by lia.
    replace (Z.of_nat (S e + 1)) with (Z.of_nat (e + 1) + 1) by lia.
    rewrite (Z.pow_add_r 2 (Z.of_nat (e + 1)) 1), Z.pow_1_r by lia.
    rewrite Z.pow_mul_r by (try lia; apply Z.pow_nonneg; lia).
    apply (pow_lift 2); try lia. exact IH.
Qed.

(** ** Shape of the factorisation of odd and even numbers *)

Lemma odd_prime (r : Z) : Z.prime r -> r <> 2 -> 2 < r /\ r mod 2 = 1.
Proof.
  intros Hr Hne. pose proof (Z.prime_ge_2 r Hr). split; [lia |].
  pose proof (Z.mod_pos_bound r 2 ltac:(lia)).
  destruct (Z.eq_dec (r mod 2) 0) as [E | E]; [| lia].
  exfalso. destruct Hr as [_ Hr]. apply (Hr 2); [lia |].
  apply Z.mod_divide; [lia | exact E].
Qed.

Lemma head_key_divides (p e : Z) (f : dict) (n : Z) :
  dict_prod ((p, e) :: f) = n -> 1 <= e -> (p | n).
Proof.
  intros <- He. rewrite dict_prod_cons. apply Z.divide_mul_l.
  now apply Z.divide_pow_same_r.
Qed.

Lemma factorint_odd (q : Z) :
  1 <= q -> q mod 2 = 1 -> increasing 2 (keys (factorint q)).
Proof.
  intros Hq Hodd. destruct (factorint_spec q Hq) as (Hprod & Hall & Hinc).
  destruct (factorint q) as [| [r j] f]; [exact I |].
  apply Forall_inv in Hall. destruct Hall as [Hr Hj]. cbn in Hr, Hj.
  destruct Hinc as [_ Hinc]. split; [| exact Hinc]. cbn.
  destruct (Z.eq_dec r 2) as [-> | Hne]; [| now apply odd_prime].
  exfalso. pose proof (head_key_divides 2 j f q Hprod Hj) as Hd.
  apply Z.mod_divide in Hd; lia.
Qed.

Lemma factorint_double (q : Z) :
  1 <= q -> q mod 2 = 1 -> factorint (2 * q) = (2, 1) :: factorint q.
Proof.
  intros Hq Hodd. destruct (factorint_spec q Hq) as (Hprod & Hall & Hinc).
  replace (2 * q) with (dict_prod ((2, 1) :: factorint q)).
  2:{ rewrite dict_prod_cons, Hprod. lia. }
  apply factorint_of. split.
  - constructor; [cbn; split; [exact Z.prime_2 | lia] | exact Hall].
  - cbn. split; [lia |]. now apply factorint_odd.
Qed.

Lemma factorint_even (p : Z) :
  1 <= p -> p mod 2 = 0 ->
  exists e rest, factorint p = (2, e) :: rest /\ 1 <= e /\ increasing 2 (keys rest) /\
                 Forall (fun pe => Z.prime (fst pe) /\ 1 <= snd pe) rest /\
                 p = 2 ^ e * dict_prod rest.
Proof.
  intros Hp Hev. destruct (factorint_spec p Hp) as (Hprod & Hall & Hinc).
  assert (H2 : In 2 (keys (factorint p))).
  { apply prime_divides_dict_prod; [exact Z.prime_2 | exact Hall |].
    rewrite Hprod. apply Z.mod_divide; lia. }
  destruct (factorint p) as [| [r e] rest]; [destruct H2 |].
  apply Forall_cons_iff in Hall. destruct Hall as [[Hr He] Hall]. cbn in Hr, He.
  destruct Hinc as [Hlo Hinc]. cbn in Hlo. fold (keys rest) in Hinc.
  assert (E : r = 2).
  { destruct H2 as [E | Hin]; [exact E |].
    pose proof (increasing_lower r _ Hinc 2 Hin). lia. }
  subst r. exists e, rest. repeat split; auto.
Qed.

Lemma odd_times_two_mod_4 (R : Z) : R mod 2 = 1 -> (2 * R) mod 4 = 2.
Proof.
  intros H. rewrite (Z_div_mod_eq_full R 2), H.
  replace (2 * (2 * (R / 2) + 1)) with (2 + (R / 2) * 4) by ring.
  now rewrite Z_mod_plus_full.
Qed.

Lemma tail_odd (rest : dict) :
  Forall (fun pe => Z.prime (fst pe) /\ 1 <= snd pe) rest ->
  increasing 2 (keys rest) -> dict_prod rest mod 2 = 1.
Proof.
  intros Hall Hinc.
  pose proof (not_divides_tail 2 rest Z.prime_2 Hall Hinc) as Hnd.
  pose proof (Z.mod_pos_bound (dict_prod rest) 2 ltac:(lia)).
  destruct (Z.eq_dec (dict_prod rest mod 2) 0) as [E | E]; [| lia].
  exfalso. apply Hnd. apply Z.mod_divide; [lia | exact E].
Qed.

Lemma factorint_mult4 (p : Z) :
  1 <= p -> p mod 4 = 0 ->
  exists e rest, factorint p = (2, e) :: rest /\ 2 <= e /\ increasing 2 (keys rest) /\
                 Forall (fun pe => Z.prime (fst pe) /\ 1 <= snd pe) rest /\
                 p = 2 ^ e * dict_prod rest.
Proof.
  intros Hp H4.
  assert (Hev : p mod 2 = 0).
  { rewrite (Zmod_div_mod 2 4 p) by (try lia; exists 2; lia). now rewrite H4. }
  destruct (factorint_even p Hp Hev) as (e & rest & Hf & He & Hinc & Hall & Hpe).
  exists e, rest. repeat split; auto.
  destruct (Z.eq_dec e 1) as [-> | Hne]; [| lia].
  exfalso. rewrite Z.pow_1_r in Hpe.
  pose proof (odd_times_two_mod_4 _ (tail_odd rest Hall Hinc)). rewrite <- Hpe in H. lia.
Qed.

Lemma factorint_half (p : Z) :
  1 <= p -> p mod 2 = 0 -> p mod 4 <> 0 ->
  p / 2 mod 2 = 1 /\ factorint p = (2, 1) :: factorint (p / 2).
Proof.
  intros Hp Hev H4.
  destruct (factorint_even p Hp Hev) as (e & rest & Hf & He & Hinc & Hall & Hpe).
  assert (E : e = 1).
  { destruct (Z.eq_dec e 1) as [-> | Hne]; [reflexivity | exfalso].
    apply H4. apply Z.mod_divide; [lia |]. exists (2 ^ (e - 2) * dict_prod rest).
    rewrite Hpe. replace e with (e - 2 + 2) at 1 by lia.
    rewrite Z.pow_add_r by lia. change (2 ^ 2) with 4. ring. }
  subst e. rewrite Z.pow_1_r in Hpe.
  assert (Hhalf : p / 2 = dict_prod rest).
  { rewrite Hpe, Z.mul_comm. apply Z.div_mul. lia. }
  rewrite Hhalf. split; [now apply tail_odd |].
  rewrite Hf. f_equal. symmetry. apply factorint_of. split; [exact Hall |].
  destruct (keys rest); cbn in *; [trivial | split; [lia | tauto]].
Qed.

(** ** [perfect_power] on odd numbers *)

Lemma prime_power_ge (r j : Z) : 2 <= r -> 1 <= j -> r <= r ^ j.
Proof.
  intros Hr Hj. rewrite <- (Z.pow_1_r r) at 1. apply Z.pow_le_mono_r; lia.
Qed.

Lemma perfect_power_prime_power (r j : Z) :
  Z.prime r -> 2 <= j -> perfect_power (r ^ j) = Some (r, j).
Proof.
  intros Hr Hj. pose proof (Z.prime_ge_2 r Hr).
  pose proof (prime_power_ge r j ltac:(lia) ltac:(lia)).
  unfold perfect_power.
  replace (r ^ j <? 2) with false by (symmetry; apply Z.ltb_ge; lia).
  rewrite factorint_prime_power by (auto; lia). cbn [fold_right fst snd].
  rewrite Z.gcd_0_r, Z.abs_eq by lia.
  replace (j <? 2) with false by (symmetry; apply Z.ltb_ge; lia).
  rewrite Z.div_same, Z.pow_1_r, Z.mul_1_r by lia. reflexivity.
Qed.

Lemma fold_gcd_divides (f : dict) (pe : Z * Z) :
  In pe f -> (fold_right (fun pe acc => Z.gcd (snd pe) acc) 0 f | snd pe).
Proof.
  induction f as [| x f IH]; intros Hin; [destruct Hin |]. cbn [fold_right].
  destruct Hin as [-> | Hin].
  - apply Z.gcd_divide_l.
  - eapply Z.divide_trans; [apply Z.gcd_divide_r | exact (IH Hin)].
Qed.

Lemma root_fold_pos (g : Z) (f : dict) :
  0 < g -> Forall (fun pe => Z.prime (fst pe) /\ 1 <= snd pe) f ->
  1 <= fold_right (fun pe acc => fst pe ^ (snd pe / g) * acc) 1 f.
Proof.
  intros Hg. induction 1 as [| [r j] f [Hr Hj] _ IH]; cbn [fold_right fst snd]; [lia |].
  cbn in Hr, Hj. pose proof (Z.prime_ge_2 r Hr).
  assert (0 <= j / g) by (apply Z.div_pos; lia).
  assert (0 < r ^ (j / g)) by (apply Z.pow_pos_nonneg; lia). nia.
Qed.

Lemma quotient_ge_1 (g j : Z) : 2 <= g -> 1 <= j -> (g | j) -> 1 <= j / g.
Proof.
  intros Hg Hj [c Hc]. subst j. rewrite Z.div_mul by lia. nia.
Qed.

(** With two distinct primes the base found by [perfect_power] is never a
    prime. *)
Lemma perfect_power_two_primes (q : Z) (e1 e2 : Z * Z) (rest : dict) :
  1 <= q -> factorint q = e1 :: e2 :: rest ->
  match perfect_power q with
  | None => True
  | Some (b, _) => isprime b = false
  end.
Proof.
  intros Hq Hf. destruct (factorint_spec q Hq) as (_ & Hall & _).
  unfold perfect_power. destruct (q <? 2); [exact I |].
  set (g := fold_right (fun pe acc => Z.gcd (snd pe) acc) 0 (factorint q)).
  destruct (Z.ltb_spec g 2) as [Hg | Hg]; [exact I |].
  assert (Hd1 : (g | snd e1)) by (apply fold_gcd_divides; rewrite Hf; now left).
  assert (Hd2 : (g | snd e2)) by (apply fold_gcd_divides; rewrite Hf; right; now left).
  rewrite Hf in Hall |- *.
  apply Forall_cons_iff in Hall. destruct Hall as [[Hr1 Hj1] Hall].
  apply Forall_cons_iff in Hall. destruct Hall as [[Hr2 Hj2] Hall].
  destruct e1 as [r1 j1]. destruct e2 as [r2 j2]. cbn [fst snd] in *.
  cbn [fold_right fst snd].
  set (B := fold_right (fun pe acc => fst pe ^ (snd pe / g) * acc) 1 rest).
  pose proof (root_fold_pos g rest ltac:(lia) Hall) as HB. fold B in HB.
  pose proof (Z.prime_ge_2 r1 Hr1). pose proof (Z.prime_ge_2 r2 Hr2).
  pose proof (quotient_ge_1 g j1 Hg Hj1 Hd1) as Hx1.
  pose proof (quotient_ge_1 g j2 Hg Hj2 Hd2) as Hx2.
  pose proof (prime_power_ge r1 (j1 / g) ltac:(lia) Hx1).
  pose proof (prime_power_ge r2 (j2 / g) ltac:(lia) Hx2).
  destruct (isprime _) eqn:E; [exfalso | reflexivity].
  apply isprime_spec in E. destruct E as [_ E].
  assert (Hrest : 2 <= r2 ^ (j2 / g) * B) by nia.
  apply (E r1); [nia |].
  apply Z.divide_mul_l. now apply Z.divide_pow_same_r.
Qed.

(** ** The test of [is_primitive_root] *)

Lemma quotient_test (a p T : Z) (factors : list Z) :
  1 < p -> 0 < T -> a ^ T mod p = 1 ->
  (forall r, In r factors -> Z.prime r /\ (r | T)) ->
  (forall r, Z.prime r -> (r | T) -> In r factors) ->
  forallb (fun prime => negb (powmod (a mod p) (T / prime) p =? 1)) factors = true
  <-> is_order a p T.
Proof.
  intros Hp HT H1 Hsound Hcompl.
  assert (Hpow : forall r, In r factors ->
            powmod (a mod p) (T / r) p = a ^ (T / r) mod p /\ 0 < T / r < T).
  { intros r Hr. destruct (Hsound r Hr) as [Hrp [c Hc]].
    pose proof (Z.prime_ge_2 r Hrp).
    assert (E : T / r = c) by (subst T; apply Z.div_mul; lia).
    rewrite E. split; [| nia].
    rewrite powmod_spec by nia. apply Z.mod_pow_l. }
  rewrite forallb_forall. split.
  - intros H. apply order_by_prime_quotients; auto.
    intros q Hq Hd. specialize (H q (Hcompl q Hq Hd)).
    destruct (Hpow q (Hcompl q Hq Hd)) as [E _]. rewrite E in H.
    apply negb_true_iff, Z.eqb_neq in H. exact H.
  - intros (_ & _ & Hmin) r Hr. destruct (Hpow r Hr) as [E Hlt].
    rewrite E. apply negb_true_iff, Z.eqb_neq. now apply Hmin.
Qed.

Lemma prime_divisors_of_totient (r j q : Z) :
  Z.prime r -> 1 <= j -> Z.prime q -> (q | r ^ (j - 1) * (r - 1)) ->
  (q = r /\ 2 <= j) \/ In q (keys (factorint (r - 1))).
Proof.
  intros Hr Hj Hq Hd. pose proof (Z.prime_ge_2 r Hr).
  apply Z.divide_prime_mul in Hd; [| exact Hq]. destruct Hd as [Hd | Hd].
  - destruct (Z.eq_dec j 1) as [-> | Hne].
    + rewrite Z.sub_diag, Z.pow_0_r in Hd. apply Z.divide_1_r in Hd.
      pose proof (Z.prime_ge_2 q Hq). lia.
    + left. split; [| lia]. apply (Z.divide_prime_pp q r (j - 1)); auto. lia.
  - right. destruct (factorint_spec (r - 1) ltac:(lia)) as (Hprod & Hall & _).
    apply prime_divides_dict_prod; auto. now rewrite Hprod.
Qed.

Lemma key_divides (n r : Z) :
  1 <= n -> In r (keys (factorint n)) -> Z.prime r /\ (r | n).
Proof.
  intros Hn Hin. destruct (factorint_spec n Hn) as (Hprod & Hall & _).
  destruct (in_keys_exists r _ Hin) as (e & He).
  pose proof (proj1 (Forall_forall _ _) Hall (r, e) He) as [Hr Hj]. cbn in Hr, Hj.
  split; [exact Hr |]. rewrite <- Hprod.
  apply (Z.divide_trans _ (r ^ e)); [now apply Z.divide_pow_same_r |].
  now apply in_dict_prod_divides.
Qed.

Lemma dedup_In (x : Z) (l : list Z) : In x (dedup l) <-> In x l.
Proof.
  induction l as [| y l IH]; cbn [dedup]; [tauto |].
  destruct (mem y l) eqn:E.
  - rewrite IH. split; [now right |]. intros [<- | H]; [now apply mem_spec | exact H].
  - cbn [In]. rewrite IH. tauto.
Qed.

Lemma increasing_weaken (lo lo' : Z) (l : list Z) :
  lo' <= lo -> increasing lo l -> increasing lo' l.
Proof. destruct l; cbn; [trivial |]. intros H [H1 H2]. split; [lia | exact H2]. Qed.

Lemma isprime_false_of_divisor (q r : Z) : 1 < r < q -> (r | q) -> isprime q = false.
Proof.
  intros Hr Hd. destruct (isprime q) eqn:E; [| reflexivity].
  apply isprime_spec in E. destruct E as [_ E]. exfalso. exact (E r Hr Hd).
Qed.

Lemma group_test_correct (a p q : Z) :
  1 < p -> Z.gcd a p = 1 -> 3 <= q -> q mod 2 = 1 -> (p = q \/ p = 2 * q) ->
  group_test (a mod p) p q = true <-> is_order a p (totient p).
Proof.
  intros Hp Hg Hq Hodd Hpq.
  destruct (factorint_spec q ltac:(lia)) as (Hprod & Hall & Hinc).
  pose proof (factorint_odd q ltac:(lia) Hodd) as Hinc2.
  assert (Hfp : factorint p = factorint q \/ factorint p = (2, 1) :: factorint q).
  { destruct Hpq as [-> | ->]; [now left | right]. apply factorint_double; lia. }
  assert (HT : totient p = tot_of (factorint q)).
  { rewrite totient_tot_of. destruct Hfp as [-> | ->]; [reflexivity |].
    rewrite tot_of_cons. change (2 ^ (1 - 1) * (2 - 1)) with 1. ring. }
  pose proof (euler_totient a p Hp Hg) as Heul.
  pose proof (totient_pos p ltac:(lia)) as HTpos.
  destruct (factorint q) as [| [r j] [| e2 rest]] eqn:Hf.
  - rewrite dict_prod_nil in Hprod. lia.
  - (* a prime power *)
    apply Forall_inv in Hall. destruct Hall as [Hr Hj]. cbn in Hr, Hj.
    pose proof (Z.prime_ge_2 r Hr).
    rewrite dict_prod_cons, dict_prod_nil, Z.mul_1_r in Hprod.
    rewrite tot_of_cons, tot_of_nil, Z.mul_1_r in HT.
    unfold group_test. destruct (Z.eq_dec j 1) as [-> | Hj1].
    + rewrite Z.pow_1_r in Hprod. subst r.
      rewrite (proj2 (isprime_spec q) Hr).
      rewrite Z.sub_diag, Z.pow_0_r, Z.mul_1_l in HT. rewrite HT in *.
      apply quotient_test; auto; try lia.
      * intros x Hx. apply key_divides; [lia | exact Hx].
      * intros x Hx Hd. destruct (factorint_spec (q - 1) ltac:(lia)) as (Hpr & Ha & _).
        apply prime_divides_dict_prod; auto. now rewrite Hpr.
    + assert (Hqc : isprime q = false).
      { apply (isprime_false_of_divisor q r).
        - pose proof (prime_power_ge r (j - 1) ltac:(lia) ltac:(lia)).
          replace j with (1 + (j - 1)) in Hprod by lia.
          rewrite Z.pow_add_r, Z.pow_1_r in Hprod by lia. nia.
        - rewrite <- Hprod. apply Z.divide_pow_same_r. lia. }
      rewrite Hqc. rewrite <- Hprod, perfect_power_prime_power by (auto; lia).
      rewrite (proj2 (isprime_spec r) Hr). cbn [negb]. rewrite HT in *.
      apply quotient_test; auto; try lia.
      * intros x Hx. apply (proj1 (dedup_In _ _)) in Hx. apply in_app_or in Hx.
        destruct Hx as [Hx | [<- | []]].
        -- destruct (key_divides (r - 1) x ltac:(lia) Hx) as [Hxp Hxd].
           split; [exact Hxp | now apply Z.divide_mul_r].
        -- split; [exact Hr |]. apply Z.divide_mul_l. apply Z.divide_pow_same_r. lia.
      * intros x Hx Hd. apply dedup_In. apply in_or_app.
        destruct (prime_divisors_of_totient r j x Hr Hj Hx Hd) as [[-> _] | Hin];
          [right; now left | now left].
  - (* at least two primes: the test fails and there is no generator *)
    apply Forall_cons_iff in Hall. destruct Hall as [[Hr Hj] Hall]. cbn in Hr, Hj.
    pose proof (Z.prime_ge_2 r Hr).
    assert (Htail : 2 <= dict_prod (e2 :: rest)).
    { destruct e2 as [r2 j2]. apply Forall_cons_iff in Hall.
      destruct Hall as [[Hr2 Hj2] Hall]. cbn in Hr2, Hj2.
      pose proof (Z.prime_ge_2 r2 Hr2). pose proof (dict_prod_pos rest Hall).
      pose proof (prime_power_ge r2 j2 ltac:(lia) Hj2). rewrite dict_prod_cons. nia. }
    assert (Hqc : isprime q = false).
    { apply (isprime_false_of_divisor q r).
      - pose proof (prime_power_ge r j ltac:(lia) Hj).
        rewrite dict_prod_cons in Hprod. nia.
      - now apply (head_key_divides r j (e2 :: rest)). }
    unfold group_test. rewrite Hqc.
    pose proof (perfect_power_two_primes q (r, j) e2 rest ltac:(lia) Hf) as Hpp.
    assert (Hfalse : match perfect_power q with
                     | None => false
                     | Some (q0, e) =>
                         if negb (isprime q0) then false
                         else forallb (fun prime =>
                                negb (powmod (a mod p) (q0 ^ (e - 1) * (q0 - 1) / prime) p =? 1))
                                (dedup (keys (factorint (q0 - 1)) ++ [q0]))
                     end = false).
    { destruct (perfect_power q) as [[b g] |]; [| reflexivity]. cbn in Hpp. rewrite Hpp. reflexivity. }
    rewrite Hfalse. split; [discriminate | intros Hord; exfalso].
    destruct Hinc2 as [Hr2 Hinc2]. cbn in Hr2.
    assert (Heven2 : (2 | tot_of (e2 :: rest))).
    { apply tot_of_even; [discriminate | exact Hall |].
      apply (increasing_weaken r 2); [lia | exact Hinc2]. }
    assert (Heven1 : (2 | tot_of [(r, j)])).
    { apply tot_of_even; [discriminate | | cbn; lia].
      constructor; [cbn; split; assumption | constructor]. }
    destruct Hfp as [Hfp | Hfp].
    + apply (no_generator_split a p [(r, j)] (e2 :: rest)); auto.
    + apply (no_generator_split a p [(2, 1); (r, j)] (e2 :: rest)); auto.
      rewrite tot_of_cons. change (2 ^ (1 - 1) * (2 - 1)) with 1. now rewrite Z.mul_1_l.
Qed.

Lemma coprime_odd (a p : Z) : Z.gcd a p = 1 -> p mod 2 = 0 -> a mod 2 = 1.
Proof.
  intros Hg Hp. pose proof (Z.mod_pos_bound a 2 ltac:(lia)).
  destruct (Z.eq_dec (a mod 2) 0) as [E | E]; [| lia].
  exfalso. assert (Hd : (2 | Z.gcd a p)).
  { apply Z.gcd_greatest; apply Z.mod_divide; lia. }
  rewrite Hg in Hd. apply Z.divide_1_r in Hd. lia.
Qed.

Lemma no_generator_pow2 (a e : Z) :
  3 <= e -> Z.gcd a (2 ^ e) = 1 -> ~ is_order a (2 ^ e) (totient (2 ^ e)).
Proof.
  intros He Hg Hord.
  assert (Hpe : 8 <= 2 ^ e).
  { change 8 with (2 ^ 3). apply Z.pow_le_mono_r; lia. }
  assert (Hodd : a mod 2 = 1).
  { apply (coprime_odd a (2 ^ e) Hg). apply Z.mod_divide; [lia |].
    apply Z.divide_pow_same_r. lia. }
  assert (HT : totient (2 ^ e) = 2 ^ (e - 1)).
  { rewrite totient_tot_of, factorint_prime_power by (try exact Z.prime_2; lia).
    rewrite tot_of_cons, tot_of_nil. ring. }
  pose proof (pow2_exponent a (Z.to_nat (e - 3)) Hodd) as Hd.
  replace (Z.of_nat (Z.to_nat (e - 3) + 3)) with e in Hd by lia.
  replace (Z.of_nat (Z.to_nat (e - 3) + 1)) with (e - 2) in Hd by lia.
  apply mod_one_divide in Hd; [| lia].
  assert (Hlt : 0 < 2 ^ (e - 2) < 2 ^ (e - 1)).
  { split; [apply Z.pow_pos_nonneg; lia | apply Z.pow_lt_mono_r; lia]. }
  pose proof (order_le_exponent a (2 ^ e) _ (2 ^ (e - 2)) Hord ltac:(lia) Hd). lia.
Qed.

(** [is_primitive_root] answers whether the order is the totient. *)
Lemma is_primitive_root_correct (a p : Z) :
  1 < p -> Z.gcd a p = 1 ->
  exists b, is_primitive_root a p = Ret b /\ (b = true <-> is_order a p (totient p)).
Proof.
  intros Hp Hg. unfold is_primitive_root.
  replace (p <=? 1) with false by (symmetry; apply Z.leb_gt; lia).
  assert (Hg' : Z.gcd (a mod p) p = 1) by (rewrite Z.gcd_mod_l; exact Hg).
  rewrite Hg'. cbn [Z.eqb Pos.eqb negb].
  destruct (Z.leb_spec p 4) as [H4 | H4].
  - (* the moduli 2, 3 and 4 *)
    eexists. split; [reflexivity |]. rewrite <- is_order_mod.
    pose proof (Z.mod_pos_bound a p ltac:(lia)) as Hr.
    assert (Hcase : (p = 2 /\ a mod p = 1) \/ (p = 3 /\ (a mod p = 1 \/ a mod p = 2)) \/
                    (p = 4 /\ (a mod p = 1 \/ a mod p = 3))).
    { assert (Hp3 : p = 2 \/ p = 3 \/ p = 4) by lia.
      destruct Hp3 as [-> | [-> | ->]].
      - left. split; [reflexivity |].
        assert (Hc : a mod 2 = 0 \/ a mod 2 = 1) by lia.
        destruct Hc as [Hc | Hc]; [rewrite Hc in Hg'; discriminate | exact Hc].
      - right; left. split; [reflexivity |].
        assert (Hc : a mod 3 = 0 \/ a mod 3 = 1 \/ a mod 3 = 2) by lia.
        destruct Hc as [Hc | Hc]; [rewrite Hc in Hg'; discriminate | exact Hc].
      - right; right. split; [reflexivity |].
        assert (Hc : a mod 4 = 0 \/ a mod 4 = 1 \/ a mod 4 = 2 \/ a mod 4 = 3) by lia.
        destruct Hc as [Hc | [Hc | [Hc | Hc]]];
          try (rewrite Hc in Hg'; discriminate); auto. }
    destruct Hcase as [[-> ->] | [[-> [-> | ->]] | [-> [-> | ->]]]];
      change (totient 2) with 1; change (totient 3) with 2; change (totient 4) with 2;
      cbn [Z.eqb Z.sub Z.add Z.opp Z.pos_sub Pos.eqb Pos.pred_double].
    + split; [intros _ | reflexivity].
      split; [lia | split; [reflexivity | intros j Hj; lia]].
    + split; [discriminate | intros (_ & _ & Hmin)].
      exfalso. apply (Hmin 1); [lia | reflexivity].
    + split; [intros _ | reflexivity].
      split; [lia | split; [reflexivity | intros j Hj]].
      replace j with 1 by lia. discriminate.
    + split; [discriminate | intros (_ & _ & Hmin)].
      exfalso. apply (Hmin 1); [lia | reflexivity].
    + split; [intros _ | reflexivity].
      split; [lia | split; [reflexivity | intros j Hj]].
      replace j with 1 by lia. discriminate.
  - destruct (Z.eqb_spec (p mod 2) 0) as [Hev | Hodd]; cbn [negb].
    + destruct (Z.eqb_spec (p mod 4) 0) as [H0 | H2]; cbn [negb].
      * (* a multiple of 4 *)
        exists false. split; [reflexivity |]. split; [discriminate | intros Hord; exfalso].
        destruct (factorint_mult4 p ltac:(lia) H0) as (e & rest & Hf & He & Hinc & Hall & Hpe).
        destruct rest as [| x rest].
        -- rewrite dict_prod_nil, Z.mul_1_r in Hpe. subst p.
           assert (3 <= e).
           { destruct (Z.eq_dec e 2) as [-> | Hne]; [| lia]. cbn in H4. lia. }
           now apply (no_generator_pow2 a e).
        -- apply (no_generator_split a p [(2, e)] (x :: rest)); auto.
           ++ rewrite tot_of_cons, tot_of_nil. exists (2 ^ (e - 2)).
              replace (e - 1) with (e - 2 + 1) by lia.
              rewrite Z.pow_add_r by lia. ring.
           ++ apply tot_of_even; [discriminate | exact Hall | exact Hinc].
      * destruct (factorint_half p ltac:(lia) Hev H2) as [Hhodd _].
        eexists. split; [reflexivity |].
        apply group_test_correct; auto.
        -- pose proof (Z_div_mod_eq_full p 2). lia.
        -- right. pose proof (Z_div_mod_eq_full p 2). lia.
    + eexists. split; [reflexivity |].
      apply group_test_correct; auto; try lia.
      pose proof (Z.mod_pos_bound p 2 ltac:(lia)). lia.
Qed.

(** ** Primitive roots and the group order *)

(** C7: for [p > 1] and [a] prime to [p], [is_primitive_root(a, p)] is
    [True] exactly when [n_order(a, p)] equals [totient(p)]; in particular
    [is_primitive_root(3, 10) == True]. *)
Theorem is_primitive_root_iff_order (a p : Z) :
  1 < p -> Z.gcd a p = 1 ->
  is_primitive_root 3 10 = Ret true /\
  exists b k, is_primitive_root a p = Ret b /\ n_order a p = Ret k /\
              (b = true <-> k = totient p).
Proof.
  intros Hp Hg. split; [reflexivity |].
  destruct (is_primitive_root_correct a p Hp Hg) as (b & Hb & Hiff).
  destruct (n_order_correct a p Hp Hg) as (k & Hk & Hord & _).
  exists b, k. split; [exact Hb | split; [exact Hk |]]. split.
  - intros Hbt. apply (order_unique a p); [exact Hord | now apply Hiff].
  - intros Hkt. apply Hiff. rewrite <- Hkt. exact Hord.
Qed.

Lemma is_primitive_root_iff_order_witness :
  (1 < 10 /\ Z.gcd 3 10 = 1) /\
  exists b k, is_primitive_root 3 10 = Ret b /\ n_order 3 10 = Ret k /\
              (b = true <-> k = totient 10).
Proof.
  split; [split; [lia | reflexivity] |].
  apply (is_primitive_root_iff_order 3 10); [lia | reflexivity].
Defined.

(** ** Ranges and loops over them *)

Lemma range3_In (s e st x : Z) :
  0 < st -> In x (range3 s e st) -> exists i, 0 <= i /\ x = s + i * st /\ x < e.
Proof.
  intros Hst. unfold range3.
  replace (st =? 0) with false by (symmetry; apply Z.eqb_neq; lia).
  replace (0 <? st) with true by (symmetry; apply Z.ltb_lt; lia).
  rewrite in_map_iff. intros (i & <- & Hi). apply in_seq in Hi.
  exists (Z.of_nat i). split; [lia |]. split; [reflexivity |].
  set (N := (e - s + st - 1) / st) in *.
  assert (HN : 0 < N) by lia.
  pose proof (Z.mul_div_le (e - s + st - 1) st Hst) as Hle. fold N in Hle.
  assert (Z.of_nat i <= N - 1) by lia. nia.
Qed.

Lemma range3_In_rev (s e st i : Z) :
  0 < st -> 0 <= i -> s + i * st < e -> In (s + i * st) (range3 s e st).
Proof.
  intros Hst Hi Hlt. unfold range3.
  replace (st =? 0) with false by (symmetry; apply Z.eqb_neq; lia).
  replace (0 <? st) with true by (symmetry; apply Z.ltb_lt; lia).
  apply in_map_iff. exists (Z.to_nat i). split; [rewrite Z2Nat.id by lia; reflexivity |].
  apply in_seq. split; [lia |]. cbn.
  assert (i + 1 <= (e - s + st - 1) / st); [| lia].
  apply Z.div_le_lower_bound; [lia | nia].
Qed.

Lemma range2_nil (lo hi : Z) : hi <= lo -> range2 lo hi = [].
Proof.
  intros H. unfold range2, range3. cbn [Z.eqb Z.ltb Z.compare].
  replace (Z.to_nat ((hi - lo + 1 - 1) / 1)) with O; [reflexivity |].
  rewrite Z.div_1_r. lia.
Qed.

Lemma range2_cons (lo hi : Z) : lo < hi -> range2 lo hi = lo :: range2 (lo + 1) hi.
Proof.
  intros H. unfold range2, range3. cbn [Z.eqb Z.ltb Z.compare].
  rewrite !Z.div_1_r.
  replace (Z.to_nat (hi - lo + 1 - 1)) with (S (Z.to_nat (hi - (lo + 1) + 1 - 1))) by lia.
  cbn [seq map]. f_equal; [cbn; lia |].
  rewrite <- seq_shift, map_map. apply map_ext. intros i. lia.
Qed.

Lemma fold_range2_inv {A : Type} (P : Z -> A -> Prop) (f : A -> Z -> A) (hi : Z) :
  forall (n : nat) (lo : Z) (acc : A),
  Z.of_nat n = hi - lo -> P lo acc ->
  (forall i x, lo <= i < hi -> P i x -> P (i + 1) (f x i)) ->
  P hi (fold_left f (range2 lo hi) acc).
Proof.
  induction n as [| n IH]; intros lo acc Hn HP Hstep.
  - rewrite range2_nil by lia. cbn. replace hi with lo by lia. exact HP.
  - rewrite range2_cons by lia. cbn [fold_left].
    apply IH; [lia | apply Hstep; [lia | exact HP] |].
    intros i x Hi. apply Hstep. lia.
Qed.

(** ** Congruences *)

Lemma cong_iff_divide (m x y : Z) : 0 < m -> (x mod m = y mod m <-> (m | x - y)).
Proof.
  intros Hm. split.
  - intros H. apply Z.mod_divide; [lia |]. rewrite Zminus_mod, H, Z.sub_diag.
    apply Z.mod_0_l. lia.
  - intros [c Hc]. replace x with (y + c * m) by lia. apply Z_mod_plus_full.
Qed.

Lemma cong_divide_trans (m n x y : Z) :
  0 < m -> 0 < n -> (m | n) -> x mod n = y mod n -> x mod m = y mod m.
Proof.
  intros Hm Hn Hd H. apply cong_iff_divide; [exact Hm |].
  apply (Z.divide_trans _ n); [exact Hd |]. now apply cong_iff_divide.
Qed.

Lemma cong_pow (m x y e : Z) : x mod m = y mod m -> x ^ e mod m = y ^ e mod m.
Proof. intros H. rewrite <- (Z.mod_pow_l x), <- (Z.mod_pow_l y), H. reflexivity. Qed.

Lemma cong_mul (m x x' y y' : Z) :
  x mod m = x' mod m -> y mod m = y' mod m -> (x * y) mod m = (x' * y') mod m.
Proof. intros H1 H2. rewrite (Zmult_mod x), (Zmult_mod x'), H1, H2. reflexivity. Qed.

Lemma neg_square (m r : Z) : ((m - r) * (m - r)) mod m = (r * r) mod m.
Proof.
  replace ((m - r) * (m - r)) with (r * r + (m - 2 * r) * m) by ring.
  apply Z_mod_plus_full.
Qed.

Lemma sorted_In (x : Z) (l : list Z) : In x (sorted l) <-> In x l.
Proof.
  assert (Hins : forall y l', In x (insert_sorted y l') <-> x = y \/ In x l').
  { intros y l'. induction l' as [| z l' IH]; cbn [insert_sorted].
    - cbn. intuition.
    - destruct (y <=? z); cbn [In]; [intuition |]. rewrite IH. intuition. }
  unfold sorted. induction l as [| y l IH]; cbn [fold_right]; [tauto |].
  rewrite Hins, IH. cbn [In]. intuition.
Qed.

(** ** Squares modulo a prime *)

Lemma sqrt_of_one (p y : Z) :
  Z.prime p -> (y * y) mod p = 1 -> y mod p = 1 \/ y mod p = p - 1.
Proof.
  intros Hp H. pose proof (Z.prime_ge_2 p Hp).
  assert (Hd : (p | (y - 1) * (y + 1))).
  { replace ((y - 1) * (y + 1)) with (y * y - 1) by ring.
    apply mod_one_divide; [lia | exact H]. }
  apply Z.divide_prime_mul in Hd; [| exact Hp]. destruct Hd as [Hd | Hd].
  - left. apply mod_one_divide; [lia | exact Hd].
  - right. destruct Hd as [c Hc]. replace y with (p - 1 + (c - 1) * p) by lia.
    rewrite Z_mod_plus_full. apply Z.mod_small. lia.
Qed.

Lemma minus_one_square (p y z : Z) :
  1 < p -> y mod p = p - 1 -> z mod p = p - 1 -> (y * z) mod p = 1.
Proof.
  intros Hp Hy Hz. rewrite Zmult_mod, Hy, Hz.
  replace ((p - 1) * (p - 1)) with (1 + (p - 2) * p) by ring.
  rewrite Z_mod_plus_full. apply Z.mod_1_l. lia.
Qed.

Lemma minus_one_times (p y z : Z) :
  1 < p -> y mod p = 1 -> z mod p = p - 1 -> (y * z) mod p = p - 1.
Proof.
  intros Hp Hy Hz. rewrite Zmult_mod, Hy, Hz, Z.mul_1_l. apply Z.mod_small. lia.
Qed.

Lemma minus_one_pow_even (p y i : Z) :
  1 < p -> 0 <= i -> y mod p = p - 1 -> y ^ (2 * i) mod p = 1.
Proof.
  intros Hp Hi Hy. apply pow_mod_one_mul; try lia.
  rewrite Z.pow_2_r. now apply minus_one_square.
Qed.

Lemma minus_one_pow_odd (p y i : Z) :
  1 < p -> 0 <= i -> y mod p = p - 1 -> y ^ (2 * i + 1) mod p = p - 1.
Proof.
  intros Hp Hi Hy. rewrite Z.pow_add_r, Z.pow_1_r by lia.
  apply minus_one_times; auto. now apply minus_one_pow_even.
Qed.

Lemma odd_prime_half (p : Z) : Z.prime p -> p <> 2 -> p - 1 = 2 * ((p - 1) / 2) /\ 0 < (p - 1) / 2.
Proof.
  intros Hp Hne. destruct (odd_prime p Hp Hne) as [H2 Hodd].
  pose proof (Z_div_mod_eq_full p 2). pose proof (Z_div_mod_eq_full (p - 1) 2).
  assert ((p - 1) mod 2 = 0).
  { rewrite Zminus_mod, Hodd. reflexivity. }
  lia.
Qed.

Lemma fermat_half_square (p x : Z) :
  Z.prime p -> p <> 2 -> x mod p <> 0 ->
  (x ^ ((p - 1) / 2) * x ^ ((p - 1) / 2)) mod p = 1.
Proof.
  intros Hp Hne Hx. destruct (odd_prime_half p Hp Hne) as [Hh Hpos].
  rewrite <- Z.pow_add_r by lia.
  replace ((p - 1) / 2 + (p - 1) / 2) with (p - 1) by lia.
  now apply Z.fermat_nz.
Qed.

Lemma generator_half (p g : Z) :
  Z.prime p -> p <> 2 -> 0 < g < p ->
  (forall k, 0 <= k -> g ^ k mod p = 1 -> (p - 1 | k)) ->
  g ^ ((p - 1) / 2) mod p = p - 1.
Proof.
  intros Hp Hne Hg Hord. destruct (odd_prime_half p Hp Hne) as [Hh Hpos].
  assert (Hgp : g mod p <> 0) by (rewrite Z.mod_small; lia).
  destruct (sqrt_of_one p _ Hp (fermat_half_square p g Hp Hne Hgp)) as [H1 | H1];
    [exfalso | exact H1].
  pose proof (Hord ((p - 1) / 2) ltac:(lia) H1) as Hd.
  pose proof (Z.divide_pos_le _ _ Hpos Hd). lia.
Qed.

Lemma euler_criterion_residue (p a x : Z) :
  Z.prime p -> p <> 2 -> a mod p <> 0 -> (x * x) mod p = a mod p ->
  a ^ ((p - 1) / 2) mod p = 1.
Proof.
  intros Hp Hne Ha Hx. destruct (odd_prime_half p Hp Hne) as [Hh Hpos].
  pose proof (Z.prime_ge_2 p Hp).
  assert (Hxp : x mod p <> 0).
  { intros E. apply Ha. rewrite <- Hx, Zmult_mod, E. reflexivity. }
  rewrite <- (cong_pow p (x * x) a _ Hx).
  rewrite <- Z.pow_2_r, <- Z.pow_mul_r by lia.
  replace (2 * ((p - 1) / 2)) with (p - 1) by lia.
  now apply Z.fermat_nz.
Qed.

Lemma euler_criterion_nonresidue (p d : Z) :
  Z.prime p -> p <> 2 -> d mod p <> 0 ->
  (forall x, (x * x) mod p <> d mod p) ->
  d ^ ((p - 1) / 2) mod p = p - 1.
Proof.
  intros Hp Hne Hd Hnr. destruct (odd_prime_half p Hp Hne) as [Hh Hpos].
  pose proof (Z.prime_ge_2 p Hp).
  destruct (NatBridge.prime_generator p Hp) as (g & Hg & Hord & Hgen).
  destruct (Hgen d Hd) as (j & Hj & Hgj).
  pose proof (generator_half p g Hp Hne Hg Hord) as Hhalf.
  rewrite <- (cong_pow p (g ^ j) d _ Hgj).
  rewrite <- Z.pow_mul_r, Z.mul_comm, Z.pow_mul_r by lia.
  pose proof (Z_div_mod_eq_full j 2) as Hj2.
  pose proof (Z.mod_pos_bound j 2 ltac:(lia)) as Hr.
  assert (Hq : 0 <= j / 2) by (apply Z.div_pos; lia).
  destruct (Z.eq_dec (j mod 2) 0) as [E | E].
  - exfalso. apply (Hnr (g ^ (j / 2))).
    rewrite <- Hgj. rewrite <- Z.pow_add_r; [| exact Hq | exact Hq].
    replace (j / 2 + j / 2) with j by lia. reflexivity.
  - assert (Ej : j = 2 * (j / 2) + 1) by lia. rewrite Ej.
    apply minus_one_pow_odd; [lia | exact Hq | exact Hhalf].
Qed.

(** The second supplement to quadratic reciprocity, for [p = 5 (mod 8)]. *)
Lemma two_nonresidue (p : Z) :
  Z.prime p -> p mod 8 = 5 -> 2 ^ ((p - 1) / 2) mod p = p - 1.
Proof.
  intros Hp H8. pose proof (Z.prime_ge_2 p Hp).
  pose proof (Z_div_mod_eq_full p 8) as Hp8. rewrite H8 in Hp8.
  set (c := p / 8) in *. assert (Hc : 0 <= c) by lia.
  assert (Hne : p <> 2) by lia.
  assert (E2 : (p - 1) / 2 = 2 * (2 * c + 1)).
  { replace (p - 1) with ((2 * (2 * c + 1)) * 2) by lia. apply Z.div_mul. lia. }
  destruct (NatBridge.prime_generator p Hp) as (g & Hg & Hord & _).
  pose proof (generator_half p g Hp Hne Hg Hord) as Hhalf. rewrite E2 in Hhalf.
  (* [i] is a square root of -1 *)
  set (i := g ^ (2 * c + 1)).
  assert (Hi2 : (i * i) mod p = p - 1).
  { unfold i. rewrite <- Z.pow_add_r by lia.
    replace (2 * c + 1 + (2 * c + 1)) with (2 * (2 * c + 1)) by lia. exact Hhalf. }
  assert (Hi1 : (1 + i) mod p <> 0).
  { intros E. apply Z.mod_divide in E; [| lia]. destruct E as [k Hk].
    assert (Hsq : (i * i) mod p = 1).
    { replace (i * i) with (1 + (k * k * p - 2 * k) * p) by nia.
      rewrite Z_mod_plus_full. apply Z.mod_1_l. lia. }
    lia. }
  (* [(1 + i)^2 = 2 i] *)
  assert (Hsq : ((1 + i) * (1 + i)) mod p = (2 * i) mod p).
  { apply cong_iff_divide; [lia |].
    replace ((1 + i) * (1 + i) - 2 * i) with (1 + i * i) by ring.
    apply Z.mod_divide; [lia |]. rewrite Zplus_mod, Hi2.
    rewrite Z.mod_1_l by lia. replace (1 + (p - 1)) with p by lia. apply Z_mod_same_full. }
  assert (H2i : (2 * i) ^ ((p - 1) / 2) mod p = 1).
  { assert (Ha : (2 * i) mod p <> 0).
    { rewrite <- Hsq. intros E. apply Z.mod_divide in E; [| lia].
      apply Z.divide_prime_mul in E; [| exact Hp].
      assert (Hd : (p | 1 + i)) by tauto. apply Hi1. apply Z.mod_divide; [lia | exact Hd]. }
    now apply (euler_criterion_residue p (2 * i) (1 + i)). }
  assert (Hi : i ^ ((p - 1) / 2) mod p = p - 1).
  { rewrite E2. rewrite Z.pow_mul_r, Z.pow_2_r by lia.
    apply minus_one_pow_odd; [lia | lia | exact Hi2]. }
  rewrite Z.pow_mul_l in H2i.
  destruct (sqrt_of_one p (2 ^ ((p - 1) / 2)) Hp) as [H1 | H1]; [| | exact H1].
  - rewrite <- Z.pow_add_r by lia.
    replace ((p - 1) / 2 + (p - 1) / 2) with (p - 1) by lia.
    apply Z.fermat_nz; [exact Hp |]. rewrite Z.mod_small; lia.
  - exfalso. rewrite (minus_one_times p _ _ ltac:(lia) H1 Hi) in H2i. lia.
Qed.

(** ** The symbols *)

Lemma legendre_one (a p : Z) :
  0 < p -> legendre a p = 1 -> a mod p <> 0 /\ exists x, (x * x) mod p = a mod p.
Proof.
  intros Hp. unfold legendre.
  destruct (Z.eqb_spec (a mod p) 0) as [E | E]; [discriminate |].
  destruct (existsb _ _) eqn:Hex; [| discriminate]. intros _. split; [exact E |].
  apply existsb_exists in Hex. destruct Hex as (x & _ & Hx).
  exists x. now apply Z.eqb_eq.
Qed.

Lemma legendre_minus_one (a p : Z) :
  1 < p -> legendre a p = -1 -> a mod p <> 0 /\ forall x, (x * x) mod p <> a mod p.
Proof.
  intros Hp. unfold legendre.
  destruct (Z.eqb_spec (a mod p) 0) as [E | E]; [discriminate |].
  destruct (existsb _ _) eqn:Hex; [discriminate |]. intros _. split; [exact E |].
  intros x Hx.
  pose proof (Z.mod_pos_bound x p ltac:(lia)) as Hr.
  assert (Hx' : ((x mod p) * (x mod p)) mod p = a mod p) by (now rewrite <- Zmult_mod).
  destruct (Z.eq_dec (x mod p) 0) as [E0 | E0].
  - rewrite E0, Z.mul_0_l, Z.mod_0_l in Hx' by lia. congruence.
  - assert (Hin : In (x mod p) (range2 1 p)).
    { replace (x mod p) with (1 + (x mod p - 1) * 1) by lia.
      apply range3_In_rev; lia. }
    assert (Htrue : existsb (fun x => (x * x) mod p =? a mod p) (range2 1 p) = true).
    { apply existsb_exists. exists (x mod p). split; [exact Hin | now apply Z.eqb_eq]. }
    congruence.
Qed.

Lemma legendre_residue (a p x : Z) :
  1 < p -> a mod p <> 0 -> (x * x) mod p = a mod p -> legendre a p = 1.
Proof.
  intros Hp Ha Hx. unfold legendre.
  destruct (Z.eqb_spec (a mod p) 0) as [E | _]; [contradiction |].
  destruct (existsb _ _) eqn:Hex; [reflexivity | exfalso].
  assert (H : legendre a p = -1).
  { unfold legendre. destruct (Z.eqb_spec (a mod p) 0); [contradiction |]. now rewrite Hex. }
  destruct (legendre_minus_one a p Hp H) as [_ Hno]. exact (Hno x Hx).
Qed.

Lemma jacobi_prime (a p : Z) : Z.prime p -> jacobi a p = legendre a p.
Proof.
  intros Hp. unfold jacobi. rewrite (factorint_prime p Hp). cbn [fold_right fst snd].
  rewrite Z.pow_1_r. ring.
Qed.

(** ** Roots modulo a power of two *)

Lemma shiftr_exact (nx c : Z) : 0 <= nx -> Z.shiftr (2 ^ nx * c) nx = c.
Proof.
  intros H. rewrite Z.shiftr_div_pow2 by lia. rewrite Z.mul_comm. apply Z.div_mul.
  apply Z.pow_nonzero; lia.
Qed.

Lemma pow2_split (n m : Z) : 0 <= m <= n -> 2 ^ n = 2 ^ m * 2 ^ (n - m).
Proof. intros H. rewrite <- Z.pow_add_r by lia. f_equal. lia. Qed.

Lemma lift_bit (a r nx : Z) :
  3 <= nx -> r mod 2 = 1 -> (2 ^ nx | r * r - a) ->
  let r' := if Z.shiftr (r ^ 2 - a) nx mod 2 =? 1 then r + Z.shiftl 1 (nx - 1) else r in
  r' mod 2 = 1 /\ (2 ^ (nx + 1) | r' * r' - a).
Proof.
  intros Hnx Hodd [c Hc]. rewrite Z.pow_2_r, Hc, (Z.mul_comm c), shiftr_exact by lia.
  rewrite Z.shiftl_1_l.
  assert (Hp1 : 2 ^ (nx + 1) = 2 * 2 ^ nx) by (rewrite Z.pow_add_r, Z.pow_1_r by lia; ring).
  pose proof (Z.mod_pos_bound c 2 ltac:(lia)) as Hcb.
  pose proof (Z_div_mod_eq_full c 2) as Hcd.
  pose proof (Z_div_mod_eq_full r 2) as Hrd. rewrite Hodd in Hrd.
  destruct (Z.eqb_spec (c mod 2) 1) as [E | E]; cbv zeta.
  - assert (Hh : 2 ^ (nx - 1) = 2 * 2 ^ (nx - 2)).
    { rewrite <- (Z.pow_1_r 2) at 2. rewrite <- Z.pow_add_r by lia. f_equal. lia. }
    assert (Hn : 2 ^ nx = 2 * 2 ^ (nx - 1)).
    { rewrite <- (Z.pow_1_r 2) at 2. rewrite <- Z.pow_add_r by lia. f_equal. lia. }
    assert (Hsq : 2 ^ (nx - 1) * 2 ^ (nx - 1) = 2 ^ (nx + 1) * 2 ^ (nx - 3)).
    { rewrite <- !Z.pow_add_r by lia. f_equal. lia. }
    split.
    + rewrite Hh. replace (r + 2 * 2 ^ (nx - 2)) with (r + 2 ^ (nx - 2) * 2) by ring.
      rewrite Z_mod_plus_full. exact Hodd.
    + exists (c / 2 + r / 2 + 1 + 2 ^ (nx - 3)).
      replace ((r + 2 ^ (nx - 1)) * (r + 2 ^ (nx - 1)) - a)
        with (r * r - a + r * (2 * 2 ^ (nx - 1)) + 2 ^ (nx - 1) * 2 ^ (nx - 1)) by ring.
      rewrite Hc, <- Hn, Hsq, Hp1. rewrite Hcd at 1. rewrite Hrd at 1. rewrite E. ring.
  - split; [exact Hodd |]. exists (c / 2). rewrite Hc, Hp1. rewrite Hcd at 1.
    replace (c mod 2) with 0 by lia. ring.
Qed.

Lemma odd_roots_small (a k r : Z) :
  1 <= k <= 3 -> (a mod 2 ^ k) mod 8 = 1 -> In r (range3 1 (2 ^ k) 2) ->
  (r * r) mod 2 ^ k = a mod 2 ^ k.
Proof.
  intros Hk Ha Hin. apply range3_In in Hin; [| lia]. destruct Hin as (i & Hi & -> & Hlt).
  assert (Hpk : 0 < 2 ^ k) by (apply Z.pow_pos_nonneg; lia).
  assert (Hd8 : (2 ^ k | 8)).
  { exists (2 ^ (3 - k)). change 8 with (2 ^ 3). rewrite <- Z.pow_add_r by lia. f_equal. lia. }
  pose proof (Z.mod_pos_bound a (2 ^ k) Hpk) as Hab.
  assert (Hle : 2 ^ k <= 8) by (apply Z.divide_pos_le; [lia | exact Hd8]).
  assert (Ha1 : a mod 2 ^ k = 1) by (rewrite Z.mod_small in Ha; lia).
  rewrite Ha1. apply mod_one_divide.
  - assert (2 ^ 1 <= 2 ^ k) by (apply Z.pow_le_mono_r; lia). lia.
  - apply (Z.divide_trans _ 8); [exact Hd8 |].
    apply odd_square_mod_8.
    replace (1 + i * 2) with (1 + i * 2) by lia. rewrite Z_mod_plus_full. reflexivity.
Qed.

Lemma pow2_roots_sound (a k r : Z) :
  3 < k -> (a mod 2 ^ k) mod 8 = 1 ->
  let a' := a mod 2 ^ k in
  let r0 := fold_left
              (fun r nx => if Z.shiftr (r ^ 2 - a') nx mod 2 =? 1
                           then r + Z.shiftl 1 (nx - 1) else r)
              (range2 3 k) 1 in
  let h := Z.shiftl 1 (k - 1) in
  In r [r0; 2 ^ k - r0; (r0 + h) mod 2 ^ k; (- (r0 + h)) mod 2 ^ k] ->
  (r * r) mod 2 ^ k = a mod 2 ^ k.
Proof.
  intros Hk Ha a' r0 h Hin.
  assert (Hpk : 0 < 2 ^ k) by (apply Z.pow_pos_nonneg; lia).
  assert (Hinv : r0 mod 2 = 1 /\ (2 ^ k | r0 * r0 - a')).
  { unfold r0.
    apply (fold_range2_inv (fun nx r => r mod 2 = 1 /\ (2 ^ nx | r * r - a'))
             _ k (Z.to_nat (k - 3)) 3 1); [lia | |].
    - split; [reflexivity |]. change (2 ^ 3) with 8. 
      apply cong_iff_divide; [lia |]. symmetry. exact Ha.
    - intros i x Hi [Hx1 Hx2]. apply (lift_bit a' x i); auto; lia. }
  destruct Hinv as [_ Hdiv].
  assert (Hr0 : (r0 * r0) mod 2 ^ k = a mod 2 ^ k).
  { transitivity (a' mod 2 ^ k); [| unfold a'; apply Zmod_mod].
    apply cong_iff_divide; auto. }
  assert (Hh : ((r0 + h) * (r0 + h)) mod 2 ^ k = a mod 2 ^ k).
  { rewrite <- Hr0. apply cong_iff_divide; [lia |]. unfold h. rewrite Z.shiftl_1_l.
    exists (r0 + 2 ^ (k - 2)).
    replace ((r0 + 2 ^ (k - 1)) * (r0 + 2 ^ (k - 1)) - r0 * r0)
      with (r0 * (2 * 2 ^ (k - 1)) + 2 ^ (k - 1) * 2 ^ (k - 1)) by ring.
    replace (2 * 2 ^ (k - 1)) with (2 ^ k).
    2:{ rewrite <- (Z.pow_1_r 2) at 2. rewrite <- Z.pow_add_r by lia. f_equal. lia. }
    replace (2 ^ (k - 1) * 2 ^ (k - 1)) with (2 ^ (k - 2) * 2 ^ k).
    2:{ rewrite <- !Z.pow_add_r by lia. f_equal. lia. }
    ring. }
  destruct Hin as [<- | [<- | [<- | [<- | []]]]].
  - exact Hr0.
  - rewrite neg_square. exact Hr0.
  - rewrite <- Zmult_mod. exact Hh.
  - rewrite <- Zmult_mod. rewrite <- Hh. f_equal. ring.
Qed.


(** ** Tonelli-Shanks *)

Lemma ret_pair_inv {A : Type} (x y : A) (g g' : RNG) :
  @Ret (A * RNG) (x, g) = Ret (y, g') -> x = y /\ g = g'.
Proof. intros H. injection H. auto. Qed.

Lemma some_inv {A : Type} (x y : A) : Some x = Some y -> x = y.
Proof. intros H. injection H. auto. Qed.

Ltac subst_by H :=
  match type of H with
  | ?x = ?y => first [subst y | subst x]
  end.

Ltac ret_inv H :=
  apply ret_pair_inv in H;
  let E := fresh in
  destruct H as [H E]; try apply some_inv in H; subst_by H; subst_by E.

Lemma nonresidue_loop_spec (rounds : nat) (p : Z) (g g' : RNG) (d : Z) :
  nonresidue_loop rounds p g = Ret (d, g') -> jacobi d p = -1.
Proof.
  revert g. induction rounds as [| r IH]; intros g; cbn [nonresidue_loop]; [discriminate |].
  unfold rbind, randint. destruct (p - 1 <? 2); [discriminate |].
  destruct g as [| x g0]; [discriminate |].
  destruct (Z.eqb_spec (jacobi (2 + x mod (p - 1 - 2 + 1)) p) (-1)) as [E | E].
  - unfold rret. intros H. inversion H; subst. exact E.
  - apply IH.
Qed.

Lemma find_nonresidue_spec (p : Z) (g g' : RNG) (d : Z) :
  find_nonresidue p g = Ret (d, g') -> jacobi d p = -1.
Proof. apply nonresidue_loop_spec. Qed.

(** [p - 1 = 2**s * t] with [t] odd, as [trailing] and the shift find it. *)
Lemma odd_part (p : Z) :
  Z.prime p -> p <> 2 ->
  let s := trailing (p - 1) in
  let t := Z.shiftr p s in
  1 <= s /\ 0 < t /\ t mod 2 = 1 /\ p - 1 = 2 ^ s * t /\ (p - 1) / 2 = t * 2 ^ (s - 1).
Proof.
  intros Hp Hne. destruct (odd_prime p Hp Hne) as [H2 Hodd].
  assert (Hev : (p - 1) mod 2 = 0) by (rewrite Zminus_mod, Hodd; reflexivity).
  unfold trailing.
  pose proof (multiplicity_spec 2 (p - 1) ltac:(lia) ltac:(lia)) as Hm.
  pose proof (multiplicity_pos 2 (p - 1) ltac:(lia) ltac:(lia) Hev) as Hs.
  cbv zeta in Hm. destruct Hm as (_ & Heq & Hnd).
  set (s := multiplicity 2 (p - 1)) in *. set (T := (p - 1) / 2 ^ s) in *.
  assert (Hps : 0 < 2 ^ s) by (apply Z.pow_pos_nonneg; lia).
  assert (H2s : 2 ^ s = 2 * 2 ^ (s - 1)).
  { rewrite <- (Z.pow_1_r 2) at 2. rewrite <- Z.pow_add_r by lia. f_equal. lia. }
  assert (Hps1 : 0 < 2 ^ (s - 1)) by (apply Z.pow_pos_nonneg; lia).
  assert (Ht : Z.shiftr p s = T).
  { rewrite Z.shiftr_div_pow2 by lia.
    replace p with (T * 2 ^ s + 1) by lia.
    rewrite Z.div_add_l by lia. rewrite Z.div_small by lia. lia. }
  cbv zeta. rewrite Ht.
  pose proof (Z.mod_pos_bound T 2 ltac:(lia)).
  assert (0 < T) by nia.
  repeat split; try lia.
  replace (p - 1) with (T * 2 ^ (s - 1) * 2) by lia. apply Z.div_mul. lia.
Qed.

Lemma pow_pow_mod (b e f p : Z) :
  0 <= e -> 0 <= f -> (b ^ e mod p) ^ f mod p = b ^ (e * f) mod p.
Proof. intros He Hf. rewrite Z.mod_pow_l, Z.pow_mul_r by lia. reflexivity. Qed.

Lemma tonelli_shanks_sound (a p : Z) (g g' : RNG) (x : Z) :
  Z.prime p -> p <> 2 -> a mod p <> 0 -> (exists y, (y * y) mod p = a mod p) ->
  _sqrt_mod_tonelli_shanks a p g = Ret (x, g') ->
  (x * x) mod p = a mod p.
Proof.
  intros Hp Hne Ha (y0 & Hy0). pose proof (Z.prime_ge_2 p Hp) as Hp2.
  unfold _sqrt_mod_tonelli_shanks, rbind.
  destruct (find_nonresidue p g) as [[d g1] | |] eqn:Hfind; try discriminate.
  pose proof (find_nonresidue_spec p g g1 d Hfind) as Hjac.
  rewrite (jacobi_prime d p Hp) in Hjac.
  destruct (legendre_minus_one d p ltac:(lia) Hjac) as [Hd Hnr].
  destruct (odd_part p Hp Hne) as (Hs & Ht & Htodd & Hpst & Hhalf).
  set (s := trailing (p - 1)) in *. set (t := Z.shiftr p s) in *.
  assert (Hps1 : 0 < 2 ^ (s - 1)) by (apply Z.pow_pos_nonneg; lia).
  rewrite !(powmod_spec _ t) by lia.
  set (A := a ^ t mod p). set (D := d ^ t mod p).
  assert (HA : A ^ 2 ^ (s - 1) mod p = 1).
  { unfold A. rewrite pow_pow_mod by lia. rewrite <- Hhalf.
    now apply (euler_criterion_residue p a y0). }
  assert (HD : D ^ 2 ^ (s - 1) mod p = p - 1).
  { unfold D. rewrite pow_pow_mod by lia. rewrite <- Hhalf.
    now apply euler_criterion_nonresidue. }
  set (f := fun m i =>
              if powmod ((A * powmod D m p) mod p) (2 ^ (s - 1 - i)) p mod p =? p - 1
              then m + 2 ^ i else m).
  set (m := fold_left f (range s) 0).
  assert (Hinv : 0 <= m /\ m mod 2 = 0 /\ (s = 0 -> m = 0) /\
                 (A * D ^ m) ^ 2 ^ (s - s) mod p = 1).
  { unfold m. change (range s) with (range2 0 s).
    apply (fold_range2_inv
             (fun i m => 0 <= m /\ m mod 2 = 0 /\ (i = 0 -> m = 0) /\
                         (A * D ^ m) ^ 2 ^ (s - i) mod p = 1)
             f s (Z.to_nat s) 0 0); [clear - Hs; lia | |].
    - split; [clear; lia |]. split; [reflexivity |]. split; [reflexivity |].
      rewrite Z.pow_0_r, Z.mul_1_r, Z.sub_0_r.
      replace s with (s - 1 + 1) at 1 by (clear; lia).
      rewrite Z.pow_add_r, Z.pow_1_r by (clear - Hs; lia).
      apply pow_mod_one_mul; [clear - Hps1; lia | clear; lia | exact HA].
    - intros i m0 Hi (Hm0 & Hmev & Hm00 & Hpow). unfold f.
      assert (HE : 0 < 2 ^ (s - 1 - i)) by (apply Z.pow_pos_nonneg; clear - Hi; lia).
      rewrite (powmod_spec D m0) by exact Hm0.
      rewrite powmod_spec by (clear - HE; lia). rewrite Zmod_mod.
      rewrite (cong_pow p ((A * (D ^ m0 mod p)) mod p) (A * D ^ m0)).
      2:{ rewrite Zmod_mod. apply cong_mul; [reflexivity | apply Zmod_mod]. }
      set (B := A * D ^ m0) in *. set (E := 2 ^ (s - 1 - i)) in *.
      assert (H2E : 2 ^ (s - i) = E + E).
      { unfold E. replace (s - i) with (s - 1 - i + 1) by (clear; lia).
        rewrite Z.pow_add_r, Z.pow_1_r by (clear - Hi; lia). ring. }
      assert (Hsq : (B ^ E * B ^ E) mod p = 1).
      { rewrite <- Z.pow_add_r, <- H2E by (clear - HE; lia). exact Hpow. }
      replace (s - (i + 1)) with (s - 1 - i) by (clear; lia). fold E.
      destruct (Z.eqb_spec (B ^ E mod p) (p - 1)) as [Hy | Hy].
      + (* the bit is set *)
        assert (Hi0 : i <> 0).
        { intros ->. unfold B, E in Hy. rewrite (Hm00 eq_refl) in Hy.
          rewrite Z.pow_0_r, Z.mul_1_r, Z.sub_0_r, HA in Hy. clear - Hy Hne. lia. }
        assert (H2i : 0 < 2 ^ i) by (apply Z.pow_pos_nonneg; clear - Hi; lia).
        split; [clear - Hm0 H2i; lia |].
        split; [| split; [clear - Hi; intros; lia |]].
        * rewrite Zplus_mod, Hmev, Z.add_0_l, Zmod_mod.
          replace i with (i - 1 + 1) by (clear; lia).
          rewrite Z.pow_add_r, Z.pow_1_r by (clear - Hi Hi0; lia).
          apply Z_mod_mult.
        * rewrite Z.pow_add_r by (clear - Hm0 H2i; lia). rewrite Z.mul_assoc. fold B.
          rewrite Z.pow_mul_l. apply minus_one_square; [clear - Hp2 Hne; lia | exact Hy |].
          rewrite <- Z.pow_mul_r by (clear - Hi HE H2i; lia).
          unfold E. rewrite <- Z.pow_add_r by (clear - Hi; lia).
          replace (i + (s - 1 - i)) with (s - 1) by (clear; lia). exact HD.
      + destruct (sqrt_of_one p (B ^ E) Hp Hsq) as [H1 | H1]; [| contradiction].
        split; [exact Hm0 |]. split; [exact Hmev |].
        split; [clear - Hi; intros; lia | exact H1]. }
  destruct Hinv as (Hm0 & Hmev & _ & Hfin).
  rewrite Z.sub_diag, Z.pow_0_r, Z.pow_1_r in Hfin.
  unfold rret. intros H. ret_inv H.
  fold m. rewrite !powmod_spec.
  2:{ apply Z.div_pos; lia. }
  2:{ apply Z.div_pos; lia. }
  rewrite <- (Zmult_mod (a ^ ((t + 1) / 2)) (D ^ (m / 2))). rewrite <- Zmult_mod.
  assert (Ht2 : (t + 1) / 2 + (t + 1) / 2 = t + 1).
  { pose proof (Z_div_mod_eq_full (t + 1) 2) as Hq.
    assert (Hr : (t + 1) mod 2 = 0) by (rewrite Zplus_mod, Htodd; reflexivity).
    clear - Hq Hr. lia. }
  assert (Hm2 : m / 2 + m / 2 = m).
  { pose proof (Z_div_mod_eq_full m 2) as Hq. clear - Hq Hmev. lia. }
  assert (Hq1 : 0 <= (t + 1) / 2) by (apply Z.div_pos; lia).
  assert (Hq2 : 0 <= m / 2) by (apply Z.div_pos; lia).
  replace (a ^ ((t + 1) / 2) * D ^ (m / 2) * (a ^ ((t + 1) / 2) * D ^ (m / 2)))
    with (a ^ ((t + 1) / 2 + (t + 1) / 2) * D ^ (m / 2 + m / 2)).
  2:{ rewrite !Z.pow_add_r by lia. ring. }
  rewrite Ht2, Hm2. rewrite Z.pow_add_r, Z.pow_1_r by lia.
  replace (a ^ t * a * D ^ m) with (a * (a ^ t * D ^ m)) by ring.
  rewrite Zmult_mod.
  rewrite (cong_mul p (a ^ t) A (D ^ m) (D ^ m)); [| unfold A; now rewrite Zmod_mod | reflexivity].
  rewrite Hfin, Z.mul_1_r. apply Zmod_mod.
Qed.

(** ** Roots modulo an odd prime, and their lifting *)

Lemma root_3_mod_4 (a p : Z) :
  Z.prime p -> p mod 4 = 3 -> a mod p <> 0 -> (exists x, (x * x) mod p = a mod p) ->
  let res := powmod a ((p + 1) / 4) p in (res * res) mod p = a mod p.
Proof.
  intros Hp H4 Ha (x & Hx) res. pose proof (Z.prime_ge_2 p Hp).
  pose proof (Z_div_mod_eq_full p 4) as Hp4. rewrite H4 in Hp4. set (c := p / 4) in *.
  assert (Hne : p <> 2) by lia.
  assert (E1 : (p + 1) / 4 = c + 1).
  { replace (p + 1) with ((c + 1) * 4) by lia. apply Z.div_mul. lia. }
  assert (E2 : (p - 1) / 2 = 2 * c + 1).
  { replace (p - 1) with ((2 * c + 1) * 2) by lia. apply Z.div_mul. lia. }
  pose proof (euler_criterion_residue p a x Hp Hne Ha Hx) as He. rewrite E2 in He.
  unfold res. rewrite E1, powmod_spec by lia. rewrite <- Zmult_mod.
  rewrite <- Z.pow_add_r by lia. replace (c + 1 + (c + 1)) with (2 * c + 1 + 1) by lia.
  rewrite Z.pow_add_r, Z.pow_1_r by lia. rewrite Zmult_mod, He, Z.mul_1_l. apply Zmod_mod.
Qed.

Lemma root_5_mod_8 (a p : Z) :
  Z.prime p -> p mod 8 = 5 -> a mod p <> 0 -> (exists x, (x * x) mod p = a mod p) ->
  let res := powmod a ((p + 3) / 8) p in
  let res' := if negb (powmod res 2 p =? a mod p)
              then (res * powmod 2 ((p - 1) / 4) p) mod p else res in
  (res' * res') mod p = a mod p.
Proof.
  intros Hp H8 Ha (x & Hx) res res'. pose proof (Z.prime_ge_2 p Hp).
  pose proof (Z_div_mod_eq_full p 8) as Hp8. rewrite H8 in Hp8. set (c := p / 8) in *.
  assert (Hne : p <> 2) by lia.
  assert (E1 : (p + 3) / 8 = c + 1).
  { replace (p + 3) with ((c + 1) * 8) by lia. apply Z.div_mul. lia. }
  assert (E2 : (p - 1) / 2 = 2 * (2 * c + 1)).
  { replace (p - 1) with ((2 * (2 * c + 1)) * 2) by lia. apply Z.div_mul. lia. }
  assert (E4 : (p - 1) / 4 = 2 * c + 1).
  { replace (p - 1) with ((2 * c + 1) * 4) by lia. apply Z.div_mul. lia. }
  pose proof (euler_criterion_residue p a x Hp Hne Ha Hx) as He. rewrite E2 in He.
  pose proof (two_nonresidue p Hp H8) as H2. rewrite E2 in H2.
  assert (Hres : (res * res) mod p = (a * a ^ (2 * c + 1)) mod p).
  { unfold res. rewrite E1, powmod_spec by lia. rewrite <- Zmult_mod.
    rewrite <- Z.pow_add_r by lia. replace (c + 1 + (c + 1)) with (1 + (2 * c + 1)) by lia.
    rewrite Z.pow_add_r, Z.pow_1_r by lia. reflexivity. }
  unfold res'. rewrite (powmod_spec res 2) by lia. rewrite Z.pow_2_r.
  destruct (Z.eqb_spec ((res * res) mod p) (a mod p)) as [E | E]; cbn [negb]; [exact E |].
  rewrite E4, powmod_spec by lia.
  rewrite <- Zmult_mod.
  rewrite (cong_mul p _ (res * 2 ^ (2 * c + 1)) _ (res * 2 ^ (2 * c + 1)))
    by apply Zmult_mod_idemp_r.
  assert (Hsq : (a ^ (2 * c + 1) * a ^ (2 * c + 1)) mod p = 1).
  { rewrite <- Z.pow_add_r by lia. replace (2 * c + 1 + (2 * c + 1)) with (2 * (2 * c + 1)) by lia.
    exact He. }
  destruct (sqrt_of_one p _ Hp Hsq) as [H1 | H1].
  - exfalso. apply E. rewrite Hres, Zmult_mod, H1, Z.mul_1_r. apply Zmod_mod.
  - replace (res * 2 ^ (2 * c + 1) * (res * 2 ^ (2 * c + 1)))
      with ((res * res) * (2 ^ (2 * c + 1) * 2 ^ (2 * c + 1))) by ring.
    rewrite <- (Z.pow_add_r 2) by lia.
    replace (2 * c + 1 + (2 * c + 1)) with (2 * (2 * c + 1)) by lia.
    rewrite Zmult_mod, Hres, <- Zmult_mod.
    replace (a * a ^ (2 * c + 1) * 2 ^ (2 * (2 * c + 1)))
      with (a * (a ^ (2 * c + 1) * 2 ^ (2 * (2 * c + 1)))) by ring.
    rewrite Zmult_mod, (minus_one_square p _ _ ltac:(lia) H1 H2), Z.mul_1_r. apply Zmod_mod.
Qed.

Lemma mul_divide_both (a b c d : Z) : (a | b) -> (c | d) -> (a * c | b * d).
Proof. intros [x ->] [y ->]. exists (x * y). ring. Qed.

Lemma newton_step_sound (a res M res' : Z) :
  0 < M -> (M | (res * res - a) * (res * res - a)) ->
  newton_step a res M = Ret res' -> (M | res' * res' - a).
Proof.
  intros HM Hd. unfold newton_step, invert, obind.
  destruct (Z.eqb_spec M 0) as [E | _]; [lia |].
  destruct (Z.eqb_spec (Z.gcd (2 * res) M) 1) as [Hg | _]; [| discriminate].
  intros H.
  assert (E' : res' = (res - (res ^ 2 - a) * Z.invmod (2 * res) (Z.abs M)) mod M) by congruence.
  rewrite E'. clear H E'.
  rewrite Z.abs_eq by lia. set (f := Z.invmod (2 * res) M).
  assert (Hf : (M | f * (2 * res) - 1)).
  { apply cong_iff_divide; [lia |]. unfold f. rewrite Z.invmod_ok, Hg. reflexivity. }
  rewrite Z.pow_2_r. set (r2 := res * res - a) in *.
  apply cong_iff_divide; [lia |].
  rewrite <- Zmult_mod.
  apply cong_iff_divide; [lia |].
  replace ((res - r2 * f) * (res - r2 * f) - a)
    with (r2 * r2 * (f * f) - r2 * (f * (2 * res) - 1)) by (unfold r2; ring).
  apply Z.divide_sub_r.
  - now apply Z.divide_mul_l.
  - now apply Z.divide_mul_r.
Qed.

Lemma newton_loop_sound (rounds : nat) :
  forall a res px res' px',
  0 < px -> (px | res * res - a) ->
  newton_loop rounds a res px = Ret (res', px') ->
  px' = px ^ 2 ^ Z.of_nat rounds /\ 0 < px' /\ (px' | res' * res' - a).
Proof.
  induction rounds as [| r IH]; intros a res px res' px' Hpx Hd; cbn [newton_loop].
  - intros H. inversion H; subst. rewrite Z.pow_0_r, Z.pow_1_r. auto.
  - unfold obind. destruct (newton_step a res (px ^ 2)) as [r1 | |] eqn:Hstep; try discriminate.
    intros Hloop.
    assert (Hpx2 : 0 < px ^ 2) by (apply Z.pow_pos_nonneg; lia).
    assert (Hd2 : (px ^ 2 | r1 * r1 - a)).
    { apply (newton_step_sound a res); [exact Hpx2 | | exact Hstep].
      rewrite Z.pow_2_r. now apply mul_divide_both. }
    destruct (IH a r1 (px ^ 2) res' px' Hpx2 Hd2 Hloop) as (E & Hpos & Hdiv).
    split; [| auto]. rewrite E, <- Z.pow_mul_r by lia. f_equal.
    rewrite Nat2Z.inj_succ, Z.pow_succ_r by lia. reflexivity.
Qed.

(** [k & (k - 1) == 0] recognises the powers of two. *)
Lemma land_pred_zero (k : Z) : 0 < k -> Z.land k (k - 1) = 0 -> k = 2 ^ Z.log2 k.
Proof.
  intros Hk Hl. destruct (Z.log2_spec k Hk) as [Hlo Hhi].
  pose proof (Z.log2_nonneg k) as Hl0.
  destruct (Z.eq_dec k (2 ^ Z.log2 k)) as [E | E]; [exact E | exfalso].
  assert (Hlog : Z.log2 (k - 1) = Z.log2 k).
  { apply Z.log2_unique; [exact Hl0 | lia]. }
  assert (Hb : Z.testbit (Z.land k (k - 1)) (Z.log2 k) = true).
  { rewrite Z.land_spec, Z.bit_log2 by lia. rewrite <- Hlog.
    rewrite Z.bit_log2; [reflexivity |].
    assert (0 < 2 ^ Z.log2 k) by (apply Z.pow_pos_nonneg; lia). lia. }
  rewrite Hl, Z.bits_0 in Hb. discriminate.
Qed.

Lemma sqrt_mod_prime_power_sound (a p k : Z) (g g' : RNG) (l : list Z) :
  Z.prime p -> 1 <= k ->
  _sqrt_mod_prime_power a p k g = Ret (Some l, g') ->
  forall r, In r l -> (r * r) mod p ^ k = a mod p ^ k.
Proof.
  intros Hp Hk. pose proof (Z.prime_ge_2 p Hp) as Hp2.
  assert (Hpk : 0 < p ^ k) by (apply Z.pow_pos_nonneg; lia).
  unfold _sqrt_mod_prime_power. set (a0 := a mod p ^ k).
  assert (Ha0 : a0 mod p ^ k = a0) by (unfold a0; apply Zmod_mod).
  destruct (Z.eqb_spec p 2) as [E2 | Hne].
  - subst p. destruct (Z.eqb_spec (a0 mod 8) 1) as [H8 | H8]; cbn [negb]; [| discriminate].
    destruct (Z.leb_spec k 3) as [Hk3 | Hk3]; unfold rret; intros H; ret_inv H;
      intros r Hin.
    + apply odd_roots_small; [lia | exact H8 | exact Hin].
    + apply (proj1 (sorted_In _ _)) in Hin. apply pow2_roots_sound; [lia | exact H8 | exact Hin].
  - rewrite (jacobi_prime a0 p Hp).
    destruct (Z.eqb_spec (legendre a0 p) 1) as [Hleg | Hleg]; cbn [negb]; [| discriminate].
    destruct (legendre_one a0 p ltac:(lia) Hleg) as [Hnz Hres].
    unfold rbind at 1.
    match goal with |- context [match ?c g with _ => _ end] => destruct (c g) as [[res g1] | |] eqn:Hbase end;
      try discriminate.
    assert (Hroot : (p | res * res - a0)).
    { apply cong_iff_divide; [lia |].
      destruct (Z.eqb_spec (p mod 4) 3) as [H4 | H4].
      - unfold rret in Hbase. ret_inv Hbase.
        now apply root_3_mod_4.
      - destruct (Z.eqb_spec (p mod 8) 5) as [H8 | H8].
        + pose proof (root_5_mod_8 a0 p Hp H8 Hnz Hres) as Hr. cbv zeta in Hr.
          destruct (negb _); unfold rret in Hbase; ret_inv Hbase; exact Hr.
        + now apply (tonelli_shanks_sound a0 p g g1). }
    unfold rbind at 1.
    match goal with |- context [match ?c g1 with _ => _ end] => destruct (c g1) as [[res2 g2] | |] eqn:Hlift end;
      try discriminate.
    unfold rret. intros H. ret_inv H.
    assert (Hroot2 : (p ^ k | res2 * res2 - a0)).
    { destruct (Z.ltb_spec 1 k) as [Hk1 | Hk1].
      - unfold lift, obind in Hlift.
        destruct (newton_loop _ a0 res p) as [[r1 px] | |] eqn:Hloop; try discriminate.
        destruct (newton_loop_sound _ a0 res p r1 px ltac:(lia) Hroot Hloop) as (Epx & Hpx & Hd).
        cbn [fst] in Hlift.
        assert (Hbl : Z.of_nat (Z.to_nat (bit_length k - 1)) = Z.log2 k).
        { unfold bit_length. replace (k =? 0) with false by (symmetry; apply Z.eqb_neq; lia).
          rewrite Z.abs_eq by lia. pose proof (Z.log2_nonneg k). lia. }
        rewrite Hbl in Epx.
        destruct (Z.log2_spec k ltac:(lia)) as [Hlo Hhi].
        pose proof (Z.log2_nonneg k) as Hl0.
        assert (H2l : 0 < 2 ^ Z.log2 k) by (apply Z.pow_pos_nonneg; lia).
        destruct (Z.eqb_spec (Z.land k (k - 1)) 0) as [Hland | Hland]; cbn [negb] in Hlift.
        + ret_inv Hlift.
          rewrite (land_pred_zero k ltac:(lia) Hland). rewrite <- Epx. exact Hd.
        + destruct (newton_step a0 r1 (p ^ k)) as [r2 | |] eqn:Hstep; try discriminate.
          ret_inv Hlift.
          apply (newton_step_sound a0 r1); [exact Hpk | | exact Hstep].
          apply (Z.divide_trans _ (px * px)); [| now apply mul_divide_both].
          rewrite Epx, <- Z.pow_add_r by lia.
          exists (p ^ (2 ^ Z.log2 k + 2 ^ Z.log2 k - k)).
          rewrite <- Z.pow_add_r; [f_equal; lia | | lia].
          rewrite Z.pow_succ_r in Hhi by lia. lia.
      - unfold rret in Hlift. ret_inv Hlift.
        replace k with 1 by lia. rewrite Z.pow_1_r. exact Hroot. }
    intros r Hin. apply (proj1 (sorted_In _ _)) in Hin. rewrite <- Ha0.
    destruct Hin as [<- | [<- | []]].
    + apply cong_iff_divide; [lia | exact Hroot2].
    + rewrite neg_square. apply cong_iff_divide; [lia | exact Hroot2].
Qed.

(** ** Roots of residues divisible by the prime *)

Lemma pow_le_divide (p i j : Z) : 0 <= i <= j -> (p ^ i | p ^ j).
Proof.
  intros H. exists (p ^ (j - i)). rewrite <- Z.pow_add_r by lia. f_equal. lia.
Qed.

Lemma sqrt_mod1_sound (a p n : Z) (g g' : RNG) (rs : rootseq) :
  Z.prime p -> 1 <= n ->
  _sqrt_mod1 a p n g = Ret (rs, g') ->
  forall r, In r (items rs) -> (r * r) mod p ^ n = a mod p ^ n.
Proof.
  intros Hp Hn. pose proof (Z.prime_ge_2 p Hp) as Hp2.
  assert (Hpn : 0 < p ^ n) by (apply Z.pow_pos_nonneg; lia).
  unfold _sqrt_mod1. set (a0 := a mod p ^ n).
  assert (Hbound : 0 <= a0 < p ^ n) by (apply Z.mod_pos_bound; lia).
  destruct (Z.eqb_spec a0 0) as [E0 | E0].
  - unfold rret. intros H. ret_inv H. cbn [items]. intros r Hin.
    assert (Hst : 0 < p ^ ((n + 1) / 2)).
    { apply Z.pow_pos_nonneg; [lia |]. apply Z.div_pos; lia. }
    apply range3_In in Hin; [| exact Hst]. destruct Hin as (i & Hi & -> & _).
    rewrite E0. apply Z.mod_divide; [lia |].
    replace ((0 + i * p ^ ((n + 1) / 2)) * (0 + i * p ^ ((n + 1) / 2)))
      with (i * i * (p ^ ((n + 1) / 2) * p ^ ((n + 1) / 2))) by ring.
    apply Z.divide_mul_r. rewrite <- Z.pow_add_r by (apply Z.div_pos; lia).
    apply pow_le_divide. pose proof (Z_div_mod_eq_full (n + 1) 2).
    pose proof (Z.mod_pos_bound (n + 1) 2 ltac:(lia)). lia.
  - pose proof (multiplicity_spec p a0 Hp2 ltac:(lia)) as Hm. cbv zeta in Hm.
    destruct Hm as (Hr0 & Hfac & _).
    set (r := multiplicity p a0) in *. set (q := a0 / p ^ r) in *.
    destruct (Z.eqb_spec (r mod 2) 1) as [Hodd | Hev].
    { unfold rret. intros H. ret_inv H. cbn [items]. intros x []. }
    assert (Hrn : r < n).
    { destruct (Z.lt_ge_cases r n) as [Hlt | Hge]; [exact Hlt | exfalso].
      assert (Hd : (p ^ n | a0)).
      { rewrite Hfac. apply Z.divide_mul_l. apply pow_le_divide. lia. }
      destruct Hd as [c Hc]. clear - Hc Hbound E0 Hpn.
      assert (Hcs : c <= 0 \/ 1 <= c) by lia. destruct Hcs; nia. }
    unfold rbind.
    destruct (_sqrt_mod_prime_power q p (n - r) g) as [[res g1] | |] eqn:Hpp; try discriminate.
    destruct res as [l |]; unfold rret; intros H; ret_inv H; cbn [items];
      [| intros x []].
    intros x Hin. apply in_flat_map in Hin. destruct Hin as (rx & Hrx & Hin).
    pose proof (sqrt_mod_prime_power_sound q p (n - r) g g1 l Hp ltac:(lia) Hpp rx Hrx) as Hroot.
    assert (Hr2 : r = 2 * (r / 2)).
    { pose proof (Z_div_mod_eq_full r 2) as Hq.
      pose proof (Z.mod_pos_bound r 2 ltac:(lia)) as Hb. clear - Hq Hb Hev. lia. }
    set (m := r / 2) in *.
    assert (Hm0 : 0 <= m) by (clear - Hr0 Hr2; lia).
    assert (HP : 0 < p ^ m) by (apply Z.pow_pos_nonneg; lia).
    assert (HQ : 0 < p ^ (n - r)) by (apply Z.pow_pos_nonneg; lia).
    assert (Hst : 0 < p ^ (n - m)) by (apply Z.pow_pos_nonneg; lia).
    apply range3_In in Hin; [| exact Hst]. destruct Hin as (i & Hi & -> & _).
    apply cong_iff_divide in Hroot; [| exact HQ]. destruct Hroot as [c Hc].
    assert (E1 : p ^ (n - m) = p ^ m * p ^ (n - r)).
    { rewrite <- Z.pow_add_r by lia. f_equal. lia. }
    assert (E2 : p ^ r = p ^ m * p ^ m).
    { rewrite <- Z.pow_add_r by lia. f_equal. lia. }
    assert (E3 : p ^ n = p ^ m * p ^ m * p ^ (n - r)).
    { rewrite <- !Z.pow_add_r by lia. f_equal. lia. }
    rewrite <- (Z.mod_small a0 (p ^ n) Hbound).
    apply cong_iff_divide; [exact Hpn |].
    rewrite Hfac. rewrite E1, E2, E3.
    set (P := p ^ m) in *. set (Q := p ^ (n - r)) in *.
    exists (c + 2 * rx * i + i * i * Q).
    replace ((rx * P + i * (P * Q)) * (rx * P + i * (P * Q)) - P * P * q)
      with (P * P * (rx * rx - q + 2 * rx * i * Q + i * i * Q * Q)) by ring.
    rewrite Hc. ring.
Qed.

(** ** The root lists of the prime powers *)

Lemma collect_roots_sound (a : Z) (f : dict) :
  Forall (fun pe => Z.prime (fst pe) /\ 1 <= snd pe) f ->
  forall g g' v pv,
  collect_roots a f g = Ret (Some (v, pv), g') ->
  pv = map (fun pe => fst pe ^ snd pe) f /\
  Forall2 (fun l m => forall r, In r l -> (r * r) mod m = a mod m) v pv.
Proof.
  induction 1 as [| [px ex] f [Hpx Hex] _ IH]; intros g g' v pv; cbn [collect_roots].
  - unfold rret. intros H. apply ret_pair_inv in H. destruct H as [H _].
    apply some_inv in H. injection H as <- <-. split; [reflexivity | constructor].
  - cbn [fst snd] in *. unfold rbind at 1.
    match goal with |- context [match ?c g with _ => _ end] =>
      destruct (c g) as [[rx g1] | |] eqn:Hrx end; try discriminate.
    destruct (truthy rx); cbn [negb]; [| discriminate].
    unfold rbind at 1.
    destruct (collect_roots a f g1) as [[[[v' pv'] |] g2] | |] eqn:Hrest; try discriminate.
    unfold rret. intros H. apply ret_pair_inv in H. destruct H as [H _].
    apply some_inv in H. injection H as <- <-.
    destruct (IH g1 g2 v' pv' Hrest) as [-> Hall].
    split; [reflexivity |]. constructor; [| exact Hall].
    intros r Hin.
    destruct (a mod px =? 0).
    + exact (sqrt_mod1_sound a px ex g g1 rx Hpx Hex Hrx r Hin).
    + unfold rbind in Hrx.
      destruct (_sqrt_mod_prime_power a px ex g) as [[o g0] | |] eqn:Hpp; try discriminate.
      unfold rret in Hrx. ret_inv Hrx. destruct o as [l |]; [| destruct Hin].
      exact (sqrt_mod_prime_power_sound a px ex g _ l Hpx Hex Hpp r Hin).
Qed.

(** ** The tuples of [_product] *)

Lemma spin_spec (w w' : wheel) (i : nat) (x : Z) :
  spin w = Some (i, x, w') ->
  i = w_pos w /\ nth_error (w_items w) i = Some x /\ w_items w' = w_items w.
Proof.
  unfold spin. destruct (nth_error (w_items w) (w_pos w)) as [y |] eqn:E; [| discriminate].
  intros H. injection H as <- <- <-. cbn. auto.
Qed.

(** While no wheel has moved, a turn spins them all. *)
Lemma turn_first_carry (ws : list wheel) :
  Forall (fun w => w_pos w = O) ws ->
  forall cur c ws' cur', turn ws cur = Ret (c, ws', cur') -> c = true.
Proof.
  induction 1 as [| w ws Hw _ IH]; intros cur c ws' cur'; cbn [turn].
  - intros H. now injection H as <- _ _.
  - destruct cur as [| c0 cur0]; [intros H; now injection H as <- _ _ |].
    unfold obind. destruct (turn ws cur0) as [[[carry ws2] cur2] | |] eqn:Ht; try discriminate.
    rewrite (IH _ _ _ _ Ht).
    destruct (spin w) as [[[i x] w1] |] eqn:Hs; [| discriminate].
    destruct (spin_spec _ _ _ _ Hs) as (Hi & _ & _).
    intros H. injection H as <- _ _. rewrite Hi, Hw. reflexivity.
Qed.

Lemma turn_sound (ws : list wheel) :
  forall cur c ws' cur',
  Forall2 (fun it x => In x it) (map w_items ws) cur \/
  (Forall (fun w => w_pos w = O) ws /\ length cur = length ws) ->
  turn ws cur = Ret (c, ws', cur') ->
  Forall2 (fun it x => In x it) (map w_items ws') cur' /\
  map w_items ws' = map w_items ws.
Proof.
  induction ws as [| w ws IH]; intros cur c ws' cur' Hinv; cbn [turn].
  - intros H. injection H as _ <- <-. split; [constructor | reflexivity].
  - destruct cur as [| c0 cur0].
    { exfalso. destruct Hinv as [H | [_ H]]; [inversion H | discriminate H]. }
    unfold obind. destruct (turn ws cur0) as [[[carry ws2] cur2] | |] eqn:Ht; try discriminate.
    assert (Htail : Forall2 (fun it x => In x it) (map w_items ws) cur0 \/
                    (Forall (fun w => w_pos w = O) ws /\ length cur0 = length ws)).
    { destruct Hinv as [H | [H1 H2]].
      - left. cbn [map] in H. now apply Forall2_cons_iff in H.
      - right. apply Forall_cons_iff in H1. cbn [length] in H2. split; [tauto | congruence]. }
    destruct (IH _ _ _ _ Htail Ht) as [Hall Hmap].
    destruct carry.
    + destruct (spin w) as [[[i x] w1] |] eqn:Hs; [| discriminate].
      destruct (spin_spec _ _ _ _ Hs) as (_ & Hx & Hit).
      intros H. injection H as _ <- <-. cbn [map]. rewrite Hit, Hmap. split; [| reflexivity].
      constructor; [| now rewrite <- Hmap]. now apply nth_error_In in Hx.
    + intros H. injection H as _ <- <-. cbn [map]. rewrite Hmap. split; [| reflexivity].
      constructor; [| now rewrite <- Hmap].
      destruct Hinv as [H | [H1 _]].
      * cbn [map] in H. now apply Forall2_cons_iff in H.
      * apply Forall_cons_iff in H1.
        pose proof (turn_first_carry ws (proj2 H1) _ _ _ _ Ht). discriminate.
Qed.

Lemma product_loop_sound (fuel : nat) :
  forall first_v ws cur L,
  Forall2 (fun it x => In x it) (map w_items ws) cur \/
  (Forall (fun w => w_pos w = O) ws /\ length cur = length ws) ->
  product_loop fuel first_v ws cur = Ret L ->
  Forall (fun t => Forall2 (fun it x => In x it) (map w_items ws) t) L.
Proof.
  induction fuel as [| f IH]; intros first_v ws cur L Hinv; cbn [product_loop]; [discriminate |].
  unfold obind at 1. destruct (turn ws cur) as [[[carry ws'] cur'] | |] eqn:Ht; try discriminate.
  destruct (turn_sound _ _ _ _ _ Hinv Ht) as [Hall Hmap].
  assert (Hrest : forall fv L', product_loop f fv ws' cur' = Ret L' ->
                                Forall (fun t => Forall2 (fun it x => In x it) (map w_items ws) t)
                                       (cur' :: L')).
  { intros fv L' HL. constructor; [now rewrite <- Hmap |].
    rewrite <- Hmap. apply (IH fv ws' cur' L'); [now left | exact HL]. }
  destruct carry; [destruct first_v |].
  - unfold obind. destruct (product_loop f false ws' cur') as [L' | |] eqn:HL; try discriminate.
    intros H. injection H as <-. now apply (Hrest false).
  - intros H. injection H as <-. constructor.
  - unfold obind. destruct (product_loop f first_v ws' cur') as [L' | |] eqn:HL; try discriminate.
    intros H. injection H as <-. now apply (Hrest first_v).
Qed.

Lemma product_sound (iters : list (list Z)) (L : list (list Z)) :
  _product iters = Ret L ->
  Forall (fun t => Forall2 (fun it x => In x it) iters t) L.
Proof.
  unfold _product. intros H.
  apply product_loop_sound in H.
  - rewrite map_map in H. cbn [w_items] in H. now rewrite map_id in H.
  - right. split; [| now rewrite !length_map].
    apply Forall_forall. intros w Hw. apply in_map_iff in Hw. destruct Hw as (it & <- & _).
    reflexivity.
Qed.

(** ** Chinese remaindering *)

Lemma Forall2_nth_error {A B : Type} (R : A -> B -> Prop) (l1 : list A) (l2 : list B) :
  Forall2 R l1 l2 ->
  forall i y, nth_error l2 i = Some y -> exists x, nth_error l1 i = Some x /\ R x y.
Proof.
  induction 1 as [| x y l1 l2 Hxy _ IH]; intros i z Hi.
  - destruct i; discriminate.
  - destruct i as [| i]; cbn in *.
    + injection Hi as <-. now exists x.
    + now apply IH.
Qed.

Lemma crt_sum_divisible (P : Z) (Sf : Z -> Z) (m : Z) (M : list Z) :
  (forall j m', nth_error M j = Some m' -> (m | P / m')) ->
  forall U, (m | crt_sum U M (map (fun m => P / m) M) (map Sf M)).
Proof.
  induction M as [| m0 M IH]; intros Hdiv U.
  - destruct U; cbn; apply Z.divide_0_r.
  - destruct U as [| u0 U]; cbn [crt_sum map]; [apply Z.divide_0_r |].
    apply Z.divide_add_r.
    + apply Z.divide_mul_l. exact (Hdiv O m0 eq_refl).
    + apply IH. intros j m' Hj. exact (Hdiv (S j) m' Hj).
Qed.

Lemma crt_sum_residue (P : Z) (Sf : Z -> Z) (m : Z) (M : list Z) :
  0 < m -> (P / m * Sf m) mod m = 1 mod m ->
  forall U i u,
  nth_error U i = Some u -> nth_error M i = Some m ->
  (forall j m', nth_error M j = Some m' -> j <> i -> (m | P / m')) ->
  crt_sum U M (map (fun m => P / m) M) (map Sf M) mod m = u mod m.
Proof.
  intros Hm Hinv. induction M as [| m0 M IH]; intros U i u HU HM Hdiv.
  - destruct i; discriminate.
  - destruct U as [| u0 U]; [destruct i; discriminate |]. cbn [crt_sum map].
    destruct i as [| i]; cbn [nth_error] in HU, HM.
    + injection HU as ->. injection HM as ->.
      rewrite Zplus_mod.
      assert (Hrest : crt_sum U M (map (fun m => P / m) M) (map Sf M) mod m = 0).
      { apply Z.mod_divide; [lia |]. apply crt_sum_divisible.
        intros j m' Hj. apply (Hdiv (S j) m' Hj). discriminate. }
      rewrite Hrest, Z.add_0_r, Zmod_mod.
      rewrite Zmult_mod_idemp_r.
      replace (P / m * (u * Sf m)) with (u * (P / m * Sf m)) by ring.
      rewrite Zmult_mod, Hinv, <- Zmult_mod. f_equal. ring.
    + rewrite Zplus_mod.
      assert (Hhead : (P / m0 * ((u0 * Sf m0) mod m0)) mod m = 0).
      { apply Z.mod_divide; [lia |]. apply Z.divide_mul_l. apply (Hdiv O m0 eq_refl). discriminate. }
      rewrite Hhead, Z.add_0_l, Zmod_mod.
      apply (IH U i u HU HM). intros j m' Hj Hne. apply (Hdiv (S j) m' Hj). congruence.
Qed.

Lemma extgcd_inverse (x m : Z) :
  Z.gcd x m = 1 -> (x * (fst (fst (Z.extgcd x m)) mod m)) mod m = 1 mod m.
Proof.
  intros Hg. destruct (Z.extgcd x m) as [[u v] d] eqn:E. cbn [fst].
  destruct (Z.extgcd_correct x m E) as [Hb Hd]. rewrite Zmult_mod_idemp_r.
  replace (x * u) with (1 + (- v) * m) by lia. apply Z_mod_plus_full.
Qed.

(** The combined value has the given residue at every modulus. *)
Lemma gf_crt2_residue (M U : list Z) (i : nat) (u m : Z) :
  nth_error U i = Some u -> nth_error M i = Some m -> 0 < m ->
  let P := fold_left Z.mul M 1 in
  (m | P) -> 0 < P -> Z.gcd (P / m) m = 1 ->
  (forall j m', nth_error M j = Some m' -> j <> i -> (m | P / m')) ->
  let '(p, E, Sv) := gf_crt1 M in
  gf_crt2 U M p E Sv mod m = u mod m.
Proof.
  intros HU HM Hm P HmP HP Hg Hdiv. unfold gf_crt1, gf_crt2. fold P.
  rewrite <- (Zmod_div_mod m P) by assumption.
  apply (crt_sum_residue P (fun m => fst (fst (Z.extgcd (P / m) m)) mod m) m M Hm
           (extgcd_inverse _ _ Hg) U i u HU HM Hdiv).
Qed.

(** ** The moduli of a factorisation *)

Lemma Forall2_nth_error_l {A B : Type} (R : A -> B -> Prop) (l1 : list A) (l2 : list B) :
  Forall2 R l1 l2 ->
  forall i x, nth_error l1 i = Some x -> exists y, nth_error l2 i = Some y /\ R x y.
Proof.
  induction 1 as [| x y l1 l2 Hxy _ IH]; intros i z Hi.
  - destruct i; discriminate.
  - destruct i as [| i]; cbn in *.
    + injection Hi as <-. now exists y.
    + now apply IH.
Qed.

Lemma moduli_product (f : dict) (acc : Z) :
  fold_left Z.mul (map (fun pe => fst pe ^ snd pe) f) acc = acc * dict_prod f.
Proof.
  revert acc. induction f as [| [p e] f IH]; intros acc; cbn [map fold_left fst snd].
  - rewrite dict_prod_nil. ring.
  - rewrite IH, dict_prod_cons. ring.
Qed.

Lemma distinct_prime_powers (p q e k : Z) :
  Z.prime p -> Z.prime q -> p <> q -> 0 <= e -> 0 <= k -> Z.gcd (p ^ e) (q ^ k) = 1.
Proof.
  intros Hp Hq Hne He Hk. apply Z.coprime_pow_l; [exact He |].
  apply Z.coprime_pow_r; [exact Hk |]. apply Z.coprime_prime_l; [exact Hp |].
  intros Hd. apply Hne. apply (Z.divide_prime_pp p q 1); auto; [lia |]. now rewrite Z.pow_1_r.
Qed.

Lemma cofactor_coprime (f : dict) :
  prime_dict f -> forall p e, In (p, e) f -> Z.gcd (dict_prod f / p ^ e) (p ^ e) = 1.
Proof.
  intros [Hall Hnd]. induction f as [| [q k] f IH]; intros p e Hin; [destruct Hin |].
  apply Forall_cons_iff in Hall. destruct Hall as [[Hq Hk] Hall]. cbn [fst snd] in Hq, Hk.
  cbn [keys map fst] in Hnd. apply NoDup_cons_iff in Hnd. destruct Hnd as [Hnotin Hnd].
  pose proof (Z.prime_ge_2 q Hq) as Hq2.
  rewrite dict_prod_cons. destruct Hin as [E | Hin].
  - injection E as <- <-.
    assert (Hqk : 0 < q ^ k) by (apply Z.pow_pos_nonneg; lia).
    rewrite Z.mul_comm, Z.div_mul by lia.
    apply Z.coprime_pow_r; [lia |]. unfold Z.coprime. rewrite Z.gcd_comm.
    apply Z.coprime_prime_l; [exact Hq |].
    intros Hd. apply Hnotin. now apply prime_divides_dict_prod.
  - assert (Hpe : Z.prime p /\ 1 <= e).
    { rewrite Forall_forall in Hall. exact (Hall (p, e) Hin). }
    destruct Hpe as [Hp He]. pose proof (Z.prime_ge_2 p Hp) as Hp2.
    assert (Hpp : 0 < p ^ e) by (apply Z.pow_pos_nonneg; lia).
    rewrite Z.divide_div_mul_exact; [| lia | now apply in_dict_prod_divides].
    apply Z.coprime_mul_l; [| now apply IH].
    apply distinct_prime_powers; auto; try lia.
    intros ->. apply Hnotin. now apply (in_keys p e).
Qed.

Lemma moduli_cofactor (f : dict) (i j : nat) (p e q k : Z) :
  prime_dict f -> nth_error f i = Some (p, e) -> nth_error f j = Some (q, k) -> j <> i ->
  (p ^ e | dict_prod f / q ^ k).
Proof.
  intros [Hall Hnd] Hi Hj Hne.
  assert (Hp : Z.prime p /\ 1 <= e).
  { rewrite Forall_forall in Hall. exact (Hall (p, e) (nth_error_In _ _ Hi)). }
  assert (Hq : Z.prime q /\ 1 <= k).
  { rewrite Forall_forall in Hall. exact (Hall (q, k) (nth_error_In _ _ Hj)). }
  destruct Hp as [Hp He]. destruct Hq as [Hq Hk].
  pose proof (Z.prime_ge_2 q Hq) as Hq2.
  assert (Hqk : 0 < q ^ k) by (apply Z.pow_pos_nonneg; lia).
  assert (Hpq : p <> q).
  { intros ->. apply Hne. apply (proj1 (NoDup_nth_error (keys f)) Hnd).
    - unfold keys. rewrite length_map. apply nth_error_Some. congruence.
    - unfold keys. rewrite (map_nth_error fst j f Hj), (map_nth_error fst i f Hi). reflexivity. }
  assert (Hd : (p ^ e * q ^ k | dict_prod f)).
  { apply coprime_product_divides.
    - apply distinct_prime_powers; auto; lia.
    - apply in_dict_prod_divides. exact (nth_error_In _ _ Hi).
    - apply in_dict_prod_divides. exact (nth_error_In _ _ Hj). }
  destruct Hd as [c Hc]. exists c. rewrite Hc.
  replace (c * (p ^ e * q ^ k)) with (c * p ^ e * q ^ k) by ring.
  apply Z.div_mul. lia.
Qed.

(** ** Soundness of [sqrt_mod_iter] *)

Lemma crt_root (a : Z) (f : dict) (v : list (list Z)) (vx : list Z) :
  factorisation f ->
  Forall2 (fun l m => forall r, In r l -> (r * r) mod m = a mod m) v
          (map (fun pe => fst pe ^ snd pe) f) ->
  Forall2 (fun it x => In x it) v vx ->
  let pv := map (fun pe => fst pe ^ snd pe) f in
  let '(mm, e, s) := gf_crt1 pv in
  let r := gf_crt2 vx pv mm e s in
  (dict_prod f | r * r - a).
Proof.
  intros Hfac Hroots Hvx pv.
  pose proof (factorisation_prime_dict f Hfac) as Hpd.
  destruct (gf_crt1 pv) as [[mm e] s] eqn:Hcrt. cbv zeta.
  apply dict_prod_divides; [exact Hpd |]. intros [p k] Hin. cbn [fst snd].
  destruct (In_nth_error _ _ Hin) as [i Hi].
  pose proof (map_nth_error (fun pe => fst pe ^ snd pe) i f Hi) as Hm. cbn [fst snd] in Hm.
  destruct (Forall2_nth_error _ _ _ Hroots i _ Hm) as (l & Hl & Hlroot).
  destruct (Forall2_nth_error_l _ _ _ Hvx i l Hl) as (u & Hu & Hul).
  destruct Hpd as [Hall Hnd].
  assert (Hp : Z.prime p /\ 1 <= k).
  { rewrite Forall_forall in Hall. exact (Hall (p, k) Hin). }
  destruct Hp as [Hp Hk]. pose proof (Z.prime_ge_2 p Hp) as Hp2.
  assert (Hpk : 0 < p ^ k) by (apply Z.pow_pos_nonneg; lia).
  pose proof (gf_crt2_residue pv vx i u (p ^ k) Hu Hm Hpk) as Hres. cbv zeta in Hres.
  unfold pv in Hres at 1 2 3 4. rewrite moduli_product, Z.mul_1_l in Hres. fold pv in Hres.
  rewrite Hcrt in Hres.
  assert (Hr : gf_crt2 vx pv mm e s mod p ^ k = u mod p ^ k).
  { apply Hres.
    - now apply in_dict_prod_divides.
    - pose proof (dict_prod_pos f Hall) as Hpos. clear - Hpos. lia.
    - apply cofactor_coprime; [split; assumption | exact Hin].
    - intros j m' Hj Hne. unfold pv in Hj.
      destruct (nth_error f j) as [[q k'] |] eqn:Hfj.
      + rewrite (map_nth_error _ j f Hfj) in Hj. injection Hj as <-. cbn [fst snd].
        unfold pv. rewrite moduli_product, Z.mul_1_l.
        apply (moduli_cofactor f i j p k q k'); [split; assumption | exact Hi | exact Hfj | exact Hne].
      + exfalso. apply nth_error_None in Hfj.
        assert (Hlen : nth_error (map (fun pe => fst pe ^ snd pe) f) j <> None) by congruence.
        apply nth_error_Some in Hlen. rewrite length_map in Hlen. lia. }
  apply cong_iff_divide; [exact Hpk |].
  rewrite (cong_mul (p ^ k) _ u _ u Hr Hr). exact (Hlroot u Hul).
Qed.

Lemma sqrt_mod_iter_sound (a p : Z) (g g' : RNG) (l : list Z) :
  p <> 0 -> sqrt_mod_iter a p g = Ret (l, g') ->
  forall r, In r l -> (r * r) mod Z.abs p = a mod Z.abs p.
Proof.
  intros Hp0. unfold sqrt_mod_iter. set (P := Z.abs p).
  assert (HP : 1 <= P) by (unfold P; lia).
  destruct (isprime P) eqn:Hprime.
  - apply isprime_spec in Hprime.
    assert (Hroots : forall rs g1, 
               (if a mod P =? 0 then _sqrt_mod1 (a mod P) P 1
                else r <~ _sqrt_mod_prime_power (a mod P) P 1 ;; rret (of_option r)) g
               = Ret (rs, g1) ->
               forall r, In r (items rs) -> (r * r) mod P = a mod P).
    { intros rs g1 H r Hin. rewrite <- (Z.pow_1_r P), <- (Zmod_mod a (P ^ 1)).
      rewrite (Z.pow_1_r P) at 2.
      destruct (a mod P =? 0).
      - exact (sqrt_mod1_sound (a mod P) P 1 g g1 rs Hprime ltac:(lia) H r Hin).
      - unfold rbind in H.
        destruct (_sqrt_mod_prime_power (a mod P) P 1 g) as [[o g0] | |] eqn:Hpp; try discriminate.
        unfold rret in H. ret_inv H. destruct o as [l0 |]; [| destruct Hin].
        exact (sqrt_mod_prime_power_sound (a mod P) P 1 g _ l0 Hprime ltac:(lia) Hpp r Hin). }
    unfold rbind at 1.
    match goal with |- context [match ?c g with _ => _ end] =>
      destruct (c g) as [[rs g1] | |] eqn:Hrs end; try discriminate.
    specialize (Hroots rs g1 eq_refl).
    destruct (truthy rs); unfold rret; intros H; ret_inv H; [exact Hroots | intros r []].
  - destruct (factorint_spec P HP) as [Hprod Hfac].
    unfold rbind at 1.
    destruct (collect_roots a (factorint P) g) as [[[[v pv] |] g1] | |] eqn:Hcol; try discriminate.
    2:{ unfold rret. intros H. ret_inv H. intros r []. }
    destruct (collect_roots_sound a (factorint P) (proj1 Hfac) g g1 v pv Hcol) as [-> Hall].
    destruct (gf_crt1 _) as [[mm e] s] eqn:Hcrt.
    unfold rbind, lift.
    destruct (_product v) as [vs | |] eqn:Hprodv; try discriminate.
    unfold rret. intros H. ret_inv H. intros r Hin.
    apply in_map_iff in Hin. destruct Hin as (vx & <- & Hvx).
    pose proof (product_sound v vs Hprodv) as Hvs. rewrite Forall_forall in Hvs.
    pose proof (crt_root a (factorint P) v vx Hfac Hall (Hvs vx Hvx)) as Hdiv.
    cbv zeta in Hdiv. rewrite Hcrt in Hdiv. rewrite Hprod in Hdiv.
    apply cong_iff_divide; [lia | exact Hdiv].
Qed.

(** C1: for a positive modulus [p], every element of the list that
    [sqrt_mod(a, p, all_roots=True)] returns is a square root of [a] modulo
    [p]; the result is a list, and [sqrt_mod(11, 43, True) == [21, 22]],
    [sqrt_mod(17, 32, True) == [7, 9, 23, 25]] whatever the random draws. *)
Theorem sqrt_mod_all_roots_sound (a p : Z) (g g' : RNG) (v : pyval) :
  0 < p -> sqrt_mod a p true g = Ret (v, g') ->
  (exists l, v = PyList l /\ Forall (fun r => (r * r) mod p = a mod p) l) /\
  sqrt_mod 11 43 true g = Ret (PyList [21; 22], g) /\
  sqrt_mod 17 32 true g = Ret (PyList [7; 9; 23; 25], g).
Proof.
  intros Hp H. split; [| split; reflexivity].
  unfold sqrt_mod, rbind in H.
  destruct (sqrt_mod_iter a p g) as [[l g1] | |] eqn:Hit; try discriminate.
  unfold rret in H. ret_inv H. exists (sorted l). split; [reflexivity |].
  apply Forall_forall. intros r Hr. apply (proj1 (sorted_In _ _)) in Hr.
  pose proof (sqrt_mod_iter_sound a p g _ l ltac:(lia) Hit r Hr) as Hroot.
  now rewrite Z.abs_eq in Hroot by lia.
Qed.

Lemma sqrt_mod_all_roots_sound_witness :
  0 < 17 /\ sqrt_mod 2 17 true [1] = Ret (PyList [6; 11], []) /\
  (exists l, PyList [6; 11] = PyList l /\ Forall (fun r => (r * r) mod 17 = 2 mod 17) l).
Proof.
  split; [lia |]. split; [reflexivity |].
  apply (sqrt_mod_all_roots_sound 2 17 [1] [] (PyList [6; 11])); [lia | reflexivity].
Defined.

(** ** The roots are residues *)

Lemma powmod_range (b e n : Z) : 0 < n -> 0 <= powmod b e n < n.
Proof.
  intros Hn. destruct (Z.le_gt_cases 0 e) as [He | He].
  - rewrite powmod_spec by exact He. apply Z.mod_pos_bound. exact Hn.
  - destruct e; try lia. cbn [powmod]. apply Z.mod_pos_bound. exact Hn.
Qed.

Lemma tonelli_shanks_range (a p : Z) (g g' : RNG) (x : Z) :
  0 < p -> _sqrt_mod_tonelli_shanks a p g = Ret (x, g') -> 0 <= x < p.
Proof.
  intros Hp. unfold _sqrt_mod_tonelli_shanks, rbind.
  destruct (find_nonresidue p g) as [[d g1] | |]; try discriminate.
  unfold rret. intros H. ret_inv H. apply Z.mod_pos_bound. exact Hp.
Qed.

Lemma prime_root_range (a p : Z) (g g' : RNG) (l : list Z) :
  Z.prime p -> _sqrt_mod_prime_power a p 1 g = Ret (Some l, g') ->
  forall r, In r l -> 0 <= r < p.
Proof.
  intros Hp Hrun r Hin. pose proof (Z.prime_ge_2 p Hp) as Hp2.
  pose proof (sqrt_mod_prime_power_sound a p 1 g g' l Hp ltac:(lia) Hrun r Hin) as Hroot.
  revert Hrun. unfold _sqrt_mod_prime_power. rewrite Z.pow_1_r in *. set (a0 := a mod p).
  destruct (Z.eqb_spec p 2) as [E2 | Hne].
  - subst p. destruct (a0 mod 8 =? 1); cbn [negb]; [| discriminate].
    cbn [Z.leb Z.compare]. unfold rret. intros H. ret_inv H.
    apply range3_In in Hin; [| lia]. destruct Hin as (i & Hi & -> & Hlt). lia.
  - rewrite (jacobi_prime a0 p Hp).
    destruct (Z.eqb_spec (legendre a0 p) 1) as [Hleg | Hleg]; cbn [negb]; [| discriminate].
    destruct (legendre_one a0 p ltac:(lia) Hleg) as [Hnz _].
    unfold rbind at 1.
    match goal with |- context [match ?c g with _ => _ end] =>
      destruct (c g) as [[res g1] | |] eqn:Hbase end; try discriminate.
    assert (Hres : 0 <= res < p).
    { destruct (p mod 4 =? 3).
      - unfold rret in Hbase. ret_inv Hbase. apply powmod_range. lia.
      - destruct (p mod 8 =? 5).
        + destruct (negb _); unfold rret in Hbase; ret_inv Hbase;
            [apply Z.mod_pos_bound | apply powmod_range]; lia.
        + apply (tonelli_shanks_range a0 p g g1); [lia | exact Hbase]. }
    replace (1 <? 1) with false by reflexivity.
    unfold rbind, rret. intros H. ret_inv H.
    assert (Hr0 : r <> 0).
    { intros ->. apply Hnz. unfold a0. rewrite Zmod_mod. rewrite <- Hroot.
      apply Z.mod_0_l. lia. }
    apply (proj1 (sorted_In _ _)) in Hin. destruct Hin as [<- | [<- | []]]; [lia |].
    assert (res <> 0); [| lia].
    intros ->. apply Hr0. rewrite Z.sub_0_r in Hroot |- *.
    (* the other root would be the modulus itself *)
    exfalso. apply Hnz. unfold a0. rewrite Zmod_mod. rewrite <- Hroot.
    rewrite <- Zmult_mod_idemp_l, Z_mod_same_full. apply Z.mod_0_l. lia.
Qed.

Lemma sqrt_mod_iter_range (a p : Z) (g g' : RNG) (l : list Z) :
  p <> 0 -> sqrt_mod_iter a p g = Ret (l, g') ->
  forall r, In r l -> 0 <= r < Z.abs p.
Proof.
  intros Hp0. unfold sqrt_mod_iter. set (P := Z.abs p).
  assert (HP : 1 <= P) by (unfold P; lia).
  destruct (isprime P) eqn:Hprime.
  - apply isprime_spec in Hprime. pose proof (Z.prime_ge_2 P Hprime) as HP2.
    unfold rbind at 1.
    match goal with |- context [match ?c g with _ => _ end] =>
      destruct (c g) as [[rs g1] | |] eqn:Hrs end; try discriminate.
    destruct (truthy rs); unfold rret; intros H; ret_inv H; [| intros r []].
    intros r Hin. destruct (Z.eqb_spec (a mod P) 0) as [E | E].
    + unfold _sqrt_mod1 in Hrs. rewrite E in Hrs.
      rewrite Z.pow_1_r, Z.mod_0_l in Hrs by lia. cbn [Z.eqb] in Hrs.
      unfold rret in Hrs. ret_inv Hrs. cbn [items] in Hin.
      apply range3_In in Hin; [| apply Z.pow_pos_nonneg; [lia | apply Z.div_pos; lia]].
      destruct Hin as (i & Hi & -> & Hlt).
      assert (0 <= i * P ^ ((1 + 1) / 2)); [| lia].
      apply Z.mul_nonneg_nonneg; [lia |]. apply Z.pow_nonneg. lia.
    + unfold rbind in Hrs.
      destruct (_sqrt_mod_prime_power (a mod P) P 1 g) as [[o g0] | |] eqn:Hpp; try discriminate.
      unfold rret in Hrs. ret_inv Hrs. destruct o as [l0 |]; [| destruct Hin].
      exact (prime_root_range (a mod P) P g _ l0 Hprime Hpp r Hin).
  - destruct (factorint_spec P HP) as [Hprod Hfac].
    unfold rbind at 1.
    destruct (collect_roots a (factorint P) g) as [[[[v pv] |] g1] | |] eqn:Hcol; try discriminate.
    2:{ unfold rret. intros H. ret_inv H. intros r []. }
    destruct (collect_roots_sound a (factorint P) (proj1 Hfac) g g1 v pv Hcol) as [-> _].
    unfold gf_crt1. rewrite moduli_product, Z.mul_1_l, Hprod.
    unfold rbind, lift. destruct (_product v) as [vs | |]; try discriminate.
    unfold rret. intros H. ret_inv H. intros r Hin.
    apply in_map_iff in Hin. destruct Hin as (vx & <- & _).
    unfold gf_crt2. apply Z.mod_pos_bound. lia.
Qed.

(** C10: [sqrt_mod(a, p, all_roots)] and [sqrt_mod(a, -p, all_roots)] are
    the same computation for every [a], every nonzero [p] and both values
    of [all_roots], namely the one for the modulus [abs(p)]; and every
    root of the list they return is a residue modulo [abs(p)] whose square
    is [a] modulo [abs(p)]. *)
Theorem sqrt_mod_negative_modulus (a p : Z) (all_roots : bool) (g : RNG) :
  p <> 0 ->
  sqrt_mod a p all_roots g = sqrt_mod a (- p) all_roots g /\
  sqrt_mod a p all_roots g = sqrt_mod a (Z.abs p) all_roots g /\
  forall l g', sqrt_mod a (- p) true g = Ret (PyList l, g') ->
               Forall (fun r => 0 <= r < Z.abs p /\ (r * r) mod Z.abs p = a mod Z.abs p) l.
Proof.
  intros Hp0.
  assert (Hopp : sqrt_mod a p all_roots g = sqrt_mod a (- p) all_roots g).
  { unfold sqrt_mod. now rewrite Z.abs_opp, sqrt_mod_iter_opp. }
  assert (Habs : sqrt_mod a p all_roots g = sqrt_mod a (Z.abs p) all_roots g).
  { unfold sqrt_mod. now rewrite Z.abs_involutive, sqrt_mod_iter_abs. }
  split; [exact Hopp |]. split; [exact Habs |].
  intros l g'. unfold sqrt_mod. rewrite sqrt_mod_iter_opp. unfold rbind.
  destruct (sqrt_mod_iter a p g) as [[l0 g1] | |] eqn:Hit; try discriminate.
  unfold rret. intros H. apply ret_pair_inv in H. destruct H as [H _].
  injection H as <-. apply Forall_forall. intros r Hr.
  apply (proj1 (sorted_In _ _)) in Hr. split.
  - exact (sqrt_mod_iter_range a p g g1 l0 Hp0 Hit r Hr).
  - exact (sqrt_mod_iter_sound a p g g1 l0 Hp0 Hit r Hr).
Qed.

Lemma sqrt_mod_negative_modulus_witness :
  -43 <> 0 /\
  sqrt_mod 11 (-43) true [] = Ret (PyList [21; 22], []) /\
  sqrt_mod 11 (-43) true [] = sqrt_mod 11 (- -43) true [].
Proof.
  split; [lia |]. split; [reflexivity |].
  exact (proj1 (sqrt_mod_negative_modulus 11 (-43) true [] ltac:(lia))).
Defined.

(** ** When no root is reported *)

Lemma odd_of_root (a x m : Z) :
  0 < m -> (2 | m) -> a mod 2 = 1 -> (x * x) mod m = a mod m -> x mod 2 = 1.
Proof.
  intros Hm H2 Ha Hx.
  pose proof (cong_divide_trans 2 m (x * x) a ltac:(lia) Hm H2 Hx) as Hx2.
  rewrite Ha in Hx2. rewrite Zmult_mod in Hx2.
  pose proof (Z.mod_pos_bound x 2 ltac:(lia)) as Hb.
  destruct (Z.eq_dec (x mod 2) 0) as [E | E]; [| lia].
  rewrite E in Hx2. discriminate.
Qed.

Lemma pow2_none_sound (a k : Z) :
  1 <= k -> a mod 2 = 1 -> (a mod 2 ^ k) mod 8 <> 1 ->
  forall x, (x * x) mod 2 ^ k <> a mod 2 ^ k.
Proof.
  intros Hk Ha H8 x Hx.
  assert (Hpk : 0 < 2 ^ k) by (apply Z.pow_pos_nonneg; lia).
  assert (H2k : (2 | 2 ^ k)).
  { exists (2 ^ (k - 1)). rewrite <- (Z.pow_1_r 2) at 3. rewrite <- Z.pow_add_r by lia.
    f_equal. lia. }
  pose proof (odd_of_root a x (2 ^ k) Hpk H2k Ha Hx) as Hxo.
  pose proof (odd_square_mod_8 x Hxo) as Hx8.
  apply cong_iff_divide in Hx8; [| lia]. change (1 mod 8) with 1 in Hx8.
  destruct (Z.eq_dec k 1) as [-> | Hk1].
  { apply H8. change (2 ^ 1) with 2. rewrite Ha. reflexivity. }
  destruct (Z.eq_dec k 2) as [-> | Hk2].
  { apply H8. change (2 ^ 2) with 4 in *. rewrite <- Hx.
    rewrite (Zmod_div_mod 4 8 (x * x)) by (try lia; exists 2; lia).
    rewrite Hx8. reflexivity. }
  assert (H8k : (8 | 2 ^ k)).
  { exists (2 ^ (k - 3)). change 8 with (2 ^ 3). rewrite <- Z.pow_add_r by lia. f_equal. lia. }
  apply H8. rewrite <- Hx. rewrite <- (Zmod_div_mod 8 (2 ^ k)) by (try lia; exact H8k).
  exact Hx8.
Qed.

Lemma prime_power_none (a p k : Z) (g g' : RNG) :
  Z.prime p -> 1 <= k -> a mod p <> 0 ->
  _sqrt_mod_prime_power a p k g = Ret (None, g') ->
  forall x, (x * x) mod p ^ k <> a mod p ^ k.
Proof.
  intros Hp Hk Ha. pose proof (Z.prime_ge_2 p Hp) as Hp2.
  assert (Hpk : 0 < p ^ k) by (apply Z.pow_pos_nonneg; lia).
  assert (Hdiv : (p | p ^ k)).
  { exists (p ^ (k - 1)). rewrite <- (Z.pow_1_r p) at 3. rewrite <- Z.pow_add_r by lia.
    f_equal. lia. }
  unfold _sqrt_mod_prime_power.
  destruct (Z.eqb_spec p 2) as [E2 | Hne].
  - subst p. destruct (Z.eqb_spec ((a mod 2 ^ k) mod 8) 1) as [H8 | H8]; cbn [negb].
    + destruct (k <=? 3); unfold rret; intros H; apply ret_pair_inv in H;
        destruct H as [H _]; discriminate H.
    + intros _. apply pow2_none_sound; [exact Hk | | exact H8].
      pose proof (Z.mod_pos_bound a 2 ltac:(lia)). lia.
  - rewrite (jacobi_prime _ p Hp).
    destruct (Z.eqb_spec (legendre (a mod p ^ k) p) 1) as [Hleg | Hleg]; cbn [negb].
    + unfold rbind at 1.
      match goal with |- context [match ?c g with _ => _ end] =>
        destruct (c g) as [[res g1] | |] end; try discriminate.
      unfold rbind at 1.
      match goal with |- context [match ?c g1 with _ => _ end] =>
        destruct (c g1) as [[res2 g2] | |] end; discriminate.
    + intros _ x Hx. apply Hleg.
      assert (Hap : (a mod p ^ k) mod p = a mod p).
      { symmetry. apply Zmod_div_mod; [lia | exact Hpk | exact Hdiv]. }
      apply (legendre_residue _ p x); [lia | now rewrite Hap |].
      rewrite Hap. exact (cong_divide_trans p (p ^ k) _ _ ltac:(lia) Hpk Hdiv Hx).
Qed.

Lemma prime_power_nonempty (a p k : Z) (g g' : RNG) (l : list Z) :
  2 <= p -> 1 <= k -> _sqrt_mod_prime_power a p k g = Ret (Some l, g') -> l <> [].
Proof.
  intros Hp Hk. unfold _sqrt_mod_prime_power.
  assert (Hpk : 0 < p ^ k) by (apply Z.pow_pos_nonneg; lia).
  assert (Hsorted : forall x l0, sorted (x :: l0) <> []).
  { intros x l0 E. assert (Hin : In x (sorted (x :: l0))) by (apply sorted_In; now left).
    rewrite E in Hin. destruct Hin. }
  destruct (p =? 2) eqn:E2.
  - apply Z.eqb_eq in E2. subst p.
    destruct (negb _); [discriminate |].
    destruct (k <=? 3); unfold rret; intros H; ret_inv H; [| apply Hsorted].
    intros E.
    assert (Hin : In (1 + 0 * 2) (range3 1 (2 ^ k) 2)).
    { apply range3_In_rev; try lia.
      assert (2 ^ 1 <= 2 ^ k) by (apply Z.pow_le_mono_r; lia). change (2 ^ 1) with 2 in *. lia. }
    rewrite E in Hin. destruct Hin.
  - destruct (negb _); [discriminate |].
    unfold rbind at 1.
    match goal with |- context [match ?c g with _ => _ end] =>
      destruct (c g) as [[res g1] | |] end; try discriminate.
    unfold rbind at 1.
    match goal with |- context [match ?c g1 with _ => _ end] =>
      destruct (c g1) as [[res2 g2] | |] end; try discriminate.
    unfold rret. intros H. ret_inv H. apply Hsorted.
Qed.

(** A square is divisible by an even power of a prime exactly. *)
Lemma square_valuation (p x r z : Z) :
  Z.prime p -> 0 <= r -> ~ (p | z) -> x * x = p ^ r * z ->
  exists m y, r = 2 * m /\ 0 <= m /\ y * y = z.
Proof.
  intros Hp Hr Hz Hx. pose proof (Z.prime_ge_2 p Hp) as Hp2.
  assert (Hx0 : x <> 0).
  { intros ->. apply Hz. assert (0 < p ^ r) by (apply Z.pow_pos_nonneg; lia).
    assert (z = 0) by nia. subst z. apply Z.divide_0_r. }
  pose proof (multiplicity_spec p (Z.abs x) Hp2 ltac:(lia)) as Hm. cbv zeta in Hm.
  destruct Hm as (He & Hfac & Hnd).
  set (e := multiplicity p (Z.abs x)) in *. set (w := Z.abs x / p ^ e) in *.
  assert (Hsq : p ^ (2 * e) * (w * w) = p ^ r * z).
  { rewrite <- Hx. replace (x * x) with (Z.abs x * Z.abs x) by lia.
    rewrite Hfac at 1 2. replace (2 * e) with (e + e) by lia.
    rewrite Z.pow_add_r by lia. ring. }
  assert (Hw : ~ (p | w * w)).
  { intros Hd. apply Z.divide_prime_mul in Hd; [| exact Hp].
    apply Hnd. apply Z.mod_divide; [lia | tauto]. }
  destruct (prime_power_cancel p (2 * e) r (w * w) z Hp ltac:(lia) Hr Hw Hz Hsq) as [E1 E2].
  exists e, w. auto.
Qed.

Lemma root_of_multiple (p n r q x : Z) :
  Z.prime p -> 0 <= r < n -> q mod p <> 0 ->
  (x * x) mod p ^ n = (p ^ r * q) mod p ^ n ->
  r mod 2 = 0 /\ exists y, (y * y) mod p ^ (n - r) = q mod p ^ (n - r).
Proof.
  intros Hp Hr Hq Hx. pose proof (Z.prime_ge_2 p Hp) as Hp2.
  assert (Hpn : 0 < p ^ n) by (apply Z.pow_pos_nonneg; lia).
  apply cong_iff_divide in Hx; [| exact Hpn]. destruct Hx as [c Hc].
  assert (Hsplit : p ^ n = p ^ r * p ^ (n - r)).
  { rewrite <- Z.pow_add_r by lia. f_equal. lia. }
  assert (Hx : x * x = p ^ r * (q + c * p ^ (n - r))).
  { rewrite Hsplit in Hc. lia. }
  assert (Hz : ~ (p | q + c * p ^ (n - r))).
  { intros Hd. apply Hq. apply Z.mod_divide; [lia |].
    replace q with (q + c * p ^ (n - r) - c * p ^ (n - r)) by ring.
    apply Z.divide_sub_r; [exact Hd |]. apply Z.divide_mul_r.
    exists (p ^ (n - r - 1)). rewrite <- (Z.pow_1_r p) at 3. rewrite <- Z.pow_add_r by lia.
    f_equal. lia. }
  destruct (square_valuation p x r _ Hp ltac:(lia) Hz Hx) as (m & y & E & Hm & Hy).
  split.
  - rewrite E, Z.mul_comm. apply Z_mod_mult.
  - exists y. rewrite Hy. apply Z_mod_plus_full.
Qed.

Lemma sqrt_mod1_none (a p n : Z) (g g' : RNG) (rs : rootseq) :
  Z.prime p -> 1 <= n ->
  _sqrt_mod1 a p n g = Ret (rs, g') -> truthy rs = false ->
  forall x, (x * x) mod p ^ n <> a mod p ^ n.
Proof.
  intros Hp Hn. pose proof (Z.prime_ge_2 p Hp) as Hp2.
  assert (Hpn : 0 < p ^ n) by (apply Z.pow_pos_nonneg; lia).
  unfold _sqrt_mod1. set (a0 := a mod p ^ n).
  assert (Hbound : 0 <= a0 < p ^ n) by (apply Z.mod_pos_bound; lia).
  destruct (Z.eqb_spec a0 0) as [E0 | E0].
  - unfold rret. intros H. ret_inv H. cbn [truthy]. intros Ht. exfalso.
    assert (Hst : 0 < p ^ ((n + 1) / 2)).
    { apply Z.pow_pos_nonneg; [lia |]. apply Z.div_pos; lia. }
    pose proof (range3_In_rev 0 (p ^ n) _ 0 Hst ltac:(lia) ltac:(lia)) as Hin.
    destruct (range3 0 (p ^ n) (p ^ ((n + 1) / 2))); [destruct Hin | discriminate Ht].
  - pose proof (multiplicity_spec p a0 Hp2 ltac:(lia)) as Hm. cbv zeta in Hm.
    destruct Hm as (Hr0 & Hfac & Hnd).
    set (r := multiplicity p a0) in *. set (q := a0 / p ^ r) in *.
    assert (Hrn : r < n).
    { destruct (Z.lt_ge_cases r n) as [Hlt | Hge]; [exact Hlt | exfalso].
      assert (Hd : (p ^ n | a0)).
      { rewrite Hfac. apply Z.divide_mul_l. apply pow_le_divide. lia. }
      destruct Hd as [c Hc]. clear - Hc Hbound E0 Hpn.
      assert (Hcs : c <= 0 \/ 1 <= c) by lia. destruct Hcs; nia. }
    assert (Hred : forall x, (x * x) mod p ^ n = a0 ->
                   r mod 2 = 0 /\ exists y, (y * y) mod p ^ (n - r) = q mod p ^ (n - r)).
    { intros x Hx. apply (root_of_multiple p n r q x Hp ltac:(lia) Hnd).
      rewrite <- Hfac. rewrite Hx. symmetry. apply Z.mod_small. exact Hbound. }
    destruct (Z.eqb_spec (r mod 2) 1) as [Hodd | Hev].
    { intros _ _ x Hx. destruct (Hred x Hx) as [Hr _]. lia. }
    unfold rbind.
    destruct (_sqrt_mod_prime_power q p (n - r) g) as [[res g1] | |] eqn:Hpp; try discriminate.
    destruct res as [l |]; unfold rret; intros H; ret_inv H; cbn [truthy]; [discriminate |].
    intros _ x Hx. destruct (Hred x Hx) as [_ [y Hy]].
    exact (prime_power_none q p (n - r) g _ Hp ltac:(lia) Hnd Hpp y Hy).
Qed.

Lemma collect_roots_none (a : Z) (f : dict) :
  Forall (fun pe => Z.prime (fst pe) /\ 1 <= snd pe) f ->
  forall g g',
  collect_roots a f g = Ret (None, g') ->
  exists pe, In pe f /\ forall x, (x * x) mod (fst pe ^ snd pe) <> a mod (fst pe ^ snd pe).
Proof.
  induction 1 as [| [px ex] f [Hpx Hex] _ IH]; intros g g'; cbn [collect_roots].
  - unfold rret. intros H. apply ret_pair_inv in H. destruct H as [H _]. discriminate H.
  - cbn [fst snd] in *. pose proof (Z.prime_ge_2 px Hpx) as Hp2. unfold rbind at 1.
    match goal with |- context [match ?c g with _ => _ end] =>
      destruct (c g) as [[rx g1] | |] eqn:Hrx end; try discriminate.
    destruct (truthy rx) eqn:Ht; cbn [negb].
    + unfold rbind at 1.
      destruct (collect_roots a f g1) as [[[[v' pv'] |] g2] | |] eqn:Hrest; try discriminate.
      intros _. destruct (IH g1 g2 Hrest) as (pe & Hin & Hpe).
      exists pe. split; [now right | exact Hpe].
    + intros _. exists (px, ex). split; [now left |]. cbn [fst snd].
      destruct (Z.eqb_spec (a mod px) 0) as [E | E].
      * exact (sqrt_mod1_none a px ex g g1 rx Hpx Hex Hrx Ht).
      * unfold rbind in Hrx.
        destruct (_sqrt_mod_prime_power a px ex g) as [[o g0] | |] eqn:Hpp; try discriminate.
        unfold rret in Hrx. ret_inv Hrx. destruct o as [l |].
        -- exfalso. apply (prime_power_nonempty a px ex g _ l Hp2 Hex Hpp).
           cbn [of_option truthy] in Ht. destruct l; [reflexivity | discriminate Ht].
        -- exact (prime_power_none a px ex g _ Hpx Hex E Hpp).
Qed.

Lemma product_loop_nonempty (fuel : nat) (ws : list wheel) (cur : list Z) (L : list (list Z)) :
  product_loop fuel true ws cur = Ret L -> L <> [].
Proof.
  destruct fuel as [| f]; [discriminate |].
  change (product_loop (S f) true ws cur)
    with (r <- turn ws cur ;;
          let '(carry, ws', cur') := r in
          if (carry : bool) then rest <- product_loop f false ws' cur' ;; Ret (cur' :: rest)
          else rest <- product_loop f true ws' cur' ;; Ret (cur' :: rest)).
  unfold obind at 1.
  destruct (turn ws cur) as [[[carry ws'] cur'] | |]; try discriminate.
  destruct carry; unfold obind.
  - destruct (product_loop f false ws' cur') as [rest | |]; try discriminate.
    intros H. injection H as <-. discriminate.
  - destruct (product_loop f true ws' cur') as [rest | |]; try discriminate.
    intros H. injection H as <-. discriminate.
Qed.

Lemma product_nonempty (iters : list (list Z)) (L : list (list Z)) :
  _product iters = Ret L -> L <> [].
Proof. unfold _product. apply product_loop_nonempty. Qed.

Lemma sqrt_mod_iter_empty (a p : Z) (g g' : RNG) :
  p <> 0 -> sqrt_mod_iter a p g = Ret ([], g') ->
  forall x, (x * x) mod Z.abs p <> a mod Z.abs p.
Proof.
  intros Hp0. unfold sqrt_mod_iter. set (P := Z.abs p).
  assert (HP : 1 <= P) by (unfold P; lia).
  destruct (isprime P) eqn:Hprime.
  - apply isprime_spec in Hprime. pose proof (Z.prime_ge_2 P Hprime) as HP2.
    unfold rbind at 1.
    match goal with |- context [match ?c g with _ => _ end] =>
      destruct (c g) as [[rs g1] | |] eqn:Hrs end; try discriminate.
    assert (Hmod : (a mod P) mod P ^ 1 = a mod P ^ 1).
    { rewrite Z.pow_1_r. apply Zmod_mod. }
    destruct (Z.eqb_spec (a mod P) 0) as [E | E].
    + destruct (truthy rs) eqn:Ht; unfold rret; intros H;
        apply ret_pair_inv in H; destruct H as [H _].
      * exfalso. unfold _sqrt_mod1 in Hrs. rewrite E in Hrs.
        rewrite Z.mod_0_l in Hrs by (apply Z.pow_nonzero; lia). cbn [Z.eqb] in Hrs.
        unfold rret in Hrs. ret_inv Hrs. cbn [truthy items] in *.
        rewrite H in Ht. discriminate Ht.
      * intros x. rewrite <- (Z.pow_1_r P), <- Hmod.
        exact (sqrt_mod1_none (a mod P) P 1 g _ rs Hprime ltac:(lia) Hrs Ht x).
    + unfold rbind in Hrs.
      destruct (_sqrt_mod_prime_power (a mod P) P 1 g) as [[o g0] | |] eqn:Hpp; try discriminate.
      unfold rret in Hrs. ret_inv Hrs.
      destruct o as [l |]; cbn [of_option truthy items].
      * pose proof (prime_power_nonempty (a mod P) P 1 g _ l HP2 ltac:(lia) Hpp) as Hne.
        destruct l as [| y l]; [contradiction |]. cbn [length Nat.eqb negb].
        unfold rret. intros H. apply ret_pair_inv in H. destruct H as [H _]. discriminate H.
      * intros _ x. rewrite <- (Z.pow_1_r P), <- Hmod.
        refine (prime_power_none (a mod P) P 1 g _ Hprime ltac:(lia) _ Hpp x).
        now rewrite Zmod_mod.
  - destruct (factorint_spec P HP) as [Hprod Hfac].
    unfold rbind at 1.
    destruct (collect_roots a (factorint P) g) as [[[[v pv] |] g1] | |] eqn:Hcol; try discriminate.
    + destruct (gf_crt1 pv) as [[mm e] s].
      unfold rbind, lift. destruct (_product v) as [vs | |] eqn:Hprodv; try discriminate.
      unfold rret. intros H. apply ret_pair_inv in H. destruct H as [H _].
      apply map_eq_nil in H. now apply product_nonempty in Hprodv.
    + intros _ x Hx.
      destruct (collect_roots_none a (factorint P) (proj1 Hfac) g g1 Hcol) as ([q k] & Hin & Hno).
      cbn [fst snd] in Hno.
      assert (Hq : Z.prime q /\ 1 <= k).
      { destruct Hfac as [Hall _]. rewrite Forall_forall in Hall. exact (Hall (q, k) Hin). }
      destruct Hq as [Hq Hk]. pose proof (Z.prime_ge_2 q Hq).
      apply (Hno x). apply (cong_divide_trans (q ^ k) P); [| lia | | exact Hx].
      * apply Z.pow_pos_nonneg; lia.
      * rewrite <- Hprod. now apply in_dict_prod_divides.
Qed.

(** ** The single answer of [sqrt_mod] *)




(** ** Generators modulo the powers of an odd prime *)

Lemma order_coprime (a n k : Z) : 1 < n -> 0 < k -> a ^ k mod n = 1 -> Z.gcd a n = 1.
Proof.
  intros Hn Hk H.
  pose proof (Z.gcd_nonneg a n) as Hnn.
  assert (Hd : (Z.gcd a n | 1)).
  { rewrite <- H. rewrite Z.mod_eq by lia.
    apply Z.divide_sub_r.
    - replace k with (1 + (k - 1)) by lia. rewrite Z.pow_add_r, Z.pow_1_r by lia.
      apply Z.divide_mul_l. apply Z.gcd_divide_l.
    - apply Z.divide_mul_l. apply Z.gcd_divide_r. }
  apply Z.divide_1_r_nonneg in Hd; [exact Hd | exact Hnn].
Qed.

Lemma generator_coprime (a n : Z) : 1 < n -> is_order a n (totient n) -> Z.gcd a n = 1.
Proof. intros Hn (Hk & H1 & _). exact (order_coprime a n _ Hn Hk H1). Qed.

Lemma totient_prime_power (p k : Z) :
  Z.prime p -> 1 <= k -> totient (p ^ k) = (p - 1) * p ^ (k - 1).
Proof.
  intros Hp Hk. rewrite totient_tot_of, (factorint_prime_power p k Hp Hk).
  rewrite tot_of_cons, tot_of_nil. ring.
Qed.

Lemma pow_quadratic_part (x : Z) (m : nat) :
  exists D, 2 * x ^ Z.of_nat m =
            2 + 2 * Z.of_nat m * (x - 1) + Z.of_nat m * (Z.of_nat m - 1) * ((x - 1) * (x - 1))
            + (x - 1) * (x - 1) * (x - 1) * D.
Proof.
  induction m as [| m (D & IH)].
  - exists 0. change (Z.of_nat 0) with 0. rewrite Z.pow_0_r. ring.
  - exists (D + Z.of_nat m * (Z.of_nat m - 1) + (x - 1) * D).
    rewrite Nat2Z.inj_succ, Z.pow_succ_r by lia.
    replace (2 * (x * x ^ Z.of_nat m)) with (x * (2 * x ^ Z.of_nat m)) by ring.
    rewrite IH. ring.
Qed.

(** Raising to the power [p] gains exactly one factor [p]. *)
Lemma lift_exact (p x j : Z) :
  Z.prime p -> p <> 2 -> 1 <= j ->
  (p ^ j | x - 1) -> ~ (p ^ (j + 1) | x - 1) ->
  (p ^ (j + 1) | x ^ p - 1) /\ ~ (p ^ (j + 2) | x ^ p - 1).
Proof.
  intros Hp Hne Hj Hd Hnd. pose proof (Z.prime_ge_2 p Hp) as Hp2.
  split; [apply pow_lift; [lia | exact Hj | exact Hd] |].
  destruct Hd as [c Hc].
  assert (Hpc : ~ (p | c)).
  { intros [c' Hc']. apply Hnd. exists c'. rewrite Hc, Hc'.
    rewrite Z.pow_add_r, Z.pow_1_r by lia. ring. }
  intros [e He].
  destruct (pow_quadratic_part x (Z.to_nat p)) as (D & HD).
  rewrite Z2Nat.id in HD by lia.
  assert (Hpj : 0 < p ^ (j + 1)) by (apply Z.pow_pos_nonneg; lia).
  assert (E1 : p ^ (j + 2) = p ^ (j + 1) * p).
  { replace (j + 2) with (j + 1 + 1) by lia. rewrite Z.pow_add_r, Z.pow_1_r by lia. ring. }
  assert (E2 : p ^ (j + 1) = p ^ j * p).
  { rewrite Z.pow_add_r, Z.pow_1_r by lia. ring. }
  assert (E3 : p ^ j = p ^ (j - 1) * p).
  { replace j with (j - 1 + 1) at 1 by lia. rewrite Z.pow_add_r, Z.pow_1_r by lia. ring. }
  assert (Hkey : p ^ (j + 1) * (2 * e * p) =
                 p ^ (j + 1) * (2 * c + p * ((p - 1) * c * c * p ^ (j - 1)
                                            + c * c * c * p ^ (j - 1) * p ^ (j - 1) * D))).
  { transitivity (2 * (x ^ p - 1)); [rewrite He, E1; ring |].
    transitivity (2 * x ^ p - 2); [ring |]. rewrite HD, Hc, E2, E3. ring. }
  apply Z.mul_reg_l in Hkey; [| lia].
  apply Hpc.
  assert (Hd2 : (p | 2 * c)).
  { exists (2 * e - ((p - 1) * c * c * p ^ (j - 1)
                     + c * c * c * p ^ (j - 1) * p ^ (j - 1) * D)). lia. }
  apply Z.divide_prime_mul in Hd2; [| exact Hp]. destruct Hd2 as [H2 | Hc2]; [| exact Hc2].
  exfalso. apply Z.divide_pos_le in H2; lia.
Qed.

Lemma pow_lift_iter (p x : Z) (s : nat) :
  0 < p -> (p | x - 1) -> (p ^ (Z.of_nat s + 1) | x ^ (p ^ Z.of_nat s) - 1).
Proof.
  intros Hp Hd. induction s as [| s IH].
  - change (Z.of_nat 0) with 0. rewrite Z.pow_0_r, !Z.pow_1_r. exact Hd.
  - rewrite Nat2Z.inj_succ. unfold Z.succ.
    rewrite (Z.pow_add_r p (Z.of_nat s) 1), Z.pow_1_r by lia.
    rewrite Z.pow_mul_r by (try apply Z.pow_nonneg; lia).
    apply pow_lift; [exact Hp | lia | exact IH].
Qed.

Lemma pow_gt_1 (p k : Z) : 2 <= p -> 1 <= k -> 1 < p ^ k.
Proof.
  intros Hp Hk. assert (p ^ 1 <= p ^ k) by (apply Z.pow_le_mono_r; lia).
  rewrite Z.pow_1_r in *. lia.
Qed.

Lemma pow_succ_divide (p k : Z) : 0 <= k -> (p ^ k | p ^ (k + 1)).
Proof. intros Hk. apply pow_le_divide. lia. Qed.

Lemma one_mod_smaller (m n x : Z) : 1 < m -> 0 < n -> (m | n) -> x mod n = 1 -> x mod m = 1.
Proof.
  intros Hm Hn Hd H. rewrite <- (Z.mod_1_l m) by lia.
  apply (cong_divide_trans m n); [lia | exact Hn | exact Hd |].
  rewrite H. symmetry. apply Z.mod_1_l.
  apply Z.divide_pos_le in Hd; lia.
Qed.

Lemma generator_lift (p g : Z) (n : nat) :
  Z.prime p -> p <> 2 -> is_order g p (p - 1) -> ~ (p ^ 2 | g ^ (p - 1) - 1) ->
  is_order g (p ^ (Z.of_nat n + 1)) ((p - 1) * p ^ Z.of_nat n) /\
  ~ (p ^ (Z.of_nat n + 2) | g ^ ((p - 1) * p ^ Z.of_nat n) - 1).
Proof.
  intros Hp Hne Hord Hsq. pose proof (Z.prime_ge_2 p Hp) as Hp2.
  induction n as [| n [Ho Hnd]].
  - change (Z.of_nat 0) with 0. cbn [Z.add]. rewrite Z.pow_0_r, Z.pow_1_r, Z.mul_1_r. auto.
  - rewrite Nat2Z.inj_succ. unfold Z.succ. set (N := Z.of_nat n) in *.
    assert (HN : 0 <= N) by (unfold N; lia).
    set (T := (p - 1) * p ^ N) in *.
    assert (HT : 0 < T).
    { unfold T. apply Z.mul_pos_pos; [lia |]. apply Z.pow_pos_nonneg; lia. }
    assert (ET : (p - 1) * p ^ (N + 1) = T * p).
    { unfold T. rewrite Z.pow_add_r, Z.pow_1_r by lia. ring. }
    rewrite ET.
    assert (Hm1 : 1 < p ^ (N + 1)) by (apply pow_gt_1; lia).
    assert (Hm2 : 1 < p ^ (N + 1 + 1)) by (apply pow_gt_1; lia).
    assert (Hdiv1 : (p ^ (N + 1) | g ^ T - 1)).
    { apply mod_one_divide; [exact Hm1 |]. exact (proj1 (proj2 Ho)). }
    replace (N + 2) with (N + 1 + 1) in Hnd by lia.
    destruct (lift_exact p (g ^ T) (N + 1) Hp Hne ltac:(lia) Hdiv1 Hnd) as [Hup Hnup].
    rewrite <- Z.pow_mul_r in Hup, Hnup by lia.
    replace (N + 1 + 2) with (N + 1 + 1 + 1) by lia.
    replace (N + 1 + 2) with (N + 1 + 1 + 1) in Hnup by lia.
    split; [| exact Hnup].
    assert (H1 : g ^ (T * p) mod p ^ (N + 1 + 1) = 1).
    { apply mod_one_divide; [exact Hm2 | exact Hup]. }
    assert (HTp : 0 < T * p) by (apply Z.mul_pos_pos; lia).
    destruct (order_exists g _ (T * p) HTp H1) as (d & Hd).
    pose proof (order_divides g _ d (T * p) Hd (Z.lt_le_incl _ _ HTp) H1) as Hdiv.
    assert (Hdpos : 0 < d) by exact (proj1 Hd).
    assert (Hd1 : g ^ d mod p ^ (N + 1) = 1).
    { apply (one_mod_smaller _ (p ^ (N + 1 + 1))); [exact Hm1 | lia | | exact (proj1 (proj2 Hd))].
      apply pow_succ_divide. lia. }
    pose proof (order_divides g _ T d Ho (Z.lt_le_incl _ _ Hdpos) Hd1) as [t Ht].
    assert (Htpos : 0 < t) by (clear - Ht HT Hdpos; nia).
    assert (Htp : (t | p)).
    { destruct Hdiv as [c Hc]. exists c. subst d.
      apply Z.mul_reg_l with T; [clear - HT; lia |]. clear - Hc. lia. }
    assert (Ht1p : t = 1 \/ t = p).
    { pose proof (Z.divide_pos_le t p ltac:(clear - Hp2; lia) Htp) as Hle.
      destruct (Z.eq_dec t 1) as [E | E]; [now left |].
      destruct (Z.eq_dec t p) as [E' | E']; [now right | exfalso].
      destruct Hp as [_ Hp]. apply (Hp t); [clear - Htpos E E' Hle; lia | exact Htp]. }
    destruct Ht1p as [E | E].
    + exfalso. subst t. rewrite Z.mul_1_l in Ht. subst d.
      apply Hnd. apply mod_one_divide; [exact Hm2 | exact (proj1 (proj2 Hd))].
    + subst t. replace (T * p) with d by (clear - Ht; lia). exact Hd.
Qed.

Lemma generator_reduce (p j n : Z) :
  Z.prime p -> 1 <= n -> is_order j (p ^ n) ((p - 1) * p ^ (n - 1)) -> is_order j p (p - 1).
Proof.
  intros Hp Hn Hord. pose proof (Z.prime_ge_2 p Hp) as Hp2.
  assert (Hpn : 1 < p ^ n) by (apply pow_gt_1; lia).
  assert (Hpp : 0 < p ^ (n - 1)) by (apply Z.pow_pos_nonneg; lia).
  destruct Hord as (HT & H1 & Hmin).
  pose proof (order_coprime j (p ^ n) _ Hpn HT H1) as Hg.
  assert (Hdivp : (p | p ^ n)).
  { replace n with (1 + (n - 1)) by lia. rewrite Z.pow_add_r, Z.pow_1_r by lia.
    apply Z.divide_mul_l, Z.divide_refl. }
  pose proof (coprime_not_divisible j (p ^ n) p Hg Hp Hdivp) as Hjp.
  assert (Hgp : Z.gcd j p = 1).
  { rewrite Z.gcd_comm. apply Z.coprime_prime_l; [exact Hp |].
    intros Hd. apply Hjp. apply Z.mod_divide; [lia | exact Hd]. }
  pose proof (euler_totient j p ltac:(lia) Hgp) as Hf. rewrite (totient_prime p Hp) in Hf.
  destruct (order_exists j p (p - 1) ltac:(lia) Hf) as (d & Hd).
  pose proof (order_divides j p d (p - 1) Hd ltac:(lia) Hf) as Hdp.
  destruct Hd as (Hdpos & Hd1 & Hdmin).
  assert (Hlift : (p ^ (Z.of_nat (Z.to_nat (n - 1)) + 1)
                   | (j ^ d) ^ (p ^ Z.of_nat (Z.to_nat (n - 1))) - 1)).
  { apply pow_lift_iter; [lia |]. apply mod_one_divide; [lia | exact Hd1]. }
  rewrite Z2Nat.id in Hlift by lia. replace (n - 1 + 1) with n in Hlift by lia.
  rewrite <- Z.pow_mul_r in Hlift by lia.
  assert (H2 : j ^ (d * p ^ (n - 1)) mod p ^ n = 1).
  { apply mod_one_divide; [exact Hpn | exact Hlift]. }
  pose proof (order_divides j (p ^ n) _ (d * p ^ (n - 1)) (conj HT (conj H1 Hmin))
                ltac:(nia) H2) as Hdd.
  apply Z.mul_divide_cancel_r in Hdd; [| lia].
  assert (E : d = p - 1) by (apply Z.divide_antisym_nonneg; try lia; assumption).
  subst d. repeat split; assumption.
Qed.

Lemma binomial_linear_part (g p : Z) (m : nat) :
  exists C, (g + p) ^ Z.of_nat (S m) =
            g ^ Z.of_nat (S m) + Z.of_nat (S m) * g ^ Z.of_nat m * p + p * p * C.
Proof.
  induction m as [| m (C & IH)].
  - exists 0. change (Z.of_nat 1) with 1. change (Z.of_nat 0) with 0.
    rewrite !Z.pow_1_r, Z.pow_0_r. ring.
  - exists (g * C + Z.of_nat (S m) * g ^ Z.of_nat m + p * C).
    rewrite (Nat2Z.inj_succ (S m)). rewrite !(Z.pow_succ_r _ (Z.of_nat (S m))) by lia.
    rewrite IH. rewrite (Nat2Z.inj_succ m). rewrite (Z.pow_succ_r g (Z.of_nat m)) by lia.
    ring.
Qed.

Lemma prime_divides_pow (p a k : Z) : Z.prime p -> 0 <= k -> (p | a ^ k) -> (p | a).
Proof.
  intros Hp Hk Hd. destruct (Zdivide_dec p a) as [H | H]; [exact H | exfalso].
  pose proof (Z.prime_ge_2 p Hp).
  assert (Hc : Z.gcd p (a ^ k) = 1).
  { apply Z.coprime_pow_r; [exact Hk |]. now apply Z.coprime_prime_l. }
  assert (Hd1 : (p | 1)).
  { rewrite <- Hc. apply Z.gcd_greatest; [apply Z.divide_refl | exact Hd]. }
  apply Z.divide_1_r_nonneg in Hd1; lia.
Qed.

(** When [g] fails modulo the square, [g + p] does not. *)
Lemma shifted_generator (p g : Z) :
  Z.prime p -> p <> 2 -> g mod p <> 0 ->
  (p ^ 2 | g ^ (p - 1) - 1) -> ~ (p ^ 2 | (g + p) ^ (p - 1) - 1).
Proof.
  intros Hp Hne Hg Hsq Hsq'. pose proof (Z.prime_ge_2 p Hp) as Hp2.
  destruct (binomial_linear_part g p (Z.to_nat (p - 2))) as (C & HC).
  rewrite Nat2Z.inj_succ, Z2Nat.id in HC by lia.
  replace (Z.succ (p - 2)) with (p - 1) in HC by lia.
  rewrite Z.pow_2_r in *.
  assert (Hd : (p * p | (p - 1) * g ^ (p - 2) * p)).
  { replace ((p - 1) * g ^ (p - 2) * p)
      with (((g + p) ^ (p - 1) - 1) - (g ^ (p - 1) - 1) - p * p * C) by (rewrite HC; ring).
    apply Z.divide_sub_r; [apply Z.divide_sub_r; assumption |].
    apply Z.divide_mul_l, Z.divide_refl. }
  apply Z.mul_divide_cancel_r in Hd; [| lia].
  apply Z.divide_prime_mul in Hd; [| exact Hp]. destruct Hd as [Hd | Hd].
  - apply Z.divide_pos_le in Hd; lia.
  - apply prime_divides_pow in Hd; [| exact Hp | lia].
    apply Hg. apply Z.mod_divide; [lia | exact Hd].
Qed.

Lemma square_criterion (p g : Z) :
  Z.prime p -> p <> 2 ->
  (is_order g (p ^ 2) (totient (p ^ 2)) <->
   is_order g p (p - 1) /\ ~ (p ^ 2 | g ^ (p - 1) - 1)).
Proof.
  intros Hp Hne. pose proof (Z.prime_ge_2 p Hp) as Hp2.
  rewrite (totient_prime_power p 2 Hp ltac:(lia)).
  replace (2 - 1) with 1 by lia. split.
  - intros Hord. split.
    + apply (generator_reduce p g 2 Hp ltac:(lia)). exact Hord.
    + intros Hd. destruct Hord as (_ & _ & Hmin).
      apply (Hmin (p - 1)); [rewrite Z.pow_1_r; nia |].
      apply mod_one_divide; [apply pow_gt_1; lia | exact Hd].
  - intros [Hord Hnd].
    exact (proj1 (generator_lift p g 1 Hp Hne Hord Hnd)).
Qed.

Lemma generator_prime_power (p g n : Z) :
  Z.prime p -> p <> 2 -> 1 <= n ->
  is_order g p (p - 1) -> ~ (p ^ 2 | g ^ (p - 1) - 1) ->
  is_order g (p ^ n) (totient (p ^ n)).
Proof.
  intros Hp Hne Hn Hord Hnd.
  rewrite (totient_prime_power p n Hp Hn).
  pose proof (proj1 (generator_lift p g (Z.to_nat (n - 1)) Hp Hne Hord Hnd)) as H.
  rewrite Z2Nat.id in H by lia. now replace (n - 1 + 1) with n in H by lia.
Qed.

(** ** The smallest primitive root of a prime *)

Lemma prime_coprime_below (p j : Z) : Z.prime p -> 0 < j < p -> Z.gcd j p = 1.
Proof.
  intros Hp Hj. rewrite Z.gcd_comm. apply Z.coprime_prime_l; [exact Hp |].
  intros Hd. apply Z.divide_pos_le in Hd; lia.
Qed.

Lemma fermat_little (p j : Z) : Z.prime p -> 0 < j < p -> j ^ (p - 1) mod p = 1.
Proof.
  intros Hp Hj. pose proof (Z.prime_ge_2 p Hp).
  rewrite <- (totient_prime p Hp). apply euler_totient; [lia |].
  now apply prime_coprime_below.
Qed.

Lemma one_not_generator (n : Z) : 1 < totient n -> ~ is_order 1 n (totient n).
Proof.
  intros Ht (_ & H1 & Hmin). apply (Hmin 1); [lia |].
  rewrite Z.pow_1_l in * by lia. exact H1.
Qed.

Lemma prime_generator_exists (p : Z) :
  Z.prime p -> p <> 2 -> exists g, 2 <= g < p /\ is_order g p (p - 1).
Proof.
  intros Hp Hne. destruct (odd_prime p Hp Hne) as [Hp3 _].
  destruct (NatBridge.prime_generator p Hp) as (g & Hg & Hord & _).
  assert (Ho : is_order g p (p - 1)).
  { split; [lia |]. split; [now apply fermat_little |].
    intros j Hj H1. apply Hord in H1; [| lia].
    apply Z.divide_pos_le in H1; lia. }
  exists g. split; [| exact Ho].
  destruct (Z.eq_dec g 1) as [-> | Hg1]; [| lia].
  exfalso. apply (one_not_generator p); rewrite (totient_prime p Hp); [lia | exact Ho].
Qed.

Lemma forallb_map {A B : Type} (f : B -> bool) (h : A -> B) (l : list A) :
  forallb f (map h l) = forallb (fun x => f (h x)) l.
Proof. induction l as [| x l IH]; cbn; [reflexivity | now rewrite IH]. Qed.

(** The test of the search [for g in range(2, p)]. *)
Lemma prime_root_test (p g : Z) :
  Z.prime p -> p <> 2 -> 0 < g < p ->
  forallb (fun pw => negb (powmod g pw p =? 1))
          (map (fun i => (p - 1) / i) (keys (factorint (p - 1)))) = true
  <-> is_order g p (p - 1).
Proof.
  intros Hp Hne Hg. destruct (odd_prime p Hp Hne) as [Hp3 _].
  rewrite forallb_map.
  assert (H : forallb (fun prime => negb (powmod (g mod p) ((p - 1) / prime) p =? 1))
                      (keys (factorint (p - 1))) = true <-> is_order g p (p - 1)).
  { apply (quotient_test g p (p - 1) (keys (factorint (p - 1)))); try lia.
    - now apply fermat_little.
    - intros r Hr. apply key_divides; [lia | exact Hr].
    - intros r Hr Hd. destruct (factorint_spec (p - 1) ltac:(lia)) as (Hprod & Hall & _).
      apply prime_divides_dict_prod; [exact Hr | exact Hall | now rewrite Hprod]. }
  rewrite (Z.mod_small g p) in H by lia. exact H.
Qed.

Lemma find_range2 (f : Z -> bool) (hi : Z) :
  forall (k : nat) (lo : Z),
  Z.of_nat k = hi - lo ->
  (exists i, lo <= i < hi /\ f i = true) ->
  exists r, find f (range2 lo hi) = Some r /\ lo <= r < hi /\ f r = true /\
            forall j, lo <= j < r -> f j = false.
Proof.
  induction k as [| k IH]; intros lo Hk (i & Hi & Hfi); [lia |].
  rewrite range2_cons by lia. cbn [find].
  destruct (f lo) eqn:Hlo.
  - exists lo. split; [reflexivity |]. split; [lia |]. split; [exact Hlo |].
    intros j Hj. lia.
  - destruct (IH (lo + 1) ltac:(lia)) as (r & Hr & Hrange & Hfr & Hmin).
    { exists i. split; [| exact Hfi]. destruct (Z.eq_dec i lo) as [-> | Hne]; [congruence | lia]. }
    exists r. split; [exact Hr |]. split; [lia |]. split; [exact Hfr |].
    intros j Hj. destruct (Z.eq_dec j lo) as [-> | Hne]; [exact Hlo | apply Hmin; lia].
Qed.

(** The primes below 41, where the first primitive root comes from a table. *)
Lemma small_prime_table :
  forallb (fun p =>
             implb (isprime p)
                   (let g := hd 0 (_primitive_root_prime_iter p) in
                    (0 <? g) && (g <? p)
                    && match n_order g p with Ret k => k =? p - 1 | _ => false end
                    && forallb (fun j => match n_order j p with
                                         | Ret k => negb (k =? p - 1)
                                         | _ => false
                                         end) (range2 1 g)))
          (range2 3 41) = true.
Proof. vm_compute. reflexivity. Qed.

Lemma prime_root_first (p : Z) :
  Z.prime p -> p <> 2 ->
  exists g l, _primitive_root_prime_iter p = g :: l /\ smallest_generator g p.
Proof.
  intros Hp Hne. destruct (odd_prime p Hp Hne) as [Hp3 _].
  unfold smallest_generator. rewrite (totient_prime p Hp).
  destruct (Z.lt_ge_cases p 41) as [Hsmall | Hbig].
  - pose proof small_prime_table as Htab. rewrite forallb_forall in Htab.
    assert (Hin : In p (range2 3 41)).
    { replace p with (3 + (p - 3) * 1) by lia. apply range3_In_rev; lia. }
    specialize (Htab p Hin). cbv zeta in Htab.
    rewrite (proj2 (isprime_spec p) Hp) in Htab. cbn [implb] in Htab.
    apply andb_true_iff in Htab. destruct Htab as [Htab Hless].
    apply andb_true_iff in Htab. destruct Htab as [Htab Hgen].
    apply andb_true_iff in Htab. destruct Htab as [Hg0 Hgp].
    apply Z.ltb_lt in Hg0, Hgp.
    destruct (_primitive_root_prime_iter p) as [| g l]; [cbn in Hg0; lia |].
    cbn [hd] in *. exists g, l. split; [reflexivity |]. split; [exact Hg0 |]. split.
    + destruct (n_order_correct g p ltac:(lia) (prime_coprime_below p g Hp ltac:(lia)))
        as (k & Hk & Hok & _).
      rewrite Hk in Hgen. apply Z.eqb_eq in Hgen. now subst k.
    + intros j Hj Hoj. rewrite forallb_forall in Hless.
      assert (Hjin : In j (range2 1 g)).
      { replace j with (1 + (j - 1) * 1) by lia. apply range3_In_rev; lia. }
      specialize (Hless j Hjin).
      destruct (n_order_correct j p ltac:(lia) (prime_coprime_below p j Hp ltac:(lia)))
        as (k & Hk & Hok & _).
      rewrite Hk in Hless. pose proof (order_unique j p _ _ Hok Hoj). subst k.
      rewrite Z.eqb_refl in Hless. discriminate Hless.
  - unfold _primitive_root_prime_iter.
    replace (p =? 3) with false by (symmetry; apply Z.eqb_neq; lia).
    replace (p <? 41) with false by (symmetry; apply Z.ltb_ge; lia).
    set (test := fun g => forallb (fun pw => negb (powmod g pw p =? 1))
                                  (map (fun i => (p - 1) / i) (keys (factorint (p - 1))))).
    destruct (prime_generator_exists p Hp Hne) as (g0 & Hg0 & Ho0).
    destruct (find_range2 test p (Z.to_nat (p - 2)) 2 ltac:(lia)) as (r & Hr & Hrange & Hfr & Hmin).
    { exists g0. split; [exact Hg0 |]. apply prime_root_test; auto; lia. }
    unfold first_or_last. rewrite Hr.
    eexists r, _. split; [reflexivity |]. split; [lia |]. split.
    + apply prime_root_test; auto; lia.
    + intros j Hj Hoj. destruct (Z.eq_dec j 1) as [-> | Hj1].
      * apply (one_not_generator p); rewrite (totient_prime p Hp); [lia | exact Hoj].
      * assert (Hfj : test j = false) by (apply Hmin; lia).
        apply (prime_root_test p j Hp Hne ltac:(lia)) in Hoj. unfold test in Hfj. congruence.
Qed.

(** * Further properties of the code *)

(** ** The root finders behind [sqrt_mod_iter] *)

(** X1: for an odd prime [p] and a quadratic residue [a] not divisible by
    [p], the value [_sqrt_mod_tonelli_shanks(a, p)] returns is a residue
    [x] with [x**2 = a mod p], whatever non-residue the random search
    picked. *)
Theorem tonelli_shanks_root (a p : Z) (g g' : RNG) (x : Z) :
  Z.prime p -> p <> 2 -> a mod p <> 0 -> (exists y, (y * y) mod p = a mod p) ->
  _sqrt_mod_tonelli_shanks a p g = Ret (x, g') ->
  0 <= x < p /\ (x * x) mod p = a mod p.
Proof.
  intros Hp Hne Ha Hres Hrun. pose proof (Z.prime_ge_2 p Hp). split.
  - apply (tonelli_shanks_range a p g g'); [lia | exact Hrun].
  - now apply (tonelli_shanks_sound a p g g').
Qed.

Lemma tonelli_shanks_root_witness :
  _sqrt_mod_tonelli_shanks 2 17 [1] = Ret (6, []) /\
  (0 <= 6 < 17 /\ (6 * 6) mod 17 = 2 mod 17).
Proof.
  split; [reflexivity |].
  apply (tonelli_shanks_root 2 17 [1] []).
  - apply isprime_spec. reflexivity.
  - lia.
  - discriminate.
  - exists 6. reflexivity.
  - reflexivity.
Defined.

(** X2: for a prime [p], an exponent [k >= 1] and [a] not divisible by
    [p], [_sqrt_mod_prime_power(a, p, k)] decides whether [a] is a square
    modulo [p**k]: a list it returns is not empty and holds only roots of
    [x**2 = a mod p**k], and it returns [None] only when there is no
    root. *)
Theorem sqrt_mod_prime_power_decides (a p k : Z) (g g' : RNG) (o : option (list Z)) :
  Z.prime p -> 1 <= k -> a mod p <> 0 ->
  _sqrt_mod_prime_power a p k g = Ret (o, g') ->
  match o with
  | Some l => l <> [] /\ forall r, In r l -> (r * r) mod p ^ k = a mod p ^ k
  | None => forall x, (x * x) mod p ^ k <> a mod p ^ k
  end.
Proof.
  intros Hp Hk Ha Hrun. pose proof (Z.prime_ge_2 p Hp). destruct o as [l |].
  - split.
    + exact (prime_power_nonempty a p k g g' l ltac:(lia) Hk Hrun).
    + exact (sqrt_mod_prime_power_sound a p k g g' l Hp Hk Hrun).
  - exact (prime_power_none a p k g g' Hp Hk Ha Hrun).
Qed.

Lemma sqrt_mod_prime_power_decides_witness :
  _sqrt_mod_prime_power 17 2 5 [] = Ret (Some [7; 9; 23; 25], []) /\
  ([7; 9; 23; 25] <> [] /\ forall r, In r [7; 9; 23; 25] -> (r * r) mod 2 ^ 5 = 17 mod 2 ^ 5).
Proof.
  split; [reflexivity |].
  apply (sqrt_mod_prime_power_decides 17 2 5 [] [] (Some [7; 9; 23; 25])).
  - apply isprime_spec. reflexivity.
  - lia.
  - discriminate.
  - reflexivity.
Defined.

(** X3: for a prime [p] and [n >= 1], every value of the sequence
    [_sqrt_mod1(a, p, n)] returns is a root of [x**2 = a mod p**n], and the
    result is false ([None]) only when there is no root. *)
Theorem sqrt_mod1_decides (a p n : Z) (g g' : RNG) (rs : rootseq) :
  Z.prime p -> 1 <= n ->
  _sqrt_mod1 a p n g = Ret (rs, g') ->
  (forall r, In r (items rs) -> (r * r) mod p ^ n = a mod p ^ n) /\
  (truthy rs = false -> forall x, (x * x) mod p ^ n <> a mod p ^ n).
Proof.
  intros Hp Hn Hrun. split.
  - exact (sqrt_mod1_sound a p n g g' rs Hp Hn Hrun).
  - exact (sqrt_mod1_none a p n g g' rs Hp Hn Hrun).
Qed.

Lemma sqrt_mod1_decides_witness :
  _sqrt_mod1 9 3 3 [] = Ret (RGen [3; 12; 21; 6; 15; 24], []) /\
  forall r, In r [3; 12; 21; 6; 15; 24] -> (r * r) mod 3 ^ 3 = 9 mod 3 ^ 3.
Proof.
  split; [reflexivity |].
  apply (sqrt_mod1_decides 9 3 3 [] [] (RGen [3; 12; 21; 6; 15; 24])).
  - apply isprime_spec. reflexivity.
  - lia.
  - reflexivity.
Defined.

(** ** [_product] is the Cartesian product *)

Lemma cart_cons (it : list Z) (its : list (list Z)) :
  cart (it :: its) = flat_map (fun x => map (cons x) (cart its)) it.
Proof. reflexivity. Qed.

Lemma cart_head (its : list (list Z)) :
  Forall (fun it => it <> []) its ->
  cart its = map (hd 0) its :: tl (cart its).
Proof.
  induction 1 as [| it its Hit _ IH]; [reflexivity |].
  destruct it as [| x it]; [contradiction |].
  rewrite cart_cons. cbn [flat_map hd map].
  destruct (cart its) as [| t0 T]; [discriminate IH |].
  cbn [tl] in IH. injection IH as ->. reflexivity.
Qed.

Lemma cart_length (its : list (list Z)) :
  length (cart its) = fold_right (fun it n => (length it * n)%nat) 1%nat its.
Proof.
  induction its as [| it its IH]; [reflexivity |].
  rewrite cart_cons. cbn [fold_right]. rewrite <- IH. clear IH.
  induction it as [| x it IHit]; [reflexivity |].
  cbn [flat_map length]. rewrite length_app, length_map, IHit. lia.
Qed.

(** A state of the wheels: no wheel is empty, every position is inside its
    wheel, and there is a current value for each wheel. *)
Lemma skipn_nth_error {A : Type} (l : list A) (n : nat) (x : A) :
  nth_error l n = Some x -> skipn n l = x :: skipn (S n) l.
Proof.
  revert n. induction l as [| y l IH]; intros [| n] Hx; try discriminate.
  - cbn in Hx. injection Hx as ->. reflexivity.
  - cbn [nth_error] in Hx. cbn [skipn]. rewrite (IH n Hx). reflexivity.
Qed.

(** One turn of the odometer delivers the first pending tuple, or, when
    nothing is pending, carries out and starts the next round. *)
Lemma turn_pending (ws : list wheel) :
  Forall (fun w => (w_pos w < length (w_items w))%nat) ws ->
  forall cur, length cur = length ws ->
  exists carry ws1 cur1,
    turn ws cur = Ret (carry, ws1, cur1) /\
    map w_items ws1 = map w_items ws /\
    Forall (fun w => (w_pos w < length (w_items w))%nat) ws1 /\
    length cur1 = length ws1 /\
    match pending ws cur with
    | [] => carry = true /\ cur1 = map (hd 0) (map w_items ws) /\
            pending ws1 cur1 = tl (cart (map w_items ws))
    | t :: rest => carry = false /\ t = cur1 /\ rest = pending ws1 cur1
    end.
Proof.
  induction 1 as [| w ws Hw Hws IH]; intros cur Hlen.
  - destruct cur; [| discriminate]. exists true, [], []. cbn. repeat split. constructor.
  - destruct cur as [| c cur0]; [discriminate |]. cbn [length] in Hlen.
    destruct (IH cur0 ltac:(lia)) as (carry & ws1 & cur1 & Ht & Hit & Hv & Hl & Hp).
    assert (Hne : Forall (fun it => it <> []) (map w_items ws)).
    { apply Forall_map. apply Forall_impl with (2 := Hws). intros w0 H0 E.
      rewrite E in H0. cbn in H0. lia. }
    pose proof (cart_head _ Hne) as Hch.
    cbn [turn]. rewrite Ht. cbn [obind]. cbn [pending map].
    destruct (cart (map w_items ws)) as [| t0 T] eqn:Hcart; [discriminate Hch |].
    cbn [tl] in Hch, Hp. injection Hch as Ht0.
    destruct (pending ws cur0) as [| t rest] eqn:Hpend.
    + destruct Hp as (-> & Hc1 & Hp1). cbn [map app].
      unfold spin. destruct (nth_error (w_items w) (w_pos w)) as [x |] eqn:Hx.
      2:{ apply nth_error_None in Hx. lia. }
      set (q := if Nat.eqb (S (w_pos w)) (length (w_items w)) then O else S (w_pos w)).
      exists (Nat.eqb (w_pos w) 0), ({| w_items := w_items w; w_pos := q |} :: ws1), (x :: cur1).
      split; [reflexivity |]. split; [cbn [map w_items]; now rewrite Hit |].
      split.
      { constructor; [| exact Hv]. cbn [w_pos w_items]. unfold q.
        destruct (Nat.eqb_spec (S (w_pos w)) (length (w_items w))); lia. }
      split; [cbn [length]; now rewrite Hl |].
      cbn [pending w_pos w_items]. rewrite Hit, Hp1, Hcart.
      rewrite (skipn_nth_error _ _ _ Hx). cbn [flat_map].
      assert (Hq : (if Nat.eqb q 0 then []
                    else flat_map (fun x0 => map (cons x0) (t0 :: T)) (skipn q (w_items w)))
                   = flat_map (fun x0 => map (cons x0) (t0 :: T)) (skipn (S (w_pos w)) (w_items w))).
      { unfold q. destruct (Nat.eqb_spec (S (w_pos w)) (length (w_items w))) as [E | E].
        - cbn [Nat.eqb]. rewrite E, skipn_all. reflexivity.
        - cbn [Nat.eqb]. reflexivity. }
      rewrite Hq.
      destruct (Nat.eqb_spec (w_pos w) 0) as [E0 | E0].
      * (* the whole odometer is back at the start *)
        split; [reflexivity |]. rewrite E0 in *.
        destruct (w_items w) as [| x0 it] eqn:Hitems; [discriminate |].
        cbn [nth_error] in Hx. injection Hx as ->.
        rewrite cart_cons, Hcart.
        cbn [hd skipn flat_map map app tl]. rewrite Hc1, Ht0. split; reflexivity.
      * cbn [map app]. rewrite Hc1, Ht0. repeat split.
    + destruct Hp as (-> & -> & ->).
      exists false, (w :: ws1), (c :: cur1).
      split; [reflexivity |]. split; [cbn [map]; now rewrite Hit |].
      split; [constructor; assumption |].
      split; [cbn [length]; now rewrite Hl |].
      cbn [map app pending]. rewrite Hit, Hcart. auto.
Qed.

Lemma product_loop_S (fuel : nat) (first_v : bool) (ws : list wheel) (cur : list Z) :
  product_loop (S fuel) first_v ws cur =
  (r <- turn ws cur ;;
   let '(carry, ws', cur') := r in
   if (carry : bool) then
     if first_v then rest <- product_loop fuel false ws' cur' ;; Ret (cur' :: rest)
     else Ret []
   else rest <- product_loop fuel first_v ws' cur' ;; Ret (cur' :: rest)).
Proof. reflexivity. Qed.

Lemma product_loop_pending (fuel : nat) :
  forall ws cur,
  Forall (fun w => (w_pos w < length (w_items w))%nat) ws ->
  length cur = length ws ->
  (length (pending ws cur) < fuel)%nat ->
  product_loop fuel false ws cur = Ret (pending ws cur).
Proof.
  induction fuel as [| f IH]; intros ws cur Hv Hl Hf; [lia |].
  destruct (turn_pending ws Hv cur Hl) as (carry & ws1 & cur1 & Ht & Hit & Hv1 & Hl1 & Hp).
  cbn [product_loop]. rewrite Ht. cbn [obind].
  destruct (pending ws cur) as [| t rest].
  - destruct Hp as (-> & _ & _). reflexivity.
  - destruct Hp as (-> & -> & ->). cbn [length] in Hf.
    rewrite (IH ws1 cur1 Hv1 Hl1 ltac:(lia)). reflexivity.
Qed.

Lemma pending_start (iters : list (list Z)) (cur : list Z) :
  pending (map (fun it => {| w_items := it; w_pos := O |}) iters) cur = [].
Proof.
  revert cur. induction iters as [| it iters IH]; intros cur; [reflexivity |].
  destruct cur as [| c cur]; [reflexivity |]. cbn [map pending w_pos Nat.eqb].
  rewrite IH. reflexivity.
Qed.

(** The first round of spins either meets an empty iterable and fails, or
    spins every wheel. *)
Lemma turn_start (iters : list (list Z)) :
  forall cur, length cur = length iters ->
  (Exists (fun it => it = []) iters /\
   turn (map (fun it => {| w_items := it; w_pos := O |}) iters) cur = Raise RuntimeError) \/
  (Forall (fun it => it <> []) iters /\
   exists ws1 cur1,
     turn (map (fun it => {| w_items := it; w_pos := O |}) iters) cur = Ret (true, ws1, cur1)).
Proof.
  induction iters as [| it iters IH]; intros cur Hlen.
  - right. split; [constructor |]. destruct cur; [| discriminate]. now exists [], [].
  - destruct cur as [| c cur0]; [discriminate |]. cbn [length] in Hlen.
    cbn [map turn].
    destruct (IH cur0 ltac:(lia)) as [[Hex Hraise] | [Hall (ws1 & cur1 & Hret)]].
    + left. split; [now right |]. rewrite Hraise. reflexivity.
    + rewrite Hret. cbn [obind]. unfold spin. cbn [w_items w_pos].
      destruct it as [| x it].
      * left. split; [now left | reflexivity].
      * right. split; [constructor; [discriminate | exact Hall] |].
        cbn [nth_error Nat.eqb]. eauto.
Qed.

(** X4: called on iterables none of which is empty, [_product] yields the
    tuples of [itertools.product] on the same iterables, in the same order
    and each once; with an empty iterable it does not yield nothing but
    fails, the [StopIteration] of the exhausted cycle surfacing as a
    [RuntimeError]. *)
Theorem product_is_cartesian (iters : list (list Z)) :
  (Forall (fun it => it <> []) iters -> _product iters = Ret (cart iters)) /\
  (Exists (fun it => it = []) iters -> _product iters = Raise RuntimeError).
Proof.
  split.
  - intros Hne. unfold _product.
    set (ws := map (fun it => {| w_items := it; w_pos := O |}) iters).
    set (cur := map (fun _ : list Z => 0) iters).
    assert (Hitems : map w_items ws = iters).
    { unfold ws. rewrite map_map. cbn [w_items]. apply map_id. }
    assert (Hv : Forall (fun w => (w_pos w < length (w_items w))%nat) ws).
    { unfold ws. apply Forall_map. apply Forall_impl with (2 := Hne).
      intros it Hit. cbn [w_pos w_items]. destruct it; [contradiction | cbn; lia]. }
    assert (Hl : length cur = length ws) by (unfold cur, ws; now rewrite !length_map).
    destruct (turn_pending ws Hv cur Hl) as (carry & ws1 & cur1 & Ht & Hit & Hv1 & Hl1 & Hp).
    assert (Hps : pending ws cur = []) by apply pending_start.
    rewrite Hps in Hp. destruct Hp as (-> & Hc1 & Hp1).
    rewrite Hitems in Hc1, Hp1.
    rewrite product_loop_S, Ht. cbn [obind].
    rewrite (product_loop_pending _ ws1 cur1 Hv1 Hl1).
    + cbn [obind]. f_equal. rewrite Hp1, Hc1. symmetry. exact (cart_head iters Hne).
    + rewrite Hp1, <- cart_length. destruct (cart iters); cbn [tl length]; lia.
  - intros Hex. unfold _product. rewrite product_loop_S.
    destruct (turn_start iters (map (fun _ : list Z => 0) iters) ltac:(now rewrite length_map))
      as [[_ Hraise] | [Hall _]].
    + rewrite Hraise. reflexivity.
    + exfalso. apply Exists_exists in Hex. destruct Hex as (it & Hin & ->).
      rewrite Forall_forall in Hall. now apply (Hall [] Hin).
Qed.

Lemma product_is_cartesian_witness :
  _product [[1; 2]; [3]; [4; 5; 6]]
  = Ret [[1; 3; 4]; [1; 3; 5]; [1; 3; 6]; [2; 3; 4]; [2; 3; 5]; [2; 3; 6]].
Proof.
  apply (proj1 (product_is_cartesian [[1; 2]; [3]; [4; 5; 6]])).
  repeat constructor; discriminate.
Defined.

(** ** The primitive roots the generators yield *)

(** A power of an element of order [T] by an exponent prime to [T] has
    order [T] again. *)
Lemma power_generator (g n T k : Z) :
  is_order g n T -> 0 < k -> Z.gcd T k = 1 -> is_order (g ^ k) n T.
Proof.
  intros (HT & H1 & Hmin) Hk Hg. split; [exact HT |]. split.
  - rewrite <- Z.pow_mul_r by lia. rewrite Z.mul_comm. apply pow_mod_one_mul; [lia | lia | exact H1].
  - intros j Hj Hj1. rewrite <- Z.pow_mul_r in Hj1 by lia.
    pose proof (order_divides g n T (k * j) (conj HT (conj H1 Hmin)) ltac:(nia) Hj1) as Hd.
    apply Z.gauss in Hd; [| exact Hg].
    apply Z.divide_pos_le in Hd; lia.
Qed.

Lemma prime_iter_shape (p : Z) :
  p <> 3 ->
  exists g, _primitive_root_prime_iter p
            = g :: map (fun k => powmod g k p)
                       (filter (fun k => Z.gcd (p - 1) k =? 1) (range3 3 p 2)).
Proof.
  intros Hne. unfold _primitive_root_prime_iter.
  replace (p =? 3) with false by (symmetry; apply Z.eqb_neq; lia).
  eexists. reflexivity.
Qed.

Lemma prime_iter_generators (p : Z) :
  Z.prime p -> p <> 2 ->
  exists g l, _primitive_root_prime_iter p = g :: l /\ smallest_generator g p /\
              Forall (fun x => 0 < x < p /\ is_order x p (p - 1)) (g :: l).
Proof.
  intros Hp Hne. destruct (odd_prime p Hp Hne) as [Hp3 _].
  destruct (prime_root_first p Hp Hne) as (g & l & Hl & Hsm).
  exists g, l. split; [exact Hl |]. split; [exact Hsm |].
  destruct Hsm as (Hg0 & Hord & _). rewrite (totient_prime p Hp) in Hord.
  assert (Hgp : 0 < g < p).
  { split; [exact Hg0 |].
    destruct (Z.lt_ge_cases g p) as [H | H]; [exact H | exfalso].
    (* the order of [g mod p] would be that of a smaller number *)
    pose proof (proj2 (is_order_mod g p (p - 1)) Hord) as Hm.
    pose proof (Z.mod_pos_bound g p ltac:(lia)) as Hb.
    destruct (prime_root_first p Hp Hne) as (g' & l' & Hl' & (_ & _ & Hmin')).
    rewrite Hl in Hl'. injection Hl' as <- _.
    destruct (Z.eq_dec (g mod p) 0) as [E | E].
    - rewrite E in Hm. destruct Hm as (_ & H1 & _).
      rewrite Z.pow_0_l, Z.mod_0_l in H1 by lia. discriminate.
    - apply (Hmin' (g mod p)); [lia |]. now rewrite (totient_prime p Hp). }
  constructor; [split; assumption |].
  destruct (Z.eq_dec p 3) as [-> | Hp3'].
  - cbn in Hl. injection Hl as _ <-. constructor.
  - destruct (prime_iter_shape p Hp3') as (g0 & Hshape).
    rewrite Hl in Hshape. injection Hshape as <- ->.
    apply Forall_forall. intros x Hx. apply in_map_iff in Hx.
    destruct Hx as (k & <- & Hk). apply filter_In in Hk. destruct Hk as [Hk Hgk].
    apply Z.eqb_eq in Hgk. apply range3_In in Hk; [| lia].
    destruct Hk as (i & Hi & -> & _).
    rewrite powmod_spec by lia.
    assert (Hpow : is_order (g ^ (3 + i * 2) mod p) p (p - 1)).
    { apply is_order_mod. apply power_generator; [exact Hord | lia | exact Hgk]. }
    split; [| exact Hpow].
    pose proof (Z.mod_pos_bound (g ^ (3 + i * 2)) p ltac:(lia)) as Hb.
    destruct (Z.eq_dec (g ^ (3 + i * 2) mod p) 0) as [E | E]; [| lia].
    exfalso. rewrite E in Hpow. destruct Hpow as (_ & H1 & _).
    rewrite Z.pow_0_l, Z.mod_0_l in H1 by lia. discriminate.
Qed.

(** X5: for an odd prime [p], the first value [_primitive_root_prime_iter(p)]
    yields is the smallest primitive root of [p], and every value it yields
    is a primitive root of [p] among [1 .. p - 1]. *)
Theorem primitive_root_prime_iter_sound (p : Z) :
  Z.prime p -> p <> 2 ->
  exists g l, _primitive_root_prime_iter p = g :: l /\ smallest_generator g p /\
              Forall (fun x => 0 < x < p /\ is_order x p (totient p)) (g :: l).
Proof.
  intros Hp Hne. destruct (prime_iter_generators p Hp Hne) as (g & l & Hl & Hsm & Hall).
  exists g, l. rewrite (totient_prime p Hp). auto.
Qed.

Lemma primitive_root_prime_iter_sound_witness :
  exists g l, _primitive_root_prime_iter 19 = g :: l /\ smallest_generator g 19 /\
              Forall (fun x => 0 < x < 19 /\ is_order x 19 (totient 19)) (g :: l).
Proof.
  apply (primitive_root_prime_iter_sound 19).
  - apply isprime_spec. reflexivity.
  - lia.
Defined.

Lemma ret_eq {A : Type} (x y : A) : Ret x = Ret y -> x = y.
Proof. intros H. injection H. auto. Qed.

(** [pow] with a negative exponent: the power of the inverse. *)
Lemma pow3_inverse (g e m : Z) :
  1 < m -> e < 0 -> Z.gcd g m = 1 ->
  exists i, pow3 g e m = Ret i /\ (g ^ (- e) * i) mod m = 1.
Proof.
  intros Hm He Hg. unfold pow3.
  replace (m =? 0) with false by (symmetry; apply Z.eqb_neq; lia).
  replace (0 <=? e) with false by (symmetry; apply Z.leb_gt; lia).
  rewrite Hg. cbn [Z.eqb Pos.eqb]. eexists. split; [reflexivity |].
  rewrite Z.abs_eq by lia. rewrite powmod_spec by lia.
  rewrite Zmult_mod_idemp_r, <- Z.pow_mul_l.
  rewrite <- Z.mod_pow_l, (Z.mul_comm g), Z.invmod_coprime by (try lia; exact Hg).
  rewrite Z.pow_1_l by lia. apply Z.mod_1_l. lia.
Qed.

Lemma coprime_prime_pow (p g k : Z) :
  Z.prime p -> 0 < g < p -> 0 <= k -> Z.gcd g (p ^ k) = 1.
Proof.
  intros Hp Hg Hk. apply Z.coprime_pow_r; [exact Hk |]. now apply prime_coprime_below.
Qed.

(** Among the lifts [g + k] of a primitive root [g] of [p], [k] a multiple
    of [p] below [p**2], only [k = (g - g**(2 - p)) mod p**2] has
    [(g + k)**(p - 1) = 1 mod p**2]. *)
Lemma bad_shift_unique (p g i k : Z) :
  Z.prime p -> p <> 2 ->
  (g ^ (p - 2) * i) mod (p ^ 2) = 1 ->
  (p | k) -> 0 <= k < p ^ 2 ->
  (p ^ 2 | (g + k) ^ (p - 1) - 1) ->
  k = (g - i) mod p ^ 2.
Proof.
  intros Hp Hne Hi [c Hc] Hk [e0 He]. destruct (odd_prime p Hp Hne) as [Hp3 _].
  assert (HP2 : 1 < p ^ 2) by (apply pow_gt_1; lia).
  rewrite Z.pow_2_r in *.
  destruct (binomial_linear_part g k (Z.to_nat (p - 2))) as (C & HC).
  rewrite Nat2Z.inj_succ, Z2Nat.id in HC by lia.
  replace (Z.succ (p - 2)) with (p - 1) in HC by lia.
  assert (Hgp : g ^ (p - 1) = g * g ^ (p - 2)).
  { replace (p - 1) with (Z.succ (p - 2)) by lia. apply Z.pow_succ_r. lia. }
  set (G := g ^ (p - 2)) in *.
  apply mod_one_divide in Hi; [| exact HP2]. destruct Hi as [u Hu].
  assert (HGi : G * i = 1 + u * (p * p)) by lia.
  assert (Hmul : g * (G * i) + (p - 1) * (G * i) * k + i * k * k * C - i = i * e0 * (p * p)).
  { transitivity (i * ((g + k) ^ (p - 1) - 1)); [rewrite HC, Hgp; ring | rewrite He; ring]. }
  rewrite HGi in Hmul. subst k.
  rewrite <- (Z.mod_small (c * p) (p * p)) at 1 by exact Hk.
  symmetry. apply cong_iff_divide; [lia |].
  exists (i * e0 - g * u - (p - 1) * u * c * p - i * c * c * C - c).
  replace (g - i - c * p)
    with (g * (1 + u * (p * p)) + (p - 1) * (1 + u * (p * p)) * (c * p)
          + i * (c * p) * (c * p) * C - i
          - p * p * (g * u + (p - 1) * u * c * p + i * c * c * C + c)) by ring.
  rewrite Hmul. ring.
Qed.

Lemma omap_Forall {A B : Type} (f : A -> outcome B) (P : A -> Prop) (Q : B -> Prop)
  (l : list A) :
  Forall P l -> (forall x, P x -> exists y, f x = Ret y /\ Q y) ->
  exists ys, omap f l = Ret ys /\ Forall Q ys.
Proof.
  intros Hall Hf. induction Hall as [| x l Hx _ (ys & Hys & HQ)].
  - exists []. split; [reflexivity | constructor].
  - destruct (Hf x Hx) as (y & Hy & HQy). exists (y :: ys).
    cbn [omap]. rewrite Hy. cbn [obind]. rewrite Hys. cbn [obind].
    split; [reflexivity | now constructor].
Qed.

Lemma prime_power_iter_generators (p e : Z) :
  Z.prime p -> p <> 2 -> 1 <= e ->
  exists l, _primitive_root_prime_power_iter p e = Ret l /\
            Forall (fun x => is_order x (p ^ e) (totient (p ^ e))) l.
Proof.
  intros Hp Hne He. destruct (odd_prime p Hp Hne) as [Hp3 _].
  destruct (prime_iter_generators p Hp Hne) as (g0 & l0 & Hl0 & _ & Hall).
  unfold _primitive_root_prime_power_iter. cbv zeta.
  destruct (Z.eqb_spec e 1) as [-> | He1].
  - exists (g0 :: l0). rewrite Hl0. split; [reflexivity |].
    rewrite Z.pow_1_r, (totient_prime p Hp).
    apply Forall_impl with (2 := Hall). tauto.
  - rewrite Hl0.
    assert (HP2 : 1 < p ^ 2) by (apply pow_gt_1; lia).
    destruct (omap_Forall
                (fun g => i <- pow3 g (2 - p) (p ^ 2) ;;
                          Ret (flat_map
                                 (fun k => if negb (k =? (g - i) mod p ^ 2)
                                           then map (fun m => g + k + m) (range3 0 (p ^ e) (p ^ 2))
                                           else [])
                                 (range3 0 (p ^ 2) p)))
                (fun x => 0 < x < p /\ is_order x p (p - 1))
                (Forall (fun x => is_order x (p ^ e) (totient (p ^ e))))
                (g0 :: l0) Hall) as (ls & Hls & Hgen).
    + intros g [Hg Hord].
      assert (Hgc : Z.gcd g (p ^ 2) = 1).
      { apply coprime_prime_pow; [exact Hp | exact Hg | lia]. }
      destruct (pow3_inverse g (2 - p) (p ^ 2) HP2 ltac:(lia) Hgc) as (i & Hi & Hinv).
      replace (- (2 - p)) with (p - 2) in Hinv by lia.
      rewrite Hi. cbn [obind]. eexists. split; [reflexivity |].
      apply Forall_forall. intros x Hx. apply in_flat_map in Hx.
      destruct Hx as (k & Hk & Hx).
      destruct (Z.eqb_spec k ((g - i) mod p ^ 2)) as [Ekt | Ekt]; cbn [negb] in Hx;
        [destruct Hx |].
      apply in_map_iff in Hx. destruct Hx as (m & <- & Hm).
      apply range3_In in Hk; [| lia]. destruct Hk as (c & Hc & -> & Hklt).
      apply range3_In in Hm; [| lia]. destruct Hm as (d & Hd & -> & _).
      rewrite !Z.add_0_l in *.
      apply generator_prime_power; [exact Hp | exact Hne | exact He | |].
      * apply is_order_mod.
        replace ((g + c * p + d * p ^ 2) mod p) with (g mod p).
        -- now apply is_order_mod.
        -- rewrite Z.pow_2_r. replace (g + c * p + d * (p * p)) with (g + (c + d * p) * p) by ring.
           symmetry. apply Z_mod_plus_full.
      * intros Hdiv. apply Ekt.
        apply (bad_shift_unique p g i (c * p) Hp Hne Hinv).
        -- exists c. reflexivity.
        -- split; [| exact Hklt]. apply Z.mul_nonneg_nonneg; lia.
        -- apply mod_one_divide; [exact HP2 |]. apply mod_one_divide in Hdiv; [| exact HP2].
           transitivity ((g + c * p + d * p ^ 2) ^ (p - 1) mod p ^ 2); [| exact Hdiv].
           apply cong_pow. symmetry. apply Z_mod_plus_full.
    + exists (concat ls). rewrite Hls. cbn [obind]. split; [reflexivity |].
      apply Forall_concat. exact Hgen.
Qed.

(** X6: for an odd prime [p] and [e >= 1], every value
    [_primitive_root_prime_power_iter(p, e)] yields is a primitive root of
    [p**e]: its order modulo [p**e] is the order of the whole group. *)
Theorem primitive_root_prime_power_iter_sound (p e : Z) :
  Z.prime p -> p <> 2 -> 1 <= e ->
  exists l, _primitive_root_prime_power_iter p e = Ret l /\ l <> [] /\
            Forall (fun x => is_order x (p ^ e) (totient (p ^ e))) l.
Proof.
  intros Hp Hne He.
  destruct (prime_power_iter_generators p e Hp Hne He) as (l & Hl & Hall).
  exists l. split; [exact Hl |]. split; [| exact Hall].
  (* the first lift of the first primitive root is always kept or followed *)
  intros ->. revert Hl. unfold _primitive_root_prime_power_iter. cbv zeta.
  destruct (prime_iter_generators p Hp Hne) as (g0 & l0 & Hl0 & _ & Hgen).
  destruct (odd_prime p Hp Hne) as [Hp3 _].
  rewrite Hl0. destruct (Z.eqb_spec e 1) as [-> | He1]; [discriminate |].
  cbn [omap]. apply Forall_inv in Hgen. destruct Hgen as [Hg Hord].
  assert (HP2 : 1 < p ^ 2) by (apply pow_gt_1; lia).
  assert (Hgc : Z.gcd g0 (p ^ 2) = 1).
  { apply coprime_prime_pow; [exact Hp | exact Hg | lia]. }
  destruct (pow3_inverse g0 (2 - p) (p ^ 2) HP2 ltac:(lia) Hgc) as (i & Hi & _).
  rewrite Hi. cbn [obind].
  destruct (omap _ l0) as [ls | |]; cbn [obind]; try discriminate.
  intros H. apply ret_eq in H. cbn [concat] in H. apply app_eq_nil in H. destruct H as [H _].
  set (t := (g0 - i) mod p ^ 2) in *.
  assert (Hk : exists k, In k (range3 0 (p ^ 2) p) /\ k <> t).
  { destruct (Z.eq_dec t 0) as [E | E].
    - exists (0 + 1 * p). split; [apply range3_In_rev; try lia; rewrite Z.pow_2_r; nia | lia].
    - exists (0 + 0 * p). split; [apply range3_In_rev; lia | lia]. }
  destruct Hk as (k & Hkin & Hkt).
  assert (Hm : In (g0 + k + (0 + 0 * p ^ 2))
                  (map (fun m => g0 + k + m) (range3 0 (p ^ e) (p ^ 2)))).
  { apply in_map. apply range3_In_rev; [lia | lia |].
    assert (0 < p ^ e); [apply Z.pow_pos_nonneg; lia | lia]. }
  assert (Hin : In (g0 + k + (0 + 0 * p ^ 2))
                   (flat_map (fun k => if negb (k =? t)
                                       then map (fun m => g0 + k + m) (range3 0 (p ^ e) (p ^ 2))
                                       else [])
                             (range3 0 (p ^ 2) p))).
  { apply in_flat_map. exists k. split; [exact Hkin |].
    replace (k =? t) with false by (symmetry; apply Z.eqb_neq; exact Hkt). exact Hm. }
  rewrite H in Hin. destruct Hin.
Qed.

Lemma primitive_root_prime_power_iter_sound_witness :
  exists l, _primitive_root_prime_power_iter 5 2 = Ret l /\ l <> [] /\
            Forall (fun x => is_order x (5 ^ 2) (totient (5 ^ 2))) l.
Proof.
  apply (primitive_root_prime_power_iter_sound 5 2).
  - apply isprime_spec. reflexivity.
  - lia.
  - lia.
Defined.

Lemma odd_pow (x j : Z) : x mod 2 = 1 -> 0 <= j -> x ^ j mod 2 = 1.
Proof.
  intros Hx Hj. rewrite <- Z.mod_pow_l, Hx, Z.pow_1_l by lia. reflexivity.
Qed.

Lemma totient_double (q : Z) : 1 <= q -> q mod 2 = 1 -> totient (2 * q) = totient q.
Proof.
  intros Hq Hodd. rewrite !totient_tot_of, (factorint_double q Hq Hodd), tot_of_cons.
  change (2 ^ (1 - 1) * (2 - 1)) with 1. ring.
Qed.

(** An odd number has the same powers equal to one modulo an odd [q] and
    modulo [2 * q]. *)
Lemma power_one_double (q x j : Z) :
  1 < q -> q mod 2 = 1 -> x mod 2 = 1 -> 0 <= j ->
  (x ^ j mod (2 * q) = 1 <-> x ^ j mod q = 1).
Proof.
  intros Hq Hodd Hx Hj. split; intros H.
  - apply (one_mod_smaller q (2 * q)); [lia | lia | | exact H].
    exists 2. ring.
  - apply mod_one_divide; [lia |].
    apply coprime_product_divides.
    + apply Z.coprime_prime_l; [exact Z.prime_2 |].
      intros Hd. apply Z.mod_divide in Hd; lia.
    + apply Z.mod_divide; [lia |].
      rewrite Zminus_mod, (odd_pow x j Hx Hj). reflexivity.
    + apply mod_one_divide; [lia | exact H].
Qed.

Lemma order_double (q x d : Z) :
  1 < q -> q mod 2 = 1 -> x mod 2 = 1 ->
  (is_order x (2 * q) d <-> is_order x q d).
Proof.
  intros Hq Hodd Hx. unfold is_order. split; intros (Hd & H1 & Hmin).
  - split; [exact Hd |]. split; [apply (power_one_double q x d); auto; lia |].
    intros j Hj Hj1. apply (Hmin j Hj). apply (power_one_double q x j); auto; lia.
  - split; [exact Hd |]. split; [apply (power_one_double q x d); auto; lia |].
    intros j Hj Hj1. apply (Hmin j Hj). apply (power_one_double q x j); auto; lia.
Qed.

Lemma odd_prime_power (p e : Z) : Z.prime p -> p <> 2 -> 0 <= e -> p ^ e mod 2 = 1.
Proof.
  intros Hp Hne He. destruct (odd_prime p Hp Hne) as [_ Hodd]. now apply odd_pow.
Qed.

(** X7: for an odd prime [p] and [e >= 1], every value
    [_primitive_root_prime_power2_iter(p, e)] yields is odd and a primitive
    root of [2 * p**e]. *)
Theorem primitive_root_prime_power2_iter_sound (p e : Z) :
  Z.prime p -> p <> 2 -> 1 <= e ->
  exists l, _primitive_root_prime_power2_iter p e = Ret l /\ l <> [] /\
            Forall (fun x => x mod 2 = 1 /\
                             is_order x (2 * p ^ e) (totient (2 * p ^ e))) l.
Proof.
  intros Hp Hne He. destruct (odd_prime p Hp Hne) as [Hp3 _].
  destruct (prime_power_iter_generators p e Hp Hne He) as (l & Hl & Hall).
  pose proof (odd_prime_power p e Hp Hne ltac:(lia)) as Hqodd.
  assert (Hq : 1 < p ^ e) by (apply pow_gt_1; lia).
  unfold _primitive_root_prime_power2_iter. rewrite Hl. cbn [obind].
  eexists. split; [reflexivity |]. split.
  - intros E. apply map_eq_nil in E. subst l.
    (* the generator of the prime power is not exhausted *)
    revert Hl. unfold _primitive_root_prime_power_iter. cbv zeta.
    destruct (prime_iter_generators p Hp Hne) as (g0 & l0 & Hl0 & _ & Hgen).
    rewrite Hl0. destruct (Z.eqb_spec e 1) as [-> | He1]; [discriminate |].
    cbn [omap]. apply Forall_inv in Hgen. destruct Hgen as [Hg Hord].
    assert (HP2 : 1 < p ^ 2) by (apply pow_gt_1; lia).
    destruct (pow3_inverse g0 (2 - p) (p ^ 2) HP2 ltac:(lia)
                (coprime_prime_pow p g0 2 Hp Hg ltac:(lia))) as (i & Hi & _).
    rewrite Hi. cbn [obind].
    destruct (omap _ l0) as [ls | |]; cbn [obind]; try discriminate.
    intros H. apply ret_eq in H. cbn [concat] in H. apply app_eq_nil in H. destruct H as [H _].
    set (t := (g0 - i) mod p ^ 2) in *.
    assert (Hk : exists k, In k (range3 0 (p ^ 2) p) /\ k <> t).
    { destruct (Z.eq_dec t 0) as [E | E].
      - exists (0 + 1 * p). split; [apply range3_In_rev; try lia; rewrite Z.pow_2_r; nia | lia].
      - exists (0 + 0 * p). split; [apply range3_In_rev; lia | lia]. }
    destruct Hk as (k & Hkin & Hkt).
    assert (Hin : In (g0 + k + (0 + 0 * p ^ 2))
                     (flat_map (fun k => if negb (k =? t)
                                         then map (fun m => g0 + k + m) (range3 0 (p ^ e) (p ^ 2))
                                         else [])
                               (range3 0 (p ^ 2) p))).
    { apply in_flat_map. exists k. split; [exact Hkin |].
      replace (k =? t) with false by (symmetry; apply Z.eqb_neq; exact Hkt).
      apply in_map. apply range3_In_rev; lia. }
    rewrite H in Hin. destruct Hin.
  - apply Forall_map. apply Forall_impl with (2 := Hall). intros g Hord.
    rewrite (totient_double (p ^ e) ltac:(lia) Hqodd).
    assert (Hpar : g mod 2 = 0 \/ g mod 2 = 1).
    { pose proof (Z.mod_pos_bound g 2 ltac:(lia)). lia. }
    destruct (Z.eqb_spec (g mod 2) 1) as [Hg1 | Hg1].
    + split; [exact Hg1 |]. apply order_double; auto.
    + assert (Hx : (g + p ^ e) mod 2 = 1).
      { assert (Hg0 : g mod 2 = 0) by (clear - Hpar Hg1; lia).
        rewrite Zplus_mod, Hqodd, Hg0. reflexivity. }
      split; [exact Hx |]. apply order_double; auto.
      apply is_order_mod. replace ((g + p ^ e) mod p ^ e) with (g mod p ^ e).
      * now apply is_order_mod.
      * replace (g + p ^ e) with (g + 1 * p ^ e) by ring. symmetry. apply Z_mod_plus_full.
Qed.

Lemma primitive_root_prime_power2_iter_sound_witness :
  exists l, _primitive_root_prime_power2_iter 5 2 = Ret l /\ l <> [] /\
            Forall (fun x => x mod 2 = 1 /\
                             is_order x (2 * 5 ^ 2) (totient (2 * 5 ^ 2))) l.
Proof.
  apply (primitive_root_prime_power2_iter_sound 5 2).
  - apply isprime_spec. reflexivity.
  - lia.
  - lia.
Defined.

(** ** Quadratic residues *)

Lemma sqrt_mod_single_cases (a p : Z) (g g' : RNG) (v : pyval) :
  0 < p -> sqrt_mod a p false g = Ret (v, g') ->
  (v = PyNone /\ forall x, (x * x) mod p <> a mod p) \/
  (exists r, v = PyInt r /\ (r * r) mod p = a mod p).
Proof.
  intros Hp. unfold sqrt_mod. rewrite (Z.abs_eq p) by lia. unfold rbind.
  destruct (sqrt_mod_iter a p g) as [[it g1] | |] eqn:Hit; try discriminate.
  pose proof (sqrt_mod_iter_sound a p g g1 it ltac:(lia) Hit) as Hroot.
  rewrite (Z.abs_eq p) in Hroot by lia.
  assert (Hneg : forall r, In r it -> ((p - r) * (p - r)) mod p = a mod p).
  { intros r Hin. rewrite neg_square. exact (Hroot r Hin). }
  destruct it as [| r it'].
  - unfold rret. intros H. ret_inv H. left. split; [reflexivity |].
    pose proof (sqrt_mod_iter_empty a p g _ ltac:(lia) Hit) as Hno.
    now rewrite (Z.abs_eq p) in Hno by lia.
  - right.
    destruct (p / 2 <? r); [| destruct (r <? p / 2); [| destruct it' as [| r2 it'']]];
      try (destruct (p / 2 <? r2)); unfold rret in H; ret_inv H;
      eexists; (split; [reflexivity |]);
      first [apply Hroot; cbn; tauto | apply Hneg; cbn; tauto].
Qed.

Lemma legendre_cases (a p : Z) : a mod p <> 0 -> legendre a p = 1 \/ legendre a p = -1.
Proof.
  intros Ha. unfold legendre. destruct (Z.eqb_spec (a mod p) 0); [contradiction |].
  destruct (existsb _ _); auto.
Qed.

Lemma legendre_range (a p : Z) : legendre a p = 0 \/ legendre a p = 1 \/ legendre a p = -1.
Proof. unfold legendre. destruct (a mod p =? 0); [| destruct (existsb _ _)]; auto. Qed.

(** A Jacobi symbol [-1] has a Legendre factor [-1]. *)
Lemma jacobi_minus_one (a n : Z) :
  1 <= n -> jacobi a n = -1 -> forall x, (x * x) mod n <> a mod n.
Proof.
  intros Hn Hj.
  destruct (factorint_spec n Hn) as (Hprod & Hall & _).
  assert (Hex : exists q e, In (q, e) (factorint n) /\ legendre a q = -1).
  { unfold jacobi in Hj. clear Hprod. induction (factorint n) as [| [q e] f IH].
    - cbn in Hj. discriminate.
    - cbn [fold_right fst snd] in Hj.
      apply Forall_cons_iff in Hall. destruct Hall as [[Hq He] Hall]. cbn [fst snd] in Hq, He.
      set (acc := fold_right (fun pe acc => legendre a (fst pe) ^ snd pe * acc) 1 f) in *.
      assert (Hacc : acc = 1 \/ acc = -1).
      { assert (H1 : acc * (- legendre a q ^ e) = 1) by lia.
        apply Z.eq_mul_1 in H1. tauto. }
      destruct Hacc as [Hacc | Hacc].
      + exists q, e. split; [now left |].
        rewrite Hacc, Z.mul_1_r in Hj.
        destruct (legendre_range a q) as [E | [E | E]]; [| | exact E]; rewrite E in Hj.
        * rewrite Z.pow_0_l in Hj by lia. discriminate.
        * rewrite Z.pow_1_l in Hj by lia. discriminate.
      + destruct (IH Hacc Hall) as (q' & e' & Hin & Hl). exists q', e'. split; [now right | exact Hl]. }
  destruct Hex as (q & e & Hin & Hleg).
  pose proof (proj1 (Forall_forall _ _) Hall (q, e) Hin) as [Hq He]. cbn [fst snd] in Hq, He.
  pose proof (Z.prime_ge_2 q Hq) as Hq2.
  destruct (legendre_minus_one a q ltac:(lia) Hleg) as [_ Hno].
  intros x Hx. apply (Hno x).
  apply (cong_divide_trans q n); [lia | lia | | exact Hx].
  rewrite <- Hprod. apply (Z.divide_trans _ (q ^ e)); [| now apply in_dict_prod_divides].
  exists (q ^ (e - 1)). rewrite <- (Z.pow_1_r q) at 3. rewrite <- Z.pow_add_r by lia.
  f_equal. lia.
Qed.

(** Euler's criterion, as the test [pow(a, (p - 1) // 2, p) == 1]. *)
Lemma euler_test (a p : Z) :
  Z.prime p -> p <> 2 -> a mod p <> 0 ->
  (powmod a ((p - 1) / 2) p =? 1) = true <-> exists x, (x * x) mod p = a mod p.
Proof.
  intros Hp Hne Ha. destruct (odd_prime p Hp Hne) as [Hp3 _].
  destruct (odd_prime_half p Hp Hne) as [_ Hhalf].
  rewrite powmod_spec by lia. rewrite Z.eqb_eq. split.
  - intros H1. destruct (legendre_cases a p Ha) as [E | E].
    + exact (proj2 (legendre_one a p ltac:(lia) E)).
    + destruct (legendre_minus_one a p ltac:(lia) E) as [_ Hno].
      pose proof (euler_criterion_nonresidue p a Hp Hne Ha Hno). lia.
  - intros [x Hx]. exact (euler_criterion_residue p a x Hp Hne Ha Hx).
Qed.

(** X8: [is_quad_residue(a, p)] raises [ValueError] for [p < 1]; for
    [p >= 1] the value it returns is [True] exactly when [a] is a square
    modulo [p], prime or not. *)
Theorem is_quad_residue_decides (a p : Z) (g : RNG) :
  (p < 1 -> is_quad_residue a p g = Raise ValueError) /\
  (1 <= p -> forall b g', is_quad_residue a p g = Ret (b, g') ->
             (b = true <-> exists x, (x * x) mod p = a mod p)).
Proof.
  unfold is_quad_residue. split.
  - intros Hp. replace (p <? 1) with true by (symmetry; apply Z.ltb_lt; lia). reflexivity.
  - intros Hp b g'. replace (p <? 1) with false by (symmetry; apply Z.ltb_ge; lia).
    set (a' := if (p <=? a) || (a <? 0) then a mod p else a).
    assert (Ha' : 0 <= a' < p /\ a' mod p = a mod p).
    { unfold a'. destruct (Z.leb_spec p a); cbn [orb].
      - split; [apply Z.mod_pos_bound; lia | apply Zmod_mod].
      - destruct (Z.ltb_spec a 0).
        + split; [apply Z.mod_pos_bound; lia | apply Zmod_mod].
        + split; [lia | reflexivity]. }
    destruct Ha' as [Hrange Hmod]. rewrite <- Hmod.
    destruct (Z.ltb_spec a' 2) as [Hsmall | Hbig]; cbn [orb].
    { unfold rret. intros H. ret_inv H. split; [intros _ | reflexivity].
      exists a'. f_equal. assert (a' = 0 \/ a' = 1) as [-> | ->] by lia; reflexivity. }
    destruct (Z.ltb_spec p 3) as [Hp3 | Hp3].
    { lia. }
    destruct (isprime p) eqn:Hprime; cbn [negb].
    + apply isprime_spec in Hprime. unfold rret. intros H. ret_inv H.
      rewrite Bool.not_true_iff_false || idtac.
      apply euler_test; [exact Hprime | lia |]. rewrite Z.mod_small; lia.
    + destruct (negb (p mod 2 =? 0) && (jacobi a' p =? -1)) eqn:Hjac.
      * apply andb_true_iff in Hjac. destruct Hjac as [_ Hjac]. apply Z.eqb_eq in Hjac.
        unfold rret. intros H. ret_inv H. split; [discriminate |].
        intros [x Hx]. exfalso. exact (jacobi_minus_one a' p Hp Hjac x Hx).
      * unfold rbind.
        destruct (sqrt_mod a' p false g) as [[v g1] | |] eqn:Hsq; try discriminate.
        destruct (sqrt_mod_single_cases a' p g g1 v ltac:(lia) Hsq)
          as [[-> Hno] | (r & -> & Hr)]; unfold rret; intros H; ret_inv H.
        -- split; [discriminate |]. intros [x Hx]. exfalso. exact (Hno x Hx).
        -- split; [intros _; now exists r | reflexivity].
Qed.

Lemma is_quad_residue_decides_witness :
  1 <= 15 /\ is_quad_residue 4 15 [] = Ret (true, []) /\
  (true = true <-> exists x, (x * x) mod 15 = 4 mod 15).
Proof.
  split; [lia |]. split; [reflexivity |].
  apply (proj2 (is_quad_residue_decides 4 15 []) ltac:(lia) true []). reflexivity.
Defined.

Lemma dedup_NoDup (l : list Z) : NoDup (dedup l).
Proof.
  induction l as [| x l IH]; cbn [dedup]; [constructor |].
  destruct (mem x l) eqn:E; [exact IH |].
  constructor; [| exact IH]. rewrite dedup_In. intros Hin.
  apply mem_spec in Hin. congruence.
Qed.

Lemma insert_increasing (x : Z) (l : list Z) :
  forall lo, increasing lo l -> lo < x -> ~ In x l -> increasing lo (insert_sorted x l).
Proof.
  induction l as [| z l IH]; intros lo Hinc Hlo Hnin; cbn [insert_sorted].
  - cbn. auto.
  - destruct Hinc as [Hz Hinc]. destruct (Z.leb_spec x z) as [Hxz | Hxz].
    + cbn [increasing]. repeat split; try assumption.
      assert (x <> z) by (intros ->; apply Hnin; now left). lia.
    + cbn [increasing]. split; [exact Hz |].
      apply IH; [exact Hinc | lia |]. intros Hin. apply Hnin. now right.
Qed.

(** Sorting a list without repetition gives a strictly increasing list. *)
Lemma sorted_increasing (lo : Z) (l : list Z) :
  NoDup l -> (forall x, In x l -> lo < x) -> increasing lo (sorted l).
Proof.
  induction 1 as [| x l Hnin _ IH]; intros Hlo; [exact I |].
  change (sorted (x :: l)) with (insert_sorted x (sorted l)).
  apply insert_increasing.
  - apply IH. intros y Hy. apply Hlo. now right.
  - apply Hlo. now left.
  - rewrite sorted_In. exact Hnin.
Qed.

Lemma omap_ret {A B : Type} (f : A -> outcome B) (h : A -> B) (l : list A) :
  (forall x, In x l -> f x = Ret (h x)) -> omap f l = Ret (map h l).
Proof.
  induction l as [| x l IH]; intros Hf; [reflexivity |].
  cbn [omap map]. rewrite (Hf x (or_introl eq_refl)). cbn [obind].
  rewrite IH by (intros y Hy; apply Hf; now right). reflexivity.
Qed.

(** Every residue has a square root among [0 .. p // 2]. *)
Lemma half_range_square (p y : Z) :
  1 <= p -> exists i, 0 <= i <= p / 2 /\ (i * i) mod p = (y * y) mod p.
Proof.
  intros Hp. pose proof (Z.mod_pos_bound y p ltac:(lia)) as Hr.
  pose proof (Z_div_mod_eq_full p 2) as Hd.
  pose proof (Z.mod_pos_bound p 2 ltac:(lia)) as Hm.
  destruct (Z.le_gt_cases (y mod p) (p / 2)) as [Hle | Hgt].
  - exists (y mod p). split; [lia |]. now rewrite <- Zmult_mod.
  - exists (p - y mod p). split; [lia |]. rewrite neg_square. now rewrite <- Zmult_mod.
Qed.

(** X9: [quadratic_residues(p)] raises [ValueError] for [p == 0]; for
    [p >= 1] it returns the squares modulo [p], all of them and nothing
    else, as residues in strictly increasing order. *)
Theorem quadratic_residues_complete (p : Z) :
  (p = 0 -> quadratic_residues p = Raise ValueError) /\
  (1 <= p ->
   exists l, quadratic_residues p = Ret l /\ increasing (-1) l /\
             forall x, In x l <-> exists y, x = (y * y) mod p).
Proof.
  unfold quadratic_residues. split.
  - intros ->. reflexivity.
  - intros Hp.
    rewrite (omap_ret _ (fun i => powmod i 2 p)).
    2:{ intros i _. unfold pow3.
        replace (p =? 0) with false by (symmetry; apply Z.eqb_neq; lia). reflexivity. }
    cbn [obind]. eexists. split; [reflexivity |].
    assert (Hmem : forall x, In x (map (fun i => powmod i 2 p) (range (p / 2 + 1)))
                             <-> exists y, x = (y * y) mod p).
    { intros x. rewrite in_map_iff. split.
      - intros (i & <- & _). exists i. rewrite powmod_spec by lia. now rewrite Z.pow_2_r.
      - intros (y & ->). destruct (half_range_square p y Hp) as (i & Hi & Hsq).
        exists i. split; [rewrite powmod_spec by lia; now rewrite Z.pow_2_r |].
        replace i with (0 + i * 1) by lia. apply range3_In_rev; lia. }
    split.
    + apply sorted_increasing; [apply dedup_NoDup |].
      intros x Hx. apply dedup_In, Hmem in Hx. destruct Hx as (y & ->).
      pose proof (Z.mod_pos_bound (y * y) p ltac:(lia)). lia.
    + intros x. rewrite sorted_In, dedup_In. apply Hmem.
Qed.

Lemma quadratic_residues_complete_witness :
  1 <= 7 /\ quadratic_residues 7 = Ret [0; 1; 2; 4] /\
  exists l, quadratic_residues 7 = Ret l /\ increasing (-1) l /\
            forall x, In x l <-> exists y, x = (y * y) mod 7.
Proof.
  split; [lia |]. split; [reflexivity |].
  apply (proj2 (quadratic_residues_complete 7)). lia.
Defined.

(** ** Discrete logarithms *)

Lemma has_key_cons (k x v : Z) (T : dict) :
  has_key k ((x, v) :: T) = (k =? x) || has_key k T.
Proof. reflexivity. Qed.

Lemma get_In (k : Z) (T : dict) : has_key k T = true -> In (k, get k T) T.
Proof.
  induction T as [| [x v] T IH]; intros H; [discriminate |].
  rewrite has_key_cons in H. cbn [get].
  destruct (Z.eqb_spec k x) as [-> | Hne]; [now left |].
  right. apply IH. exact H.
Qed.

Lemma pow_step (B n i : Z) : 0 <= i -> (B ^ i mod n * B) mod n = B ^ (i + 1) mod n.
Proof.
  intros Hi. rewrite Zmult_mod_idemp_l, Z.pow_add_r, Z.pow_1_r by lia. reflexivity.
Qed.

(** The table of baby steps maps powers of the base to their exponents. *)
Lemma baby_steps_table (B n : Z) (rounds : nat) :
  forall i T, 0 <= i ->
  (forall x j, In (x, j) T -> 0 <= j /\ x = B ^ j mod n) ->
  forall x j, In (x, j) (fst (baby_steps rounds i (B ^ i mod n) B n T)) ->
              0 <= j /\ x = B ^ j mod n.
Proof.
  induction rounds as [| r IH]; intros i T Hi HT x j Hin; cbn [baby_steps fst] in Hin.
  - now apply HT.
  - rewrite pow_step in Hin by exact Hi.
    apply (IH (i + 1) ((B ^ i mod n, i) :: T)); [lia | | exact Hin].
    intros y k [E | Hk]; [| now apply HT].
    injection E as <- <-. split; [exact Hi | reflexivity].
Qed.

Lemma baby_steps_keys (B n : Z) (rounds : nat) :
  forall i T, 0 <= i ->
  (forall j, 0 <= j < i -> has_key (B ^ j mod n) T = true) ->
  forall j, 0 <= j < i + Z.of_nat rounds ->
            has_key (B ^ j mod n) (fst (baby_steps rounds i (B ^ i mod n) B n T)) = true.
Proof.
  induction rounds as [| r IH]; intros i T Hi HT j Hj; cbn [baby_steps fst].
  - apply HT. lia.
  - rewrite pow_step by exact Hi.
    apply (IH (i + 1) ((B ^ i mod n, i) :: T)); [lia | | lia].
    intros k Hk. rewrite has_key_cons.
    destruct (Z.eq_dec k i) as [-> | Hne]; [now rewrite Z.eqb_refl |].
    rewrite HT by lia. apply orb_true_r.
Qed.

Lemma baby_steps_table_start (B n : Z) (rounds : nat) :
  1 < n ->
  forall x j, In (x, j) (fst (baby_steps rounds 0 1 B n [])) -> 0 <= j /\ x = B ^ j mod n.
Proof.
  intros Hn. pose proof (baby_steps_table B n rounds 0 [] ltac:(lia)) as H.
  rewrite Z.pow_0_r, Z.mod_1_l in H by lia. apply H. intros x j [].
Qed.

Lemma baby_steps_keys_start (B n : Z) (rounds : nat) :
  1 < n ->
  forall j, 0 <= j < Z.of_nat rounds ->
            has_key (B ^ j mod n) (fst (baby_steps rounds 0 1 B n [])) = true.
Proof.
  intros Hn j Hj. pose proof (baby_steps_keys B n rounds 0 [] ltac:(lia)) as H.
  rewrite Z.pow_0_r, Z.mod_1_l in H by lia. apply H; [intros; lia | lia].
Qed.

(** A hit of the giant steps is a logarithm. *)
Lemma giant_steps_sound (B n z m a : Z) (T : dict) (rounds : nat) :
  forall i x k, 0 <= m -> 0 <= i ->
  (B ^ m * z) mod n = 1 mod n ->
  (forall y j, In (y, j) T -> 0 <= j /\ y = B ^ j mod n) ->
  (x * B ^ (m * i)) mod n = a mod n ->
  giant_steps rounds i x z m n T = Ret k ->
  0 <= k /\ B ^ k mod n = a mod n.
Proof.
  induction rounds as [| r IH]; intros i x k Hm Hi Hz HT Hx Hk; [discriminate |].
  cbn [giant_steps] in Hk. destruct (has_key x T) eqn:Hkey.
  - apply ret_eq in Hk. subst k. apply get_In, HT in Hkey. destruct Hkey as [Hj Hxj].
    split; [nia |]. rewrite <- Hx.
    rewrite Z.pow_add_r by nia. rewrite (Z.mul_comm i m), Z.mul_comm.
    rewrite <- Zmult_mod_idemp_l, <- Hxj. reflexivity.
  - apply (IH (i + 1) ((x * z) mod n) k Hm ltac:(lia) Hz HT); [| exact Hk].
    rewrite <- Hx. rewrite Zmult_mod_idemp_l.
    replace (m * (i + 1)) with (m * i + m) by ring. rewrite Z.pow_add_r by nia.
    replace (x * z * (B ^ (m * i) * B ^ m)) with (x * B ^ (m * i) * (B ^ m * z)) by ring.
    rewrite <- Zmult_mod_idemp_r, Hz, Zmult_mod_idemp_r, Z.mul_1_r. reflexivity.
Qed.

(** The giant steps meet the table when a logarithm below [m * m] exists. *)
Lemma giant_steps_complete (B n z m : Z) (T : dict) (rounds : nat) :
  forall i x e, 0 < m -> 0 <= i ->
  (B ^ m * z) mod n = 1 mod n ->
  (forall j, 0 <= j < m -> has_key (B ^ j mod n) T = true) ->
  m * i <= e -> e < m * (i + Z.of_nat rounds) ->
  x = B ^ (e - m * i) mod n ->
  exists k, giant_steps rounds i x z m n T = Ret k.
Proof.
  induction rounds as [| r IH]; intros i x e Hm Hi Hz HT Hlo Hhi Hx; [lia |].
  cbn [giant_steps]. destruct (has_key x T) eqn:Hkey; [eexists; reflexivity |].
  assert (Hge : m <= e - m * i).
  { destruct (Z.le_gt_cases m (e - m * i)) as [H | H]; [exact H |].
    rewrite Hx, HT in Hkey by lia. discriminate. }
  apply (IH (i + 1) _ e Hm ltac:(lia) Hz HT); [lia | lia |].
  rewrite Hx, Zmult_mod_idemp_l.
  replace (e - m * i) with (e - m * (i + 1) + m) by ring.
  rewrite Z.pow_add_r by lia. rewrite <- Z.mul_assoc.
  rewrite <- Zmult_mod_idemp_r, Hz, Zmult_mod_idemp_r, Z.mul_1_r. reflexivity.
Qed.

Lemma isqrt_step (o : Z) : 0 < isqrt o + 1.
Proof. unfold isqrt. pose proof (Z.sqrt_nonneg o). lia. Qed.

Lemma shanks_inverse (B n m z : Z) :
  1 < n -> 0 < m -> pow3 B (- m) n = Ret z -> (B ^ m * z) mod n = 1 mod n.
Proof.
  intros Hn Hm Hz. unfold pow3 in Hz.
  replace (n =? 0) with false in Hz by (symmetry; apply Z.eqb_neq; lia).
  replace (0 <=? - m) with false in Hz by (symmetry; apply Z.leb_gt; lia).
  destruct (Z.eqb_spec (Z.gcd B n) 1) as [Hg | Hg]; [| discriminate].
  destruct (pow3_inverse B (- m) n Hn ltac:(lia) Hg) as (i & Hi & Hinv).
  unfold pow3 in Hi.
  replace (n =? 0) with false in Hi by (symmetry; apply Z.eqb_neq; lia).
  replace (0 <=? - m) with false in Hi by (symmetry; apply Z.leb_gt; lia).
  rewrite Hg in Hi. cbn [Z.eqb Pos.eqb] in Hi. rewrite Hi in Hz.
  apply ret_eq in Hz. subst i. rewrite Z.opp_involutive in Hinv.
  rewrite Hinv. symmetry. apply Z.mod_1_l. lia.
Qed.

Lemma shanks_steps_sound (n a b : Z) (order : option Z) (k : Z) :
  1 < n -> _discrete_log_shanks_steps n a b order = Ret k ->
  0 <= k /\ b ^ k mod n = a mod n.
Proof.
  intros Hn H. unfold _discrete_log_shanks_steps in H.
  replace (n =? 0) with false in H by (symmetry; apply Z.eqb_neq; lia).
  destruct (match order with None => n_order (b mod n) n | Some o => Ret o end)
    as [o | |]; cbn [obind] in H; try discriminate.
  pose proof (isqrt_step o) as Hm.
  destruct (pow3 (b mod n) (- (isqrt o + 1)) n) as [z | |] eqn:Hz;
    cbn [obind] in H; try discriminate.
  apply shanks_inverse in Hz; [| exact Hn | exact Hm].
  rewrite <- (Z.mod_pow_l b), <- (Zmod_mod a).
  eapply giant_steps_sound; [| | exact Hz | | | exact H].
  - lia.
  - lia.
  - now apply baby_steps_table_start.
  - rewrite Z.mul_0_r, Z.pow_0_r, Z.mul_1_r. reflexivity.
Qed.

(** X10: for a modulus [n > 1], whatever baby-step giant-step returns is a
    non-negative logarithm of [a] to the base [b]; and when the given
    [order] is positive with [b**order = 1 (mod n)] and [a] is a power of
    [b] modulo [n], it does return one instead of raising. *)
Theorem discrete_log_shanks_steps_decides (n a b : Z) :
  1 < n ->
  (forall order k, _discrete_log_shanks_steps n a b order = Ret k ->
                   0 <= k /\ b ^ k mod n = a mod n) /\
  (forall o, 0 < o -> b ^ o mod n = 1 ->
             (exists e, 0 <= e /\ b ^ e mod n = a mod n) ->
             exists k, _discrete_log_shanks_steps n a b (Some o) = Ret k /\
                       0 <= k /\ b ^ k mod n = a mod n).
Proof.
  intros Hn. split; [intros order k; now apply shanks_steps_sound |].
  intros o Ho Hord (e0 & He0 & Hlog).
  assert (Hex : exists k, _discrete_log_shanks_steps n a b (Some o) = Ret k).
  { unfold _discrete_log_shanks_steps.
    replace (n =? 0) with false by (symmetry; apply Z.eqb_neq; lia).
    cbn [obind]. pose proof (isqrt_step o) as Hm.
    assert (Hg : Z.gcd (b mod n) n = 1).
    { apply (order_coprime _ n o Hn Ho). now rewrite Z.mod_pow_l. }
    destruct (pow3_inverse (b mod n) (- (isqrt o + 1)) n Hn ltac:(lia) Hg)
      as (z & Hz & _).
    rewrite Hz. cbn [obind].
    apply shanks_inverse in Hz; [| exact Hn | exact Hm].
    pose proof (Z.mod_pos_bound e0 o Ho) as Hr.
    assert (Hsq : o < (isqrt o + 1) * (isqrt o + 1)).
    { unfold isqrt. pose proof (Z.sqrt_spec o ltac:(lia)) as Hs. cbv zeta in Hs. lia. }
    eapply (giant_steps_complete _ _ _ _ _ _ 0 _ (e0 mod o) Hm (Z.le_refl 0) Hz).
    - intros j Hj. apply baby_steps_keys_start; [exact Hn |].
      rewrite Z2Nat.id by lia. lia.
    - lia.
    - rewrite Z2Nat.id by lia. lia.
    - rewrite Z.mul_0_r, Z.sub_0_r, Z.mod_pow_l.
      rewrite pow_mod_order by (try lia; exact Hord). symmetry. exact Hlog. }
  destruct Hex as (k & Hk). exists k. split; [exact Hk |].
  now apply (shanks_steps_sound n a b (Some o)).
Qed.

Lemma discrete_log_shanks_steps_decides_witness :
  1 < 41 /\
  exists k, _discrete_log_shanks_steps 41 15 7 (Some 40) = Ret k /\
            0 <= k /\ 7 ^ k mod 41 = 15 mod 41.
Proof.
  split; [lia |].
  apply (proj2 (discrete_log_shanks_steps_decides 41 15 7 ltac:(lia)) 40);
    [lia | reflexivity |].
  exists 3. split; [lia | reflexivity].
Defined.

(** The linear search stops at the first exponent that fits, and fails
    only when none does within its rounds. *)
Lemma trial_loop_decides (B n a : Z) (rounds : nat) :
  forall i, 0 <= i ->
  match trial_loop rounds i (B ^ i mod n) a B n with
  | Ret k => i <= k < i + Z.of_nat rounds /\ B ^ k mod n = a /\
             forall j, i <= j < k -> B ^ j mod n <> a
  | Raise e => e = ValueError /\ forall j, i <= j < i + Z.of_nat rounds -> B ^ j mod n <> a
  | Hang => False
  end.
Proof.
  induction rounds as [| r IH]; intros i Hi; cbn [trial_loop].
  - split; [reflexivity | intros j Hj; lia].
  - destruct (Z.eqb_spec (B ^ i mod n) a) as [E | E].
    + split; [lia |]. split; [exact E | intros j Hj; lia].
    + rewrite pow_step by exact Hi. specialize (IH (i + 1) ltac:(lia)).
      destruct (trial_loop r (i + 1) (B ^ (i + 1) mod n) a B n) as [k | e |].
      * destruct IH as (Hk & Hpow & Hmin). split; [lia |]. split; [exact Hpow |].
        intros j Hj. destruct (Z.eq_dec j i) as [-> | Hne]; [exact E | apply Hmin; lia].
      * destruct IH as (He & Hnone). split; [exact He |].
        intros j Hj. destruct (Z.eq_dec j i) as [-> | Hne]; [exact E | apply Hnone; lia].
      * exact IH.
Qed.

(** X11: for a modulus [n > 1], trial multiplication returns [k] exactly
    when [k] is the least exponent below the bound ([order], or [n] when no
    order is given) with [b**k = a (mod n)], and it raises [ValueError]
    exactly when no exponent below the bound fits. *)
Theorem discrete_log_trial_mul_decides (n a b : Z) (order : option Z) :
  1 < n ->
  (forall k, _discrete_log_trial_mul n a b order = Ret k <->
             0 <= k < match order with None => n | Some o => o end /\
             b ^ k mod n = a mod n /\
             forall j, 0 <= j < k -> b ^ j mod n <> a mod n) /\
  (_discrete_log_trial_mul n a b order = Raise ValueError <->
   forall j, 0 <= j < match order with None => n | Some o => o end ->
             b ^ j mod n <> a mod n).
Proof.
  intros Hn. unfold _discrete_log_trial_mul.
  replace (n =? 0) with false by (symmetry; apply Z.eqb_neq; lia).
  set (bound := match order with None => n | Some o => o end).
  pose proof (trial_loop_decides (b mod n) n (a mod n) (Z.to_nat bound) 0 ltac:(lia)) as D.
  rewrite Z.pow_0_r, Z.mod_1_l in D by lia.
  destruct (trial_loop (Z.to_nat bound) 0 1 (a mod n) (b mod n) n) as [k0 | e |];
    [| | contradiction].
  - destruct D as (Hk0 & Hpow & Hmin). rewrite Z.mod_pow_l in Hpow.
    assert (Hmin' : forall j, 0 <= j < k0 -> b ^ j mod n <> a mod n).
    { intros j Hj. rewrite <- Z.mod_pow_l. now apply Hmin. }
    split.
    + intros k. split.
      * intros H. apply ret_eq in H. subst k. split; [lia |]. split; assumption.
      * intros (Hk & Hkpow & Hkmin). f_equal.
        destruct (Z.lt_trichotomy k0 k) as [L | [E | L]]; [| exact E |].
        -- exfalso. apply (Hkmin k0); [lia | exact Hpow].
        -- exfalso. apply (Hmin' k); [lia | exact Hkpow].
    + split; [discriminate |]. intros Hnone. exfalso. apply (Hnone k0); [lia | exact Hpow].
  - destruct D as (-> & Hnone).
    assert (Hnone' : forall j, 0 <= j < bound -> b ^ j mod n <> a mod n).
    { intros j Hj. rewrite <- Z.mod_pow_l. apply Hnone. lia. }
    split.
    + intros k. split; [discriminate |]. intros (Hk & Hkpow & _).
      exfalso. apply (Hnone' k); [lia | exact Hkpow].
    + split; [intros _; exact Hnone' | reflexivity].
Qed.

Lemma discrete_log_trial_mul_decides_witness :
  1 < 41 /\ _discrete_log_trial_mul 41 15 7 None = Ret 3 /\
  (_discrete_log_trial_mul 7 3 2 None = Raise ValueError <->
   forall j, 0 <= j < 7 -> 2 ^ j mod 7 <> 3 mod 7).
Proof.
  split; [lia |]. split; [reflexivity |].
  apply (proj2 (discrete_log_trial_mul_decides 7 3 2 None ltac:(lia))).
Defined.

(** ** Pollard's rho *)

Lemma cong_of_difference (x a n : Z) :
  0 < n -> (x mod n - a mod n) mod n = 0 -> x mod n = a mod n.
Proof.
  intros Hn H. apply Z.mod_divide in H; [| lia]. destruct H as [q Hq].
  pose proof (Z.mod_pos_bound x n Hn). pose proof (Z.mod_pos_bound a n Hn).
  assert (q = 0) by nia. subst q. lia.
Qed.

Lemma rho_walk_sound (rounds : nat) (n a b order : Z) :
  forall ta tb e, rho_walk rounds n a b order ta tb = Some e ->
                  (powmod b e n - a) mod n = 0 /\ exists r, e = r mod order.
Proof.
  induction rounds as [| r IH]; intros ta tb e H; [discriminate |].
  cbn [rho_walk] in H.
  destruct (rho_step n a b order ta) as [[xa aa] ba].
  destruct (rho_step n a b order (rho_step n a b order tb)) as [[xb ab] bb].
  cbv zeta in H. destruct (xa =? xb); [| exact (IH _ _ _ H)].
  destruct (invert ((ba - bb) mod order) order) as [i | |]; try discriminate.
  destruct (Z.eqb_spec ((powmod b ((i * (ab - aa)) mod order) n - a) mod n) 0) as [E | E];
    [| discriminate].
  apply some_inv in H. subst e. split; [exact E |]. eexists. reflexivity.
Qed.

Lemma randint_ret (lo hi : Z) (g g' : RNG) (x : Z) :
  randint lo hi g = Ret (x, g') -> lo <= hi.
Proof.
  unfold randint. destruct (Z.ltb_spec hi lo); [discriminate | lia].
Qed.

Lemma rho_retries_sound (retries : nat) (n a b order : Z) :
  forall g e g', rho_retries retries n a b order g = Ret (e, g') ->
                 (powmod b e n - a) mod n = 0 /\ 0 <= e < order.
Proof.
  induction retries as [| r IH]; intros g e g' H; [discriminate |].
  cbn [rho_retries] in H. unfold rbind in H.
  destruct (randint 1 (order - 1) g) as [[aa g1] | |] eqn:Ha; try discriminate.
  apply randint_ret in Ha.
  destruct (randint 1 (order - 1) g1) as [[ba g2] | |]; try discriminate.
  cbv zeta in H.
  destruct (rho_walk _ _ _ _ _ _ _) as [e0 |] eqn:Hw.
  - unfold rret in H. apply ret_pair_inv in H. destruct H as [<- _].
    apply rho_walk_sound in Hw. destruct Hw as (Hc & r0 & ->).
    split; [exact Hc |]. apply Z.mod_pos_bound. lia.
  - exact (IH _ _ _ H).
Qed.

(** X12: for a modulus [n > 1], whatever Pollard's rho returns is a
    logarithm of [a] to the base [b], reduced modulo the order it was
    given; the draws of the random source only decide whether it finds
    one. *)
Theorem discrete_log_pollard_rho_sound (n a b : Z) (order : option Z) (retries : nat)
  (g g' : RNG) (e : Z) :
  1 < n ->
  _discrete_log_pollard_rho n a b order retries g = Ret (e, g') ->
  0 <= e /\ b ^ e mod n = a mod n /\ forall o, order = Some o -> e < o.
Proof.
  intros Hn H. unfold _discrete_log_pollard_rho in H.
  replace (n =? 0) with false in H by (symmetry; apply Z.eqb_neq; lia).
  unfold rbind, lift in H.
  destruct (match order with None => n_order (b mod n) n | Some o => Ret o end)
    as [o | |] eqn:Ho; try discriminate.
  apply rho_retries_sound in H. destruct H as (Hc & He).
  split; [lia |]. split.
  - rewrite powmod_spec, Z.mod_pow_l in Hc by lia.
    rewrite <- (Zmod_mod (b ^ e)), <- (Zmod_mod a).
    apply cong_of_difference; [lia |]. rewrite !Zmod_mod. exact Hc.
  - intros o' ->. apply ret_eq in Ho. subst o'. lia.
Qed.

Lemma discrete_log_pollard_rho_sound_witness :
  1 < 227 /\
  _discrete_log_pollard_rho 227 (3 ^ 7) 3 None 10 [0; 0; 1; 1; 2; 3; 4; 5]
  = Ret (7, [1; 1; 2; 3; 4; 5]) /\
  0 <= 7 /\ 3 ^ 7 mod 227 = 3 ^ 7 mod 227 /\ forall o, @None Z = Some o -> 7 < o.
Proof.
  split; [lia |]. split; [reflexivity |].
  apply (discrete_log_pollard_rho_sound 227 (3 ^ 7) 3 None 10
           [0; 0; 1; 1; 2; 3; 4; 5] [1; 1; 2; 3; 4; 5] 7); [lia | reflexivity].
Defined.

(** ** Pohlig-Hellman *)

(** A returned order is the multiplicative order. *)
Lemma n_order_ret (a n o : Z) : n_order a n = Ret o -> 1 < n /\ is_order a n o.
Proof.
  intros H.
  assert (Hn : 1 < n).
  { unfold n_order in H. destruct (Z.leb_spec n 1); [discriminate | lia]. }
  split; [exact Hn |].
  assert (Hg : Z.gcd a n = 1).
  { rewrite Z.gcd_comm, <- Z.gcd_mod by lia.
    unfold n_order in H.
    replace (n <=? 1) with false in H by (symmetry; apply Z.leb_gt; lia).
    cbv zeta in H. destruct (Z.eqb_spec (a mod n) 1) as [E | E].
    - rewrite E. apply Z.gcd_1_l.
    - destruct (Z.eqb_spec (Z.gcd (a mod n) n) 1) as [G | G]; [exact G | discriminate]. }
  destruct (n_order_correct a n Hn Hg) as (k & Hk & Hord & _).
  rewrite Hk in H. apply ret_eq in H. now subst k.
Qed.

Lemma pow3_neg_inverse (B n li bl : Z) :
  1 < n -> 0 <= li -> pow3 B (- li) n = Ret bl -> (B ^ li * bl) mod n = 1 mod n.
Proof.
  intros Hn Hli H. destruct (Z.eq_dec li 0) as [-> | Hne].
  - unfold pow3 in H.
    replace (n =? 0) with false in H by (symmetry; apply Z.eqb_neq; lia).
    cbn in H. apply ret_eq in H. subst bl.
    rewrite Z.pow_0_r, Z.mul_1_l. apply Zmod_mod.
  - apply shanks_inverse; [exact Hn | lia | exact H].
Qed.

(** One digit of the logarithm in base [pi]. *)
Lemma ph_step (n a b order pi j li bl c : Z) :
  0 <= li -> 0 <= j -> 0 < pi -> 0 < order -> (pi ^ (j + 1) | order) ->
  (b ^ li * bl) mod n = 1 mod n ->
  0 <= c ->
  (b ^ (order / pi)) ^ c mod n = (a * bl) ^ (order / pi ^ (j + 1)) mod n ->
  a ^ (order / pi ^ (j + 1)) mod n
  = b ^ (order / pi ^ (j + 1) * (li + c * pi ^ j)) mod n.
Proof.
  intros Hli Hj Hpi Ho [E HE] Hinv Hc Hlog.
  assert (Hpj : 0 < pi ^ j) by (apply Z.pow_pos_nonneg; lia).
  assert (Hpj1 : pi ^ (j + 1) = pi ^ j * pi) by (rewrite Z.pow_add_r, Z.pow_1_r; lia).
  assert (HE1 : order / pi ^ (j + 1) = E).
  { rewrite HE. apply Z.div_mul. rewrite Hpj1. nia. }
  assert (HE2 : order / pi = E * pi ^ j).
  { rewrite HE, Hpj1, Z.mul_assoc. apply Z.div_mul. lia. }
  assert (HE0 : 0 < E) by nia.
  rewrite HE1 in *. rewrite HE2 in Hlog.
  rewrite Z.mul_add_distr_l, Z.pow_add_r by nia.
  replace (E * li) with (li * E) by ring.
  replace (E * (c * pi ^ j)) with (E * pi ^ j * c) by ring.
  rewrite (Z.pow_mul_r b li E), (Z.pow_mul_r b (E * pi ^ j) c) by nia.
  rewrite Zmult_mod, Hlog, <- Zmult_mod, <- Z.pow_mul_l.
  rewrite <- (Z.mod_pow_l (b ^ li * (a * bl))).
  replace (b ^ li * (a * bl)) with (a * (b ^ li * bl)) by ring.
  rewrite <- Zmult_mod_idemp_r, Hinv, Zmult_mod_idemp_r, Z.mul_1_r.
  now rewrite Z.mod_pow_l.
Qed.

Lemma ph_digits_sound (dl : Z -> Z -> Z -> Z -> Rand Z) (n a b order pi ri : Z) :
  1 < n -> 0 < order -> 0 < pi -> (pi ^ ri | order) ->
  (forall aj bj g c g', dl n aj bj pi g = Ret (c, g') ->
                        0 <= c /\ bj ^ c mod n = aj mod n) ->
  forall (k : nat) (lo li : Z) (g g' : RNG) (l : Z),
  Z.of_nat k = ri - lo -> 0 <= lo -> 0 <= li ->
  (0 < lo -> a ^ (order / pi ^ lo) mod n = b ^ (order / pi ^ lo * li) mod n) ->
  ph_digits dl (range2 lo ri) n a b order pi li g = Ret (l, g') ->
  0 <= l /\ (0 < ri -> a ^ (order / pi ^ ri) mod n = b ^ (order / pi ^ ri * l) mod n).
Proof.
  intros Hn Ho Hpi Hdiv Hdl.
  induction k as [| k IH]; intros lo li g g' l Hk Hlo Hli Hinv H.
  - rewrite range2_nil in H by lia. cbn [ph_digits] in H. unfold rret in H.
    apply ret_pair_inv in H. destruct H as [<- _].
    replace ri with lo by lia. split; [exact Hli | exact Hinv].
  - rewrite range2_cons in H by lia. cbn [ph_digits] in H. unfold rbind, lift in H.
    destruct (pow3 b (- li) n) as [bl | |] eqn:Hbl; try discriminate.
    apply pow3_neg_inverse in Hbl; [| exact Hn | exact Hli].
    destruct (dl n _ _ pi g) as [[c g1] | |] eqn:Hc; try discriminate.
    apply Hdl in Hc. destruct Hc as [Hc0 Hc].
    assert (Hd1 : (pi ^ (lo + 1) | order)).
    { apply (Z.divide_trans _ (pi ^ ri)); [apply pow_le_divide; lia | exact Hdiv]. }
    assert (Hpl : 0 < pi ^ (lo + 1)) by (apply Z.pow_pos_nonneg; lia).
    assert (HE : 0 <= order / pi ^ (lo + 1)) by (apply Z.div_pos; lia).
    assert (HE' : 0 <= order / pi) by (apply Z.div_pos; lia).
    rewrite !powmod_spec in Hc by assumption. rewrite Z.mod_pow_l, Zmod_mod in Hc.
    assert (Hpj : 0 < pi ^ lo) by (apply Z.pow_pos_nonneg; lia).
    apply (IH (lo + 1) (li + c * pi ^ lo) g1 g' l);
      [clear - Hk; lia | clear - Hlo; lia | | | exact H].
    { apply Z.add_nonneg_nonneg; [exact Hli | apply Z.mul_nonneg_nonneg; lia]. }
    intros _. now apply (ph_step n a b order pi lo li bl c).
Qed.

Lemma rmap_Forall2 {A B : Type} (f : A -> Rand B) (R : A -> B -> Prop) (l : list A) :
  (forall x g y g', In x l -> f x g = Ret (y, g') -> R x y) ->
  forall g ys g', rmap f l g = Ret (ys, g') -> Forall2 R l ys.
Proof.
  induction l as [| x l IH]; intros Hf g ys g' H; cbn [rmap] in H.
  - unfold rret in H. apply ret_pair_inv in H. destruct H as [<- _]. constructor.
  - unfold rbind in H. destruct (f x g) as [[y g1] | |] eqn:Hy; try discriminate.
    destruct (rmap f l g1) as [[ys' g2] | |] eqn:Hys; try discriminate.
    unfold rret in H. apply ret_pair_inv in H. destruct H as [<- _].
    constructor.
    + apply (Hf x g y g1); [now left | exact Hy].
    + apply (IH (fun x g y g' Hin => Hf x g y g' (or_intror Hin)) g1 ys' g2 Hys).
Qed.

(** The value combined by [crt] has the given residue at every prime power
    of a factorisation. *)
Lemma crt_residue (f : dict) (U : list Z) (i : nat) (p k u : Z) :
  factorisation f -> nth_error f i = Some (p, k) -> nth_error U i = Some u ->
  fst (crt (map (fun pe => fst pe ^ snd pe) f) U) mod p ^ k = u mod p ^ k.
Proof.
  intros Hfac Hi Hu.
  pose proof (factorisation_prime_dict f Hfac) as Hpd.
  pose proof (nth_error_In _ _ Hi) as Hin.
  set (pv := map (fun pe => fst pe ^ snd pe) f).
  pose proof (map_nth_error (fun pe => fst pe ^ snd pe) i f Hi) as Hm. cbn [fst snd] in Hm.
  destruct Hpd as [Hall Hnd].
  assert (Hp : Z.prime p /\ 1 <= k).
  { rewrite Forall_forall in Hall. exact (Hall (p, k) Hin). }
  destruct Hp as [Hp Hk]. pose proof (Z.prime_ge_2 p Hp) as Hp2.
  assert (Hpk : 0 < p ^ k) by (apply Z.pow_pos_nonneg; lia).
  pose proof (gf_crt2_residue pv U i u (p ^ k) Hu Hm Hpk) as Hres. cbv zeta in Hres.
  unfold pv in Hres at 1 2 3 4. rewrite moduli_product, Z.mul_1_l in Hres. fold pv in Hres.
  unfold crt. destruct (gf_crt1 pv) as [[mm e] s] eqn:Hcrt. cbn [fst].
  apply Hres.
  - now apply in_dict_prod_divides.
  - pose proof (dict_prod_pos f Hall) as Hpos. clear - Hpos. lia.
  - apply cofactor_coprime; [split; assumption | exact Hin].
  - intros j m' Hj Hne. unfold pv in Hj.
    destruct (nth_error f j) as [[q k'] |] eqn:Hfj.
    + rewrite (map_nth_error _ j f Hfj) in Hj. injection Hj as <-. cbn [fst snd].
      unfold pv. rewrite moduli_product, Z.mul_1_l.
      apply (moduli_cofactor f i j p k q k'); [split; assumption | exact Hi | exact Hfj | exact Hne].
    + exfalso. apply nth_error_None in Hfj.
      assert (Hlen : nth_error (map (fun pe => fst pe ^ snd pe) f) j <> None) by congruence.
      apply nth_error_Some in Hlen. rewrite length_map in Hlen. lia.
Qed.

Lemma crt_range (f : dict) (U : list Z) :
  factorisation f ->
  0 <= fst (crt (map (fun pe => fst pe ^ snd pe) f) U) < dict_prod f.
Proof.
  intros [Hall _]. unfold crt, gf_crt1. cbn [fst]. unfold gf_crt2.
  rewrite moduli_product, Z.mul_1_l. apply Z.mod_pos_bound.
  pose proof (dict_prod_pos f Hall). lia.
Qed.

Lemma coprime_of_divisor (k E m : Z) : (k | E) -> Z.gcd E m = 1 -> Z.gcd k m = 1.
Proof.
  intros Hk Hg. apply Z.divide_1_r_nonneg; [apply Z.gcd_nonneg |].
  rewrite <- Hg. apply Z.gcd_greatest.
  - apply (Z.divide_trans _ k); [apply Z.gcd_divide_l | exact Hk].
  - apply Z.gcd_divide_r.
Qed.

Lemma coprime_dict_prod (k : Z) (f : dict) :
  (forall p e, In (p, e) f -> Z.gcd k (p ^ e) = 1) -> Z.gcd k (dict_prod f) = 1.
Proof.
  induction f as [| [p e] f IH]; intros H.
  - rewrite dict_prod_nil. apply Z.gcd_1_r.
  - rewrite dict_prod_cons. apply Z.coprime_mul_r.
    + apply (H p e). now left.
    + apply IH. intros q j Hin. apply H. now right.
Qed.

(** An element killed by every cofactor [P // p**k] of a factorisation of
    [P > 1] is the unit. *)
Lemma unit_from_cofactors (u n : Z) (f : dict) :
  prime_dict f -> f <> [] ->
  (forall p k, In (p, k) f -> u ^ (dict_prod f / p ^ k) mod n = 1) ->
  u mod n = 1.
Proof.
  intros Hpd Hne Hall.
  destruct f as [| [p0 k0] f0] eqn:Ef; [congruence |]. rewrite <- Ef in *.
  assert (Hin0 : In (p0, k0) f) by (rewrite Ef; now left).
  pose proof Hpd as [Hprimes _].
  pose proof (dict_prod_pos f Hprimes) as Hpos.
  assert (Hcof : forall p k, In (p, k) f ->
                             0 < p ^ k /\ 0 < dict_prod f / p ^ k /\
                             dict_prod f = dict_prod f / p ^ k * p ^ k).
  { intros p k Hin. rewrite Forall_forall in Hprimes.
    destruct (Hprimes (p, k) Hin) as [Hp Hk]. cbn [fst snd] in Hp, Hk.
    pose proof (Z.prime_ge_2 p Hp).
    assert (Hpk : 0 < p ^ k) by (apply Z.pow_pos_nonneg; lia).
    destruct (in_dict_prod_divides f p k Hin) as [c Hc].
    rewrite Hc, Z.div_mul by lia. split; [exact Hpk |]. split; [nia | reflexivity]. }
  destruct (Hcof p0 k0 Hin0) as (_ & HE0 & _).
  destruct (order_exists u n _ HE0 (Hall p0 k0 Hin0)) as [d Hd].
  assert (Hdiv : forall p k, In (p, k) f -> (d | dict_prod f / p ^ k)).
  { intros p k Hin. destruct (Hcof p k Hin) as (_ & HE & _).
    apply (order_divides u n); [exact Hd | lia | now apply Hall]. }
  assert (Hg : Z.gcd d (dict_prod f) = 1).
  { apply coprime_dict_prod. intros p k Hin.
    apply (coprime_of_divisor d (dict_prod f / p ^ k)); [now apply Hdiv |].
    now apply cofactor_coprime. }
  assert (Hd1 : d = 1).
  { apply Z.divide_1_r_nonneg; [destruct Hd; lia |].
    rewrite <- Hg. apply Z.gcd_greatest; [apply Z.divide_refl |].
    destruct (Hcof p0 k0 Hin0) as (_ & _ & Hprod). rewrite Hprod.
    apply Z.divide_mul_l. now apply Hdiv. }
  subst d. destruct Hd as (_ & H1 & _). now rewrite Z.pow_1_r in H1.
Qed.

Lemma pohlig_hellman_with_sound (dl : Z -> Z -> Z -> Z -> Rand Z) (n a b o : Z)
  (g g' : RNG) (x : Z) :
  1 < n -> 1 < o -> b ^ o mod n = 1 ->
  (forall aj bj pi g c g', dl n aj bj pi g = Ret (c, g') ->
                           0 <= c /\ bj ^ c mod n = aj mod n) ->
  _discrete_log_pohlig_hellman_with dl n a b (Some o) g = Ret (x, g') ->
  0 <= x /\ b ^ x mod n = a mod n.
Proof.
  intros Hn Ho Hord Hdl H. unfold _discrete_log_pohlig_hellman_with in H.
  replace (n =? 0) with false in H by (symmetry; apply Z.eqb_neq; lia).
  cbv zeta in H. unfold rbind at 1 in H. unfold lift in H.
  set (A := a mod n) in *. set (B := b mod n) in *.
  assert (HB : B ^ o mod n = 1) by (unfold B; now rewrite Z.mod_pow_l).
  destruct (factorint_spec o ltac:(lia)) as [Hprod Hfac].
  set (f := factorint o) in *.
  pose proof (factorisation_prime_dict f Hfac) as Hpd.
  pose proof Hpd as [Hprimes _].
  unfold rbind in H.
  destruct (rmap _ f g) as [[l g1] | |] eqn:Hr; try discriminate.
  unfold rret in H. apply ret_pair_inv in H. destruct H as [<- _].
  set (d := fst (crt (map (fun pr => fst pr ^ snd pr) f) l)).
  pose proof (crt_range f l Hfac) as Hd. fold d in Hd.
  (* every component is a logarithm up to its cofactor *)
  apply (rmap_Forall2 _
           (fun pr li => 0 <= li /\
                         A ^ (o / fst pr ^ snd pr) mod n
                         = B ^ (o / fst pr ^ snd pr * li) mod n)) in Hr.
  2:{ intros [p k] g0 y g0' Hin Hy. cbn [fst snd] in *.
      rewrite Forall_forall in Hprimes.
      destruct (Hprimes (p, k) Hin) as [Hp Hk]. cbn [fst snd] in Hp, Hk.
      pose proof (Z.prime_ge_2 p Hp).
      change (range k) with (range2 0 k) in Hy.
      assert (Hdiv : (p ^ k | o)) by (rewrite <- Hprod; now apply in_dict_prod_divides).
      assert (Hdl' : forall aj bj g c g', dl n aj bj p g = Ret (c, g') ->
                                          0 <= c /\ bj ^ c mod n = aj mod n)
        by (intros aj bj g2 c g2'; apply Hdl).
      destruct (ph_digits_sound dl n A B o p k Hn ltac:(lia) ltac:(lia) Hdiv Hdl'
                  (Z.to_nat k) 0 0 g0 g0' y ltac:(lia) ltac:(lia) ltac:(lia)
                  ltac:(intros; lia) Hy) as [Hy0 Hylog].
      split; [exact Hy0 | apply Hylog; lia]. }
  assert (Hcong : forall p k, In (p, k) f ->
                              A ^ (o / p ^ k) mod n = (B ^ d) ^ (o / p ^ k) mod n).
  { intros p k Hin. destruct (In_nth_error _ _ Hin) as [i Hi].
    destruct (Forall2_nth_error_l _ _ _ Hr i _ Hi) as (li & Hli & Hli0 & Hlog).
    cbn [fst snd] in Hlog. rewrite Hlog.
    pose proof (crt_residue f l i p k li Hfac Hi Hli) as Hres. fold d in Hres.
    rewrite Forall_forall in Hprimes.
    destruct (Hprimes (p, k) Hin) as [Hp Hk]. cbn [fst snd] in Hp, Hk.
    pose proof (Z.prime_ge_2 p Hp).
    assert (Hpk : 0 < p ^ k) by (apply Z.pow_pos_nonneg; lia).
    destruct (in_dict_prod_divides f p k Hin) as [E HE]. rewrite Hprod in HE.
    assert (HEq : o / p ^ k = E) by (rewrite HE; apply Z.div_mul; lia).
    rewrite HEq. assert (HE0 : 0 < E) by nia.
    rewrite <- Z.pow_mul_r by lia. rewrite (Z.mul_comm d E).
    rewrite <- (pow_mod_order B n o (E * li)) by (try lia; try nia; exact HB).
    rewrite <- (pow_mod_order B n o (E * d)) by (try lia; try nia; exact HB).
    f_equal. f_equal.
    apply (cong_iff_divide o); [lia |].
    apply (cong_iff_divide (p ^ k) d li Hpk) in Hres. destruct Hres as [t Ht].
    exists (- t). rewrite HE. replace (E * li - E * d) with (- (E * (d - li))) by ring.
    rewrite Ht. ring. }
  split; [lia |].
  assert (Hg : Z.gcd (B ^ d) n = 1).
  { apply Z.coprime_pow_l; [lia |]. apply (order_coprime B n o); [exact Hn | lia | exact HB]. }
  pose proof (Z.invmod_coprime (B ^ d) n ltac:(lia) Hg) as Hinv.
  set (ci := Z.invmod (B ^ d) n) in *.
  assert (Hu : (A * ci) mod n = 1).
  { apply (unit_from_cofactors (A * ci) n f Hpd).
    - intros Ef. rewrite Ef, dict_prod_nil in Hprod. lia.
    - intros p k Hin. rewrite Hprod.
      rewrite Z.pow_mul_l, Zmult_mod, (Hcong p k Hin), <- Zmult_mod, <- Z.pow_mul_l.
      rewrite <- Z.mod_pow_l, (Z.mul_comm (B ^ d)), Hinv, Z.pow_1_l.
      + apply Z.mod_1_l. lia.
      + rewrite Forall_forall in Hprimes.
        destruct (Hprimes (p, k) Hin) as [Hp Hk]. cbn [fst snd] in Hp, Hk.
        pose proof (Z.prime_ge_2 p Hp).
        apply Z.div_pos; [lia | apply Z.pow_pos_nonneg; lia]. }
  rewrite <- (Z.mod_pow_l b). fold B.
  transitivity (A mod n); [| unfold A; apply Zmod_mod].
  transitivity ((A * ci * B ^ d) mod n).
  - rewrite <- Zmult_mod_idemp_l, Hu, Z.mul_1_l. reflexivity.
  - replace (A * ci * B ^ d) with (A * (ci * B ^ d)) by ring.
    now rewrite <- Zmult_mod_idemp_r, Hinv, Z.mul_1_r.
Qed.

Lemma pollard_rho_logarithm (n a b : Z) (order : option Z) (retries : nat)
  (g g' : RNG) (e : Z) :
  1 < n -> _discrete_log_pollard_rho n a b order retries g = Ret (e, g') ->
  0 <= e /\ b ^ e mod n = a mod n.
Proof.
  intros Hn H. unfold _discrete_log_pollard_rho in H.
  replace (n =? 0) with false in H by (symmetry; apply Z.eqb_neq; lia).
  unfold rbind, lift in H.
  destruct (match order with None => n_order (b mod n) n | Some o => Ret o end)
    as [o | |] eqn:Ho; try discriminate.
  apply rho_retries_sound in H. destruct H as (Hc & He).
  split; [lia |].
  rewrite powmod_spec, Z.mod_pow_l in Hc by lia.
  rewrite <- (Zmod_mod (b ^ e)), <- (Zmod_mod a).
  apply cong_of_difference; [lia |]. rewrite !Zmod_mod. exact Hc.
Qed.

Lemma trial_mul_sound (n a b : Z) (order : option Z) (k : Z) :
  1 < n -> _discrete_log_trial_mul n a b order = Ret k -> 0 <= k /\ b ^ k mod n = a mod n.
Proof.
  intros Hn H. unfold _discrete_log_trial_mul in H.
  replace (n =? 0) with false in H by (symmetry; apply Z.eqb_neq; lia).
  pose proof (trial_loop_decides (b mod n) n (a mod n)
                (Z.to_nat match order with None => n | Some o => o end) 0 ltac:(lia)) as D.
  rewrite Z.pow_0_r, Z.mod_1_l in D by lia. rewrite H in D.
  destruct D as (Hk & Hpow & _). rewrite Z.mod_pow_l in Hpow. split; [lia | exact Hpow].
Qed.

(** The dispatch of [discrete_log]: each of its direct methods returns a
    logarithm, so the whole does as soon as the method [ph] it falls back
    to does. *)
Lemma discrete_log_with_sound (ph : Z -> Z -> Z -> Z -> Rand Z) (n a b : Z)
  (order : option Z) (po : option bool) (g g' : RNG) (x : Z) :
  1 < n ->
  (forall o g x g',
     match order with None => n_order b n | Some o => Ret o end = Ret o ->
     1000 <= o -> match po with None => isprime o | Some t => t end = false ->
     ph n a b o g = Ret (x, g') -> 0 <= x /\ b ^ x mod n = a mod n) ->
  discrete_log_with ph n a b order po g = Ret (x, g') ->
  0 <= x /\ b ^ x mod n = a mod n.
Proof.
  intros Hn Hph H. unfold discrete_log_with in H. unfold rbind at 1 in H.
  unfold lift at 1 in H.
  destruct (match order with None => n_order b n | Some o => Ret o end)
    as [o | |] eqn:Ho; try discriminate.
  cbv zeta in H. destruct (Z.ltb_spec o 1000) as [Hsmall | Hbig].
  - unfold lift in H.
    destruct (_discrete_log_trial_mul n a b (Some o)) as [k | |] eqn:Ht; try discriminate.
    apply ret_pair_inv in H. destruct H as [<- _]. now apply (trial_mul_sound n a b (Some o)).
  - destruct (match po with None => isprime o | Some t => t end) eqn:Hpo.
    + destruct (o <? 1000000000000).
      * unfold lift in H.
        destruct (_discrete_log_shanks_steps n a b (Some o)) as [k | |] eqn:Hs;
          try discriminate.
        apply ret_pair_inv in H. destruct H as [<- _].
        now apply (shanks_steps_sound n a b (Some o)).
      * now apply (pollard_rho_logarithm n a b (Some o) 10 g g').
    + now apply (Hph o g x g').
Qed.

Lemma discrete_log_rec_S (d : nat) (n a b : Z) (order : option Z) (po : option bool) :
  discrete_log_rec (S d) n a b order po
  = discrete_log_with
      (fun n a b order =>
         _discrete_log_pohlig_hellman_with
           (fun n aj bj pi => discrete_log_rec d n aj bj (Some pi) (Some true))
           n a b (Some order))
      n a b order po.
Proof. reflexivity. Qed.

(** A call with a prime order never reaches Pohlig-Hellman. *)
Lemma discrete_log_rec_prime_sound (d : nat) (n a b pi : Z) (g g' : RNG) (x : Z) :
  1 < n -> discrete_log_rec (S d) n a b (Some pi) (Some true) g = Ret (x, g') ->
  0 <= x /\ b ^ x mod n = a mod n.
Proof.
  intros Hn H. rewrite discrete_log_rec_S in H.
  apply discrete_log_with_sound in H; [exact H | exact Hn |].
  intros o g0 x0 g0' _ _ Hf. discriminate.
Qed.

Lemma pohlig_hellman_none (dl : Z -> Z -> Z -> Z -> Rand Z) (n a b o : Z) (g : RNG) :
  n_order (b mod n) n = Ret o ->
  _discrete_log_pohlig_hellman_with dl n a b None g
  = _discrete_log_pohlig_hellman_with dl n a b (Some o) g.
Proof.
  intros Ho. unfold _discrete_log_pohlig_hellman_with.
  destruct (n =? 0); [reflexivity |]. cbv zeta. rewrite Ho. reflexivity.
Qed.

(** X13: for a modulus [n > 1], whatever Pohlig-Hellman returns is a
    non-negative logarithm of [a] to the base [b], when the order it is
    given exceeds 1 and kills [b], or when it computes the order itself
    and [b] is not 1 modulo [n]. *)
Theorem discrete_log_pohlig_hellman_sound (n a b : Z) (order : option Z)
  (g g' : RNG) (x : Z) :
  1 < n ->
  match order with
  | Some o => 1 < o /\ b ^ o mod n = 1
  | None => b mod n <> 1
  end ->
  _discrete_log_pohlig_hellman n a b order g = Ret (x, g') ->
  0 <= x /\ b ^ x mod n = a mod n.
Proof.
  intros Hn Hord H. unfold _discrete_log_pohlig_hellman in H.
  assert (Hdl : forall aj bj pi g c g',
             discrete_log n aj bj (Some pi) (Some true) g = Ret (c, g') ->
             0 <= c /\ bj ^ c mod n = aj mod n).
  { intros aj bj pi g0 c g0'. apply discrete_log_rec_prime_sound. exact Hn. }
  destruct order as [o |].
  - destruct Hord as [Ho Hb].
    exact (pohlig_hellman_with_sound _ n a b o g g' x Hn Ho Hb Hdl H).
  - destruct (n_order (b mod n) n) as [o | |] eqn:Ho.
    + rewrite (pohlig_hellman_none _ n a b o g Ho) in H.
      apply n_order_ret in Ho. destruct Ho as [_ Hio].
      apply (proj1 (is_order_mod b n o)) in Hio. pose proof Hio as (Ho0 & Hb & _).
      assert (Ho1 : 1 < o).
      { destruct (Z.eq_dec o 1) as [-> | Hne]; [| lia].
        exfalso. apply Hord. now rewrite Z.pow_1_r in Hb. }
      exact (pohlig_hellman_with_sound _ n a b o g g' x Hn Ho1 Hb Hdl H).
    + unfold _discrete_log_pohlig_hellman_with in H.
      replace (n =? 0) with false in H by (symmetry; apply Z.eqb_neq; lia).
      cbv zeta in H. unfold rbind at 1 in H. unfold lift in H. rewrite Ho in H.
      discriminate.
    + unfold _discrete_log_pohlig_hellman_with in H.
      replace (n =? 0) with false in H by (symmetry; apply Z.eqb_neq; lia).
      cbv zeta in H. unfold rbind at 1 in H. unfold lift in H. rewrite Ho in H.
      discriminate.
Qed.

Lemma discrete_log_pohlig_hellman_sound_witness :
  1 < 251 /\ (1 < 250 /\ 71 ^ 250 mod 251 = 1) /\
  _discrete_log_pohlig_hellman 251 210 71 (Some 250) [] = Ret (197, []) /\
  0 <= 197 /\ 71 ^ 197 mod 251 = 210 mod 251.
Proof.
  split; [lia |]. split; [split; [lia | reflexivity] |].
  split; [vm_compute; reflexivity |].
  apply (discrete_log_pohlig_hellman_sound 251 210 71 (Some 250) [] [] 197);
    [lia | split; [lia | reflexivity] | vm_compute; reflexivity].
Defined.

(** X14: for a modulus [n > 1], whatever [discrete_log(n, a, b)] returns
    is a non-negative logarithm of [a] to the base [b], by whichever of
    its methods it was found; a caller who supplies the order must supply
    one that kills [b]. *)
Theorem discrete_log_sound (n a b : Z) (order : option Z) (prime_order : option bool)
  (g g' : RNG) (x : Z) :
  1 < n ->
  (forall o, order = Some o -> b ^ o mod n = 1) ->
  discrete_log n a b order prime_order g = Ret (x, g') ->
  0 <= x /\ b ^ x mod n = a mod n.
Proof.
  intros Hn Hord H. unfold discrete_log in H. rewrite discrete_log_rec_S in H.
  apply discrete_log_with_sound in H; [exact H | exact Hn |].
  intros o g0 x0 g0' Ho Hbig _ Hph.
  assert (Hb : b ^ o mod n = 1).
  { destruct order as [o' |].
    - apply ret_eq in Ho. subst o'. now apply Hord.
    - apply n_order_ret in Ho. destruct Ho as [_ (_ & Hb & _)]. exact Hb. }
  refine (pohlig_hellman_with_sound _ n a b o g0 g0' x0 Hn ltac:(lia) Hb _ Hph).
  intros aj bj pi g1 c g1'. apply (discrete_log_rec_prime_sound 0). exact Hn.
Qed.

Lemma discrete_log_sound_witness :
  1 < 41 /\ (forall o, @None Z = Some o -> 7 ^ o mod 41 = 1) /\
  discrete_log 41 15 7 None None [] = Ret (3, []) /\
  0 <= 3 /\ 7 ^ 3 mod 41 = 15 mod 41.
Proof.
  split; [lia |]. split; [intros o Ho; discriminate Ho |].
  split; [vm_compute; reflexivity |].
  apply (discrete_log_sound 41 15 7 None None [] [] 3);
    [lia | intros o Ho; discriminate Ho | vm_compute; reflexivity].
Defined.

(** ** Quadratic congruences *)

Lemma quad_cong (p a a' b b' c c' x x' : Z) :
  a mod p = a' mod p -> b mod p = b' mod p -> c mod p = c' mod p -> x mod p = x' mod p ->
  (a * x * x + b * x + c) mod p = (a' * x' * x' + b' * x' + c') mod p.
Proof.
  intros Ha Hb Hc Hx.
  rewrite (Zplus_mod (a * x * x + b * x) c), (Zplus_mod (a * x * x) (b * x)).
  rewrite (cong_mul p (a * x) (a' * x') x x' (cong_mul p a a' x x' Ha Hx) Hx).
  rewrite (cong_mul p b b' x x' Hb Hx), Hc.
  rewrite <- (Zplus_mod (a' * x' * x')), <- Zplus_mod. reflexivity.
Qed.

Lemma sqrt_mod_list_sound (a p : Z) (g g' : RNG) (v : pyval) (l : list Z) :
  0 < p -> sqrt_mod a p true g = Ret (v, g') -> as_list v = Ret l ->
  forall r, In r l -> (r * r) mod p = a mod p.
Proof.
  intros Hp H Hl r Hr. unfold sqrt_mod, rbind in H.
  destruct (sqrt_mod_iter a p g) as [[l0 g1] | |] eqn:Hit; try discriminate.
  unfold rret in H. apply ret_pair_inv in H. destruct H as [<- _].
  cbn [as_list] in Hl. apply ret_eq in Hl. subst l.
  apply (proj1 (sorted_In _ _)) in Hr.
  pose proof (sqrt_mod_iter_sound a p g _ l0 ltac:(lia) Hit r Hr) as Hroot.
  now rewrite Z.abs_eq in Hroot by lia.
Qed.

Lemma omap_In {A B : Type} (f : A -> outcome B) (l : list A) (ys : list B) :
  omap f l = Ret ys -> forall y, In y ys -> exists x, In x l /\ f x = Ret y.
Proof.
  revert ys. induction l as [| x l IH]; intros ys H y Hy; cbn [omap] in H.
  - apply ret_eq in H. subst ys. destruct Hy.
  - destruct (f x) as [y0 | |] eqn:Hfx; cbn [obind] in H; try discriminate.
    destruct (omap f l) as [ys0 | |]; cbn [obind] in H; try discriminate.
    apply ret_eq in H. subst ys. destruct Hy as [<- | Hy].
    + exists x. split; [now left | exact Hfx].
    + destruct (IH ys0 eq_refl y Hy) as (x0 & Hx0 & Hf0). exists x0. split; [now right | exact Hf0].
Qed.

(** Completing the square modulo an odd prime. *)
Lemma completed_square (p a b c inv h y eps : Z) :
  (p | a * inv - 1) -> 2 * h = b * inv + p * eps -> (p | y * y - (h * h - c * inv)) ->
  (p | a * (y - h) * (y - h) + b * (y - h) + c).
Proof.
  intros [k5 H5] H3 [k6 H6].
  exists (a * h * eps - a * y * eps + a * k6 + k5 * (h * b - y * b - c)).
  assert (D1 : y * y - (h * h - c * inv) - k6 * p = 0) by lia.
  assert (D2 : a * inv - 1 - k5 * p = 0) by lia.
  assert (D3 : 2 * h - b * inv - p * eps = 0) by lia.
  replace (a * (y - h) * (y - h) + b * (y - h) + c)
    with ((a * h * eps - a * y * eps + a * k6 + k5 * (h * b - y * b - c)) * p
          + a * (y * y - (h * h - c * inv) - k6 * p)
          + (a * h - a * y) * (2 * h - b * inv - p * eps)
          + (h * b - y * b - c) * (a * inv - 1 - k5 * p)) by ring.
  rewrite D1, D2, D3. ring.
Qed.

(** Solving through the discriminant modulo [4*a*p]. *)
Lemma discriminant_root (p a b c y j : Z) :
  0 < a -> 0 < p ->
  (4 * a * p | y * y - (b * b - 4 * a * c)) -> (4 * a * p | 2 * a * j - (y - b)) ->
  (p | a * j * j + b * j + c).
Proof.
  intros Ha Hp [k1 H1] [k2 H2].
  exists (k1 + 2 * y * k2 + 4 * a * p * k2 * k2).
  apply (Z.mul_reg_l _ _ (4 * a)); [lia |].
  assert (D1 : y * y - (b * b - 4 * a * c) - k1 * (4 * a * p) = 0) by lia.
  assert (D2 : 2 * a * j - (y - b) - k2 * (4 * a * p) = 0) by lia.
  replace (4 * a * (a * j * j + b * j + c))
    with (4 * a * ((k1 + 2 * y * k2 + 4 * a * p * k2 * k2) * p)
          + (y * y - (b * b - 4 * a * c) - k1 * (4 * a * p))
          + (2 * a * j - (y - b) - k2 * (4 * a * p))
            * (2 * a * j + b + y + k2 * (4 * a * p))) by ring.
  rewrite D1, D2. ring.
Qed.

(** X15: for a modulus [p > 0] and a collaborator [lc] whose answers solve
    the linear congruence they were asked, every [x] that
    [quadratic_congruence(a, b, c, p)] returns satisfies
    [a*x**2 + b*x + c = 0 (mod p)], and the answer is a list of residues
    when [a] is not a multiple of [p]. *)
Theorem quadratic_congruence_sound (lc : Z -> Z -> Z -> outcome (list Z))
  (a b c p : Z) (g g' : RNG) (l : list Z) :
  0 < p ->
  (forall u v m s, lc u v m = Ret s -> forall x, In x s -> (u * x) mod m = v mod m) ->
  quadratic_congruence lc a b c p g = Ret (l, g') ->
  forall x, In x l ->
            (a * x * x + b * x + c) mod p = 0 /\ (a mod p <> 0 -> 0 <= x < p).
Proof.
  intros Hp Hlc H x Hx. unfold quadratic_congruence in H.
  replace (p =? 0) with false in H by (symmetry; apply Z.eqb_neq; lia).
  cbv zeta in H.
  pose proof (Z.mod_pos_bound a p Hp) as Ha'.
  assert (Ea : a mod p = (a mod p) mod p) by (now rewrite Zmod_mod).
  assert (Eb : b mod p = (b mod p) mod p) by (now rewrite Zmod_mod).
  assert (Ec : c mod p = (c mod p) mod p) by (now rewrite Zmod_mod).
  set (a1 := a mod p) in *. set (b1 := b mod p) in *. set (c1 := c mod p) in *.
  destruct (Z.eqb_spec a1 0) as [Ha0 | Ha0].
  - (* linear *)
    split; [| intros Hne; contradiction].
    unfold lift in H. destruct (lc b1 (- c1) p) as [s | |] eqn:Hs; try discriminate.
    apply ret_pair_inv in H. destruct H as [<- _].
    pose proof (Hlc _ _ _ _ Hs x Hx) as Hsol.
    rewrite (quad_cong p a a1 b b1 c c1 x x Ea Eb Ec eq_refl).
    apply Z.mod_divide; [lia |].
    apply (cong_iff_divide p _ _ Hp) in Hsol. destruct Hsol as [k Hk].
    exists k. rewrite Ha0. lia.
  - destruct (Z.eqb_spec p 2) as [Hp2 | Hp2].
    + (* modulo 2 *)
      unfold rret in H. apply ret_pair_inv in H. destruct H as [<- _].
      rewrite (quad_cong p a a1 b b1 c c1 x x Ea Eb Ec eq_refl). subst p.
      apply in_app_or in Hx.
      destruct Hx as [Hx | Hx].
      * destruct (Z.eqb_spec (c1 mod 2) 0) as [E | E]; [| destruct Hx].
        destruct Hx as [<- | []]. split; [| lia].
        replace (a1 * 0 * 0 + b1 * 0 + c1) with c1 by ring. exact E.
      * destruct (Z.eqb_spec ((a1 + b1 + c1) mod 2) 0) as [E | E]; [| destruct Hx].
        destruct Hx as [<- | []]. split; [| lia].
        replace (a1 * 1 * 1 + b1 * 1 + c1) with (a1 + b1 + c1) by ring. exact E.
    + destruct (isprime p) eqn:Hprime.
      * (* odd prime: completing the square *)
        apply isprime_spec in Hprime. pose proof (Z.prime_ge_2 p Hprime) as Hp2'.
        unfold rbind at 1 in H. unfold lift at 1 in H.
        destruct (invert a1 p) as [inv | |] eqn:Hinv; try discriminate.
        cbv zeta in H. unfold rbind at 1 in H.
        destruct (sqrt_mod _ p true g) as [[v g1] | |] eqn:Hsq; try discriminate.
        unfold rbind at 1 in H. unfold lift at 1 in H.
        destruct (as_list v) as [ys | |] eqn:Hys; try discriminate.
        unfold rret in H. apply ret_pair_inv in H. destruct H as [<- _].
        apply (proj1 (sorted_In _ _)), (proj1 (dedup_In _ _)), in_map_iff in Hx.
        destruct Hx as (y & <- & Hy).
        split; [| intros _; apply Z.mod_pos_bound; exact Hp].
        pose proof (sqrt_mod_list_sound _ p g g1 v ys Hp Hsq Hys y Hy) as Hroot.
        rewrite Zmod_mod in Hroot.
        set (b2 := if b1 * inv mod 2 =? 1 then b1 * inv + p else b1 * inv) in *.
        assert (Hodd : p mod 2 = 1).
        { now apply odd_prime. }
        assert (Hb2 : exists eps, b2 = b1 * inv + p * eps /\ b2 mod 2 = 0).
        { unfold b2. destruct (Z.eqb_spec (b1 * inv mod 2) 1) as [E | E].
          - exists 1. split; [ring |]. rewrite Zplus_mod, E, Hodd. reflexivity.
          - exists 0. split; [ring |].
            pose proof (Z.mod_pos_bound (b1 * inv) 2 ltac:(lia)). lia. }
        destruct Hb2 as (eps & Hb2 & Hev).
        assert (Hh : 2 * (b2 / 2) = b2).
        { pose proof (Z_div_mod_eq_full b2 2). lia. }
        assert (Hq : b2 * b2 / 4 = b2 / 2 * (b2 / 2)).
        { rewrite <- Hh at 1 2.
          replace (2 * (b2 / 2) * (2 * (b2 / 2))) with (b2 / 2 * (b2 / 2) * 4) by ring.
          apply Z.div_mul. lia. }
        rewrite Hq in Hroot.
        assert (Hia : (p | a1 * inv - 1)).
        { unfold invert in Hinv.
          replace (p =? 0) with false in Hinv by (symmetry; apply Z.eqb_neq; lia).
          destruct (Z.eqb_spec (Z.gcd a1 p) 1) as [G | G]; [| discriminate].
          apply ret_eq in Hinv. rewrite Z.abs_eq in Hinv by lia.
          pose proof (Z.invmod_coprime a1 p Hp2' G) as Hi. rewrite Hinv in Hi.
          apply (cong_iff_divide p); [exact Hp |].
          rewrite Z.mul_comm, Hi. symmetry. apply Z.mod_1_l. lia. }
        rewrite (quad_cong p a a1 b b1 c c1 _ (y - b2 / 2) Ea Eb Ec (Zmod_mod _ _)).
        apply Z.mod_divide; [lia |].
        apply (completed_square p a1 b1 c1 inv (b2 / 2) y eps Hia).
        -- rewrite Hh. exact Hb2.
        -- apply (cong_iff_divide p); [exact Hp | exact Hroot].
      * (* composite modulus: through the discriminant *)
        unfold rbind at 1 in H.
        destruct (sqrt_mod _ (4 * a1 * p) true g) as [[v g1] | |] eqn:Hsq; try discriminate.
        unfold rbind at 1 in H. unfold lift at 1 in H.
        destruct (as_list v) as [ys | |] eqn:Hys; try discriminate.
        unfold rbind at 1 in H. unfold lift at 1 in H.
        destruct (omap _ ys) as [roots | |] eqn:Hroots; try discriminate.
        unfold rret in H. apply ret_pair_inv in H. destruct H as [<- _].
        apply (proj1 (sorted_In _ _)), (proj1 (dedup_In _ _)), in_map_iff in Hx.
        destruct Hx as (j & <- & Hj).
        split; [| intros _; apply Z.mod_pos_bound; exact Hp].
        apply in_concat in Hj. destruct Hj as (s & Hs & Hjs).
        destruct (omap_In _ _ _ Hroots s Hs) as (y & Hy & Hlcy).
        assert (HM : 0 < 4 * a1 * p) by nia.
        pose proof (sqrt_mod_list_sound _ _ g g1 v ys HM Hsq Hys y Hy) as Hroot.
        pose proof (Hlc _ _ _ _ Hlcy j Hjs) as Hlin.
        rewrite (quad_cong p a a1 b b1 c c1 _ j Ea Eb Ec (Zmod_mod _ _)).
        apply Z.mod_divide; [lia |].
        apply (discriminant_root p a1 b1 c1 y j); [lia | exact Hp | |].
        -- apply (cong_iff_divide _ _ _ HM). exact Hroot.
        -- apply (cong_iff_divide _ _ _ HM). exact Hlin.
Qed.

Lemma quadratic_congruence_sound_witness :
  0 < 7 /\
  quadratic_congruence (fun _ _ _ => Ret []) 1 0 5 7 [] = Ret ([3; 4], []) /\
  forall x, In x [3; 4] -> (1 * x * x + 0 * x + 5) mod 7 = 0 /\ (1 mod 7 <> 0 -> 0 <= x < 7).
Proof.
  split; [lia |]. split; [vm_compute; reflexivity |].
  apply (quadratic_congruence_sound (fun _ _ _ => Ret []) 1 0 5 7 [] []); [lia | |].
  - intros u v m s Hs x Hx. apply ret_eq in Hs. subst s. destruct Hx.
  - vm_compute. reflexivity.
Defined.

(** ** Power residues *)

(** Modulo a prime [p], a unit [a] is an [n]-th power exactly when
    [a**((p - 1) // gcd(p - 1, n)) = 1]. *)
Lemma nthpow_criterion (p a n : Z) :
  Z.prime p -> a mod p <> 0 -> 0 < n ->
  (a ^ ((p - 1) / Z.gcd (p - 1) n) mod p = 1 <-> exists x, x ^ n mod p = a mod p).
Proof.
  intros Hp Ha Hn. pose proof (Z.prime_ge_2 p Hp) as Hp2.
  set (d := Z.gcd (p - 1) n).
  assert (Hd : 0 < d).
  { pose proof (Z.gcd_nonneg (p - 1) n). destruct (Z.eq_dec d 0) as [E | E]; [| unfold d; lia].
    apply Z.gcd_eq_0_r in E. lia. }
  destruct (Z.gcd_divide_l (p - 1) n) as [u Hu]. fold d in Hu.
  destruct (Z.gcd_divide_r (p - 1) n) as [v Hv]. fold d in Hv.
  assert (Eu : (p - 1) / d = u) by (rewrite Hu; apply Z.div_mul; lia).
  assert (Hu0 : 0 < u) by nia. assert (Hv0 : 0 < v) by nia.
  rewrite Eu. split.
  - intros H1.
    destruct (NatBridge.prime_generator p Hp) as (g & Hg & Hord & Hgen).
    destruct (Hgen a Ha) as (j & Hj & Hgj).
    assert (Hg1 : g ^ (p - 1) mod p = 1) by (apply fermat_little; assumption).
    assert (Hdj : (d | j)).
    { rewrite <- (cong_pow p (g ^ j) a u Hgj) in H1.
      rewrite <- Z.pow_mul_r in H1 by lia.
      apply Hord in H1; [| nia]. rewrite Hu in H1.
      destruct H1 as [c Hc]. exists c. nia. }
    destruct Hdj as [j' Hj'].
    destruct (Z.gcd_bezout (p - 1) n d eq_refl) as (r & s & Hbez).
    set (e := (j' * s) mod (p - 1)).
    pose proof (Z.mod_pos_bound (j' * s) (p - 1) ltac:(lia)) as He. fold e in He.
    exists (g ^ e). rewrite <- Hgj, <- Z.pow_mul_r by lia.
    rewrite <- (pow_mod_order g p (p - 1) (e * n)) by (try lia; try nia; exact Hg1).
    rewrite <- (pow_mod_order g p (p - 1) j) by (try lia; exact Hg1).
    f_equal. f_equal. apply (cong_iff_divide (p - 1)); [lia |].
    unfold e. rewrite (Z.mod_eq (j' * s) (p - 1)) by lia.
    exists (- (j' * s / (p - 1)) * n - j' * r).
    rewrite Hj'. rewrite <- Hbez. ring.
  - intros (x & Hx).
    rewrite <- (cong_pow p (x ^ n) a u Hx).
    assert (Hx0 : x mod p <> 0).
    { intros E. apply Ha. rewrite <- Hx, <- Z.mod_pow_l, E.
      rewrite Z.pow_0_l by lia. apply Z.mod_0_l. lia. }
    rewrite <- Z.pow_mul_r by lia.
    replace (n * u) with ((p - 1) * v) by nia.
    apply pow_mod_one_mul; [lia | lia |].
    rewrite <- Z.mod_pow_l. apply fermat_little; [exact Hp |].
    pose proof (Z.mod_pos_bound x p ltac:(lia)). lia.
Qed.

(** X16: for a prime modulus [p] and [n >= 0], [is_nthpow_residue(a, n, p)]
    returns, without touching the random source, whether
    [x**n = a (mod p)] has a solution. *)
Theorem is_nthpow_residue_prime (a n p : Z) (g : RNG) :
  Z.prime p -> 0 <= n ->
  exists t, is_nthpow_residue a n p g = Ret (t, g) /\
            (t = true <-> exists x, x ^ n mod p = a mod p).
Proof.
  intros Hp Hn. pose proof (Z.prime_ge_2 p Hp) as Hp2.
  pose proof (Z.mod_pos_bound a p ltac:(lia)) as Ha.
  unfold is_nthpow_residue.
  replace (p =? 0) with false by (symmetry; apply Z.eqb_neq; lia).
  cbv zeta.
  replace (p <=? 0) with false by (symmetry; apply Z.leb_gt; lia).
  replace (n <? 0) with false by (symmetry; apply Z.ltb_ge; lia).
  destruct (Z.eqb_spec n 0) as [-> | Hn0].
  - replace (p =? 1) with false by (symmetry; apply Z.eqb_neq; lia).
    eexists. split; [reflexivity |]. rewrite Z.eqb_eq. split.
    + intros E. exists 1. rewrite E. cbn. apply Z.mod_1_l. lia.
    + intros (x & Hx). rewrite Z.pow_0_r, Z.mod_1_l in Hx by lia. now symmetry.
  - destruct (Z.eqb_spec (a mod p) 0) as [Ha0 | Ha0].
    { exists true. split; [reflexivity |]. split; [| reflexivity]. intros _.
      exists 0. rewrite Ha0, Z.pow_0_l by lia. apply Z.mod_0_l. lia. }
    destruct (Z.eqb_spec n 1) as [-> | Hn1].
    { exists true. split; [reflexivity |]. split; [| reflexivity]. intros _.
      exists a. now rewrite Z.pow_1_r. }
    destruct (Z.eqb_spec n 2) as [-> | Hn2].
    + (* squares: Euler's criterion *)
      unfold is_quad_residue.
      replace (p <? 1) with false by (symmetry; apply Z.ltb_ge; lia).
      replace ((p <=? a mod p) || (a mod p <? 0)) with false.
      2:{ symmetry. apply orb_false_iff. split; [apply Z.leb_gt | apply Z.ltb_ge]; lia. }
      destruct ((a mod p <? 2) || (p <? 3)) eqn:Hsmall.
      * exists true. split; [reflexivity |]. split; [| reflexivity]. intros _.
        exists 1. rewrite Z.pow_1_l by lia.
        apply orb_true_iff in Hsmall. destruct Hsmall as [H | H].
        -- apply Z.ltb_lt in H. replace (a mod p) with 1 by lia. apply Z.mod_1_l. lia.
        -- apply Z.ltb_lt in H. assert (p = 2) by lia. subst p.
           replace (a mod 2) with 1 by lia. reflexivity.
      * apply orb_false_iff in Hsmall. destruct Hsmall as [_ H3]. apply Z.ltb_ge in H3.
        replace (isprime p) with true by (symmetry; now apply isprime_spec).
        cbn [negb]. eexists. split; [reflexivity |].
        rewrite (euler_test (a mod p) p Hp ltac:(lia)) by (now rewrite Zmod_mod).
        rewrite Zmod_mod. split; intros (x & Hx); exists x.
        -- now rewrite Z.pow_2_r.
        -- now rewrite <- Z.pow_2_r.
    + (* higher powers *)
      rewrite (factorint_prime p Hp). unfold lift. cbn [oforallb fst snd].
      unfold _is_nthpow_residue_bign_prime_power.
      change (Z.to_nat 1) with 1%nat. cbn [strip_multiples].
      rewrite Zmod_mod.
      replace (a mod p =? 0) with false by (symmetry; now apply Z.eqb_neq).
      cbn [obind]. destruct (Z.eqb_spec p 2) as [-> | Hne]; cbn [negb].
      * assert (Ha1 : a mod 2 = 1) by lia.
        assert (Hx : exists x, x ^ n mod 2 = a mod 2).
        { exists 1. rewrite Z.pow_1_l by lia. now rewrite Ha1. }
        destruct (Z.land n 1 =? 1); cbn [obind].
        -- exists true. split; [reflexivity |]. split; [intros _; exact Hx | reflexivity].
        -- pose proof (multiplicity_spec 2 n ltac:(lia) ltac:(lia)) as Hm. cbv zeta in Hm.
           destruct Hm as [Hm _]. unfold trailing.
           replace (Z.min (multiplicity 2 n + 2) 1) with 1 by lia.
           rewrite Z.pow_1_r, Zmod_mod.
           replace (a mod 2 =? 1) with true by (symmetry; apply Z.eqb_eq; exact Ha1).
           cbn [obind].
           exists true. split; [reflexivity |]. split; [intros _; exact Hx | reflexivity].
      * cbv zeta. rewrite Z.sub_diag, Z.pow_0_r, Z.mul_1_l, Z.pow_1_r.
        assert (Hd : 0 < Z.gcd (p - 1) n).
        { pose proof (Z.gcd_nonneg (p - 1) n).
          destruct (Z.eq_dec (Z.gcd (p - 1) n) 0) as [E | E]; [| lia].
          apply Z.gcd_eq_0_r in E. lia. }
        assert (He : 0 <= (p - 1) / Z.gcd (p - 1) n) by (apply Z.div_pos; lia).
        rewrite powmod_spec by exact He. rewrite Z.mod_pow_l. cbn [obind].
        destruct (Z.eqb_spec (a ^ ((p - 1) / Z.gcd (p - 1) n) mod p) 1) as [E | E].
        -- exists true. split; [reflexivity |]. split; [intros _ | reflexivity].
           apply (nthpow_criterion p a n Hp Ha0 ltac:(lia)). exact E.
        -- exists false. split; [reflexivity |]. split; [discriminate |].
           intros Hx. exfalso. apply E.
           apply (nthpow_criterion p a n Hp Ha0 ltac:(lia)). exact Hx.
Qed.

Lemma is_nthpow_residue_prime_witness :
  exists t, is_nthpow_residue 2 3 7 [] = Ret (t, []) /\
            (t = true <-> exists x, x ^ 3 mod 7 = 2 mod 7).
Proof.
  apply (is_nthpow_residue_prime 2 3 7 []); [| lia].
  apply isprime_spec. reflexivity.
Defined.

(** ** The primitive root of a modulus *)

Lemma is_order_shift (a n k : Z) : is_order (a + n) n k <-> is_order a n k.
Proof.
  rewrite <- (is_order_mod (a + n)), <- (is_order_mod a).
  replace ((a + n) mod n) with (a mod n); [reflexivity |].
  rewrite <- (Z_mod_plus_full a 1 n). f_equal. ring.
Qed.

(** Every power of an odd prime has a primitive root. *)
Lemma prime_power_generator_exists (p k : Z) :
  Z.prime p -> p <> 2 -> 1 <= k -> exists G, is_order G (p ^ k) (totient (p ^ k)).
Proof.
  intros Hp Hne Hk. destruct (prime_generator_exists p Hp Hne) as (g & Hg & Hord).
  destruct (odd_prime p Hp Hne) as [Hp3 _].
  assert (Hdec : (p ^ 2 | g ^ (p - 1) - 1) \/ ~ (p ^ 2 | g ^ (p - 1) - 1)).
  { destruct (Z.eq_dec ((g ^ (p - 1) - 1) mod p ^ 2) 0) as [E | E].
    - left. apply Z.mod_divide; [| exact E]. assert (0 < p ^ 2) by (apply Z.pow_pos_nonneg; lia). lia.
    - right. intros Hd. apply E. apply Z.mod_divide; [| exact Hd].
      assert (0 < p ^ 2) by (apply Z.pow_pos_nonneg; lia). lia. }
  destruct Hdec as [Hbad | Hgood].
  - exists (g + p). apply generator_prime_power; auto.
    + apply is_order_shift. exact Hord.
    + apply shifted_generator; auto. rewrite Z.mod_small by lia. lia.
  - exists g. now apply generator_prime_power.
Qed.

(** Twice a power of an odd prime has an odd primitive root below it. *)
Lemma double_generator_exists (q : Z) :
  1 < q -> q mod 2 = 1 -> (exists G, is_order G q (totient q)) ->
  exists G, 0 < G < 2 * q /\ is_order G (2 * q) (totient (2 * q)).
Proof.
  intros Hq Hodd (G & HG).
  rewrite (totient_double q ltac:(lia) Hodd).
  pose proof (Z.mod_pos_bound G q ltac:(lia)) as Hr.
  pose proof (Z.mod_pos_bound (G mod q) 2 ltac:(lia)) as Hr2.
  apply (proj2 (is_order_mod G q _)) in HG.
  destruct (Z.eq_dec (G mod q mod 2) 1) as [E | E].
  - exists (G mod q). split.
    + assert (G mod q <> 0); [| lia].
      intros E0. rewrite E0 in E. discriminate.
    + apply order_double; auto.
  - exists (G mod q + q). split; [lia |]. apply order_double; auto.
    + rewrite Zplus_mod, Hodd. replace (G mod q mod 2) with 0 by lia. reflexivity.
    + apply is_order_shift. exact HG.
Qed.

(** The search over the odd numbers stops at the least primitive root. *)
Lemma search_odd_finds (p p1 : Z) :
  1 < p ->
  (forall j, j mod 2 = 1 -> j mod p1 <> 0 -> Z.gcd j p = 1) ->
  (forall j, is_order j p (totient p) -> j mod 2 = 1 /\ j mod p1 <> 0) ->
  forall (fuel : nat) (i G : Z),
  i mod 2 = 1 -> 1 <= i < G -> G < p -> is_order G p (totient p) ->
  (forall j, 0 < j <= i -> ~ is_order j p (totient p)) ->
  G - i < 2 * Z.of_nat fuel ->
  exists g, search_odd fuel i p p1 = Ret (Some g) /\ smallest_generator g p.
Proof.
  intros Hp Hcop Hgen. induction fuel as [| fuel IH]; intros i G Hi HiG HGp HG Hlow Hfuel; [lia |].
  cbn [search_odd]. replace (i <? p) with true by (symmetry; apply Z.ltb_lt; lia).
  cbv zeta.
  assert (Hi2 : (i + 2) mod 2 = 1).
  { rewrite <- (Z.mul_1_l 2) at 1. rewrite Z_mod_plus_full. exact Hi. }
  assert (Hno1 : ~ is_order (i + 1) p (totient p)).
  { intros H. apply Hgen in H. destruct H as [H _].
    rewrite Zplus_mod, Hi in H. discriminate H. }
  destruct (Hgen G HG) as [HGodd _].
  assert (HG2 : i + 2 <= G).
  { destruct (Z.eq_dec G (i + 1)) as [-> | Hne]; [| lia]. contradiction. }
  assert (Hnext : ~ is_order (i + 2) p (totient p) ->
                  exists g, search_odd fuel (i + 2) p p1 = Ret (Some g) /\
                            smallest_generator g p).
  { intros Hno. apply (IH (i + 2) G); auto; try lia.
    - destruct (Z.eq_dec G (i + 2)) as [-> | Hne]; [contradiction | lia].
    - intros j Hj. destruct (Z.eq_dec j (i + 2)) as [-> | H2]; [exact Hno |].
      destruct (Z.eq_dec j (i + 1)) as [-> | H1]; [exact Hno1 |]. apply Hlow. lia. }
  destruct (Z.eqb_spec ((i + 2) mod p1) 0) as [E | E].
  - apply Hnext. intros H. apply Hgen in H. destruct H as [_ H]. contradiction.
  - destruct (is_primitive_root_correct (i + 2) p Hp (Hcop _ Hi2 E)) as (b & Hb & Hiff).
    rewrite Hb. cbn [obind]. destruct b.
    + exists (i + 2). split; [reflexivity |]. split; [lia |].
      split; [now apply Hiff |]. intros j Hj.
      destruct (Z.eq_dec j (i + 1)) as [-> | H1]; [exact Hno1 | apply Hlow; lia].
    + apply Hnext. intros H. apply Hiff in H. discriminate H.
Qed.

(** The search over a range stops at the least primitive root in it. *)
Lemma search_range_finds (p : Z) :
  1 < p ->
  forall (k : nat) (lo hi G : Z),
  Z.of_nat k = hi - lo -> 0 < lo -> lo <= G < hi -> is_order G p (totient p) ->
  (forall j, 0 < j < lo -> ~ is_order j p (totient p)) ->
  exists g, search_range (range2 lo hi) p = Ret (Some g) /\ smallest_generator g p.
Proof.
  intros Hp. induction k as [| k IH]; intros lo hi G Hk Hlo HG Hord Hlow; [lia |].
  rewrite range2_cons by lia. cbn [search_range].
  assert (Hnext : ~ is_order lo p (totient p) ->
                  exists g, search_range (range2 (lo + 1) hi) p = Ret (Some g) /\
                            smallest_generator g p).
  { intros Hno. apply (IH (lo + 1) hi G); auto; try lia.
    - destruct (Z.eq_dec G lo) as [-> | Hne]; [contradiction | lia].
    - intros j Hj. destruct (Z.eq_dec j lo) as [-> | Hne]; [exact Hno | apply Hlow; lia]. }
  destruct (Z.eqb_spec (Z.gcd lo p) 1) as [Hg | Hg].
  - destruct (is_primitive_root_correct lo p Hp Hg) as (b & Hb & Hiff).
    rewrite Hb. cbn [obind]. destruct b.
    + exists lo. split; [reflexivity |]. split; [lia |]. split; [now apply Hiff | exact Hlow].
    + apply Hnext. intros H. apply Hiff in H. discriminate H.
  - apply Hnext. intros H. apply Hg. now apply generator_coprime.
Qed.

(** At an odd prime the answer is the first value of the prime iterator. *)
Lemma primitive_root_rec_prime (d : nat) (p : Z) :
  Z.prime p -> p <> 2 ->
  exists g, primitive_root_rec (S d) p true = Ret (Some g) /\
            smallest_generator g p /\ 0 < g < p.
Proof.
  intros Hp Hne. destruct (odd_prime p Hp Hne) as [Hp3 _].
  destruct (prime_iter_generators p Hp Hne) as (g & l & Hl & Hsm & Hall).
  apply Forall_inv in Hall. destruct Hall as [Hg _].
  cbn [primitive_root_rec].
  replace (p <? 2) with false by (symmetry; apply Z.ltb_ge; lia).
  destruct (Z.leb_spec p 4) as [H4 | H4].
  - assert (p = 3).
    { destruct (Z.eq_dec p 4) as [-> | H]; [| lia].
      exfalso. destruct Hp as [_ Hp]. apply (Hp 2); [lia |]. exists 2. reflexivity. }
    subst p. exists 2. split; [reflexivity |].
    cbn in Hl. injection Hl as <- _. split; [exact Hsm | lia].
  - cbn [negb]. rewrite (factorint_prime p Hp). cbn [length Z.of_nat].
    cbn [Z.ltb Z.eqb Z.compare Pos.compare Pos.compare_cont Pos.eqb].
    unfold has_key, keys. cbn [map fst mem existsb].
    replace (2 =? p) with false by (symmetry; apply Z.eqb_neq; lia).
    cbn [orb]. rewrite Hl. cbn [next obind].
    exists g. split; [reflexivity |]. split; [exact Hsm | exact Hg].
Qed.

Lemma no_generator_blocks (p : Z) (f1 f2 : dict) :
  1 < p -> factorint p = f1 ++ f2 -> (2 | tot_of f1) -> (2 | tot_of f2) ->
  forall a, ~ is_order a p (totient p).
Proof.
  intros Hp Hf H1 H2 a Ha.
  apply (no_generator_split a p f1 f2 Hp (generator_coprime a p Hp Ha) Hf H1 H2 Ha).
Qed.

Lemma odd_prime_block_even (r j : Z) : Z.prime r -> 1 <= j -> 2 < r -> (2 | tot_of [(r, j)]).
Proof.
  intros Hr Hj H2. apply tot_of_even; [discriminate | | cbn; lia].
  constructor; [cbn; split; assumption | constructor].
Qed.

Lemma totient_odd_prime_power_ge_2 (p1 n : Z) :
  Z.prime p1 -> p1 <> 2 -> 1 <= n -> 2 <= totient (p1 ^ n).
Proof.
  intros Hp Hne Hn. destruct (odd_prime p1 Hp Hne) as [Hp3 _].
  rewrite totient_prime_power by assumption.
  assert (0 < p1 ^ (n - 1)) by (apply Z.pow_pos_nonneg; lia). nia.
Qed.

(** The case [p = p1**n] with [n > 1]: the root of [p1] when it is one of
    [p1**2], and the least root found by the search otherwise. *)
Lemma prime_power_root (p1 n g0 : Z) :
  Z.prime p1 -> p1 <> 2 -> 2 <= n -> smallest_generator g0 p1 -> 0 < g0 < p1 ->
  exists b, is_primitive_root g0 (p1 ^ 2) = Ret b /\
            (b = true -> smallest_generator g0 (p1 ^ n)) /\
            (b = false ->
             exists g, search_range (range2 2 (g0 + p1 + 1)) (p1 ^ n) = Ret (Some g) /\
                       smallest_generator g (p1 ^ n)).
Proof.
  intros Hp Hne Hn Hsm Hg0. destruct (odd_prime p1 Hp Hne) as [Hp3 _].
  destruct Hsm as (_ & Hord & Hleast). rewrite (totient_prime p1 Hp) in Hord, Hleast.
  assert (Hp2 : 1 < p1 ^ 2) by (apply pow_gt_1; lia).
  assert (Hpn : 1 < p1 ^ n) by (apply pow_gt_1; lia).
  destruct (is_primitive_root_correct g0 (p1 ^ 2) Hp2
              (coprime_prime_pow p1 g0 2 Hp Hg0 ltac:(lia))) as (b & Hb & Hiff).
  exists b. split; [exact Hb |]. split.
  - intros ->. pose proof (proj1 Hiff eq_refl) as Hsq.
    apply (proj1 (square_criterion p1 g0 Hp Hne)) in Hsq. destruct Hsq as [_ Hgood].
    split; [lia |]. split.
    + apply generator_prime_power; auto; lia.
    + intros j Hj Hjord. rewrite totient_prime_power in Hjord by (auto; lia).
      apply generator_reduce in Hjord; [| exact Hp | lia].
      exact (Hleast j Hj Hjord).
  - intros ->.
    assert (Hbad : (p1 ^ 2 | g0 ^ (p1 - 1) - 1)).
    { destruct (Z.eq_dec ((g0 ^ (p1 - 1) - 1) mod p1 ^ 2) 0) as [E | E].
      - apply Z.mod_divide; [lia | exact E].
      - exfalso. assert (Ht : false = true); [| discriminate Ht].
        apply Hiff. apply (proj2 (square_criterion p1 g0 Hp Hne)).
        split; [exact Hord |]. intros Hd. apply E. apply Z.mod_divide; [lia | exact Hd]. }
    assert (HG : is_order (g0 + p1) (p1 ^ n) (totient (p1 ^ n))).
    { apply generator_prime_power; auto; try lia.
      - apply is_order_shift. exact Hord.
      - apply shifted_generator; auto. rewrite Z.mod_small by lia. lia. }
    apply (search_range_finds (p1 ^ n) Hpn (Z.to_nat (g0 + p1 + 1 - 2)) 2 (g0 + p1 + 1)
             (g0 + p1)); try lia; [exact HG |].
    intros j Hj. replace j with 1 by lia. apply one_not_generator.
    pose proof (totient_odd_prime_power_ge_2 p1 n Hp Hne ltac:(lia)). lia.
Qed.

(** The case [p = 2*p1**k]: the search over the odd numbers. *)
Lemma double_prime_power_root (p1 k : Z) :
  Z.prime p1 -> p1 <> 2 -> 1 <= k ->
  exists g, search_odd (S (Z.to_nat (2 * p1 ^ k))) 1 (2 * p1 ^ k) p1 = Ret (Some g) /\
            smallest_generator g (2 * p1 ^ k).
Proof.
  intros Hp Hne Hk. destruct (odd_prime p1 Hp Hne) as [Hp3 _].
  set (q := p1 ^ k).
  assert (Hq : 1 < q) by (apply pow_gt_1; lia).
  assert (Hqodd : q mod 2 = 1) by (apply odd_prime_power; auto; lia).
  assert (Hdiv : (p1 | 2 * q)).
  { apply Z.divide_mul_r. apply Z.divide_pow_same_r. lia. }
  destruct (double_generator_exists q Hq Hqodd
              (prime_power_generator_exists p1 k Hp Hne Hk)) as (G & HG & HGord).
  assert (Hgen : forall j, is_order j (2 * q) (totient (2 * q)) ->
                           j mod 2 = 1 /\ j mod p1 <> 0).
  { intros j Hj. pose proof (generator_coprime j (2 * q) ltac:(lia) Hj) as Hg. split.
    - apply (coprime_odd j (2 * q) Hg). rewrite Z.mul_comm. apply Z_mod_mult.
    - intros E. apply Z.mod_divide in E; [| lia].
      assert (Hd : (p1 | Z.gcd j (2 * q))) by (apply Z.gcd_greatest; assumption).
      rewrite Hg in Hd. apply Z.divide_1_r_nonneg in Hd; lia. }
  assert (Hcop : forall j, j mod 2 = 1 -> j mod p1 <> 0 -> Z.gcd j (2 * q) = 1).
  { intros j Hj2 Hj1. apply Z.coprime_mul_r.
    - unfold Z.coprime. rewrite Z.gcd_comm. apply Z.coprime_prime_l; [exact Z.prime_2 |].
      intros Hd. apply Z.mod_divide in Hd; lia.
    - unfold q. apply Z.coprime_pow_r; [lia |].
      unfold Z.coprime. rewrite Z.gcd_comm. apply Z.coprime_prime_l; [exact Hp |].
      intros Hd. apply Hj1. apply Z.mod_divide; [lia | exact Hd]. }
  assert (Htot : 2 <= totient (2 * q)).
  { rewrite totient_double by lia. now apply totient_odd_prime_power_ge_2. }
  assert (HG1 : 1 < G).
  { destruct (Z.eq_dec G 1) as [-> | H1]; [| lia].
    exfalso. apply (one_not_generator (2 * q)); [lia | exact HGord]. }
  apply (search_odd_finds (2 * q) p1 ltac:(lia) Hcop Hgen (S (Z.to_nat (2 * q))) 1 G);
    try lia; [reflexivity | exact HGord |].
  intros j Hj. replace j with 1 by lia. apply one_not_generator. lia.
Qed.

Lemma cyclic_factorint (p : Z) :
  4 < p -> cyclic_modulus p ->
  exists q k, Z.prime q /\ q <> 2 /\ 1 <= k /\
              (factorint p = [(q, k)] \/ factorint p = [(2, 1); (q, k)]).
Proof.
  intros H4 [-> | [-> | (q & k & Hq & Hq2 & Hk & Hp)]]; try lia.
  exists q, k. split; [exact Hq |]. split; [exact Hq2 |]. split; [exact Hk |].
  destruct (odd_prime q Hq Hq2) as [Hq3 _].
  destruct Hp as [-> | ->].
  - left. now apply factorint_prime_power.
  - right. rewrite factorint_double.
    + now rewrite factorint_prime_power.
    + assert (0 < q ^ k) by (apply Z.pow_pos_nonneg; lia). lia.
    + apply odd_prime_power; auto; lia.
Qed.

Lemma small_moduli (p : Z) : 2 <= p <= 4 -> smallest_generator (p - 1) p /\ cyclic_modulus p.
Proof.
  intros Hp. assert (Hc : p = 2 \/ p = 3 \/ p = 4) by lia.
  destruct Hc as [-> | [-> | ->]].
  - split; [| now left]. change (2 - 1) with 1. unfold smallest_generator.
    change (totient 2) with 1. split; [lia |]. split.
    + split; [lia |]. split; [reflexivity | intros j Hj; lia].
    + intros j Hj. lia.
  - split.
    + change (3 - 1) with 2. unfold smallest_generator. change (totient 3) with 2.
      split; [lia |]. split.
      * split; [lia |]. split; [reflexivity |]. intros j Hj. replace j with 1 by lia. discriminate.
      * intros j Hj. replace j with 1 by lia. intros (_ & _ & Hmin).
        apply (Hmin 1); [lia | reflexivity].
    + right; right. exists 3, 1. split; [apply isprime_spec; reflexivity |].
      split; [lia |]. split; [lia |]. left. reflexivity.
  - split; [| right; now left].
    change (4 - 1) with 3. unfold smallest_generator. change (totient 4) with 2.
    split; [lia |]. split.
    + split; [lia |]. split; [reflexivity |]. intros j Hj. replace j with 1 by lia. discriminate.
    + intros j Hj. assert (Hj12 : j = 1 \/ j = 2) by lia. destruct Hj12 as [-> | ->].
      * intros (_ & _ & Hmin). apply (Hmin 1); [lia | reflexivity].
      * intros (_ & H1 & _). discriminate H1.
Qed.

(** One level of [primitive_root(p)], given the answers at the odd primes. *)
Lemma primitive_root_rec_step (d : nat) (p : Z) :
  2 <= p ->
  (forall p1, Z.prime p1 -> p1 <> 2 ->
              exists g0, primitive_root_rec d p1 true = Ret (Some g0) /\
                         smallest_generator g0 p1 /\ 0 < g0 < p1) ->
  exists r, primitive_root_rec (S d) p true = Ret r /\
            match r with
            | Some g => smallest_generator g p /\ cyclic_modulus p
            | None => (forall a, ~ is_order a p (totient p)) /\ ~ cyclic_modulus p
            end.
Proof.
  intros Hp Hrec. cbn [primitive_root_rec].
  replace (p <? 2) with false by (symmetry; apply Z.ltb_ge; lia).
  destruct (Z.leb_spec p 4) as [H4 | H4].
  { exists (Some (p - 1)). split; [reflexivity |]. apply small_moduli. lia. }
  cbn [negb].
  destruct (factorint_spec p ltac:(lia)) as (Hprod & Hall & Hinc).
  destruct (factorint p) as [| [p1 n] [| [p2 n2] [| e3 rest]]] eqn:Hf.
  - rewrite dict_prod_nil in Hprod. lia.
  - (* a prime power *)
    apply Forall_inv in Hall. destruct Hall as [Hp1 Hn]. cbn [fst snd] in Hp1, Hn.
    pose proof (Z.prime_ge_2 p1 Hp1) as Hp12.
    rewrite dict_prod_cons, dict_prod_nil, Z.mul_1_r in Hprod.
    cbn [length Z.of_nat Pos.of_succ_nat].
    cbn [Z.ltb Z.eqb Z.compare Pos.compare Pos.compare_cont Pos.eqb].
    unfold has_key, keys. cbn [map fst mem existsb]. rewrite orb_false_r.
    destruct (Z.eqb_spec 2 p1) as [E2 | E2].
    + (* a power of 2 beyond 4 *)
      subst p1. replace (p =? 4) with false by (symmetry; apply Z.eqb_neq; lia).
      exists None. split; [reflexivity |].
      assert (Hn3 : 3 <= n).
      { destruct (Z.le_gt_cases 3 n) as [H | H]; [exact H |].
        assert (Hc : n = 1 \/ n = 2) by lia. destruct Hc as [-> | ->]; cbn in Hprod; lia. }
      split.
      * intros a Ha. rewrite <- Hprod in Ha.
        apply (no_generator_pow2 a n Hn3); [| exact Ha].
        apply generator_coprime; [| exact Ha]. rewrite Hprod. lia.
      * intros Hc. destruct (cyclic_factorint p H4 Hc) as (q & k & Hq & Hq2 & Hk & [E | E]);
          rewrite Hf in E; [| discriminate E].
        injection E as E1 E2. congruence.
    + destruct (odd_prime p1 Hp1 ltac:(congruence)) as [Hp13 _].
      assert (Hcyc : cyclic_modulus p).
      { right; right. exists p1, n. split; [exact Hp1 |]. split; [congruence |].
        split; [exact Hn |]. left. now symmetry. }
      destruct (Z.ltb_spec 1 n) as [Hn2 | Hn1].
      * destruct (Hrec p1 Hp1 ltac:(congruence)) as (g0 & Hg0 & Hsm & Hrange).
        rewrite Hg0. cbn [obind].
        destruct (prime_power_root p1 n g0 Hp1 ltac:(congruence) ltac:(lia) Hsm Hrange)
          as (b & Hb & Htrue & Hfalse).
        rewrite Hb. cbn [obind]. rewrite <- Hprod. destruct b.
        -- exists (Some g0). split; [reflexivity |]. split; [now apply Htrue |].
           now rewrite Hprod.
        -- destruct (Hfalse eq_refl) as (g & Hg & Hgsm). rewrite Hg. cbn [obind].
           exists (Some g). split; [reflexivity |]. split; [exact Hgsm |]. now rewrite Hprod.
      * assert (n = 1) by lia. subst n. rewrite Z.pow_1_r in Hprod. subst p1.
        destruct (prime_root_first p Hp1 ltac:(congruence)) as (g & l & Hl & Hsm).
        rewrite Hl. cbn [next obind]. exists (Some g). split; [reflexivity |].
        split; [exact Hsm | exact Hcyc].
  - (* two primes *)
    apply Forall_cons_iff in Hall. destruct Hall as [[Hp1 Hn] Hall].
    apply Forall_inv in Hall. destruct Hall as [Hp2 Hn2]. cbn [fst snd] in Hp1, Hn, Hp2, Hn2.
    pose proof (Z.prime_ge_2 p1 Hp1) as Hp12.
    cbn [keys map fst increasing] in Hinc. destruct Hinc as (_ & Hlt & _).
    rewrite !dict_prod_cons, dict_prod_nil, Z.mul_1_r in Hprod.
    cbn [length Z.of_nat Pos.of_succ_nat Pos.succ].
    cbn [Z.ltb Z.eqb Z.compare Pos.compare Pos.compare_cont Pos.eqb].
    unfold has_key, keys. cbn [map fst mem existsb get]. rewrite orb_false_r.
    replace (2 =? p2) with false by (symmetry; apply Z.eqb_neq; lia).
    rewrite orb_false_r.
    assert (Hev2 : (2 | tot_of [(p2, n2)])) by (apply odd_prime_block_even; auto; lia).
    destruct (Z.eqb_spec 2 p1) as [E2 | E2]; cbn [negb orb].
    + subst p1. destruct (Z.ltb_spec 1 n) as [Hbig | Hone].
      * exists None. split; [reflexivity |]. split.
        -- apply (no_generator_blocks p [(2, n)] [(p2, n2)]); auto; [lia |].
           rewrite tot_of_cons, tot_of_nil. exists (2 ^ (n - 2)).
           replace (n - 1) with (n - 2 + 1) by lia. rewrite Z.pow_add_r by lia. ring.
        -- intros Hc.
           destruct (cyclic_factorint p H4 Hc) as (q & k & Hq & Hq2 & Hk & [E | E]);
             rewrite Hf in E; [discriminate E |].
           injection E as E1 E2 E3. lia.
      * assert (n = 1) by lia. subst n. rewrite Z.pow_1_r in Hprod.
        unfold odd_key, first_or_last, keys. cbn [map fst find Z.eqb Pos.eqb negb].
        replace (p2 =? 2) with false by (symmetry; apply Z.eqb_neq; lia). cbn [negb].
        destruct (double_prime_power_root p2 n2 Hp2 ltac:(lia) Hn2) as (g & Hg & Hsm).
        rewrite Hprod in Hg, Hsm. rewrite Hg. cbn [obind].
        exists (Some g). split; [reflexivity |]. split; [exact Hsm |].
        right; right. exists p2, n2. split; [exact Hp2 |]. split; [lia |].
        split; [exact Hn2 |]. right. now symmetry.
    + exists None. split; [reflexivity |]. split.
      * apply (no_generator_blocks p [(p1, n)] [(p2, n2)]); auto; [lia |].
        apply odd_prime_block_even; auto. lia.
      * intros Hc.
        destruct (cyclic_factorint p H4 Hc) as (q & k & Hq & Hq2 & Hk & [E | E]);
          rewrite Hf in E; [discriminate E |].
        injection E as E1 E3 E4 E5. congruence.
  - (* three primes or more *)
    replace (2 <? Z.of_nat (length ((p1, n) :: (p2, n2) :: e3 :: rest))) with true
      by (symmetry; apply Z.ltb_lt; cbn [length]; lia).
    exists None. split; [reflexivity |].
    apply Forall_cons_iff in Hall. destruct Hall as [[Hp1 Hn] Hall].
    apply Forall_cons_iff in Hall. destruct Hall as [[Hp2 Hn2] Hall].
    cbn [fst snd] in Hp1, Hn, Hp2, Hn2.
    pose proof (Z.prime_ge_2 p1 Hp1) as Hp12.
    cbn [keys map fst increasing] in Hinc. destruct Hinc as (_ & Hlt & Hinc).
    split.
    + apply (no_generator_blocks p [(p1, n); (p2, n2)] (e3 :: rest)); auto; [lia | |].
      * rewrite tot_of_cons. apply Z.divide_mul_r.
        apply odd_prime_block_even; auto. lia.
      * apply tot_of_even; [discriminate | exact Hall |].
        apply (increasing_weaken p2 2); [lia | exact Hinc].
    + intros Hc.
      destruct (cyclic_factorint p H4 Hc) as (q & k & Hq & Hq2 & Hk & [E | E]);
        rewrite Hf in E; discriminate E.
Qed.

(** X17: for [p >= 2], [primitive_root(p)] returns the least primitive
    root of [p] when [p] is 2, 4, a power of an odd prime or twice such a
    power, and [None] otherwise, in which case [p] has no primitive root
    at all; below 2 it raises [ValueError]. *)
Theorem primitive_root_smallest (p : Z) :
  (p < 2 -> primitive_root p true = Raise ValueError) /\
  (2 <= p ->
   exists r, primitive_root p true = Ret r /\
             match r with
             | Some g => smallest_generator g p /\ cyclic_modulus p
             | None => (forall a, ~ is_order a p (totient p)) /\ ~ cyclic_modulus p
             end).
Proof.
  split.
  - intros Hp. unfold primitive_root. cbn [primitive_root_rec].
    replace (p <? 2) with true by (symmetry; apply Z.ltb_lt; lia). reflexivity.
  - intros Hp. unfold primitive_root. apply primitive_root_rec_step; [exact Hp |].
    intros p1 Hp1 Hne. now apply primitive_root_rec_prime.
Qed.

Lemma primitive_root_smallest_witness :
  2 <= 21 /\ primitive_root 19 true = Ret (Some 2) /\ primitive_root 21 true = Ret None /\
  exists r, primitive_root 21 true = Ret r /\
            match r with
            | Some g => smallest_generator g 21 /\ cyclic_modulus 21
            | None => (forall a, ~ is_order a 21 (totient 21)) /\ ~ cyclic_modulus 21
            end.
Proof.
  split; [lia |]. split; [vm_compute; reflexivity |]. split; [vm_compute; reflexivity |].
  apply (proj2 (primitive_root_smallest 21)). lia.
Defined.

(** ** Any primitive root: [smallest=False] *)

Lemma prime_power_iter_nonempty (p e : Z) (l : list Z) :
  Z.prime p -> p <> 2 -> 1 <= e -> _primitive_root_prime_power_iter p e = Ret l -> l <> [].
Proof.
  intros Hp Hne He Hl ->. revert Hl. unfold _primitive_root_prime_power_iter. cbv zeta.
  destruct (prime_iter_generators p Hp Hne) as (g0 & l0 & Hl0 & _ & Hgen).
  destruct (odd_prime p Hp Hne) as [Hp3 _].
  rewrite Hl0. destruct (Z.eqb_spec e 1) as [-> | He1]; [discriminate |].
  cbn [omap]. apply Forall_inv in Hgen. destruct Hgen as [Hg Hord].
  assert (HP2 : 1 < p ^ 2) by (apply pow_gt_1; lia).
  destruct (pow3_inverse g0 (2 - p) (p ^ 2) HP2 ltac:(lia)
              (coprime_prime_pow p g0 2 Hp Hg ltac:(lia))) as (i & Hi & _).
  rewrite Hi. cbn [obind].
  destruct (omap _ l0) as [ls | |]; cbn [obind]; try discriminate.
  intros H. apply ret_eq in H. cbn [concat] in H. apply app_eq_nil in H. destruct H as [H _].
  set (t := (g0 - i) mod p ^ 2) in *.
  assert (Hk : exists k, In k (range3 0 (p ^ 2) p) /\ k <> t).
  { destruct (Z.eq_dec t 0) as [E | E].
    - exists (0 + 1 * p). split; [apply range3_In_rev; try lia; rewrite Z.pow_2_r; nia | lia].
    - exists (0 + 0 * p). split; [apply range3_In_rev; lia | lia]. }
  destruct Hk as (k & Hkin & Hkt).
  assert (Hin : In (g0 + k + (0 + 0 * p ^ 2))
                   (flat_map (fun k => if negb (k =? t)
                                       then map (fun m => g0 + k + m) (range3 0 (p ^ e) (p ^ 2))
                                       else [])
                             (range3 0 (p ^ 2) p))).
  { apply in_flat_map. exists k. split; [exact Hkin |].
    replace (k =? t) with false by (symmetry; apply Z.eqb_neq; exact Hkt).
    apply in_map. apply range3_In_rev; [lia | lia |].
    assert (0 < p ^ e); [apply Z.pow_pos_nonneg; lia | lia]. }
  rewrite H in Hin. destruct Hin.
Qed.

Lemma prime_power_iter_first (p e : Z) :
  Z.prime p -> p <> 2 -> 1 <= e ->
  exists x l, _primitive_root_prime_power_iter p e = Ret (x :: l) /\
              is_order x (p ^ e) (totient (p ^ e)).
Proof.
  intros Hp Hne He.
  destruct (prime_power_iter_generators p e Hp Hne He) as (l & Hl & Hall).
  pose proof (prime_power_iter_nonempty p e l Hp Hne He Hl) as Hnil.
  destruct l as [| x l]; [congruence |].
  exists x, l. split; [exact Hl |]. now apply Forall_inv in Hall.
Qed.

(** The odd one of [g] and [g + q] is a primitive root of [2*q]. *)
Lemma double_lift (q g : Z) :
  1 < q -> q mod 2 = 1 -> is_order g q (totient q) ->
  is_order (if g mod 2 =? 1 then g else g + q) (2 * q) (totient (2 * q)).
Proof.
  intros Hq Hodd Hord. rewrite (totient_double q ltac:(lia) Hodd).
  pose proof (Z.mod_pos_bound g 2 ltac:(lia)) as Hr.
  destruct (Z.eqb_spec (g mod 2) 1) as [Hg1 | Hg1].
  - apply order_double; auto.
  - apply order_double; auto.
    + rewrite Zplus_mod, Hodd. replace (g mod 2) with 0 by lia. reflexivity.
    + apply is_order_shift. exact Hord.
Qed.

(** The base of an odd [q >= 3]: the prime and the exponent when [q] is a
    prime power, nothing when [q] has two prime factors. *)
Lemma odd_part_base (q : Z) :
  3 <= q -> q mod 2 = 1 ->
  match (if isprime q then Some (q, 1)
         else match perfect_power q with
              | None => None
              | Some (q', e) => if isprime q' then Some (q', e) else None
              end) with
  | Some (r, j) => Z.prime r /\ r <> 2 /\ 1 <= j /\ q = r ^ j
  | None => exists e1 e2 rest, factorint q = e1 :: e2 :: rest
  end.
Proof.
  intros Hq Hodd.
  destruct (factorint_spec q ltac:(lia)) as (Hprod & Hall & Hinc).
  pose proof (factorint_odd q ltac:(lia) Hodd) as Hinc2.
  destruct (factorint q) as [| [r j] [| e2 rest]] eqn:Hf.
  - rewrite dict_prod_nil in Hprod. lia.
  - apply Forall_inv in Hall. destruct Hall as [Hr Hj]. cbn in Hr, Hj.
    pose proof (Z.prime_ge_2 r Hr).
    rewrite dict_prod_cons, dict_prod_nil, Z.mul_1_r in Hprod.
    assert (Hr2 : r <> 2) by (destruct Hinc2 as [H2 _]; cbn in H2; lia).
    destruct (Z.eq_dec j 1) as [-> | Hj1].
    + rewrite Z.pow_1_r in Hprod. subst r.
      rewrite (proj2 (isprime_spec q) Hr).
      split; [exact Hr |]. split; [exact Hr2 |]. split; [lia |]. now rewrite Z.pow_1_r.
    + assert (Hqc : isprime q = false).
      { apply (isprime_false_of_divisor q r).
        - pose proof (prime_power_ge r (j - 1) ltac:(lia) ltac:(lia)).
          replace j with (1 + (j - 1)) in Hprod by lia.
          rewrite Z.pow_add_r, Z.pow_1_r in Hprod by lia. nia.
        - rewrite <- Hprod. apply Z.divide_pow_same_r. lia. }
      rewrite Hqc. rewrite <- Hprod, perfect_power_prime_power by (auto; lia).
      rewrite (proj2 (isprime_spec r) Hr).
      split; [exact Hr |]. split; [exact Hr2 |]. split; [lia | reflexivity].
  - apply Forall_cons_iff in Hall. destruct Hall as [[Hr Hj] Hall]. cbn in Hr, Hj.
    pose proof (Z.prime_ge_2 r Hr).
    assert (Htail : 2 <= dict_prod (e2 :: rest)).
    { destruct e2 as [r2 j2]. apply Forall_cons_iff in Hall.
      destruct Hall as [[Hr2 Hj2] Hall]. cbn in Hr2, Hj2.
      pose proof (Z.prime_ge_2 r2 Hr2). pose proof (dict_prod_pos rest Hall).
      pose proof (prime_power_ge r2 j2 ltac:(lia) Hj2). rewrite dict_prod_cons. nia. }
    assert (Hqc : isprime q = false).
    { apply (isprime_false_of_divisor q r).
      - pose proof (prime_power_ge r j ltac:(lia) Hj).
        rewrite dict_prod_cons in Hprod. nia.
      - now apply (head_key_divides r j (e2 :: rest)). }
    rewrite Hqc.
    pose proof (perfect_power_two_primes q (r, j) e2 rest ltac:(lia) Hf) as Hpp.
    destruct (perfect_power q) as [[b g] |].
    + cbn in Hpp. rewrite Hpp. now exists (r, j), e2, rest.
    + now exists (r, j), e2, rest.
Qed.

Lemma no_generator_two_odd_primes (p q : Z) (e1 e2 : Z * Z) (rest : dict) :
  3 <= q -> q mod 2 = 1 -> (p = q \/ p = 2 * q) -> factorint q = e1 :: e2 :: rest ->
  (forall a, ~ is_order a p (totient p)) /\ ~ cyclic_modulus p.
Proof.
  intros Hq Hodd Hpq Hf.
  destruct (factorint_spec q ltac:(lia)) as (Hprod & Hall & Hinc).
  pose proof (factorint_odd q ltac:(lia) Hodd) as Hinc2.
  assert (Hfp : factorint p = factorint q \/ factorint p = (2, 1) :: factorint q).
  { destruct Hpq as [-> | ->]; [now left | right]. apply factorint_double; lia. }
  rewrite Hf in Hall, Hinc2, Hfp.
  destruct e1 as [r j]. 
  apply Forall_cons_iff in Hall. destruct Hall as [[Hr Hj] Hall]. cbn in Hr, Hj.
  destruct Hinc2 as [Hr2 Hinc2]. cbn in Hr2.
  assert (Heven2 : (2 | tot_of (e2 :: rest))).
  { apply tot_of_even; [discriminate | exact Hall |].
    apply (increasing_weaken r 2); [lia | exact Hinc2]. }
  assert (Heven1 : (2 | tot_of [(r, j)])) by (apply odd_prime_block_even; auto).
  assert (Hp : 1 < p) by (destruct Hpq; lia).
  split.
  - destruct Hfp as [Hfp | Hfp].
    + apply (no_generator_blocks p [(r, j)] (e2 :: rest)); auto.
    + apply (no_generator_blocks p [(2, 1); (r, j)] (e2 :: rest)); auto.
      rewrite tot_of_cons. change (2 ^ (1 - 1) * (2 - 1)) with 1. now rewrite Z.mul_1_l.
  - intros Hc.
    assert (H4 : 4 < p).
    { destruct Hpq as [-> | ->]; [| lia].
      destruct (Z.eq_dec q 3) as [-> | H3]; [| destruct (Z.eq_dec q 4) as [-> | H4']; [| lia]].
      - cbn in Hf. discriminate Hf.
      - discriminate Hodd. }
    destruct (cyclic_factorint p H4 Hc) as (q0 & k & Hq0 & Hq2 & Hk & [E | E]);
      destruct Hfp as [Hfp | Hfp]; rewrite Hfp in E; try discriminate E.
    injection E as E1 E2 E3. lia.
Qed.

(** X18: for [p >= 2], [primitive_root(p, smallest=False)] returns a
    primitive root of [p] when [p] is 2, 4, a power of an odd prime or
    twice such a power, and [None] otherwise, in which case [p] has no
    primitive root at all. *)
Theorem primitive_root_any (p : Z) :
  2 <= p ->
  exists r, primitive_root p false = Ret r /\
            match r with
            | Some g => is_order g p (totient p) /\ cyclic_modulus p
            | None => (forall a, ~ is_order a p (totient p)) /\ ~ cyclic_modulus p
            end.
Proof.
  intros Hp. unfold primitive_root. cbn [primitive_root_rec negb].
  replace (p <? 2) with false by (symmetry; apply Z.ltb_ge; lia).
  destruct (Z.leb_spec p 4) as [H4 | H4].
  { exists (Some (p - 1)). split; [reflexivity |].
    destruct (small_moduli p ltac:(lia)) as [(_ & Hord & _) Hc]. split; assumption. }
  cbv zeta.
  assert (Hcases : forall q, 3 <= q -> q mod 2 = 1 -> (p = q \/ p = 2 * q) ->
            exists r,
              match (if isprime q then Some (q, 1)
                     else match perfect_power q with
                          | None => None
                          | Some (q', e) => if isprime q' then Some (q', e) else None
                          end) with
              | Some (q0, e) =>
                  if p mod 2 =? 0
                  then l <- _primitive_root_prime_power2_iter q0 e ;; g <- next l ;; Ret (Some g)
                  else l <- _primitive_root_prime_power_iter q0 e ;; g <- next l ;; Ret (Some g)
              | None => Ret None
              end = Ret r /\
              match r with
              | Some g => is_order g p (totient p) /\ cyclic_modulus p
              | None => (forall a, ~ is_order a p (totient p)) /\ ~ cyclic_modulus p
              end).
  { intros q Hq Hodd Hpq. pose proof (odd_part_base q Hq Hodd) as Hbase.
    destruct (if isprime q then Some (q, 1) else _) as [[r j] |].
    - destruct Hbase as (Hr & Hr2 & Hj & Hqr).
      destruct (prime_power_iter_first r j Hr Hr2 Hj) as (x & l & Hl & Hx).
      assert (Hcyc : cyclic_modulus p).
      { right; right. exists r, j. split; [exact Hr |]. split; [exact Hr2 |].
        split; [exact Hj |]. destruct Hpq as [-> | ->]; [left | right]; now rewrite Hqr. }
      destruct Hpq as [Hpq | Hpq].
      + replace (p mod 2 =? 0) with false by (symmetry; apply Z.eqb_neq; rewrite Hpq; lia).
        rewrite Hl. cbn [obind next]. exists (Some x). split; [reflexivity |].
        split; [| exact Hcyc]. rewrite Hpq, Hqr. exact Hx.
      + replace (p mod 2 =? 0) with true.
        2:{ symmetry. apply Z.eqb_eq. rewrite Hpq, Z.mul_comm. apply Z_mod_mult. }
        unfold _primitive_root_prime_power2_iter. rewrite Hl. cbn [obind map next].
        eexists. split; [reflexivity |]. split; [| exact Hcyc].
        rewrite Hpq, Hqr. apply double_lift; rewrite <- Hqr; [lia | exact Hodd |].
        rewrite Hqr. exact Hx.
    - destruct Hbase as (e1 & e2 & rest & Hf). exists None. split; [reflexivity |].
      exact (no_generator_two_odd_primes p q e1 e2 rest Hq Hodd Hpq Hf). }
  destruct (Z.eqb_spec (p mod 2) 0) as [Hev | Hodd]; cbn [negb].
  - destruct (Z.eqb_spec (p mod 4) 0) as [H0 | H2]; cbn [negb].
    + exists None. split; [reflexivity |].
      destruct (factorint_mult4 p ltac:(lia) H0) as (e & rest & Hf & He & Hinc & Hall & Hpe).
      split.
      * intros a Hord. pose proof (generator_coprime a p ltac:(lia) Hord) as Hg.
        destruct rest as [| x rest].
        -- rewrite dict_prod_nil, Z.mul_1_r in Hpe. subst p.
           assert (3 <= e).
           { destruct (Z.eq_dec e 2) as [-> | Hne]; [| lia]. cbn in H4. lia. }
           now apply (no_generator_pow2 a e).
        -- apply (no_generator_split a p [(2, e)] (x :: rest)); auto; [lia | |].
           ++ rewrite tot_of_cons, tot_of_nil. exists (2 ^ (e - 2)).
              replace (e - 1) with (e - 2 + 1) by lia.
              rewrite Z.pow_add_r by lia. ring.
           ++ apply tot_of_even; [discriminate | exact Hall | exact Hinc].
      * intros Hc.
        destruct (cyclic_factorint p H4 Hc) as (q0 & k & Hq0 & Hq2 & Hk & [E | E]);
          rewrite Hf in E.
        -- injection E as E1 E2. congruence.
        -- injection E as E1 E2. lia.
    + destruct (factorint_half p ltac:(lia) Hev H2) as [Hhodd _].
      pose proof (Z_div_mod_eq_full p 2) as Hdm.
      replace (p mod 2 =? 0) with true in Hcases by (symmetry; apply Z.eqb_eq; exact Hev).
      apply (Hcases (p / 2)); [lia | exact Hhodd | right; lia].
  - pose proof (Z.mod_pos_bound p 2 ltac:(lia)).
    replace (p mod 2 =? 0) with false in Hcases by (symmetry; apply Z.eqb_neq; exact Hodd).
    apply (Hcases p); [lia | lia | now left].
Qed.

Lemma primitive_root_any_witness :
  2 <= 50 /\ primitive_root 50 false = Ret (Some 27) /\
  exists r, primitive_root 50 false = Ret r /\
            match r with
            | Some g => is_order g 50 (totient 50) /\ cyclic_modulus 50
            | None => (forall a, ~ is_order a 50 (totient 50)) /\ ~ cyclic_modulus 50
            end.
Proof.
  split; [lia |]. split; [vm_compute; reflexivity |].
  apply (primitive_root_any 50). lia.
Defined.

(** ** All the square roots modulo a prime power *)

(** Modulo a power of an odd prime a unit has at most two square roots. *)
Lemma two_roots_odd (p k x r : Z) :
  Z.prime p -> p <> 2 -> 0 <= k -> ~ (p | r) -> (p ^ k | x * x - r * r) ->
  (p ^ k | x - r) \/ (p ^ k | x + r).
Proof.
  intros Hp Hne Hk Hr Hd. destruct (odd_prime p Hp Hne) as [Hp3 _].
  replace (x * x - r * r) with ((x - r) * (x + r)) in Hd by ring.
  destruct (Z.eq_dec ((x + r) mod p) 0) as [E | E].
  - right. apply (Z.gauss (p ^ k) (x - r) (x + r)); [exact Hd |].
    apply Z.coprime_pow_l; [exact Hk |]. apply Z.coprime_prime_l; [exact Hp |].
    intros Hm. apply Hr.
    apply Z.mod_divide in E; [| lia].
    assert (H2r : (p | 2 * r)).
    { replace (2 * r) with ((x + r) - (x - r)) by ring. now apply Z.divide_sub_r. }
    apply Z.gauss in H2r; [exact H2r |].
    apply Z.coprime_prime_l; [exact Hp |]. intros H2. apply Z.divide_pos_le in H2; lia.
  - left. apply (Z.gauss (p ^ k) (x + r) (x - r)); [rewrite Z.mul_comm; exact Hd |].
    apply Z.coprime_pow_l; [exact Hk |]. apply Z.coprime_prime_l; [exact Hp |].
    intros Hm. apply E. apply Z.mod_divide; [lia | exact Hm].
Qed.

(** Modulo [2**k] two odd numbers with the same square agree up to sign
    modulo [2**(k - 1)]. *)
Lemma four_roots_pow2 (k x r : Z) :
  3 <= k -> x mod 2 = 1 -> r mod 2 = 1 -> (2 ^ k | x * x - r * r) ->
  (2 ^ (k - 1) | x - r) \/ (2 ^ (k - 1) | x + r).
Proof.
  intros Hk Hx Hr Hd.
  pose proof (Z_div_mod_eq_full x 2) as Ex. pose proof (Z_div_mod_eq_full r 2) as Er.
  set (u := x / 2 - r / 2). set (v := x / 2 + r / 2 + 1).
  assert (Eu : x - r = 2 * u) by (unfold u; lia).
  assert (Ev : x + r = 2 * v) by (unfold v; lia).
  assert (Huv : (2 ^ (k - 2) | u * v)).
  { destruct Hd as [c Hc]. exists c.
    assert (E4 : x * x - r * r = 4 * (u * v)).
    { replace (x * x - r * r) with ((x - r) * (x + r)) by ring. rewrite Eu, Ev. ring. }
    rewrite E4 in Hc.
    replace (2 ^ k) with (4 * 2 ^ (k - 2)) in Hc.
    2:{ change 4 with (2 ^ 2). rewrite <- Z.pow_add_r by lia. f_equal. lia. }
    lia. }
  assert (Hsplit : 2 ^ (k - 1) = 2 * 2 ^ (k - 2)).
  { rewrite <- (Z.pow_1_r 2) at 2. rewrite <- Z.pow_add_r by lia. f_equal. lia. }
  assert (Hpar : u mod 2 = 1 \/ v mod 2 = 1).
  { assert (Hs : (u + v) mod 2 = 1).
    { replace (u + v) with (x + (r / 2 - r / 2) * 2) by (unfold u, v; lia).
      rewrite Z_mod_plus_full. exact Hx. }
    pose proof (Z.mod_pos_bound u 2 ltac:(lia)). pose proof (Z.mod_pos_bound v 2 ltac:(lia)).
    rewrite Zplus_mod in Hs.
    destruct (Z.eq_dec (u mod 2) 1) as [E | E]; [now left | right].
    replace (u mod 2) with 0 in Hs by lia. rewrite Z.add_0_l, Zmod_mod in Hs. exact Hs. }
  assert (Hodd_cop : forall w, w mod 2 = 1 -> Z.gcd (2 ^ (k - 2)) w = 1).
  { intros w Hw. apply Z.coprime_pow_l; [lia |].
    apply Z.coprime_prime_l; [exact Z.prime_2 |]. intros H2.
    apply Z.mod_divide in H2; lia. }
  destruct Hpar as [Hu | Hv].
  - right. rewrite Ev, Hsplit. apply Z.mul_divide_mono_l.
    apply (Z.gauss _ u); [exact Huv | now apply Hodd_cop].
  - left. rewrite Eu, Hsplit. apply Z.mul_divide_mono_l.
    apply (Z.gauss _ v); [now rewrite Z.mul_comm | now apply Hodd_cop].
Qed.

Lemma newton_step_range (a res px res' : Z) :
  0 < px -> newton_step a res px = Ret res' -> 0 <= res' < px.
Proof.
  intros Hpx H. unfold newton_step in H.
  destruct (invert (2 * res) px) as [i | |]; cbn [obind] in H; try discriminate.
  apply ret_eq in H. subst res'. apply Z.mod_pos_bound. exact Hpx.
Qed.

Lemma newton_loop_range (rounds : nat) :
  forall a res px res' px',
  0 < px -> 0 <= res < px ->
  newton_loop rounds a res px = Ret (res', px') -> 0 <= res' < px'.
Proof.
  induction rounds as [| r IH]; intros a res px res' px' Hpx Hres H; cbn [newton_loop] in H.
  - apply ret_eq in H. injection H as <- <-. exact Hres.
  - cbv zeta in H.
    destruct (newton_step a res (px ^ 2)) as [res1 | |] eqn:Hs; cbn [obind] in H;
      try discriminate.
    assert (Hpx2 : 0 < px ^ 2) by (apply Z.pow_pos_nonneg; lia).
    apply (IH a res1 (px ^ 2) res' px' Hpx2); [| exact H].
    now apply (newton_step_range a res (px ^ 2)).
Qed.

Lemma newton_loop_modulus (rounds : nat) :
  forall a res px res' px',
  0 < px -> newton_loop rounds a res px = Ret (res', px') -> px' = px ^ 2 ^ Z.of_nat rounds.
Proof.
  induction rounds as [| n IH]; intros a res px res' px' Hpx H; cbn [newton_loop] in H.
  - apply ret_eq in H. injection H as _ <-.
    change (Z.of_nat 0) with 0. now rewrite Z.pow_0_r, Z.pow_1_r.
  - cbv zeta in H.
    destruct (newton_step a res (px ^ 2)) as [res1 | |]; cbn [obind] in H; try discriminate.
    assert (Hpx2 : 0 < px ^ 2) by (apply Z.pow_pos_nonneg; lia).
    rewrite (IH a res1 (px ^ 2) res' px' Hpx2 H).
    rewrite <- Z.pow_mul_r by (try lia; apply Z.pow_nonneg; lia).
    f_equal. rewrite Nat2Z.inj_succ, Z.pow_succ_r by lia. reflexivity.
Qed.

(** For an odd prime the answer is a root in range and its opposite. *)
Lemma prime_power_shape_odd (a p k : Z) (g g' : RNG) (l : list Z) :
  Z.prime p -> p <> 2 -> 1 <= k ->
  _sqrt_mod_prime_power a p k g = Ret (Some l, g') ->
  exists res, l = sorted [res; p ^ k - res] /\ 0 <= res < p ^ k.
Proof.
  intros Hp Hne Hk. pose proof (Z.prime_ge_2 p Hp) as Hp2.
  assert (Hpk : 0 < p ^ k) by (apply Z.pow_pos_nonneg; lia).
  unfold _sqrt_mod_prime_power. cbv zeta. set (a0 := a mod p ^ k).
  replace (p =? 2) with false by (symmetry; apply Z.eqb_neq; exact Hne).
  destruct (negb (jacobi a0 p =? 1)); [discriminate |].
  unfold rbind at 1.
  match goal with |- context [match ?c g with _ => _ end] =>
    destruct (c g) as [[res g1] | |] eqn:Hbase end; try discriminate.
  assert (Hres : 0 <= res < p).
  { destruct (p mod 4 =? 3).
    - unfold rret in Hbase. apply ret_pair_inv in Hbase. destruct Hbase as [<- _].
      apply powmod_range. lia.
    - destruct (p mod 8 =? 5).
      + destruct (negb _); unfold rret in Hbase; apply ret_pair_inv in Hbase;
          destruct Hbase as [<- _]; [apply Z.mod_pos_bound; lia | apply powmod_range; lia].
      + apply (tonelli_shanks_range a0 p g g1); [lia | exact Hbase]. }
  unfold rbind at 1.
  match goal with |- context [match ?c g1 with _ => _ end] =>
    destruct (c g1) as [[res2 g2] | |] eqn:Hlift end; try discriminate.
  unfold rret. intros H. apply ret_pair_inv in H. destruct H as [H _].
  apply some_inv in H. exists res2. split; [now symmetry |].
  destruct (Z.ltb_spec 1 k) as [Hk1 | Hk1].
  - unfold lift, obind in Hlift.
    destruct (newton_loop _ a0 res p) as [[r1 px] | |] eqn:Hloop; try discriminate.
    cbn [fst] in Hlift.
    destruct (negb (Z.land k (k - 1) =? 0)) eqn:Hland.
    + destruct (newton_step a0 r1 (p ^ k)) as [r2 | |] eqn:Hstep; try discriminate.
      apply ret_pair_inv in Hlift. destruct Hlift as [<- _].
      now apply (newton_step_range a0 r1).
    + apply ret_pair_inv in Hlift. destruct Hlift as [<- _].
      apply negb_false_iff, Z.eqb_eq in Hland.
      pose proof (newton_loop_range _ a0 res p r1 px ltac:(lia) Hres Hloop) as Hr1.
      pose proof (newton_loop_modulus _ a0 res p r1 px ltac:(lia) Hloop) as Epx'.
      assert (Hbl : Z.of_nat (Z.to_nat (bit_length k - 1)) = Z.log2 k).
      { unfold bit_length. replace (k =? 0) with false by (symmetry; apply Z.eqb_neq; lia).
        rewrite Z.abs_eq by lia. pose proof (Z.log2_nonneg k). lia. }
      rewrite Hbl in Epx'.
      rewrite (land_pred_zero k ltac:(lia) Hland). rewrite <- Epx'. exact Hr1.
  - unfold rret in Hlift. apply ret_pair_inv in Hlift. destruct Hlift as [<- _].
    replace k with 1 by lia. now rewrite Z.pow_1_r.
Qed.

Lemma pow2_root_range (a' k : Z) :
  3 < k ->
  1 <= fold_left
         (fun r nx => if Z.shiftr (r ^ 2 - a') nx mod 2 =? 1
                      then r + Z.shiftl 1 (nx - 1) else r)
         (range2 3 k) 1 < 2 ^ (k - 1).
Proof.
  intros Hk.
  apply (fold_range2_inv (fun nx r => 1 <= r < 2 ^ (nx - 1)) _ k (Z.to_nat (k - 3)) 3 1);
    [lia | cbn; lia |].
  intros i x Hi Hx. rewrite Z.shiftl_1_l.
  replace (i + 1 - 1) with (i - 1 + 1) by lia. rewrite Z.pow_add_r, Z.pow_1_r by lia.
  assert (0 < 2 ^ (i - 1)) by (apply Z.pow_pos_nonneg; lia).
  destruct (_ =? 1); lia.
Qed.

Lemma unit_root (p k a x : Z) :
  Z.prime p -> 1 <= k -> a mod p <> 0 -> (x * x) mod p ^ k = a mod p ^ k -> ~ (p | x).
Proof.
  intros Hp Hk Ha Hx Hd. pose proof (Z.prime_ge_2 p Hp).
  assert (Hpk : 0 < p ^ k) by (apply Z.pow_pos_nonneg; lia).
  apply Ha. apply (cong_iff_divide (p ^ k) _ _ Hpk) in Hx.
  apply Z.mod_divide; [lia |].
  replace a with (x * x - (x * x - a)) by ring. apply Z.divide_sub_r.
  - now apply Z.divide_mul_l.
  - apply (Z.divide_trans _ (p ^ k)); [| exact Hx]. apply Z.divide_pow_same_r. lia.
Qed.

Lemma prime_power_all_roots (a p k : Z) (g g' : RNG) (l : list Z) :
  Z.prime p -> 1 <= k -> a mod p <> 0 ->
  _sqrt_mod_prime_power a p k g = Ret (Some l, g') ->
  forall x, In x l <-> 0 <= x < p ^ k /\ (x * x) mod p ^ k = a mod p ^ k.
Proof.
  intros Hp Hk Ha H. pose proof (Z.prime_ge_2 p Hp) as Hp2.
  assert (Hpk : 0 < p ^ k) by (apply Z.pow_pos_nonneg; lia).
  pose proof (sqrt_mod_prime_power_sound a p k g g' l Hp Hk H) as Hsound.
  destruct (Z.eq_dec p 2) as [E2 | Hne].
  - (* powers of 2 *)
    subst p. assert (Hodd : a mod 2 = 1).
    { pose proof (Z.mod_pos_bound a 2 ltac:(lia)). lia. }
    assert (Hx_odd : forall x, (x * x) mod 2 ^ k = a mod 2 ^ k -> x mod 2 = 1).
    { intros x Hx. apply (odd_of_root a x (2 ^ k)); auto.
      apply Z.divide_pow_same_r. lia. }
    pose proof H as Hshape. unfold _sqrt_mod_prime_power in Hshape. cbv zeta in Hshape.
    set (a0 := a mod 2 ^ k) in *. cbn [Z.eqb Pos.eqb] in Hshape.
    destruct (negb (a0 mod 8 =? 1)); [discriminate |].
    destruct (Z.leb_spec k 3) as [Hk3 | Hk3]; unfold rret in Hshape;
      apply ret_pair_inv in Hshape; destruct Hshape as [Hshape _];
      apply some_inv in Hshape.
    + intros x. split.
      * intros Hin. split; [| now apply Hsound].
        rewrite <- Hshape in Hin. apply range3_In in Hin; [| lia].
        destruct Hin as (i & Hi & -> & Hlt). lia.
      * intros [Hr Hx]. rewrite <- Hshape. pose proof (Hx_odd x Hx) as Hx1.
        pose proof (Z_div_mod_eq_full x 2) as Ex.
        replace x with (1 + x / 2 * 2) by lia. apply range3_In_rev; lia.
    + set (r := fold_left _ (range2 3 k) 1) in *.
      pose proof (pow2_root_range a0 k Hk3) as Hr. fold r in Hr.
      set (h := Z.shiftl 1 (k - 1)) in *.
      assert (Eh : h = 2 ^ (k - 1)) by (unfold h; apply Z.shiftl_1_l).
      assert (Epk : 2 ^ k = 2 * h).
      { rewrite Eh. rewrite <- (Z.pow_1_r 2) at 2. rewrite <- Z.pow_add_r by lia.
        f_equal. lia. }
      assert (Hrroot : (r * r) mod 2 ^ k = a mod 2 ^ k).
      { apply Hsound. rewrite <- Hshape. apply sorted_In. now left. }
      assert (E3 : (r + h) mod 2 ^ k = r + h) by (apply Z.mod_small; lia).
      assert (E4 : (- (r + h)) mod 2 ^ k = h - r).
      { replace (- (r + h)) with (h - r + (-1) * 2 ^ k) by lia.
        rewrite Z_mod_plus_full. apply Z.mod_small. lia. }
      intros x. split.
      * intros Hin. split; [| now apply Hsound].
        rewrite <- Hshape in Hin. apply (proj1 (sorted_In _ _)) in Hin.
        rewrite E3, E4 in Hin.
        destruct Hin as [<- | [<- | [<- | [<- | []]]]]; lia.
      * intros [Hxr Hx]. rewrite <- Hshape. apply sorted_In. rewrite E3, E4.
        assert (Hd : (2 ^ k | x * x - r * r)).
        { apply (cong_iff_divide _ _ _ Hpk). now rewrite Hx, Hrroot. }
        destruct (four_roots_pow2 k x r ltac:(lia) (Hx_odd x Hx) (Hx_odd r Hrroot) Hd)
          as [[c Hc] | [c Hc]]; rewrite <- Eh in Hc.
        -- assert (Hc01 : c = 0 \/ c = 1) by nia.
           destruct Hc01 as [-> | ->]; [left; lia | right; right; left; lia].
        -- assert (Hc12 : c = 1 \/ c = 2) by nia.
           destruct Hc12 as [-> | ->]; [right; right; right; left; lia | right; left; lia].
  - (* powers of an odd prime *)
    destruct (prime_power_shape_odd a p k g g' l Hp Hne Hk H) as (res & Hl & Hres).
    assert (Hrroot : (res * res) mod p ^ k = a mod p ^ k).
    { apply Hsound. rewrite Hl. apply sorted_In. now left. }
    pose proof (unit_root p k a res Hp Hk Ha Hrroot) as Hunit.
    assert (Hres0 : res <> 0) by (intros ->; apply Hunit; apply Z.divide_0_r).
    intros x. split.
    + intros Hin. split; [| now apply Hsound].
      rewrite Hl in Hin. apply (proj1 (sorted_In _ _)) in Hin.
      destruct Hin as [<- | [<- | []]]; lia.
    + intros [Hxr Hx]. rewrite Hl. apply sorted_In.
      assert (Hd : (p ^ k | x * x - res * res)).
      { apply (cong_iff_divide _ _ _ Hpk). now rewrite Hx, Hrroot. }
      destruct (two_roots_odd p k x res Hp Hne ltac:(lia) Hunit Hd) as [[c Hc] | [c Hc]].
      * left. assert (c = 0) by nia. lia.
      * right; left. assert (c = 1) by nia. lia.
Qed.

(** X19: for a prime [p], [k >= 1] and [a] not divisible by [p], the list
    [_sqrt_mod_prime_power(a, p, k)] returns holds every square root of [a]
    modulo [p**k] and nothing else. *)
Theorem sqrt_mod_prime_power_complete (a p k : Z) (g g' : RNG) (l : list Z) :
  Z.prime p -> 1 <= k -> a mod p <> 0 ->
  _sqrt_mod_prime_power a p k g = Ret (Some l, g') ->
  forall x, In x l <-> 0 <= x < p ^ k /\ (x * x) mod p ^ k = a mod p ^ k.
Proof. exact (prime_power_all_roots a p k g g' l). Qed.

Lemma sqrt_mod_prime_power_complete_witness :
  _sqrt_mod_prime_power 17 2 5 [] = Ret (Some [7; 9; 23; 25], []) /\
  forall x, In x [7; 9; 23; 25] <-> 0 <= x < 2 ^ 5 /\ (x * x) mod 2 ^ 5 = 17 mod 2 ^ 5.
Proof.
  split; [reflexivity |].
  apply (sqrt_mod_prime_power_complete 17 2 5 [] []);
    [apply isprime_spec; reflexivity | lia | discriminate | reflexivity].
Defined.

(** ** All the square roots modulo any modulus *)

Lemma prime_not_divide_square (p z : Z) : Z.prime p -> ~ (p | z) -> ~ (p | z * z).
Proof.
  intros Hp Hz Hd. apply Z.gauss in Hd; [contradiction |].
  now apply Z.coprime_prime_l.
Qed.

(** A root of [p**r * q] modulo [p**n], [r < n] and [q] a unit, is
    [p**(r/2)] times a root of [q] modulo [p**(n - r)]. *)
Lemma root_decompose (p n r q x : Z) :
  Z.prime p -> 0 <= r < n -> ~ (p | q) -> 0 <= x ->
  (p ^ n | x * x - p ^ r * q) ->
  exists m z, r = 2 * m /\ 0 <= m /\ 0 <= z /\ x = p ^ m * z /\ (p ^ (n - r) | z * z - q).
Proof.
  intros Hp Hr Hq Hx0 Hd. pose proof (Z.prime_ge_2 p Hp) as Hp2.
  assert (Hpr : 0 < p ^ r) by (apply Z.pow_pos_nonneg; lia).
  assert (Hsplit : p ^ n = p ^ r * p ^ (n - r)).
  { rewrite <- Z.pow_add_r by lia. f_equal. lia. }
  assert (Hp1 : (p | p ^ (n - r))) by (apply Z.divide_pow_same_r; lia).
  destruct (Z.eq_dec x 0) as [-> | Hx].
  { exfalso. apply Hq. apply (Z.divide_trans _ (p ^ (n - r))); [exact Hp1 |].
    apply (Z.mul_divide_cancel_l _ _ (p ^ r)); [lia |]. rewrite <- Hsplit.
    replace (p ^ r * q) with (- (0 * 0 - p ^ r * q)) by ring.
    now apply Z.divide_opp_r. }
  pose proof (multiplicity_spec p x Hp2 ltac:(lia)) as Hm. cbv zeta in Hm.
  destruct Hm as (He0 & Hfac & Hnd).
  set (e := multiplicity p x) in *. set (z := x / p ^ e) in *.
  assert (Hpe : 0 < p ^ e) by (apply Z.pow_pos_nonneg; lia).
  assert (Hz : ~ (p | z)).
  { intros H. apply Hnd. apply Z.mod_divide; [lia | exact H]. }
  assert (Hz0 : 0 <= z) by nia.
  assert (Hxx : x * x = p ^ (2 * e) * (z * z)).
  { rewrite Hfac at 1 2. replace (2 * e) with (e + e) by lia.
    rewrite Z.pow_add_r by lia. ring. }
  rewrite Hxx in Hd.
  destruct (Z.lt_trichotomy (2 * e) r) as [Hlt | [Heq | Hgt]].
  - exfalso. apply (prime_not_divide_square p z Hp Hz).
    assert (Hpp : p ^ r = p ^ (2 * e) * p ^ (r - 2 * e)).
    { rewrite <- Z.pow_add_r by lia. f_equal. lia. }
    assert (Hd1 : (p ^ (2 * e) * p | p ^ (2 * e) * (z * z - p ^ (r - 2 * e) * q))).
    { apply (Z.divide_trans _ (p ^ n)).
      - replace (p ^ (2 * e) * p) with (p ^ (2 * e + 1))
          by (rewrite Z.pow_add_r, Z.pow_1_r by lia; reflexivity).
        apply pow_le_divide. lia.
      - replace (p ^ (2 * e) * (z * z - p ^ (r - 2 * e) * q))
          with (p ^ (2 * e) * (z * z) - p ^ r * q) by (rewrite Hpp; ring).
        exact Hd. }
    apply Z.mul_divide_cancel_l in Hd1; [| apply Z.pow_nonzero; lia].
    replace (z * z) with (z * z - p ^ (r - 2 * e) * q + p ^ (r - 2 * e) * q) by ring.
    apply Z.divide_add_r; [exact Hd1 |]. apply Z.divide_mul_l.
    apply Z.divide_pow_same_r. lia.
  - exists e, z. split; [lia |]. split; [exact He0 |]. split; [exact Hz0 |].
    split; [exact Hfac |].
    apply (Z.mul_divide_cancel_l _ _ (p ^ r)); [lia |]. rewrite <- Hsplit.
    replace (p ^ r * (z * z - q)) with (p ^ (2 * e) * (z * z) - p ^ r * q)
      by (rewrite Heq; ring).
    exact Hd.
  - exfalso. apply Hq.
    assert (Hpp : p ^ (2 * e) = p ^ r * p ^ (2 * e - r)).
    { rewrite <- Z.pow_add_r by lia. f_equal. lia. }
    assert (Hd1 : (p ^ r * p | p ^ r * (p ^ (2 * e - r) * (z * z) - q))).
    { apply (Z.divide_trans _ (p ^ n)).
      - replace (p ^ r * p) with (p ^ (r + 1))
          by (rewrite Z.pow_add_r, Z.pow_1_r by lia; reflexivity).
        apply pow_le_divide. lia.
      - replace (p ^ r * (p ^ (2 * e - r) * (z * z) - q))
          with (p ^ (2 * e) * (z * z) - p ^ r * q) by (rewrite Hpp; ring).
        exact Hd. }
    apply Z.mul_divide_cancel_l in Hd1; [| lia].
    replace q with (p ^ (2 * e - r) * (z * z) - (p ^ (2 * e - r) * (z * z) - q)) by ring.
    apply Z.divide_sub_r; [| exact Hd1]. apply Z.divide_mul_l.
    apply Z.divide_pow_same_r. lia.
Qed.

(** The roots of a multiple of [p]: none is left out. *)
Lemma sqrt_mod1_complete (a p n : Z) (g g' : RNG) (rs : rootseq) :
  Z.prime p -> 1 <= n ->
  _sqrt_mod1 a p n g = Ret (rs, g') ->
  forall x, 0 <= x < p ^ n -> (x * x) mod p ^ n = a mod p ^ n -> In x (items rs).
Proof.
  intros Hp Hn. pose proof (Z.prime_ge_2 p Hp) as Hp2.
  assert (Hpn : 0 < p ^ n) by (apply Z.pow_pos_nonneg; lia).
  unfold _sqrt_mod1. set (a0 := a mod p ^ n).
  assert (Hbound : 0 <= a0 < p ^ n) by (apply Z.mod_pos_bound; lia).
  destruct (Z.eqb_spec a0 0) as [E0 | E0].
  - unfold rret. intros H. apply ret_pair_inv in H. destruct H as [<- _]. cbn [items].
    intros x Hx Hroot. rewrite E0 in Hroot.
    set (c := (n + 1) / 2).
    assert (Hc : 0 <= c /\ n <= 2 * c <= n + 1).
    { unfold c. pose proof (Z_div_mod_eq_full (n + 1) 2).
      pose proof (Z.mod_pos_bound (n + 1) 2 ltac:(lia)). lia. }
    assert (Hst : 0 < p ^ c) by (apply Z.pow_pos_nonneg; lia).
    assert (Hdiv : (p ^ c | x)).
    { destruct (Z.eq_dec x 0) as [-> | Hx0]; [apply Z.divide_0_r |].
      pose proof (multiplicity_spec p x Hp2 ltac:(lia)) as Hm. cbv zeta in Hm.
      destruct Hm as (He0 & Hfac & Hnd).
      set (e := multiplicity p x) in *. set (z := x / p ^ e) in *.
      rewrite Hfac. apply Z.divide_mul_l. apply pow_le_divide. split; [lia |].
      destruct (Z.le_gt_cases c e) as [Hle | Hgt]; [exact Hle | exfalso].
      assert (Hz : ~ (p | z)).
      { intros H. apply Hnd. apply Z.mod_divide; [lia | exact H]. }
      apply (prime_not_divide_square p z Hp Hz).
      apply Z.mod_divide in Hroot; [| lia].
      assert (Hxx : x * x = p ^ (2 * e) * (z * z)).
      { rewrite Hfac at 1 2. replace (2 * e) with (e + e) by lia.
        rewrite Z.pow_add_r by lia. ring. }
      rewrite Hxx in Hroot.
      assert (Hd1 : (p ^ (2 * e) * p | p ^ (2 * e) * (z * z))).
      { apply (Z.divide_trans _ (p ^ n)); [| exact Hroot].
        replace (p ^ (2 * e) * p) with (p ^ (2 * e + 1))
          by (rewrite Z.pow_add_r, Z.pow_1_r by lia; reflexivity).
        apply pow_le_divide. lia. }
      apply Z.mul_divide_cancel_l in Hd1; [exact Hd1 | apply Z.pow_nonzero; lia]. }
    destruct Hdiv as [i Hi]. subst x.
    replace (i * p ^ c) with (0 + i * p ^ c) by lia.
    apply range3_In_rev; [exact Hst | | lia].
    apply (Z.mul_nonneg_cancel_r _ (p ^ c)); [exact Hst | lia].
  - pose proof (multiplicity_spec p a0 Hp2 ltac:(lia)) as Hm. cbv zeta in Hm.
    destruct Hm as (Hr0 & Hfac & Hnd).
    set (r := multiplicity p a0) in *. set (q := a0 / p ^ r) in *.
    assert (Hrn : r < n).
    { destruct (Z.lt_ge_cases r n) as [Hlt | Hge]; [exact Hlt | exfalso].
      assert (Hd : (p ^ n | a0)).
      { rewrite Hfac. apply Z.divide_mul_l. apply pow_le_divide. lia. }
      destruct Hd as [c Hc]. clear - Hc Hbound E0 Hpn.
      assert (Hcs : c <= 0 \/ 1 <= c) by lia. destruct Hcs; nia. }
    assert (Hq : ~ (p | q)).
    { intros H. apply Hnd. apply Z.mod_divide; [lia | exact H]. }
    assert (Hdec : forall x, 0 <= x -> (x * x) mod p ^ n = a0 ->
                   exists m z, r = 2 * m /\ 0 <= m /\ 0 <= z /\ x = p ^ m * z /\
                               (p ^ (n - r) | z * z - q)).
    { intros x Hx0 Hx. apply (root_decompose p n r q x Hp ltac:(lia) Hq Hx0).
      rewrite <- Hfac. apply (cong_iff_divide _ _ _ Hpn). rewrite Hx.
      symmetry. apply Z.mod_small. exact Hbound. }
    destruct (Z.eqb_spec (r mod 2) 1) as [Hodd | Hev].
    { intros _ x Hx Hroot. exfalso.
      destruct (Hdec x ltac:(lia) Hroot) as (m & z & Hrm & _).
      rewrite Hrm, Z.mul_comm, Z_mod_mult in Hodd. discriminate Hodd. }
    unfold rbind.
    destruct (_sqrt_mod_prime_power q p (n - r) g) as [[res g1] | |] eqn:Hpp; try discriminate.
    assert (Hpnr : 0 < p ^ (n - r)) by (apply Z.pow_pos_nonneg; lia).
    destruct res as [l |]; unfold rret; intros H; apply ret_pair_inv in H;
      destruct H as [<- _]; cbn [items]; intros x Hx Hroot;
      destruct (Hdec x ltac:(lia) Hroot) as (m & z & Hrm & Hm0 & Hz0 & Hxz & Hzq).
    + assert (Em : r / 2 = m) by (rewrite Hrm, Z.mul_comm; apply Z.div_mul; lia).
      rewrite Em. apply in_flat_map. exists (z mod p ^ (n - r)). split.
      * apply (proj2 (prime_power_all_roots q p (n - r) g g1 l Hp ltac:(lia) Hnd Hpp _)).
        split; [apply Z.mod_pos_bound; exact Hpnr |].
        rewrite <- Zmult_mod. apply (cong_iff_divide _ _ _ Hpnr). exact Hzq.
      * assert (Hpm : 0 < p ^ m) by (apply Z.pow_pos_nonneg; lia).
        assert (Hstep : 0 < p ^ (n - m)) by (apply Z.pow_pos_nonneg; lia).
        assert (Estep : p ^ (n - m) = p ^ m * p ^ (n - r)).
        { rewrite <- Z.pow_add_r by lia. f_equal. lia. }
        assert (Ex : x = z mod p ^ (n - r) * p ^ m + z / p ^ (n - r) * p ^ (n - m)).
        { rewrite Estep, Hxz. rewrite (Z_div_mod_eq_full z (p ^ (n - r))) at 1. ring. }
        rewrite Ex. apply range3_In_rev; [exact Hstep | apply Z.div_pos; lia | lia].
    + exfalso.
      apply (prime_power_none q p (n - r) g g1 Hp ltac:(lia) Hnd Hpp z).
      apply (cong_iff_divide _ _ _ Hpnr). exact Hzq.
Qed.

Lemma collect_roots_complete (a : Z) (f : dict) :
  Forall (fun pe => Z.prime (fst pe) /\ 1 <= snd pe) f ->
  forall g g' v pv,
  collect_roots a f g = Ret (Some (v, pv), g') ->
  Forall2 (fun l m => forall x, 0 <= x < m -> (x * x) mod m = a mod m -> In x l) v pv.
Proof.
  induction 1 as [| [px ex] f [Hpx Hex] _ IH]; intros g g' v pv; cbn [collect_roots].
  - unfold rret. intros H. apply ret_pair_inv in H. destruct H as [H _].
    apply some_inv in H. injection H as <- <-. constructor.
  - cbn [fst snd] in *. unfold rbind at 1.
    match goal with |- context [match ?c g with _ => _ end] =>
      destruct (c g) as [[rx g1] | |] eqn:Hrx end; try discriminate.
    destruct (truthy rx); cbn [negb]; [| discriminate].
    unfold rbind at 1.
    destruct (collect_roots a f g1) as [[[[v' pv'] |] g2] | |] eqn:Hrest; try discriminate.
    unfold rret. intros H. apply ret_pair_inv in H. destruct H as [H _].
    apply some_inv in H. injection H as <- <-.
    constructor; [| exact (IH g1 g2 v' pv' Hrest)].
    intros x Hx Hroot.
    destruct (Z.eqb_spec (a mod px) 0) as [E | E].
    + exact (sqrt_mod1_complete a px ex g g1 rx Hpx Hex Hrx x Hx Hroot).
    + unfold rbind in Hrx.
      destruct (_sqrt_mod_prime_power a px ex g) as [[o g0] | |] eqn:Hpp; try discriminate.
      unfold rret in Hrx. apply ret_pair_inv in Hrx. destruct Hrx as [<- _].
      destruct o as [l |]; cbn [of_option items].
      * apply (proj2 (prime_power_all_roots a px ex g g0 l Hpx Hex E Hpp x)). now split.
      * exfalso. exact (prime_power_none a px ex g g0 Hpx Hex E Hpp x Hroot).
Qed.

(** What [_product] returns is the cartesian product. *)
Lemma product_cart (iters : list (list Z)) (L : list (list Z)) :
  _product iters = Ret L -> L = cart iters.
Proof.
  intros H.
  destruct (turn_start iters (map (fun _ : list Z => 0) iters) ltac:(now rewrite length_map))
    as [[_ Hraise] | [Hne _]].
  { unfold _product in H. rewrite product_loop_S, Hraise in H. discriminate H. }
  revert H. unfold _product.
  set (ws := map (fun it => {| w_items := it; w_pos := O |}) iters).
  set (cur := map (fun _ : list Z => 0) iters).
  assert (Hitems : map w_items ws = iters).
  { unfold ws. rewrite map_map. cbn [w_items]. apply map_id. }
  assert (Hv : Forall (fun w => (w_pos w < length (w_items w))%nat) ws).
  { unfold ws. apply Forall_map. apply Forall_impl with (2 := Hne).
    intros it Hit. cbn [w_pos w_items]. destruct it; [contradiction | cbn; lia]. }
  assert (Hl : length cur = length ws) by (unfold cur, ws; now rewrite !length_map).
  destruct (turn_pending ws Hv cur Hl) as (carry & ws1 & cur1 & Ht & Hit & Hv1 & Hl1 & Hp).
  assert (Hps : pending ws cur = []) by apply pending_start.
  rewrite Hps in Hp. destruct Hp as (-> & Hc1 & Hp1).
  rewrite Hitems in Hc1, Hp1.
  rewrite product_loop_S, Ht. cbn [obind].
  rewrite (product_loop_pending _ ws1 cur1 Hv1 Hl1).
  - cbn [obind]. intros H. apply ret_eq in H. subst L.
    rewrite Hp1, Hc1. symmetry. exact (cart_head iters Hne).
  - rewrite Hp1, <- cart_length. destruct (cart iters); cbn [tl length]; lia.
Qed.

Lemma cart_In (its : list (list Z)) (t : list Z) :
  Forall2 (fun it y => In y it) its t -> In t (cart its).
Proof.
  induction 1 as [| it y its t Hy _ IH]; [now left |].
  rewrite cart_cons. apply in_flat_map. exists y. split; [exact Hy |].
  now apply in_map.
Qed.

(** Two residues below the modulus that agree modulo every prime power of
    its factorisation are equal. *)
Lemma crt_unique (f : dict) (x y : Z) :
  prime_dict f -> 0 <= x < dict_prod f -> 0 <= y < dict_prod f ->
  (forall p k, In (p, k) f -> x mod p ^ k = y mod p ^ k) -> x = y.
Proof.
  intros Hpd Hx Hy Hall.
  assert (Hd : (dict_prod f | x - y)).
  { apply dict_prod_divides; [exact Hpd |]. intros [p k] Hin. cbn [fst snd].
    destruct Hpd as [Hprimes _]. rewrite Forall_forall in Hprimes.
    destruct (Hprimes (p, k) Hin) as [Hp Hk]. cbn [fst snd] in Hp, Hk.
    pose proof (Z.prime_ge_2 p Hp).
    apply cong_iff_divide; [apply Z.pow_pos_nonneg; lia | now apply Hall]. }
  destruct Hd as [c Hc]. assert (c = 0) by nia. lia.
Qed.

Lemma sqrt_mod_iter_complete (a p : Z) (g g' : RNG) (l : list Z) :
  0 < p -> sqrt_mod_iter a p g = Ret (l, g') ->
  forall x, 0 <= x < p -> (x * x) mod p = a mod p -> In x l.
Proof.
  intros Hp0 H x Hx Hroot.
  assert (Hne : l <> []).
  { intros ->. apply (sqrt_mod_iter_empty a p g g' ltac:(lia) H x).
    now rewrite Z.abs_eq by lia. }
  revert H. unfold sqrt_mod_iter. rewrite (Z.abs_eq p) by lia.
  destruct (isprime p) eqn:Hprime.
  - apply isprime_spec in Hprime.
    unfold rbind at 1.
    match goal with |- context [match ?c g with _ => _ end] =>
      destruct (c g) as [[rs g1] | |] eqn:Hrs end; try discriminate.
    assert (Hin : truthy rs = true -> In x (items rs)).
    { intros Ht.
      assert (Hroot1 : (x * x) mod p ^ 1 = (a mod p) mod p ^ 1).
      { rewrite Z.pow_1_r, Zmod_mod. exact Hroot. }
      assert (Hx1 : 0 <= x < p ^ 1) by (rewrite Z.pow_1_r; exact Hx).
      destruct (Z.eqb_spec (a mod p) 0) as [E | E].
      - exact (sqrt_mod1_complete (a mod p) p 1 g g1 rs Hprime ltac:(lia) Hrs x Hx1 Hroot1).
      - unfold rbind in Hrs.
        destruct (_sqrt_mod_prime_power (a mod p) p 1 g) as [[o g0] | |] eqn:Hpp;
          try discriminate.
        unfold rret in Hrs. apply ret_pair_inv in Hrs. destruct Hrs as [<- _].
        destruct o as [l1 |]; cbn [of_option items truthy] in *; [| discriminate Ht].
        apply (proj2 (prime_power_all_roots (a mod p) p 1 g g0 l1 Hprime ltac:(lia)
                        ltac:(now rewrite Zmod_mod) Hpp x)).
        now split. }
    destruct (truthy rs); unfold rret; intros H; apply ret_pair_inv in H;
      destruct H as [<- _].
    + now apply Hin.
    + congruence.
  - destruct (factorint_spec p ltac:(lia)) as [Hprod Hfac].
    pose proof (factorisation_prime_dict _ Hfac) as Hpd.
    unfold rbind at 1.
    destruct (collect_roots a (factorint p) g) as [[[[v pv] |] g1] | |] eqn:Hcol;
      try discriminate.
    2:{ unfold rret. intros H. apply ret_pair_inv in H. destruct H as [<- _]. congruence. }
    pose proof (collect_roots_complete a (factorint p) (proj1 Hfac) g g1 v pv Hcol) as Hall.
    destruct (collect_roots_sound a (factorint p) (proj1 Hfac) g g1 v pv Hcol) as [Epv _].
    subst pv.
    set (pv := map (fun pe => fst pe ^ snd pe) (factorint p)) in *.
    destruct (gf_crt1 pv) as [[mm e] s] eqn:Hcrt.
    unfold rbind, lift.
    destruct (_product v) as [vs | |] eqn:Hprodv; try discriminate.
    unfold rret. intros H. apply ret_pair_inv in H. destruct H as [<- _].
    apply product_cart in Hprodv. subst vs.
    set (t := map (fun m => x mod m) pv).
    apply in_map_iff. exists t. split.
    + (* the combined value is [x] *)
      assert (Ecrt : gf_crt2 t pv mm e s = fst (crt pv t)).
      { unfold crt. rewrite Hcrt. reflexivity. }
      rewrite Ecrt. apply (crt_unique (factorint p)); [exact Hpd | | lia |].
      * unfold pv. apply crt_range. exact Hfac.
      * intros q k Hin. destruct (In_nth_error _ _ Hin) as [i Hi].
        assert (Ht : nth_error t i = Some (x mod q ^ k)).
        { unfold t, pv. rewrite map_map.
          exact (map_nth_error (fun pe => x mod fst pe ^ snd pe) i _ Hi). }
        pose proof (crt_residue (factorint p) t i q k _ Hfac Hi Ht) as Hres.
        fold pv in Hres. rewrite Hres. apply Zmod_mod.
    + apply cart_In. unfold t.
      assert (Hpos : Forall (fun m => 0 < m /\ (m | p)) pv).
      { unfold pv. apply Forall_map. apply Forall_forall. intros [q k] Hin. cbn [fst snd].
        destruct Hfac as [Hprimes _]. rewrite Forall_forall in Hprimes.
        destruct (Hprimes (q, k) Hin) as [Hq Hk]. cbn [fst snd] in Hq, Hk.
        pose proof (Z.prime_ge_2 q Hq). split; [apply Z.pow_pos_nonneg; lia |].
        rewrite <- Hprod. now apply in_dict_prod_divides. }
      clear - Hall Hpos Hroot Hp0. induction Hall as [| l1 m v pv Hlm _ IH]; [constructor |].
      apply Forall_cons_iff in Hpos. destruct Hpos as [[Hm Hmp] Hpos].
      cbn [map]. constructor; [| now apply IH].
      apply Hlm; [apply Z.mod_pos_bound; exact Hm |].
      rewrite <- Zmult_mod. apply (cong_divide_trans m p); auto.
Qed.

(** X20: for a modulus [p > 0], the list [sqrt_mod(a, p, all_roots=True)]
    returns holds exactly the residues [x] below [p] with
    [x**2 = a (mod p)]: every root is found, whatever the random source
    delivers. *)
Theorem sqrt_mod_all_roots_complete (a p : Z) (g g' : RNG) (v : pyval) :
  0 < p -> sqrt_mod a p true g = Ret (v, g') ->
  exists l, v = PyList l /\
            forall x, In x l <-> 0 <= x < p /\ (x * x) mod p = a mod p.
Proof.
  intros Hp H. unfold sqrt_mod, rbind in H.
  destruct (sqrt_mod_iter a p g) as [[l g1] | |] eqn:Hit; try discriminate.
  unfold rret in H. apply ret_pair_inv in H. destruct H as [<- _].
  exists (sorted l). split; [reflexivity |]. intros x. rewrite sorted_In. split.
  - intros Hin. split.
    + pose proof (sqrt_mod_iter_range a p g g1 l ltac:(lia) Hit x Hin) as Hr.
      now rewrite Z.abs_eq in Hr by lia.
    + pose proof (sqrt_mod_iter_sound a p g g1 l ltac:(lia) Hit x Hin) as Hr.
      now rewrite Z.abs_eq in Hr by lia.
  - intros [Hx Hroot]. exact (sqrt_mod_iter_complete a p g g1 l Hp Hit x Hx Hroot).
Qed.

Lemma sqrt_mod_all_roots_complete_witness :
  0 < 45 /\ sqrt_mod 9 45 true [] = Ret (PyList [3; 12; 18; 27; 33; 42], []) /\
  exists l, PyList [3; 12; 18; 27; 33; 42] = PyList l /\
            forall x, In x l <-> 0 <= x < 45 /\ (x * x) mod 45 = 9 mod 45.
Proof.
  split; [lia |]. split; [vm_compute; reflexivity |].
  apply (sqrt_mod_all_roots_complete 9 45 [] []); [lia | vm_compute; reflexivity].
Defined.

(** ** Every solution of a quadratic congruence *)

Lemma sqrt_mod_list_complete (a p : Z) (g g' : RNG) (v : pyval) (l : list Z) :
  0 < p -> sqrt_mod a p true g = Ret (v, g') -> as_list v = Ret l ->
  forall x, 0 <= x < p -> (x * x) mod p = a mod p -> In x l.
Proof.
  intros Hp H Hl x Hx Hroot. unfold sqrt_mod, rbind in H.
  destruct (sqrt_mod_iter a p g) as [[l0 g1] | |] eqn:Hit; try discriminate.
  unfold rret in H. apply ret_pair_inv in H. destruct H as [<- _].
  cbn [as_list] in Hl. apply ret_eq in Hl. subst l.
  apply sorted_In. exact (sqrt_mod_iter_complete a p g g1 l0 Hp Hit x Hx Hroot).
Qed.

Lemma omap_total {A B : Type} (f : A -> outcome B) (l : list A) (ys : list B) :
  omap f l = Ret ys -> forall x, In x l -> exists y, f x = Ret y /\ In y ys.
Proof.
  revert ys. induction l as [| x0 l IH]; intros ys H x Hx; [destruct Hx |].
  cbn [omap] in H. destruct (f x0) as [y0 | |] eqn:Hfx; cbn [obind] in H; try discriminate.
  destruct (omap f l) as [ys0 | |]; cbn [obind] in H; try discriminate.
  apply ret_eq in H. subst ys. destruct Hx as [<- | Hx].
  - exists y0. split; [exact Hfx | now left].
  - destruct (IH ys0 eq_refl x Hx) as (y & Hy & Hin). exists y. split; [exact Hy | now right].
Qed.

(** The square to complete, from a solution. *)
Lemma square_of_solution (p a b c inv h x eps : Z) :
  (p | a * inv - 1) -> 2 * h = b * inv + p * eps -> (p | a * x * x + b * x + c) ->
  (p | (x + h) * (x + h) - (h * h - c * inv)).
Proof.
  intros [k5 H5] H3 [k6 H6].
  exists (inv * k6 - k5 * (x * x) + eps * x).
  assert (D1 : a * x * x + b * x + c - k6 * p = 0) by lia.
  assert (D2 : a * inv - 1 - k5 * p = 0) by lia.
  assert (D3 : 2 * h - b * inv - p * eps = 0) by lia.
  replace ((x + h) * (x + h) - (h * h - c * inv))
    with ((inv * k6 - k5 * (x * x) + eps * x) * p
          + inv * (a * x * x + b * x + c - k6 * p)
          - (x * x) * (a * inv - 1 - k5 * p)
          + x * (2 * h - b * inv - p * eps)) by ring.
  rewrite D1, D2, D3. ring.
Qed.

(** X21: for a modulus [p > 0] and a collaborator [lc] that leaves out no
    solution of the linear congruence it is asked, no solution [x] below
    [p] of [a*x**2 + b*x + c = 0 (mod p)] is missing from what
    [quadratic_congruence(a, b, c, p)] returns. *)
Theorem quadratic_congruence_complete (lc : Z -> Z -> Z -> outcome (list Z))
  (a b c p : Z) (g g' : RNG) (l : list Z) :
  0 < p ->
  (forall u v m s, 0 < m -> lc u v m = Ret s ->
                   forall x, 0 <= x < m -> (u * x) mod m = v mod m -> In x s) ->
  quadratic_congruence lc a b c p g = Ret (l, g') ->
  forall x, 0 <= x < p -> (a * x * x + b * x + c) mod p = 0 -> In x l.
Proof.
  intros Hp Hlc H x Hx Hsol. unfold quadratic_congruence in H.
  replace (p =? 0) with false in H by (symmetry; apply Z.eqb_neq; lia).
  cbv zeta in H.
  pose proof (Z.mod_pos_bound a p Hp) as Ha'.
  assert (Ea : a mod p = (a mod p) mod p) by (now rewrite Zmod_mod).
  assert (Eb : b mod p = (b mod p) mod p) by (now rewrite Zmod_mod).
  assert (Ec : c mod p = (c mod p) mod p) by (now rewrite Zmod_mod).
  rewrite (quad_cong p a (a mod p) b (b mod p) c (c mod p) x x Ea Eb Ec eq_refl) in Hsol.
  apply Z.mod_divide in Hsol; [| lia].
  set (a1 := a mod p) in *. set (b1 := b mod p) in *. set (c1 := c mod p) in *.
  destruct (Z.eqb_spec a1 0) as [Ha0 | Ha0].
  - (* linear *)
    unfold lift in H. destruct (lc b1 (- c1) p) as [s | |] eqn:Hs; try discriminate.
    apply ret_pair_inv in H. destruct H as [<- _].
    apply (Hlc _ _ _ _ Hp Hs x Hx). apply (cong_iff_divide p _ _ Hp).
    destruct Hsol as [k Hk]. exists k. rewrite Ha0 in Hk. lia.
  - destruct (Z.eqb_spec p 2) as [Hp2 | Hp2].
    + (* modulo 2 *)
      unfold rret in H. apply ret_pair_inv in H. destruct H as [<- _]. subst p.
      apply in_or_app. assert (Hx01 : x = 0 \/ x = 1) by lia.
      destruct Hx01 as [-> | ->].
      * left. replace (a1 * 0 * 0 + b1 * 0 + c1) with c1 in Hsol by ring.
        apply Z.mod_divide in Hsol; [| lia]. rewrite Hsol. now left.
      * right. replace (a1 * 1 * 1 + b1 * 1 + c1) with (a1 + b1 + c1) in Hsol by ring.
        apply Z.mod_divide in Hsol; [| lia]. rewrite Hsol. now left.
    + destruct (isprime p) eqn:Hprime.
      * (* odd prime: completing the square *)
        apply isprime_spec in Hprime. pose proof (Z.prime_ge_2 p Hprime) as Hp2'.
        unfold rbind at 1 in H. unfold lift at 1 in H.
        destruct (invert a1 p) as [inv | |] eqn:Hinv; try discriminate.
        cbv zeta in H. unfold rbind at 1 in H.
        destruct (sqrt_mod _ p true g) as [[v g1] | |] eqn:Hsq; try discriminate.
        unfold rbind at 1 in H. unfold lift at 1 in H.
        destruct (as_list v) as [ys | |] eqn:Hys; try discriminate.
        unfold rret in H. apply ret_pair_inv in H. destruct H as [<- _].
        set (b2 := if b1 * inv mod 2 =? 1 then b1 * inv + p else b1 * inv) in *.
        assert (Hodd : p mod 2 = 1) by (now apply odd_prime).
        assert (Hb2 : exists eps, b2 = b1 * inv + p * eps /\ b2 mod 2 = 0).
        { unfold b2. destruct (Z.eqb_spec (b1 * inv mod 2) 1) as [E | E].
          - exists 1. split; [ring |]. rewrite Zplus_mod, E, Hodd. reflexivity.
          - exists 0. split; [ring |].
            pose proof (Z.mod_pos_bound (b1 * inv) 2 ltac:(lia)). lia. }
        destruct Hb2 as (eps & Hb2 & Hev).
        assert (Hh : 2 * (b2 / 2) = b2).
        { pose proof (Z_div_mod_eq_full b2 2). lia. }
        assert (Hq : b2 * b2 / 4 = b2 / 2 * (b2 / 2)).
        { rewrite <- Hh at 1 2.
          replace (2 * (b2 / 2) * (2 * (b2 / 2))) with (b2 / 2 * (b2 / 2) * 4) by ring.
          apply Z.div_mul. lia. }
        rewrite Hq in Hsq.
        assert (Hia : (p | a1 * inv - 1)).
        { unfold invert in Hinv.
          replace (p =? 0) with false in Hinv by (symmetry; apply Z.eqb_neq; lia).
          destruct (Z.eqb_spec (Z.gcd a1 p) 1) as [G | G]; [| discriminate].
          apply ret_eq in Hinv. rewrite Z.abs_eq in Hinv by lia.
          pose proof (Z.invmod_coprime a1 p Hp2' G) as Hi. rewrite Hinv in Hi.
          apply (cong_iff_divide p); [exact Hp |].
          rewrite Z.mul_comm, Hi. symmetry. apply Z.mod_1_l. lia. }
        set (h := b2 / 2) in *.
        apply sorted_In, dedup_In, in_map_iff. exists ((x + h) mod p). split.
        -- rewrite Zminus_mod_idemp_l. replace (x + h - h) with x by ring.
           apply Z.mod_small. exact Hx.
        -- apply (sqrt_mod_list_complete _ p g g1 v ys Hp Hsq Hys);
             [apply Z.mod_pos_bound; exact Hp |].
           rewrite <- Zmult_mod, Zmod_mod. apply (cong_iff_divide p _ _ Hp).
           apply (square_of_solution p a1 b1 c1 inv h x eps Hia); [| exact Hsol].
           rewrite Hh. exact Hb2.
      * (* composite modulus: through the discriminant *)
        unfold rbind at 1 in H.
        destruct (sqrt_mod _ (4 * a1 * p) true g) as [[v g1] | |] eqn:Hsq; try discriminate.
        unfold rbind at 1 in H. unfold lift at 1 in H.
        destruct (as_list v) as [ys | |] eqn:Hys; try discriminate.
        unfold rbind at 1 in H. unfold lift at 1 in H.
        destruct (omap _ ys) as [roots | |] eqn:Hroots; try discriminate.
        unfold rret in H. apply ret_pair_inv in H. destruct H as [<- _].
        assert (HM : 0 < 4 * a1 * p) by nia.
        set (M := 4 * a1 * p) in *.
        set (y := (2 * a1 * x + b1) mod M).
        assert (Hy : In y ys).
        { apply (sqrt_mod_list_complete _ M g g1 v ys HM Hsq Hys);
            [apply Z.mod_pos_bound; exact HM |].
          unfold y. rewrite <- Zmult_mod. apply (cong_iff_divide M _ _ HM).
          destruct Hsol as [t Ht]. exists t. unfold M.
          replace ((2 * a1 * x + b1) * (2 * a1 * x + b1) - (b1 * b1 - 4 * a1 * c1))
            with (4 * a1 * (a1 * x * x + b1 * x + c1)) by ring.
          rewrite Ht. ring. }
        destruct (omap_total _ _ _ Hroots y Hy) as (s & Hs & Hsin).
        apply sorted_In, dedup_In, in_map_iff. exists x. split; [apply Z.mod_small; exact Hx |].
        apply in_concat. exists s. split; [exact Hsin |].
        apply (Hlc _ _ _ _ HM Hs x); [unfold M; nia |].
        unfold y. rewrite Zminus_mod_idemp_l. f_equal. ring.
Qed.

Lemma quadratic_congruence_complete_witness :
  0 < 7 /\
  quadratic_congruence
    (fun u v m => Ret (filter (fun x => (u * x - v) mod m =? 0) (range m))) 1 0 5 7 []
  = Ret ([3; 4], []) /\
  forall x, 0 <= x < 7 -> (1 * x * x + 0 * x + 5) mod 7 = 0 -> In x [3; 4].
Proof.
  split; [lia |]. split; [vm_compute; reflexivity |].
  apply (quadratic_congruence_complete
           (fun u v m => Ret (filter (fun x => (u * x - v) mod m =? 0) (range m)))
           1 0 5 7 [] []); [lia | | vm_compute; reflexivity].
  intros u v m s Hm Hs x Hx Hsol. apply ret_eq in Hs. subst s.
  apply filter_In. split.
  - replace x with (0 + x * 1) by lia. apply range3_In_rev; lia.
  - apply Z.eqb_eq. rewrite Zminus_mod, Hsol, Z.sub_diag.
    apply Z.mod_0_l. lia.
Defined.

(** ** All the primitive roots of a prime *)

(** A power of a generator is a generator only for an exponent prime to
    the order. *)
Lemma generator_exponent_coprime (g n T k : Z) :
  is_order g n T -> 0 <= k -> is_order (g ^ k) n T -> Z.gcd T k = 1.
Proof.
  intros (HT & H1 & _) Hk Hgk.
  pose proof (Z.gcd_nonneg T k) as Hd0.
  destruct (Z.gcd_divide_l T k) as [T' HT']. destruct (Z.gcd_divide_r T k) as [k' Hk'].
  set (d := Z.gcd T k) in *.
  assert (Hd : 0 < d).
  { destruct (Z.eq_dec d 0) as [E | E]; [| lia]. rewrite E in HT'. lia. }
  assert (HT'0 : 0 < T') by nia. assert (Hk'0 : 0 <= k') by nia.
  assert (Hpow : (g ^ k) ^ T' mod n = 1).
  { rewrite <- Z.pow_mul_r by lia. replace (k * T') with (T * k') by nia.
    apply pow_mod_one_mul; [lia | lia | exact H1]. }
  pose proof (order_le_exponent (g ^ k) n T T' Hgk HT'0 Hpow). nia.
Qed.

(** Modulo an odd prime every unit is a power of any primitive root. *)
Lemma generator_powers (p g a : Z) :
  Z.prime p -> p <> 2 -> is_order g p (p - 1) -> a mod p <> 0 ->
  exists k, 0 <= k < p - 1 /\ g ^ k mod p = a mod p.
Proof.
  intros Hp Hne Hg Ha. destruct (odd_prime p Hp Hne) as [Hp3 _].
  destruct (NatBridge.prime_generator p Hp) as (g0 & Hg0 & Hord0 & Hgen0).
  assert (Hg01 : g0 ^ (p - 1) mod p = 1) by (apply fermat_little; assumption).
  assert (Hgu : g mod p <> 0).
  { destruct Hg as (HT & H1 & _).
    apply (coprime_not_divisible g p p); [| exact Hp | apply Z.divide_refl].
    apply (order_coprime g p (p - 1)); [lia | exact HT | exact H1]. }
  destruct (Hgen0 g Hgu) as (i & Hi & Hgi).
  destruct (Hgen0 a Ha) as (j & Hj & Haj).
  assert (Hg0ord : is_order g0 p (p - 1)).
  { split; [lia |]. split; [exact Hg01 |]. intros t Ht H1.
    apply Hord0 in H1; [| lia]. apply Z.divide_pos_le in H1; lia. }
  assert (Hcop : Z.gcd (p - 1) i = 1).
  { apply (generator_exponent_coprime g0 p (p - 1) i Hg0ord Hi).
    apply is_order_mod. rewrite Hgi. apply is_order_mod. exact Hg. }
  destruct (Z.gcd_bezout (p - 1) i 1 Hcop) as (t & s & Hbez).
  set (u := s mod (p - 1)).
  pose proof (Z.mod_pos_bound s (p - 1) ltac:(lia)) as Hu. fold u in Hu.
  exists ((u * j) mod (p - 1)). split; [apply Z.mod_pos_bound; lia |].
  destruct Hg as (_ & Hg1 & _).
  rewrite (pow_mod_order g p (p - 1) (u * j)) by (try lia; try nia; exact Hg1).
  rewrite <- (cong_pow p (g0 ^ i) g (u * j) Hgi), <- Haj.
  rewrite <- Z.pow_mul_r by nia.
  rewrite <- (pow_mod_order g0 p (p - 1) (i * (u * j))) by (try lia; try nia; exact Hg01).
  rewrite <- (pow_mod_order g0 p (p - 1) j) by (try lia; exact Hg01).
  f_equal. f_equal. apply (cong_iff_divide (p - 1)); [lia |].
  unfold u. rewrite (Z.mod_eq s (p - 1)) by lia.
  exists (- (i * (s / (p - 1)) * j) - t * j).
  replace (i * ((s - (p - 1) * (s / (p - 1))) * j) - j)
    with ((s * i - 1) * j - (p - 1) * (i * (s / (p - 1)) * j)) by ring.
  replace (s * i - 1) with (- t * (p - 1)) by lia. ring.
Qed.

Lemma prime_iter_all_roots (p : Z) :
  Z.prime p -> p <> 2 ->
  forall x, In x (_primitive_root_prime_iter p) <-> 0 < x < p /\ is_order x p (p - 1).
Proof.
  intros Hp Hne x. destruct (odd_prime p Hp Hne) as [Hp3 Hodd].
  destruct (prime_iter_generators p Hp Hne) as (g & l & Hl & _ & Hall).
  split.
  - intros Hin. rewrite Hl in Hin. rewrite Forall_forall in Hall. now apply Hall.
  - intros [Hx Hord].
    pose proof Hall as Hg. apply Forall_inv in Hg. destruct Hg as [Hgr Hgord].
    assert (Hxu : x mod p <> 0) by (rewrite Z.mod_small by lia; lia).
    destruct (generator_powers p g x Hp Hne Hgord Hxu) as (k & Hk & Hgk).
    rewrite (Z.mod_small x p) in Hgk by lia.
    assert (Hcop : Z.gcd (p - 1) k = 1).
    { apply (generator_exponent_coprime g p (p - 1) k Hgord ltac:(lia)).
      apply is_order_mod. rewrite Hgk. exact Hord. }
    assert (Hkodd : k mod 2 = 1).
    { pose proof (Z.mod_pos_bound k 2 ltac:(lia)).
      destruct (Z.eq_dec (k mod 2) 0) as [E | E]; [exfalso | lia].
      assert (Hd : (2 | Z.gcd (p - 1) k)).
      { apply Z.gcd_greatest; apply Z.mod_divide; try lia.
        rewrite Zminus_mod, Hodd. reflexivity. }
      rewrite Hcop in Hd. apply Z.divide_1_r_nonneg in Hd; lia. }
    destruct (Z.eq_dec k 1) as [-> | Hk1].
    + rewrite Z.pow_1_r, Z.mod_small in Hgk by lia. subst x. rewrite Hl. now left.
    + assert (Hk3 : 3 <= k).
      { destruct (Z.eq_dec k 0) as [-> | H0]; [discriminate Hkodd |].
        destruct (Z.eq_dec k 2) as [-> | H2]; [discriminate Hkodd | lia]. }
      assert (Hp3' : p <> 3) by lia.
      destruct (prime_iter_shape p Hp3') as (g' & Hshape).
      rewrite Hshape in Hl. injection Hl as -> Hl'. rewrite Hshape. right.
      apply in_map_iff. exists k. split; [rewrite powmod_spec by lia; exact Hgk |].
      apply filter_In. split; [| apply Z.eqb_eq; exact Hcop].
      pose proof (Z_div_mod_eq_full k 2) as Ek.
      replace k with (3 + (k / 2 - 1) * 2) by lia. apply range3_In_rev; lia.
Qed.

(** X22: for an odd prime [p], [_primitive_root_prime_iter(p)] yields every
    primitive root of [p] between 0 and [p], and nothing else. *)
Theorem primitive_root_prime_iter_complete (p : Z) :
  Z.prime p -> p <> 2 ->
  forall x, In x (_primitive_root_prime_iter p) <-> 0 < x < p /\ is_order x p (totient p).
Proof.
  intros Hp Hne x. rewrite (totient_prime p Hp). now apply prime_iter_all_roots.
Qed.

Lemma primitive_root_prime_iter_complete_witness :
  _primitive_root_prime_iter 19 = [2; 13; 14; 15; 3; 10] /\
  forall x, In x [2; 13; 14; 15; 3; 10] <-> 0 < x < 19 /\ is_order x 19 (totient 19).
Proof.
  split; [vm_compute; reflexivity |].
  apply (primitive_root_prime_iter_complete 19); [apply isprime_spec; reflexivity | lia].
Defined.
